(** * RGA-with-splittable-nodes text CRDT (pkg/document/json/datatype/text.go)

    A shallow embedding of the text engine: nodes live in a store addressed by
    handles, the [prev]/[next] and [insPrev]/[insNext] pointers are optional
    handles, and every method of the Go file is a function on that store that
    either returns or panics. *)

From Stdlib Require Import ZArith Lia Bool.
From Stdlib Require Import Strings.Ascii Strings.Byte.
From stdpp Require Import base option list sorting strings gmap.

Local Open Scope Z_scope.

(* ===================================================================== *)
(** ** Outcomes of a call *)
(* ===================================================================== *)

(** A Go call either returns, panics with a message, or (in the model only)
    exhausts the step budget given to one of its pointer-chasing loops. *)
Inductive result (A : Type) : Type :=
| Ok (a : A)
| Panic (msg : string)
| OutOfFuel.
Arguments Ok {A} a.
Arguments Panic {A} msg.
Arguments OutOfFuel {A}.

Definition result_bind {A B} (f : A → result B) (m : result A) : result B :=
  match m with
  | Ok a => f a
  | Panic msg => Panic msg
  | OutOfFuel => OutOfFuel
  end.

#[global] Instance result_mbind : MBind result := @result_bind.
#[global] Instance result_mret : MRet result := @Ok.

(* ===================================================================== *)
(** ** Machine integers and string slices *)
(* ===================================================================== *)

Definition int_max : Z := 2 ^ 63 - 1.
Definition int_min : Z := - 2 ^ 63.

(** Go's [int] arithmetic wraps around in two's complement on 64 bits. *)
Definition wrap (z : Z) : Z := (z + 2 ^ 63) mod 2 ^ 64 - 2 ^ 63.

Definition int_add (a b : Z) : Z := wrap (a + b).
Definition int_sub (a b : Z) : Z := wrap (a - b).

(** [len(s)]: the number of bytes of a Go string. *)
Definition len (s : string) : Z := Z.of_nat (String.length s).

(** [s[0:k]] and [s[k:]] on the bytes of [s]. *)
Fixpoint slice_to (k : nat) (s : string) : string :=
  match k, s with
  | S k', String c s' => String c (slice_to k' s')
  | _, _ => EmptyString
  end.

Fixpoint slice_from (k : nat) (s : string) : string :=
  match k, s with
  | S k', String _ s' => slice_from k' s'
  | _, _ => s
  end.

(** [strings.Join]. *)
Fixpoint Join (l : list string) (sep : string) : string :=
  match l with
  | [] => EmptyString
  | [x] => x
  | x :: tl => x +:+ sep +:+ Join tl sep
  end.

Fixpoint concat_strings (l : list string) : string :=
  match l with
  | [] => EmptyString
  | x :: tl => x +:+ concat_strings tl
  end.

(* ===================================================================== *)
(** ** Tickets (package time) *)
(* ===================================================================== *)

Module Ticket.

(** Modelled from the spec: the Ticket type of package [time], whose source
    is not part of this file set.  A ticket is the triple
    (lamport u64, delimiter u32, actor 12-byte identifier). *)
Record t : Type := mk {
  lamport : Z;
  delimiter : Z;
  actorID : list byte;
}.

(** Modelled from the spec: actors are compared lexicographically,
    byte by byte. *)
Fixpoint ActorID_Compare (a b : list byte) : Z :=
  match a, b with
  | [], [] => 0
  | [], _ :: _ => -1
  | _ :: _, [] => 1
  | x :: a', y :: b' =>
      if (Byte.to_N x <? Byte.to_N y)%N then -1
      else if (Byte.to_N y <? Byte.to_N x)%N then 1
      else ActorID_Compare a' b'
  end.

(** Modelled from the spec: the total order of tickets compares [lamport],
    then [actor] lexicographically, then [delimiter]. *)
Definition Compare (a b : t) : Z :=
  if lamport b <? lamport a then 1
  else if lamport a <? lamport b then -1
  else
    let c := ActorID_Compare (actorID a) (actorID b) in
    if negb (c =? 0) then c
    else if delimiter b <? delimiter a then 1
    else if delimiter a <? delimiter b then -1
    else 0.

(** Modelled from the spec: [a.After(b)] is "a is strictly greater". *)
Definition After (a b : t) : bool := 0 <? Compare a b.

Definition hex_digit (n : N) : ascii :=
  match n with
  | 0%N => "0" | 1%N => "1" | 2%N => "2" | 3%N => "3"
  | 4%N => "4" | 5%N => "5" | 6%N => "6" | 7%N => "7"
  | 8%N => "8" | 9%N => "9" | 10%N => "a" | 11%N => "b"
  | 12%N => "c" | 13%N => "d" | 14%N => "e" | _ => "f"
  end%char.

Fixpoint hex (bs : list byte) : string :=
  match bs with
  | [] => EmptyString
  | b :: bs' =>
      String (hex_digit (Byte.to_N b / 16))
        (String (hex_digit (Byte.to_N b mod 16)) (hex bs'))
  end.

(** Modelled from the spec: the actor of a ticket as a hexadecimal string,
    the key of the per-actor maps. *)
Definition ActorIDHex (a : t) : string := hex (actorID a).

(** Modelled from the spec: zero lamport, zero actor. *)
Definition InitialTicket : t :=
  mk 0 0 (replicate 12 Byte.x00).

(** Modelled from the spec: the saturated ticket. *)
Definition MaxTicket : t :=
  mk (2 ^ 64 - 1) (2 ^ 32 - 1) (replicate 12 Byte.xff).

End Ticket.

(* ===================================================================== *)
(** ** Node identifiers and positions *)
(* ===================================================================== *)

Module TextNodeID.

Record t : Type := mk {
  createdAt : Ticket.t;
  offset : Z;
}.

Definition NewTextNodeID (createdAt : Ticket.t) (offset : Z) : t :=
  mk createdAt offset.

Definition Compare (a o : t) : Z :=
  let compare := Ticket.Compare (createdAt a) (createdAt o) in
  if negb (compare =? 0) then compare
  else int_sub (offset a) (offset o).

Definition Equal (a other : t) : bool := Compare a other =? 0.

Definition split (a : t) (off : Z) : t :=
  NewTextNodeID (createdAt a) (int_add (offset a) off).

Definition hasSameCreatedAt (a id : t) : bool :=
  Ticket.Compare (createdAt a) (createdAt id) =? 0.

End TextNodeID.

Definition initialTextNodeID : TextNodeID.t :=
  TextNodeID.NewTextNodeID Ticket.InitialTicket 0.

Module TextNodePos.

Record t : Type := mk {
  id : TextNodeID.t;
  relativeOffset : Z;
}.

Definition NewTextNodePos (id : TextNodeID.t) (offset : Z) : t :=
  mk id offset.

Definition getAbsoluteID (pos : t) : TextNodeID.t :=
  TextNodeID.NewTextNodeID
    (TextNodeID.createdAt (id pos))
    (int_add (TextNodeID.offset (id pos)) (relativeOffset pos)).

End TextNodePos.

(* ===================================================================== *)
(** ** Text nodes *)
(* ===================================================================== *)

(** A [*TextNode] is a handle into the store; [nil] is [None]. *)
Abbreviation handle := nat.

Module TextNode.

(** The [indexNode] field is the node's own entry of the splay index; the
    index below refers to nodes by handle, so it needs no separate field. *)
Record t : Type := mk {
  id : TextNodeID.t;
  value : string;
  deletedAt : option Ticket.t;
  prev : option handle;
  next : option handle;
  insPrev : option handle;
  insNext : option handle;
}.

Definition newTextNode (id : TextNodeID.t) (value : string) : t :=
  mk id value None None None None None.

Definition contentLen (n : t) : Z := len (value n).

Definition Len (n : t) : Z :=
  match deletedAt n with
  | Some _ => 0
  | None => contentLen n
  end.

Definition createdAt (n : t) : Ticket.t := TextNodeID.createdAt (id n).

Definition set_value (v : string) (n : t) : t :=
  mk (id n) v (deletedAt n) (prev n) (next n) (insPrev n) (insNext n).
Definition set_deletedAt (d : option Ticket.t) (n : t) : t :=
  mk (id n) (value n) d (prev n) (next n) (insPrev n) (insNext n).
Definition set_prev (p : option handle) (n : t) : t :=
  mk (id n) (value n) (deletedAt n) p (next n) (insPrev n) (insNext n).
Definition set_next (p : option handle) (n : t) : t :=
  mk (id n) (value n) (deletedAt n) (prev n) p (insPrev n) (insNext n).
Definition set_insPrev (p : option handle) (n : t) : t :=
  mk (id n) (value n) (deletedAt n) (prev n) (next n) p (insNext n).
Definition set_insNext (p : option handle) (n : t) : t :=
  mk (id n) (value n) (deletedAt n) (prev n) (next n) (insPrev n) p.

(** [TextNode.delete]: the tombstone test and write on one node. *)
Definition delete (n : t) (editedAt maxCreatedAtByOwner : Ticket.t)
  : t * bool :=
  if negb (Ticket.After (createdAt n) maxCreatedAtByOwner) &&
     match deletedAt n with
     | None => true
     | Some d => Ticket.After editedAt d
     end
  then (set_deletedAt (Some editedAt) n, true)
  else (n, false).

End TextNode.

(* ===================================================================== *)
(** ** The ID index (package llrb) *)
(* ===================================================================== *)

Module llrb.

(** Modelled from the spec: the left-leaning red-black tree of package
    [llrb], whose source is not part of this file set.  The tree is
    represented by its in-order sequence of (key, value) entries, which the
    rebalancing rotations leave unchanged; the comparator is
    [TextNodeID.Compare]. *)
Abbreviation Tree := (list (TextNodeID.t * handle)).

Definition NewTree : Tree := [].

(** Modelled from the spec: [put] is an idempotent insertion; an entry whose
    key compares equal is overwritten. *)
Fixpoint Put (key : TextNodeID.t) (value : handle) (t : Tree) : Tree :=
  match t with
  | [] => [(key, value)]
  | (k, v) :: tl =>
      let c := TextNodeID.Compare key k in
      if c <? 0 then (key, value) :: (k, v) :: tl
      else if c =? 0 then (k, value) :: tl
      else (k, v) :: Put key value tl
  end.

(** Modelled from the spec: [floor(id)] is the entry with the greatest key
    that is less than or equal to [id], if any. *)
Fixpoint Floor (key : TextNodeID.t) (t : Tree)
  : option (TextNodeID.t * handle) :=
  match t with
  | [] => None
  | (k, v) :: tl =>
      if TextNodeID.Compare key k <? 0 then None
      else match Floor key tl with
           | Some r => Some r
           | None => Some (k, v)
           end
  end.

End llrb.

(* ===================================================================== *)
(** ** The order-statistics index (package splay) *)
(* ===================================================================== *)

Definition InvalidPosition : string := "InvalidPosition".

Module splay.

(** Modelled from the spec: the splay tree of package [splay], whose source
    is not part of this file set.  The tree is represented by its in-order
    sequence of nodes, which rotations leave unchanged; the weight of an
    entry is the [Len()] of its text node (invariant 2 of the spec), read
    through [w]. *)
Abbreviation Tree := (list handle).

Definition NewTree : Tree := [].

(** Modelled from the spec: the first node enters the empty tree as root. *)
Definition Insert (node : handle) (t : Tree) : Tree := t ++ [node].

(** Modelled from the spec: [insert_after(ref, node)] links [node] in
    traversal order just after [ref]. *)
Fixpoint InsertAfter (ref node : handle) (t : Tree) : Tree :=
  match t with
  | [] => []
  | x :: tl =>
      if decide (x = ref) then x :: node :: tl
      else x :: InsertAfter ref node tl
  end.

(** Modelled from the spec: [update_subtree] and [splay] recompute weights
    and rotate; neither changes the in-order sequence. *)
Definition UpdateSubtree (node : handle) (t : Tree) : Tree := t.
Definition Splay (node : handle) (t : Tree) : Tree := t.

Definition total (w : handle → Z) (t : Tree) : Z :=
  foldr (λ h acc, w h + acc) 0 t.

(** Modelled from the spec: [find(k)] returns the node whose span of
    [Len()] code units contains offset [k], and the remainder within it.
    Ties go leftward (section 4.1, tie-break): the node returned is the first
    one, in traversal order, whose cumulative weight reaches [k], so that
    offset 0 is the head sentinel (scenario S3) and a lookup at
    [k == total] yields an offset equal to the node's [Len()]. *)
Fixpoint find_from (w : handle → Z) (t : Tree) (k : Z)
  : option (handle * Z) :=
  match t with
  | [] => None
  | x :: tl => if k <=? w x then Some (x, k) else find_from w tl (k - w x)
  end.

(** Modelled from the spec: section 7 makes a lookup outside
    [[0, total]] fail with InvalidPosition. *)
Definition Find (w : handle → Z) (t : Tree) (k : Z) : result (handle * Z) :=
  if (k <? 0) || (total w t <? k) then Panic InvalidPosition
  else match find_from w t k with
       | Some r => Ok r
       | None => Panic InvalidPosition
       end.

End splay.

(* ===================================================================== *)
(** ** RGATreeSplit *)
(* ===================================================================== *)

Abbreviation Heap := (list TextNode.t).

(** Dereferencing a node pointer. *)
Definition getNode (hp : Heap) (h : handle) : result TextNode.t :=
  match hp !! h with
  | Some n => Ok n
  | None => Panic "invalid memory address or nil pointer dereference"
  end.

(** [t.insPrev = node; node.insNext = t]. *)
Definition SetInsPrev (hp : Heap) (t node : handle) : result Heap :=
  _ ← getNode hp t;
  let hp1 := alter (TextNode.set_insPrev (Some node)) t hp in
  _ ← getNode hp1 node;
  Ok (alter (TextNode.set_insNext (Some t)) node hp1).

(** [t.prev = node; node.next = t]. *)
Definition setPrev (hp : Heap) (t node : handle) : result Heap :=
  _ ← getNode hp t;
  let hp1 := alter (TextNode.set_prev (Some node)) t hp in
  _ ← getNode hp1 node;
  Ok (alter (TextNode.set_next (Some t)) node hp1).

(** [TextNode.split] with [splitContent]: the node keeps [value[0:offset]];
    a new node with the tail is allocated and its handle returned.  A slice
    bound outside the string is a run-time panic. *)
Definition split (hp : Heap) (t : handle) (offset : Z)
  : result (Heap * handle) :=
  n ← getNode hp t;
  let newID := TextNodeID.split (TextNode.id n) offset in
  if (offset <? 0) || (TextNode.contentLen n <? offset)
  then Panic "slice bounds out of range"
  else
    let value := TextNode.value n in
    let hp1 := alter (TextNode.set_value (slice_to (Z.to_nat offset) value)) t hp in
    Ok (hp1 ++ [TextNode.newTextNode newID (slice_from (Z.to_nat offset) value)],
        length hp1).

Module RGATreeSplit.

Record t : Type := mk {
  heap : Heap;
  initialHead : handle;
  treeByIndex : splay.Tree;
  treeByID : llrb.Tree;
}.

Definition with_heap (s : t) (hp : Heap) : t :=
  mk hp (initialHead s) (treeByIndex s) (treeByID s).

End RGATreeSplit.

Import RGATreeSplit.

Definition NewRGATreeSplit : RGATreeSplit.t :=
  let initialHead := TextNode.newTextNode initialTextNodeID EmptyString in
  RGATreeSplit.mk [initialHead] 0%nat
    (splay.Insert 0%nat splay.NewTree)
    (llrb.Put (TextNode.id initialHead) 0%nat llrb.NewTree).

(** The weight the splay index gives a node. *)
Definition weight (hp : Heap) (h : handle) : Z :=
  match hp !! h with
  | Some n => TextNode.Len n
  | None => 0
  end.

Definition findTextNodePos (s : RGATreeSplit.t) (index : Z)
  : result TextNodePos.t :=
  '(splayNode, offset) ← splay.Find (weight (heap s)) (treeByIndex s) index;
  textNode ← getNode (heap s) splayNode;
  Ok (TextNodePos.mk (TextNode.id textNode) offset).

Definition findBoundary (s : RGATreeSplit.t) (from to : Z)
  : result (TextNodePos.t * TextNodePos.t) :=
  fromPos ← findTextNodePos s from;
  if from =? to then Ok (fromPos, fromPos)
  else
    toPos ← findTextNodePos s to;
    Ok (fromPos, toPos).

Definition findFloorTextNode (s : RGATreeSplit.t) (id : TextNodeID.t)
  : option handle :=
  match llrb.Floor id (treeByID s) with
  | None => None
  | Some (foundID, foundValue) =>
      if negb (TextNodeID.Equal foundID id) &&
         negb (TextNodeID.hasSameCreatedAt foundID id)
      then None
      else Some foundValue
  end.

Definition FindTextNode (s : RGATreeSplit.t) (id : option TextNodeID.t)
  : option handle :=
  match id with
  | None => None
  | Some id => findFloorTextNode s id
  end.

Definition findFloorTextNodePreferToLeft (s : RGATreeSplit.t)
    (id : TextNodeID.t) : result handle :=
  match findFloorTextNode s id with
  | None => Panic "the node of the given id should be found"
  | Some node =>
      n ← getNode (heap s) node;
      if (0 <? TextNodeID.offset id) &&
         (TextNodeID.offset (TextNode.id n) =? TextNodeID.offset id)
      then match TextNode.insPrev n with
           | None => Panic "insPrev should be presence"
           | Some p => Ok p
           end
      else Ok node
  end.

Definition InsertAfter (s : RGATreeSplit.t) (prev node : handle)
  : result RGATreeSplit.t :=
  p ← getNode (heap s) prev;
  let next := TextNode.next p in
  hp1 ← setPrev (heap s) node prev;
  hp2 ← match next with
        | Some nx => setPrev hp1 nx node
        | None => Ok hp1
        end;
  n ← getNode hp2 node;
  Ok (RGATreeSplit.mk hp2 (initialHead s)
        (splay.InsertAfter prev node (treeByIndex s))
        (llrb.Put (TextNode.id n) node (treeByID s))).

Definition splitTextNode (s : RGATreeSplit.t) (node : handle) (offset : Z)
  : result (RGATreeSplit.t * option handle) :=
  n ← getNode (heap s) node;
  if TextNode.contentLen n <? offset
  then Panic "offset should be less than or equal to length"
  else if offset =? 0 then Ok (s, Some node)
  else if offset =? TextNode.contentLen n then Ok (s, TextNode.next n)
  else
    '(hp1, splitNode) ← split (heap s) node offset;
    let s1 := RGATreeSplit.mk hp1 (initialHead s)
                (splay.UpdateSubtree splitNode (treeByIndex s)) (treeByID s) in
    s2 ← InsertAfter s1 node splitNode;
    n2 ← getNode (heap s2) node;
    hp3 ← match TextNode.insNext n2 with
          | Some insNext => SetInsPrev (heap s2) insNext splitNode
          | None => Ok (heap s2)
          end;
    hp4 ← SetInsPrev hp3 splitNode node;
    Ok (with_heap s2 hp4, Some splitNode).

(** The loop of [findTextNodeWithSplit]: slide rightward while the next node
    was created after [editedAt]. *)
Fixpoint slide (fuel : nat) (hp : Heap) (editedAt : Ticket.t) (node : handle)
  : result handle :=
  match fuel with
  | O => OutOfFuel
  | S fuel' =>
      n ← getNode hp node;
      match TextNode.next n with
      | None => Ok node
      | Some nx =>
          m ← getNode hp nx;
          if Ticket.After (TextNode.createdAt m) editedAt
          then slide fuel' hp editedAt nx
          else Ok node
      end
  end.

Definition findTextNodeWithSplit (s : RGATreeSplit.t) (pos : TextNodePos.t)
    (editedAt : Ticket.t)
  : result (RGATreeSplit.t * handle * option handle) :=
  let absoluteID := TextNodePos.getAbsoluteID pos in
  node ← findFloorTextNodePreferToLeft s absoluteID;
  n ← getNode (heap s) node;
  let relativeOffset :=
    int_sub (TextNodeID.offset absoluteID) (TextNodeID.offset (TextNode.id n)) in
  '(s1, _) ← splitTextNode s node relativeOffset;
  node' ← slide (length (heap s1)) (heap s1) editedAt node;
  n' ← getNode (heap s1) node';
  Ok (s1, node', TextNode.next n').

(** The loop of [findBetween]. *)
Fixpoint findBetween_loop (fuel : nat) (hp : Heap)
    (current to : option handle) (nodes : list handle)
  : result (list handle) :=
  match fuel with
  | O => OutOfFuel
  | S fuel' =>
      match current with
      | None => Ok nodes
      | Some c =>
          if decide (current = to) then Ok nodes
          else
            n ← getNode hp c;
            findBetween_loop fuel' hp (TextNode.next n) to (nodes ++ [c])
      end
  end.

Definition findBetween (s : RGATreeSplit.t) (from to : option handle)
  : result (list handle) :=
  findBetween_loop (S (length (heap s))) (heap s) from to [].

(** The bound [deleteNodes] uses for a candidate of the given actor. *)
Definition maxCreatedAtFor (maxCreatedAtMapByActor : option (gmap string Ticket.t))
    (actorIDHex : string) : Ticket.t :=
  match maxCreatedAtMapByActor with
  | None => Ticket.MaxTicket
  | Some m =>
      match m !! actorIDHex with
      | Some createdAt => createdAt
      | None => Ticket.InitialTicket
      end
  end.

Fixpoint deleteNodes_loop (s : RGATreeSplit.t) (candidates : list handle)
    (maxCreatedAtMapByActor : option (gmap string Ticket.t))
    (editedAt : Ticket.t) (createdAtMapByActor : gmap string Ticket.t)
  : result (RGATreeSplit.t * gmap string Ticket.t) :=
  match candidates with
  | [] => Ok (s, createdAtMapByActor)
  | node :: rest =>
      n ← getNode (heap s) node;
      let actorIDHex := Ticket.ActorIDHex (TextNode.createdAt n) in
      let maxCreatedAt := maxCreatedAtFor maxCreatedAtMapByActor actorIDHex in
      let '(n', deleted) := TextNode.delete n editedAt maxCreatedAt in
      if deleted then
        let s' := RGATreeSplit.mk (<[node := n']> (heap s)) (initialHead s)
                    (splay.Splay node (treeByIndex s)) (treeByID s) in
        let createdAt := TextNodeID.createdAt (TextNode.id n) in
        let m' :=
          match createdAtMapByActor !! actorIDHex with
          | None => <[actorIDHex := createdAt]> createdAtMapByActor
          | Some maxCreatedAt =>
              if Ticket.After createdAt maxCreatedAt
              then <[actorIDHex := createdAt]> createdAtMapByActor
              else createdAtMapByActor
          end in
        deleteNodes_loop s' rest maxCreatedAtMapByActor editedAt m'
      else
        deleteNodes_loop s rest maxCreatedAtMapByActor editedAt
          createdAtMapByActor
  end.

Definition deleteNodes (s : RGATreeSplit.t) (candidates : list handle)
    (maxCreatedAtMapByActor : option (gmap string Ticket.t))
    (editedAt : Ticket.t)
  : result (RGATreeSplit.t * gmap string Ticket.t) :=
  deleteNodes_loop s candidates maxCreatedAtMapByActor editedAt ∅.

Definition edit (s : RGATreeSplit.t) (from to : TextNodePos.t)
    (maxCreatedAtMapByActor : option (gmap string Ticket.t))
    (content : string) (editedAt : Ticket.t)
  : result (RGATreeSplit.t * TextNodePos.t * gmap string Ticket.t) :=
  (* 01. split nodes with from and to *)
  '(s1, fromLeft, fromRight) ← findTextNodeWithSplit s from editedAt;
  '(s2, toLeft, toRight) ← findTextNodeWithSplit s1 to editedAt;
  (* 02. delete between from and to *)
  nodesToDelete ← findBetween s2 fromRight toRight;
  '(s3, maxCreatedAtMap) ←
    deleteNodes s2 nodesToDelete maxCreatedAtMapByActor editedAt;
  caretID ← match toRight with
            | None => n ← getNode (heap s3) toLeft; Ok (TextNode.id n)
            | Some r => n ← getNode (heap s3) r; Ok (TextNode.id n)
            end;
  let caretPos := TextNodePos.NewTextNodePos caretID 0 in
  (* 03. insert a new node *)
  if negb (String.eqb content EmptyString) then
    let newNode :=
      TextNode.newTextNode (TextNodeID.NewTextNodeID editedAt 0) content in
    let inserted := length (heap s3) in
    s4 ← InsertAfter (with_heap s3 (heap s3 ++ [newNode])) fromLeft inserted;
    n ← getNode (heap s4) inserted;
    Ok (s4, TextNodePos.NewTextNodePos (TextNode.id n) (TextNode.contentLen n),
        maxCreatedAtMap)
  else Ok (s3, caretPos, maxCreatedAtMap).

(** The loop shared by [marshal] and [textNodes]: walk [next] from [node]. *)
Fixpoint marshal_loop (fuel : nat) (hp : Heap) (node : option handle)
    (values : list string) : result (list string) :=
  match fuel with
  | O => OutOfFuel
  | S fuel' =>
      match node with
      | None => Ok values
      | Some h =>
          n ← getNode hp h;
          let values' :=
            match TextNode.deletedAt n with
            | None => values ++ [TextNode.value n]
            | Some _ => values
            end in
          marshal_loop fuel' hp (TextNode.next n) values'
      end
  end.

Definition marshal (s : RGATreeSplit.t) : result string :=
  head ← getNode (heap s) (initialHead s);
  values ← marshal_loop (S (length (heap s))) (heap s) (TextNode.next head) [];
  Ok (Join values EmptyString).

Fixpoint textNodes_loop (fuel : nat) (hp : Heap) (node : option handle)
    (nodes : list handle) : result (list handle) :=
  match fuel with
  | O => OutOfFuel
  | S fuel' =>
      match node with
      | None => Ok nodes
      | Some h =>
          n ← getNode hp h;
          textNodes_loop fuel' hp (TextNode.next n) (nodes ++ [h])
      end
  end.

Definition textNodes (s : RGATreeSplit.t) : result (list handle) :=
  head ← getNode (heap s) (initialHead s);
  textNodes_loop (S (length (heap s))) (heap s) (TextNode.next head) [].

(* ===================================================================== *)
(** ** Text *)
(* ===================================================================== *)

Module Text.

Record t : Type := mk {
  rgaTreeSplit : RGATreeSplit.t;
  createdAt : Ticket.t;
}.

Definition NewText (elements : RGATreeSplit.t) (createdAt : Ticket.t) : t :=
  mk elements createdAt.

Definition quote : string := String (ascii_of_nat 34) EmptyString.

Definition Marshal (x : t) : result string :=
  body ← marshal (rgaTreeSplit x);
  Ok (quote +:+ body +:+ quote).

Definition FindBoundary (x : t) (from to : Z)
  : result (TextNodePos.t * TextNodePos.t) :=
  findBoundary (rgaTreeSplit x) from to.

Definition Edit (x : t) (from to : TextNodePos.t)
    (maxCreatedAtMapByActor : option (gmap string Ticket.t))
    (content : string) (editedAt : Ticket.t)
  : result (t * TextNodePos.t * gmap string Ticket.t) :=
  '(s', cursorPos, m) ←
    edit (rgaTreeSplit x) from to maxCreatedAtMapByActor content editedAt;
  Ok (mk s' (createdAt x), cursorPos, m).

End Text.

(* ===================================================================== *)
(** ** Well-formed states *)
(* ===================================================================== *)

(** [lseg hp p l q]: the nodes of [l] are linked in this order by [next], and
    back by [prev]; the first one has [p] as its [prev], the last one [q] as
    its [next]. *)
Definition hd_or (l : list handle) (q : option handle) : option handle :=
  match l with
  | [] => q
  | h :: _ => Some h
  end.

Fixpoint lseg (hp : Heap) (p : option handle) (l : list handle)
    (q : option handle) : Prop :=
  match l with
  | [] => True
  | h :: tl =>
      ∃ n, hp !! h = Some n ∧ TextNode.prev n = p ∧
           TextNode.next n = hd_or tl q ∧ lseg hp (Some h) tl q
  end.

(** [chain s l]: [l] is the traversal of [s] from [initialHead]; it is
    acyclic and holds every node of the store (invariant 1 of the spec). *)
Record chain (s : RGATreeSplit.t) (l : list handle) : Prop := mk_chain {
  chain_head : head l = Some (initialHead s);
  chain_nodup : NoDup l;
  chain_lseg : lseg (heap s) None l None;
  chain_all : ∀ h, (h < length (heap s))%nat → h ∈ l;
}.

(** The sentinel is empty. *)
Definition head_ok (s : RGATreeSplit.t) : Prop :=
  ∃ n, heap s !! initialHead s = Some n ∧ TextNode.value n = EmptyString.

Definition offset_of (n : TextNode.t) : Z := TextNodeID.offset (TextNode.id n).

(** The insertion-history links of one node (invariants 3 and 4 of the spec):
    offsets stay within [int]; a fragment with a positive offset has an
    [insPrev]; [insPrev] and [insNext] are inverse to each other, join
    fragments of one insertion, and go up in offset without overlap. *)
Record ins_ok (hp : Heap) (h : handle) (n : TextNode.t) : Prop := mk_ins_ok {
  ins_range : 0 ≤ offset_of n ∧ offset_of n + TextNode.contentLen n ≤ int_max;
  ins_has_prev : 0 < offset_of n → is_Some (TextNode.insPrev n);
  ins_prev : ∀ p, TextNode.insPrev n = Some p →
      ∃ pn, hp !! p = Some pn ∧ TextNode.insNext pn = Some h ∧
            TextNode.createdAt pn = TextNode.createdAt n ∧
            offset_of pn + TextNode.contentLen pn ≤ offset_of n ∧
            offset_of pn < offset_of n;
  ins_next : ∀ m, TextNode.insNext n = Some m →
      ∃ mn, hp !! m = Some mn ∧ TextNode.insPrev mn = Some h;
}.

Definition ins_inv (hp : Heap) : Prop :=
  ∀ h n, hp !! h = Some n → ins_ok hp h n.

Definition key_lt (a b : TextNodeID.t) : Prop := TextNodeID.Compare a b < 0.

Definition key_ok (k : TextNodeID.t) : Prop :=
  0 ≤ TextNodeID.offset k ≤ int_max.

Definition entry_lt (a b : TextNodeID.t * handle) : Prop :=
  key_lt (fst a) (fst b).

(** The keys of the ID index have offsets within [int]. *)
Definition keys_ok (t : llrb.Tree) : Prop := Forall (λ e, key_ok (fst e)) t.

(** The ID index is sorted by [TextNodeID.Compare] and every entry is keyed
    by the identifier of the node it points to. *)
Definition entry_ok (hp : Heap) (e : TextNodeID.t * handle) : Prop :=
  key_ok (fst e) ∧ ∃ n, hp !! snd e = Some n ∧ TextNode.id n = fst e.

Record idx_inv (s : RGATreeSplit.t) : Prop := mk_idx_inv {
  idx_sorted : StronglySorted entry_lt (treeByID s);
  idx_entries : Forall (entry_ok (heap s)) (treeByID s);
}.

Record wf (s : RGATreeSplit.t) : Prop := mk_wf {
  wf_chain : chain s (treeByIndex s);
  wf_head : head_ok s;
  wf_ins : ins_inv (heap s);
  wf_idx : idx_inv s;
}.

(** The states the engine can be in: a fresh text, then any edits that
    return.  Go strings are no longer than [int_max]. *)
Inductive reachable : RGATreeSplit.t → Prop :=
| reach_new : reachable NewRGATreeSplit
| reach_edit s from to m content editedAt s' caretPos deleted :
    reachable s →
    len content ≤ int_max →
    edit s from to m content editedAt = Ok (s', caretPos, deleted) →
    reachable s'.

(** [via_next s h]: node [h] is reachable from [initialHead] through
    [next]. *)
Inductive via_next (s : RGATreeSplit.t) : handle → Prop :=
| via_head : via_next s (initialHead s)
| via_step h n h' :
    via_next s h → heap s !! h = Some n → TextNode.next n = Some h' →
    via_next s h'.

(* ===================================================================== *)
(** ** The stores the linking operations produce *)
(* ===================================================================== *)

(** The store after [InsertAfter(prev, node)], where [nx] is [prev.next]
    before the call. *)
Definition insertAfter_heap (hp : Heap) (prev node : handle)
    (nx : option handle) : Heap :=
  let hp1 := alter (TextNode.set_next (Some node)) prev
               (alter (TextNode.set_prev (Some prev)) node hp) in
  match nx with
  | Some x => alter (TextNode.set_next (Some x)) node
                (alter (TextNode.set_prev (Some node)) x hp1)
  | None => hp1
  end.

(** The store after [insNext.SetInsPrev(splitNode)] (when there is an
    [insNext]) and [splitNode.SetInsPrev(node)]. *)
Definition relink_heap (hp : Heap) (node splitNode : handle)
    (insNext : option handle) : Heap :=
  let hp3 := match insNext with
             | Some i => alter (TextNode.set_insNext (Some i)) splitNode
                           (alter (TextNode.set_insPrev (Some splitNode)) i hp)
             | None => hp
             end in
  alter (TextNode.set_insNext (Some splitNode)) node
    (alter (TextNode.set_insPrev (Some node)) splitNode hp3).

(** The store after [node.split(offset)]: the node is truncated and the
    tail is allocated at the end of the store. *)
Definition split_alloc (hp : Heap) (node : handle) (n : TextNode.t)
    (offset : Z) : Heap :=
  alter (TextNode.set_value (slice_to (Z.to_nat offset) (TextNode.value n)))
    node hp ++
  [TextNode.newTextNode (TextNodeID.split (TextNode.id n) offset)
     (slice_from (Z.to_nat offset) (TextNode.value n))].

(** The store a split produces. *)
Definition split_final (hp : Heap) (node : handle) (n : TextNode.t) (k : Z)
  : Heap :=
  relink_heap
    (insertAfter_heap (split_alloc hp node n k) node (length hp)
       (TextNode.next n))
    node (length hp) (TextNode.insNext n).

(** The three kinds of node after a split of [n] at [k] into itself and the
    new node [f]. *)
Definition split_left (n : TextNode.t) (k : Z) (f : handle) : TextNode.t :=
  TextNode.mk (TextNode.id n)
    (slice_to (Z.to_nat k) (TextNode.value n))
    (TextNode.deletedAt n) (TextNode.prev n) (Some f)
    (TextNode.insPrev n) (Some f).

Definition split_right (n : TextNode.t) (k : Z) (node : handle) : TextNode.t :=
  TextNode.mk (TextNodeID.split (TextNode.id n) k)
    (slice_from (Z.to_nat k) (TextNode.value n))
    None (Some node) (TextNode.next n) (Some node) (TextNode.insNext n).

Definition split_other (n : TextNode.t) (f j : handle) (y : TextNode.t)
  : TextNode.t :=
  TextNode.mk (TextNode.id y) (TextNode.value y) (TextNode.deletedAt y)
    (if decide (TextNode.next n = Some j) then Some f else TextNode.prev y)
    (TextNode.next y)
    (if decide (TextNode.insNext n = Some j) then Some f
     else TextNode.insPrev y)
    (TextNode.insNext y).

(** The two kinds of old node after [InsertAfter(prev, node)] of a new node. *)
Definition insert_left (p : TextNode.t) (node : handle) : TextNode.t :=
  TextNode.set_next (Some node) p.

Definition insert_other (p : TextNode.t) (node j : handle) (y : TextNode.t)
  : TextNode.t :=
  if decide (TextNode.next p = Some j) then TextNode.set_prev (Some node) y
  else y.

Definition last_or (l : list handle) (p : option handle) : option handle :=
  match last l with
  | Some h => Some h
  | None => p
  end.

(** The [prev]/[next] links of a node. *)
Definition links (n : TextNode.t) : option handle * option handle :=
  (TextNode.prev n, TextNode.next n).

(** What a node carries besides its links. *)
Definition payload (n : TextNode.t)
  : TextNodeID.t * string * option Ticket.t :=
  (TextNode.id n, TextNode.value n, TextNode.deletedAt n).

(** The values of the live nodes of a list of handles, in order. *)
Fixpoint live_values (hp : Heap) (l : list handle) : list string :=
  match l with
  | [] => []
  | h :: rest =>
      match hp !! h with
      | Some n =>
          match TextNode.deletedAt n with
          | None => TextNode.value n :: live_values hp rest
          | Some _ => live_values hp rest
          end
      | None => live_values hp rest
      end
  end.

(** Everything of a node but its tombstone. *)
Definition shape (n : TextNode.t) :=
  (TextNode.id n, TextNode.value n, TextNode.prev n, TextNode.next n,
   TextNode.insPrev n, TextNode.insNext n).

(** The test of [TextNode.delete] for a candidate of [deleteNodes]: the node
    was not created after the bound of its actor, and it is not deleted yet
    or was deleted before [editedAt]. *)
Definition deletable (m : option (gmap string Ticket.t)) (editedAt : Ticket.t)
    (n : TextNode.t) : bool :=
  negb (Ticket.After (TextNode.createdAt n)
          (maxCreatedAtFor m (Ticket.ActorIDHex (TextNode.createdAt n)))) &&
  match TextNode.deletedAt n with
  | None => true
  | Some d => Ticket.After editedAt d
  end.

(** The node was created after [editedAt]. *)
Definition created_after (hp : Heap) (editedAt : Ticket.t) (h : handle)
  : bool :=
  match hp !! h with
  | Some n => Ticket.After (TextNode.createdAt n) editedAt
  | None => false
  end.

(** What [deleteNodes] does to one candidate. *)
Definition tombstone (m : option (gmap string Ticket.t)) (editedAt : Ticket.t)
    (n : TextNode.t) : TextNode.t :=
  if deletable m editedAt n
  then TextNode.set_deletedAt (Some editedAt) n
  else n.

(** The update of the returned map for one tombstoned node. *)
Definition record_max (acc : gmap string Ticket.t) (createdAt : Ticket.t)
  : gmap string Ticket.t :=
  match acc !! Ticket.ActorIDHex createdAt with
  | None => <[Ticket.ActorIDHex createdAt := createdAt]> acc
  | Some maxCreatedAt =>
      if Ticket.After createdAt maxCreatedAt
      then <[Ticket.ActorIDHex createdAt := createdAt]> acc
      else acc
  end.

(** The creation tickets of the candidates that get tombstoned, in order. *)
Fixpoint tombstoned_tickets (hp : Heap) (m : option (gmap string Ticket.t))
    (editedAt : Ticket.t) (candidates : list handle) : list Ticket.t :=
  match candidates with
  | [] => []
  | h :: rest =>
      match hp !! h with
      | Some n =>
          if deletable m editedAt n
          then TextNode.createdAt n :: tombstoned_tickets hp m editedAt rest
          else tombstoned_tickets hp m editedAt rest
      | None => tombstoned_tickets hp m editedAt rest
      end
  end.

(** The node [InsertAfter(prev, newTextNode(id, content))] links in. *)
Definition insert_new (id : TextNodeID.t) (content : string) (prev : handle)
    (p : TextNode.t) : TextNode.t :=
  TextNode.mk id content None (Some prev) (TextNode.next p) None None.

(** The store after the new node of an edit is allocated and linked after
    [prev]. *)
Definition insert_final (hp : Heap) (prev : handle) (p : TextNode.t)
    (id : TextNodeID.t) (content : string) : Heap :=
  insertAfter_heap (hp ++ [TextNode.newTextNode id content]) prev (length hp)
    (TextNode.next p).

(** What the accumulated map says about the tickets seen so far. *)
Definition max_map_of (acc : gmap string Ticket.t) (seen : list Ticket.t)
  : Prop :=
  (∀ a, acc !! a = None ↔ ∀ c, c ∈ seen → Ticket.ActorIDHex c ≠ a) ∧
  (∀ a c, acc !! a = Some c →
     c ∈ seen ∧ Ticket.ActorIDHex c = a ∧
     ∀ c', c' ∈ seen → Ticket.ActorIDHex c' = a → Ticket.After c' c = false).

(* ===================================================================== *)
(** ** The steps of an edit *)
(* ===================================================================== *)

(** The intermediate results of one call of [edit]: the states after the two
    position resolutions and after the deletion, the boundary nodes, and the
    candidates with their place in the traversal. *)
Record edit_trace : Type := mk_edit_trace {
  es_s1 : RGATreeSplit.t;
  es_s2 : RGATreeSplit.t;
  es_s3 : RGATreeSplit.t;
  es_fromLeft : handle;
  es_fromRight : option handle;
  es_toLeft : handle;
  es_toRight : option handle;
  es_cands : list handle;
  es_before : list handle;
  es_rest : list handle;
}.

(** What an edit that returns has done, step by step. *)
Record edit_steps (s : RGATreeSplit.t) (from to : TextNodePos.t)
    (m : option (gmap string Ticket.t)) (content : string)
    (editedAt : Ticket.t) (s' : RGATreeSplit.t) (caretPos : TextNodePos.t)
    (deleted : gmap string Ticket.t) (tr : edit_trace) : Prop :=
  mk_edit_steps {
  es_from : findTextNodeWithSplit s from editedAt
            = Ok (es_s1 tr, es_fromLeft tr, es_fromRight tr);
  es_to : findTextNodeWithSplit (es_s1 tr) to editedAt
          = Ok (es_s2 tr, es_toLeft tr, es_toRight tr);
  es_between :
    findBetween (es_s2 tr) (es_fromRight tr) (es_toRight tr)
    = Ok (es_cands tr);
  es_span :
    treeByIndex (es_s2 tr) = es_before tr ++ es_cands tr ++ es_rest tr;
  es_span_from : hd_or (es_cands tr ++ es_rest tr) None = es_fromRight tr;
  es_span_to : ∀ h, h ∈ es_cands tr → Some h ≠ es_toRight tr;
  es_span_end :
    es_rest tr = [] ∨
    (es_rest tr ≠ [] ∧ hd_or (es_rest tr) None = es_toRight tr);
  es_delete :
    deleteNodes (es_s2 tr) (es_cands tr) m editedAt = Ok (es_s3 tr, deleted);
  es_wf1 : wf (es_s1 tr);
  es_wf2 : wf (es_s2 tr);
  es_wf3 : wf (es_s3 tr);
  es_left_valid : (es_fromLeft tr < length (heap (es_s3 tr)))%nat;
  es_caret_noinsert :
    content = EmptyString →
    s' = es_s3 tr ∧
    ∃ cn, heap (es_s3 tr) !! default (es_toLeft tr) (es_toRight tr) = Some cn ∧
          caretPos = TextNodePos.mk (TextNode.id cn) 0;
  es_caret_insert :
    content ≠ EmptyString →
    ∃ p, heap (es_s3 tr) !! es_fromLeft tr = Some p ∧
      s' = RGATreeSplit.mk
             (insert_final (heap (es_s3 tr)) (es_fromLeft tr) p
                (TextNodeID.NewTextNodeID editedAt 0) content)
             (initialHead (es_s3 tr))
             (splay.InsertAfter (es_fromLeft tr) (length (heap (es_s3 tr)))
                (treeByIndex (es_s3 tr)))
             (llrb.Put (TextNodeID.NewTextNodeID editedAt 0)
                (length (heap (es_s3 tr))) (treeByID (es_s3 tr))) ∧
      caretPos = TextNodePos.mk (TextNodeID.NewTextNodeID editedAt 0)
                   (len content);
}.

(** What [edit] does to the candidates [cands] of the store [hp] it found
    them in, where [hp'] is the store and [deleted] the map it returns:
    a candidate gets [deletedAt = editedAt] exactly when it is [deletable],
    and is otherwise left alone, as is every other node; the map has an entry
    exactly for the actors of the nodes tombstoned, which is the greatest
    creation ticket among them. *)
Record deletion_law (m : option (gmap string Ticket.t)) (editedAt : Ticket.t)
    (hp : Heap) (cands : list handle) (hp' : Heap)
    (deleted : gmap string Ticket.t) : Prop := mk_deletion_law {
  dl_candidate : ∀ h n, h ∈ cands → hp !! h = Some n →
    ∃ n', hp' !! h = Some n' ∧ TextNode.id n' = TextNode.id n ∧
      TextNode.value n' = TextNode.value n ∧
      TextNode.deletedAt n' =
        if deletable m editedAt n then Some editedAt
        else TextNode.deletedAt n;
  dl_other : ∀ h n, h ∉ cands → hp !! h = Some n →
    ∃ n', hp' !! h = Some n' ∧ TextNode.id n' = TextNode.id n ∧
      TextNode.value n' = TextNode.value n ∧
      TextNode.deletedAt n' = TextNode.deletedAt n;
  dl_test : ∀ n, deletable m editedAt n = true ↔
    Ticket.After (TextNode.createdAt n)
      (match m with
       | None => Ticket.MaxTicket
       | Some mm =>
           default Ticket.InitialTicket
             (mm !! Ticket.ActorIDHex (TextNode.createdAt n))
       end) = false ∧
    (TextNode.deletedAt n = None ∨
     ∃ d, TextNode.deletedAt n = Some d ∧ Ticket.After editedAt d = true);
  dl_absent : ∀ a, deleted !! a = None ↔
    ∀ h n, h ∈ cands → hp !! h = Some n → deletable m editedAt n = true →
           Ticket.ActorIDHex (TextNode.createdAt n) ≠ a;
  dl_present : ∀ a c, deleted !! a = Some c →
    (∃ h n, h ∈ cands ∧ hp !! h = Some n ∧ deletable m editedAt n = true ∧
            Ticket.ActorIDHex (TextNode.createdAt n) = a ∧
            TextNode.createdAt n = c) ∧
    (∀ h n, h ∈ cands → hp !! h = Some n → deletable m editedAt n = true →
            Ticket.ActorIDHex (TextNode.createdAt n) = a →
            Ticket.After (TextNode.createdAt n) c = false);
}.

(** What a proper split of node [node], holding [n], at [k] has done when it
    returns state [s'] and the new node [f]. *)
Record proper_split (s : RGATreeSplit.t) (node : handle) (n : TextNode.t)
    (k : Z) (s' : RGATreeSplit.t) (f : handle) : Prop := mk_proper_split {
  ps_fresh : heap s !! f = None;
  ps_nodes : ∃ left right,
    heap s' !! node = Some left ∧ heap s' !! f = Some right ∧
    (* identifiers and content *)
    TextNode.id left = TextNode.id n ∧
    TextNode.value left = slice_to (Z.to_nat k) (TextNode.value n) ∧
    TextNode.id right =
      TextNodeID.mk (TextNode.createdAt n) (offset_of n + k) ∧
    TextNode.value right = slice_from (Z.to_nat k) (TextNode.value n) ∧
    (* the two contents are the node's content cut at [k]: the first [k]
       code units stay, the rest goes to the new node *)
    TextNode.value left +:+ TextNode.value right = TextNode.value n ∧
    TextNode.contentLen left = k ∧
    TextNode.contentLen right = TextNode.contentLen n - k ∧
    (* the linked list *)
    TextNode.prev left = TextNode.prev n ∧
    TextNode.next left = Some f ∧
    TextNode.prev right = Some node ∧
    TextNode.next right = TextNode.next n ∧
    (* the insertion-history chain *)
    TextNode.insPrev left = TextNode.insPrev n ∧
    TextNode.insNext left = Some f ∧
    TextNode.insPrev right = Some node ∧
    TextNode.insNext right = TextNode.insNext n;
  ps_old_next : ∀ x, TextNode.next n = Some x →
    ∃ xn, heap s' !! x = Some xn ∧ TextNode.prev xn = Some f;
  ps_old_insNext : ∀ i, TextNode.insNext n = Some i →
    ∃ yn, heap s' !! i = Some yn ∧ TextNode.insPrev yn = Some f;
  ps_others : ∀ j y, j ≠ node → heap s !! j = Some y →
    ∃ y', heap s' !! j = Some y' ∧ payload y' = payload y ∧
      TextNode.next y' = TextNode.next y ∧
      TextNode.insNext y' = TextNode.insNext y ∧
      (TextNode.next n ≠ Some j → TextNode.prev y' = TextNode.prev y) ∧
      (TextNode.insNext n ≠ Some j → TextNode.insPrev y' = TextNode.insPrev y);
  ps_list : ∃ l1 l2,
    treeByIndex s = l1 ++ node :: l2 ∧
    treeByIndex s' = l1 ++ node :: f :: l2 ∧
    chain s' (l1 ++ node :: f :: l2);
  ps_splay :
    treeByIndex s' = splay.InsertAfter node f (treeByIndex s);
  ps_llrb :
    treeByID s' =
      llrb.Put (TextNodeID.mk (TextNode.createdAt n) (offset_of n + k)) f
        (treeByID s) ∧
    findFloorTextNode s'
      (TextNodeID.mk (TextNode.createdAt n) (offset_of n + k)) = Some f;
  ps_wf : wf s';
}.

(* ===================================================================== *)
(** ** Replaying edits, and what a position denotes *)
(* ===================================================================== *)

(** An edit tuple (fromPos, toPos, maxCreatedAtMapByActor, content,
    editedAt). *)
Record Edit : Type := mk_Edit {
  e_from : TextNodePos.t;
  e_to : TextNodePos.t;
  e_map : option (gmap string Ticket.t);
  e_content : string;
  e_editedAt : Ticket.t;
}.

Definition apply_edit (s : RGATreeSplit.t) (e : Edit)
  : result RGATreeSplit.t :=
  '(s', _, _) ← edit s (e_from e) (e_to e) (e_map e) (e_content e)
                  (e_editedAt e);
  Ok s'.

Fixpoint apply_edits (s : RGATreeSplit.t) (es : list Edit)
  : result RGATreeSplit.t :=
  match es with
  | [] => Ok s
  | e :: rest => s' ← apply_edit s e; apply_edits s' rest
  end.

(** The visible string of a replica that applied [es] in this order to a
    fresh text. *)
Definition final_marshal (es : list Edit) : result string :=
  s ← apply_edits NewRGATreeSplit es;
  marshal s.

(** The number of visible code units from the head up to and including
    [target]. *)
Fixpoint visible_upto (fuel : nat) (hp : Heap) (current : option handle)
    (target : handle) (acc : Z) : result Z :=
  match fuel with
  | O => OutOfFuel
  | S fuel' =>
      match current with
      | None => Panic "the node is not in the list"
      | Some h =>
          n ← getNode hp h;
          if decide (h = target) then Ok (acc + TextNode.Len n)
          else visible_upto fuel' hp (TextNode.next n) target
                 (acc + TextNode.Len n)
      end
  end.

(** The character boundary a position denotes to the engine: the visible
    offset at which [findTextNodeWithSplit] anchors it. *)
Definition resolved_index (s : RGATreeSplit.t) (pos : TextNodePos.t)
    (editedAt : Ticket.t) : result Z :=
  '(s1, leftNode, _) ← findTextNodeWithSplit s pos editedAt;
  visible_upto (S (length (heap s1))) (heap s1) (Some (initialHead s1))
    leftNode 0.

(** The character boundary a position names by section 3 of the spec: the
    absolute identifier (createdAt, offset + relativeOffset) is the boundary
    in front of the code unit of that insertion with that offset (behind the
    last one when the offset is the length of the insertion). *)
Fixpoint named_index_loop (fuel : nat) (hp : Heap) (current : option handle)
    (abs : TextNodeID.t) (acc : Z) : result Z :=
  match fuel with
  | O => OutOfFuel
  | S fuel' =>
      match current with
      | None => Panic "the position names no boundary"
      | Some h =>
          n ← getNode hp h;
          let o := TextNodeID.offset abs - offset_of n in
          if (Ticket.Compare (TextNode.createdAt n) (TextNodeID.createdAt abs)
              =? 0) && (0 <=? o) && (o <=? TextNode.contentLen n) &&
             negb ((o =? TextNode.contentLen n) &&
                   bool_decide (TextNode.insNext n ≠ None))
          then Ok (acc + match TextNode.deletedAt n with
                         | None => o
                         | Some _ => 0
                         end)
          else named_index_loop fuel' hp (TextNode.next n) abs
                 (acc + TextNode.Len n)
      end
  end.

Definition named_index (s : RGATreeSplit.t) (pos : TextNodePos.t)
  : result Z :=
  named_index_loop (S (length (heap s))) (heap s) (Some (initialHead s))
    (TextNodePos.getAbsoluteID pos) 0.

(* ===================================================================== *)
(** ** Scenarios *)
(* ===================================================================== *)

Module Scenario.

Definition actorA : list byte := replicate 12 Byte.x01.
Definition actorB : list byte := replicate 12 Byte.x02.
Definition actorC : list byte := replicate 12 Byte.x03.

(** The ticket [t_n(actor) = (n, 0, actor)] of the spec's scenarios. *)
Definition tk (n : Z) (actor : list byte) : Ticket.t := Ticket.mk n 0 actor.

Definition headPos : TextNodePos.t := TextNodePos.mk initialTextNodeID 0.

(** A position inside the text inserted at [t_1(A)]. *)
Definition posA (k : Z) : TextNodePos.t :=
  TextNodePos.mk (TextNodeID.mk (tk 1 actorA) 0) k.

(** A inserts "ABC" into the empty text. *)
Definition insertABC : Edit :=
  mk_Edit headPos headPos None "ABC" (tk 1 actorA).

(** B, having seen A's insertion, deletes all of it. *)
Definition deleteABC : Edit :=
  mk_Edit headPos (posA 3)
    (Some {[ Ticket.ActorIDHex (tk 1 actorA) := tk 1 actorA ]})
    EmptyString (tk 2 actorB).

(** C, having seen A's insertion, inserts "x" after its first letter. *)
Definition insertX : Edit :=
  mk_Edit (posA 1) (posA 1) (Some ∅) "x" (tk 2 actorC).

(** An edit with an empty range and no content, inside A's insertion. *)
Definition noopAt (k n : Z) : Edit :=
  mk_Edit (posA k) (posA k) (Some ∅) EmptyString (tk n actorA).

Definition state_of (es : list Edit) : RGATreeSplit.t :=
  match apply_edits NewRGATreeSplit es with
  | Ok s => s
  | _ => NewRGATreeSplit
  end.

(** "ABC" in one node. *)
Definition st_ABC : RGATreeSplit.t :=
  Eval vm_compute in state_of [insertABC].

(** "ABC" in one node, tombstoned. *)
Definition st_deleted : RGATreeSplit.t :=
  Eval vm_compute in state_of [insertABC; deleteABC].

(** "A", "x", "BC": A's insertion split in two around C's. *)
Definition st_AxBC : RGATreeSplit.t :=
  Eval vm_compute in state_of [insertABC; insertX].

(** "A", "BC": A's insertion split by an edit that changes nothing else. *)
Definition st_A_BC : RGATreeSplit.t :=
  Eval vm_compute in state_of [insertABC; noopAt 1 2].

(** "A" tombstoned, "x", "BC": the deletion applied before C's insertion. *)
Definition st_xBC : RGATreeSplit.t :=
  Eval vm_compute in state_of [insertABC; deleteABC; insertX].

(** A inserts "A" at the head; B, concurrently and with a greater ticket,
    inserts "B" at the head as well. *)
Definition insertA_head : Edit :=
  mk_Edit headPos headPos (Some ∅) "A" (tk 1 actorA).
Definition insertB_head : Edit :=
  mk_Edit headPos headPos (Some ∅) "B" (tk 3 actorB).

(** "B", "A". *)
Definition st_BA : RGATreeSplit.t :=
  Eval vm_compute in state_of [insertA_head; insertB_head].

(** The node of [st_ABC] that holds "ABC". *)
Definition node_ABC : TextNode.t :=
  TextNode.mk (TextNodeID.mk (tk 1 actorA) 0) "ABC" None (Some 0%nat) None
    None None.

End Scenario.

(** The total visible length: the weight of the whole splay index. *)
Definition visible_total (s : RGATreeSplit.t) : Z :=
  splay.total (weight (heap s)) (treeByIndex s).

(* ===================================================================== *)
(** ** Copies *)
(* ===================================================================== *)

(** [TextNode.InsPrevID]: the identifier of [insPrev], or nil. *)
Definition InsPrevID (hp : Heap) (n : TextNode.t)
  : result (option TextNodeID.t) :=
  match TextNode.insPrev n with
  | None => Ok None
  | Some p => pn ← getNode hp p; Ok (Some (TextNode.id pn))
  end.

(** [TextNode.DeepCopy]: a new node with the identifier, the value and the
    tombstone of this one, and no links. *)
Definition DeepCopy (n : TextNode.t) : TextNode.t :=
  TextNode.mk (TextNode.id n) (TextNode.value n) (TextNode.deletedAt n)
    None None None None.

(* ===================================================================== *)
(** ** What an edit leaves in place *)
(* ===================================================================== *)

(** The state after a proper split of [node], holding [n], at [k]. *)
Definition split_state (s : RGATreeSplit.t) (node : handle) (n : TextNode.t)
    (k : Z) : RGATreeSplit.t :=
  RGATreeSplit.mk (split_final (heap s) node n k) (initialHead s)
    (splay.InsertAfter node (length (heap s)) (treeByIndex s))
    (llrb.Put (TextNodeID.split (TextNode.id n) k) (length (heap s))
       (treeByID s)).

(** The state after the new node of an edit is linked in after [prev],
    holding [p]. *)
Definition insert_state (s : RGATreeSplit.t) (prev : handle) (p : TextNode.t)
    (editedAt : Ticket.t) (content : string) : RGATreeSplit.t :=
  RGATreeSplit.mk
    (insert_final (heap s) prev p (TextNodeID.NewTextNodeID editedAt 0)
       content)
    (initialHead s)
    (splay.InsertAfter prev (length (heap s)) (treeByIndex s))
    (llrb.Put (TextNodeID.NewTextNodeID editedAt 0) (length (heap s))
       (treeByID s)).

(** [grows s s']: every node of [s] is a node of [s'], under the same
    handle and identifier, with a prefix of its value and still deleted if
    it was; the sentinel is the same and the traversal of [s] is a
    subsequence of that of [s']. *)
Record grows (s s' : RGATreeSplit.t) : Prop := mk_grows {
  gr_head : initialHead s' = initialHead s;
  gr_length : (length (heap s) ≤ length (heap s'))%nat;
  gr_nodes : ∀ h n, heap s !! h = Some n →
    ∃ n', heap s' !! h = Some n' ∧ TextNode.id n' = TextNode.id n ∧
      (∃ k, TextNode.value n' = slice_to k (TextNode.value n)) ∧
      (is_Some (TextNode.deletedAt n) → is_Some (TextNode.deletedAt n'));
  gr_order : sublist (treeByIndex s) (treeByIndex s');
}.

(* ===================================================================== *)
(** ** Fragments of one insertion *)
(* ===================================================================== *)

(** What every state keeps of the insertion history: the sentinel carries
    the initial identifier; [insPrev] ends exactly where the node begins and
    comes before it in the traversal; every node but the sentinel has
    content. *)
Record history_ok (s : RGATreeSplit.t) : Prop := mk_history_ok {
  ho_head : ∃ n, heap s !! initialHead s = Some n ∧
                 TextNode.id n = initialTextNodeID;
  ho_tight : ∀ h n p pn,
    heap s !! h = Some n → TextNode.insPrev n = Some p →
    heap s !! p = Some pn →
    offset_of pn + TextNode.contentLen pn = offset_of n;
  ho_before : ∀ h n p,
    heap s !! h = Some n → TextNode.insPrev n = Some p →
    sublist [p; h] (treeByIndex s);
  ho_nonempty : ∀ h n,
    heap s !! h = Some n → h ≠ initialHead s → 0 < TextNode.contentLen n;
}.

(** No node of the store was created at ticket [t]. *)
Definition fresh_ticket (hp : Heap) (t : Ticket.t) : bool :=
  forallb (λ n, negb (Ticket.Compare (TextNode.createdAt n) t =? 0)) hp.

(** The states reached when no edit reuses the ticket of an earlier
    insertion. *)
Inductive reachable_fresh : RGATreeSplit.t → Prop :=
| fresh_new : reachable_fresh NewRGATreeSplit
| fresh_edit s from to m content editedAt s' caretPos deleted :
    reachable_fresh s →
    len content ≤ int_max →
    fresh_ticket (heap s) editedAt = true →
    edit s from to m content editedAt = Ok (s', caretPos, deleted) →
    reachable_fresh s'.

(** What such states keep in addition: every node is in the ID index under
    its identifier, and two nodes of one creation ticket begin at different
    offsets and do not overlap. *)
Record ids_unique (s : RGATreeSplit.t) : Prop := mk_ids_unique {
  iu_indexed : ∀ h n, heap s !! h = Some n → (TextNode.id n, h) ∈ treeByID s;
  iu_frag : ∀ h1 n1 h2 n2,
    heap s !! h1 = Some n1 → heap s !! h2 = Some n2 → h1 ≠ h2 →
    TextNode.createdAt n1 = TextNode.createdAt n2 →
    offset_of n1 ≠ offset_of n2 ∧
    (offset_of n1 < offset_of n2 →
     offset_of n1 + TextNode.contentLen n1 ≤ offset_of n2);
}.

(** Two states that differ at most in the tombstones of their nodes. *)
Definition same_shape (s s' : RGATreeSplit.t) : Prop :=
  initialHead s' = initialHead s ∧
  treeByIndex s' = treeByIndex s ∧
  treeByID s' = treeByID s ∧
  length (heap s') = length (heap s) ∧
  ∀ j, shape <$> heap s' !! j = shape <$> heap s !! j.

(** No node of the store carries the creation ticket [t]. *)
Definition fresh_in (hp : Heap) (t : Ticket.t) : Prop :=
  ∀ h n, hp !! h = Some n → TextNode.createdAt n ≠ t.

(** Whether each edit of [es], applied in this order from [s], carries a
    ticket no node was created at. *)
Fixpoint fresh_edits (s : RGATreeSplit.t) (es : list Edit) : bool :=
  match es with
  | [] => true
  | e :: rest =>
      fresh_ticket (heap s) (e_editedAt e) &&
      match apply_edit s e with
      | Ok s' => fresh_edits s' rest
      | _ => false
      end
  end.

(* ===================================================================== *)
(** ** Edits at the latest ticket *)
(* ===================================================================== *)

(** The visible text of a stretch of the traversal. *)
Definition live_text (hp : Heap) (l : list handle) : string :=
  concat_strings (live_values hp l).

(** [denotes s pos i]: the position names the boundary at visible index [i];
    it is the sentinel's, at index 0, or lies in or at the end of a live
    node, [i] code units into the visible text. *)
Definition denotes (s : RGATreeSplit.t) (pos : TextNodePos.t) (i : Z) : Prop :=
  (pos = TextNodePos.mk initialTextNodeID 0 ∧ i = 0) ∨
  ∃ h n la lb a,
    treeByIndex s = la ++ h :: lb ∧ heap s !! h = Some n ∧
    TextNode.deletedAt n = None ∧
    TextNodePos.getAbsoluteID pos = TextNodeID.mk (TextNode.createdAt n) a ∧
    offset_of n < a ≤ offset_of n + TextNode.contentLen n ∧
    i = len (live_text (heap s) la) + (a - offset_of n).

(** No node was created after [editedAt]. *)
Definition newest (hp : Heap) (editedAt : Ticket.t) : bool :=
  forallb (λ n, negb (Ticket.After (TextNode.createdAt n) editedAt)) hp.

(** The bound [deleteNodes] takes from the map admits every node. *)
Definition covered (hp : Heap) (m : option (gmap string Ticket.t)) : bool :=
  forallb
    (λ n, negb (Ticket.After (TextNode.createdAt n)
                  (maxCreatedAtFor m
                     (Ticket.ActorIDHex (TextNode.createdAt n))))) hp.

(** Every node of the store has a creation ticket with the property. *)
Definition all_created (φ : Ticket.t → bool) (hp : Heap) : Prop :=
  ∀ h n, hp !! h = Some n → φ (TextNode.createdAt n) = true.

(** One position resolution at the latest ticket: nothing changes, or the
    live node [left] is split. *)
Definition live_step (s s1 : RGATreeSplit.t) (left : handle) : Prop :=
  s1 = s ∨
  ∃ n k, heap s !! left = Some n ∧ TextNode.deletedAt n = None ∧
         0 < k < TextNode.contentLen n ∧ s1 = split_state s left n k.

(** A creation ticket the edit with map [m] and ticket [editedAt] does not
    know: it is later than the edit, or later than the bound the map gives
    for its actor. *)
Definition late_ticket (m : option (gmap string Ticket.t))
    (editedAt : Ticket.t) (c : Ticket.t) : bool :=
  Ticket.After c editedAt ||
  Ticket.After c (maxCreatedAtFor m (Ticket.ActorIDHex c)).

(** [apart s m editedAt i j]: the nodes the edit does not know lie strictly
    outside the visible range from index [i] to index [j]: such a node ends
    in front of index [i] or begins behind index [j]. *)
Definition apart (s : RGATreeSplit.t) (m : option (gmap string Ticket.t))
    (editedAt : Ticket.t) (i j : Z) : Prop :=
  ∀ A y B yn, treeByIndex s = A ++ y :: B → heap s !! y = Some yn →
    late_ticket m editedAt (TextNode.createdAt yn) = true →
    len (live_text (heap s) (A ++ [y])) < i ∨
    j < len (live_text (heap s) A).

(** The state an edit leaves once its range is deleted in [s3]: [s3]
    itself for an empty content, and otherwise [s3] with the new node
    behind [fromLeft]. *)
Definition finish_state (s3 : RGATreeSplit.t) (fromLeft : handle)
    (p : TextNode.t) (editedAt : Ticket.t) (content : string)
  : RGATreeSplit.t :=
  if String.eqb content EmptyString then s3
  else insert_state s3 fromLeft p editedAt content.

(** [ends_at s pos left]: the position names the end of the node [left]; it
    is the sentinel's position, or names the last code unit of a live
    node. *)
Definition ends_at (s : RGATreeSplit.t) (pos : TextNodePos.t) (left : handle)
  : Prop :=
  (pos = TextNodePos.mk initialTextNodeID 0 ∧ left = initialHead s) ∨
  ∃ n, heap s !! left = Some n ∧ TextNode.deletedAt n = None ∧
    0 < TextNode.contentLen n ∧
    TextNodePos.getAbsoluteID pos =
      TextNodeID.mk (TextNode.createdAt n)
        (offset_of n + TextNode.contentLen n).

(* ===================================================================== *)
(** ** Text.Deepcopy *)
(* ===================================================================== *)

(** The loop of [Text.Deepcopy]: each text node of the original, whose store
    is [hp], is copied, linked in after [current], and given the [insPrev]
    that [FindTextNode] finds in the copy for the identifier of its own.
    [SetInsPrev] on the nil that a failed lookup returns is a run-time
    panic. *)
Fixpoint Deepcopy_loop (hp : Heap) (rgaTreeSplit : RGATreeSplit.t)
    (current : handle) (nodes : list handle) : result RGATreeSplit.t :=
  match nodes with
  | [] => Ok rgaTreeSplit
  | textNode :: rest =>
      n ← getNode hp textNode;
      let copy := length (heap rgaTreeSplit) in
      s1 ← InsertAfter
             (with_heap rgaTreeSplit (heap rgaTreeSplit ++ [DeepCopy n]))
             current copy;
      insPrevID ← InsPrevID hp n;
      s2 ← match insPrevID with
           | Some id =>
               match FindTextNode s1 (Some id) with
               | Some insPrevNode =>
                   hp' ← SetInsPrev (heap s1) copy insPrevNode;
                   Ok (with_heap s1 hp')
               | None =>
                   Panic "invalid memory address or nil pointer dereference"
               end
           | None => Ok s1
           end;
      Deepcopy_loop hp s2 copy rest
  end.

(** [Text.Deepcopy]. *)
Definition Deepcopy (x : Text.t) : result Text.t :=
  nodes ← textNodes (Text.rgaTreeSplit x);
  rgaTreeSplit ←
    Deepcopy_loop (heap (Text.rgaTreeSplit x)) NewRGATreeSplit
      (initialHead NewRGATreeSplit) nodes;
  Ok (Text.NewText rgaTreeSplit (Text.createdAt x)).

(** [copied hp done ns]: the copy [ns] holds, behind its sentinel, one node
    for each node of [done], in this order and with the same identifier,
    value and tombstone; the nodes are linked in a row, and the ID index
    knows every identifier copied. *)
Record copied (hp : Heap) (done : list handle) (ns : RGATreeSplit.t)
  : Prop := mk_copied {
  cp_length : length (heap ns) = S (length done);
  cp_head : initialHead ns = 0%nat;
  cp_head_value : ∃ h0, heap ns !! 0%nat = Some h0 ∧
                        TextNode.value h0 = EmptyString;
  cp_index : treeByIndex ns = seq 0 (S (length done));
  cp_links : ∀ k y, heap ns !! k = Some y →
    TextNode.prev y = (if decide (k = 0%nat) then None else Some (pred k)) ∧
    TextNode.next y =
      (if decide (k = length done) then None else Some (S k));
  cp_payload : ∀ i h, done !! i = Some h →
    ∃ y y', hp !! h = Some y ∧ heap ns !! S i = Some y' ∧
            payload y' = payload y;
  cp_keys : keys_ok (treeByID ns);
  cp_sorted : StronglySorted entry_lt (treeByID ns);
  cp_values : ∀ e, e ∈ treeByID ns → (snd e < S (length done))%nat;
  cp_initial : ∃ v, (initialTextNodeID, v) ∈ treeByID ns;
  cp_present : ∀ h y, h ∈ done → hp !! h = Some y →
    ∃ v, (TextNode.id y, v) ∈ treeByID ns;
}.

(* ===================================================================== *)
(** * Properties *)
(* ===================================================================== *)

(** ** Calls that return *)

Lemma bind_Ok_inv {A B} (m : result A) (f : A → result B) (b : B) :
  (m ≫= f) = Ok b → ∃ a, m = Ok a ∧ f a = Ok b.
Proof. destruct m; simpl; intros H; try discriminate. eauto. Qed.

Lemma getNode_Ok (hp : Heap) (h : handle) (n : TextNode.t) :
  getNode hp h = Ok n ↔ hp !! h = Some n.
Proof.
  unfold getNode. destruct (hp !! h); split; intros H; congruence.
Qed.

Lemma getNode_lookup (hp : Heap) (h : handle) (n : TextNode.t) :
  hp !! h = Some n → getNode hp h = Ok n.
Proof. apply getNode_Ok. Qed.

(** Destructs a hypothesis that says a sequence of calls returned. *)
Ltac res_inv :=
  repeat match goal with
  | H : (_ ≫= _) = Ok _ |- _ =>
      let a := fresh "r" in
      let E := fresh "E" in
      apply bind_Ok_inv in H; destruct H as (a & E & H)
  | H : Ok _ = Ok _ |- _ => injection H as H; try subst
  | H : Panic _ = Ok _ |- _ => discriminate H
  | H : OutOfFuel = Ok _ |- _ => discriminate H
  | H : getNode _ _ = Ok _ |- _ => apply getNode_Ok in H
  | H : (let '(_, _) := ?x in _) = Ok _ |- _ => destruct x
  end.

(** ** Machine integers *)

Lemma wrap_id (z : Z) : int_min ≤ z ≤ int_max → wrap z = z.
Proof.
  unfold wrap, int_min, int_max. intros H.
  rewrite Z.mod_small; lia.
Qed.

Lemma wrap_range (z : Z) : int_min ≤ wrap z ≤ int_max.
Proof.
  unfold wrap, int_min, int_max.
  pose proof (Z.mod_pos_bound (z + 2 ^ 63) (2 ^ 64)). lia.
Qed.

Lemma len_nonneg (v : string) : 0 ≤ len v.
Proof. unfold len. lia. Qed.

(** ** String slices *)

Lemma append_nil (b : string) : EmptyString +:+ b = b.
Proof. reflexivity. Qed.

Lemma append_cons (c : ascii) (a b : string) :
  String c a +:+ b = String c (a +:+ b).
Proof. reflexivity. Qed.

Lemma slice_to_from (k : nat) (v : string) :
  slice_to k v +:+ slice_from k v = v.
Proof.
  revert v. induction k as [|k IH]; intros [|c v]; simpl; try reflexivity.
  rewrite append_cons. f_equal. apply IH.
Qed.

Lemma length_slice_to (k : nat) (v : string) :
  (k ≤ String.length v)%nat → String.length (slice_to k v) = k.
Proof.
  revert v. induction k as [|k IH]; intros [|c v]; simpl; intros H;
    try reflexivity; try lia.
  f_equal. apply IH. lia.
Qed.

Lemma length_slice_from (k : nat) (v : string) :
  String.length (slice_from k v) = (String.length v - k)%nat.
Proof.
  revert v. induction k as [|k IH]; intros [|c v]; simpl; try reflexivity.
  apply IH.
Qed.

Lemma app_empty_r (v : string) : v +:+ EmptyString = v.
Proof.
  induction v as [|c v IH]; [reflexivity|].
  rewrite append_cons. congruence.
Qed.

Lemma app_assoc_s (a b c : string) : (a +:+ b) +:+ c = a +:+ (b +:+ c).
Proof.
  induction a as [|x a IH]; [reflexivity|].
  rewrite !append_cons. congruence.
Qed.

Lemma Join_empty (l : list string) : Join l EmptyString = concat_strings l.
Proof.
  induction l as [|x [|y tl] IH]; simpl in *.
  - reflexivity.
  - symmetry. apply app_empty_r.
  - rewrite <- IH. reflexivity.
Qed.

Lemma concat_strings_app (l1 l2 : list string) :
  concat_strings (l1 ++ l2) = concat_strings l1 +:+ concat_strings l2.
Proof.
  induction l1 as [|x l1 IH]; simpl; [reflexivity|].
  rewrite IH. symmetry. apply app_assoc_s.
Qed.

(** ** The order of tickets *)

Module TicketOrder.

Lemma byte_to_N_inj (x y : byte) : Byte.to_N x = Byte.to_N y → x = y.
Proof.
  intros H. assert (Some x = Some y) as E; [|congruence].
  rewrite <- (Byte.of_to_N x), <- (Byte.of_to_N y), H. reflexivity.
Qed.

Lemma actor_refl (a : list byte) : Ticket.ActorID_Compare a a = 0.
Proof.
  induction a as [|x a IH]; simpl; [reflexivity|].
  rewrite N.ltb_irrefl. exact IH.
Qed.

Lemma actor_range (a b : list byte) :
  Ticket.ActorID_Compare a b = -1 ∨ Ticket.ActorID_Compare a b = 0 ∨
  Ticket.ActorID_Compare a b = 1.
Proof.
  revert b. induction a as [|x a IH]; intros [|y b]; simpl; auto.
  repeat case_match; auto.
Qed.

Lemma actor_antisym (a b : list byte) :
  Ticket.ActorID_Compare b a = - Ticket.ActorID_Compare a b.
Proof.
  revert b. induction a as [|x a IH]; intros [|y b]; simpl; auto.
  destruct (Byte.to_N x <? Byte.to_N y)%N eqn:E1;
    destruct (Byte.to_N y <? Byte.to_N x)%N eqn:E2; auto.
  apply N.ltb_lt in E1, E2. lia.
Qed.

Lemma actor_eq (a b : list byte) :
  Ticket.ActorID_Compare a b = 0 → a = b.
Proof.
  revert b. induction a as [|x a IH]; intros [|y b]; simpl;
    try discriminate; auto.
  destruct (Byte.to_N x <? Byte.to_N y)%N eqn:E1; [discriminate|].
  destruct (Byte.to_N y <? Byte.to_N x)%N eqn:E2; [discriminate|].
  apply N.ltb_ge in E1, E2. intros H.
  f_equal; [apply byte_to_N_inj; lia | apply IH, H].
Qed.

Lemma actor_trans (a b c : list byte) :
  Ticket.ActorID_Compare a b < 0 → Ticket.ActorID_Compare b c < 0 →
  Ticket.ActorID_Compare a c < 0.
Proof.
  revert b c. induction a as [|x a IH]; intros [|y b] [|z c]; simpl;
    try lia.
  destruct (Byte.to_N x <? Byte.to_N y)%N eqn:E1;
    destruct (Byte.to_N y <? Byte.to_N x)%N eqn:E2;
    destruct (Byte.to_N y <? Byte.to_N z)%N eqn:E3;
    destruct (Byte.to_N z <? Byte.to_N y)%N eqn:E4;
    destruct (Byte.to_N x <? Byte.to_N z)%N eqn:E5;
    destruct (Byte.to_N z <? Byte.to_N x)%N eqn:E6;
    try lia;
    rewrite ?N.ltb_lt, ?N.ltb_ge in *; try lia.
  apply IH.
Qed.

Lemma ticket_refl (a : Ticket.t) : Ticket.Compare a a = 0.
Proof.
  unfold Ticket.Compare. rewrite !Z.ltb_irrefl, actor_refl. reflexivity.
Qed.

Lemma ticket_antisym (a b : Ticket.t) : Ticket.Compare b a = - Ticket.Compare a b.
Proof.
  unfold Ticket.Compare.
  rewrite (actor_antisym (Ticket.actorID a) (Ticket.actorID b)).
  destruct (actor_range (Ticket.actorID a) (Ticket.actorID b)) as [E|[E|E]];
    rewrite E; simpl;
    repeat (case_match; try lia);
    rewrite ?Z.ltb_lt, ?Z.ltb_ge in *; lia.
Qed.

Lemma ticket_eq (a b : Ticket.t) : Ticket.Compare a b = 0 → a = b.
Proof.
  unfold Ticket.Compare. destruct a as [la da aa], b as [lb db ab]; simpl.
  destruct (lb <? la) eqn:E1; [discriminate|].
  destruct (la <? lb) eqn:E2; [discriminate|].
  destruct (Ticket.ActorID_Compare aa ab =? 0) eqn:E3; simpl.
  - destruct (db <? da) eqn:E4; [discriminate|].
    destruct (da <? db) eqn:E5; [discriminate|].
    intros _. apply Z.eqb_eq, actor_eq in E3.
    rewrite ?Z.ltb_ge in *. f_equal; [lia | lia | exact E3].
  - intros H. apply Z.eqb_neq in E3. contradiction.
Qed.

Lemma ticket_trans (a b c : Ticket.t) :
  Ticket.Compare a b < 0 → Ticket.Compare b c < 0 → Ticket.Compare a c < 0.
Proof.
  unfold Ticket.Compare. destruct a as [la da aa], b as [lb db ab],
    c as [lc dc ac]; simpl.
  pose proof (actor_trans aa ab ac) as Ht.
  pose proof (actor_eq aa ab) as Hab.
  pose proof (actor_eq ab ac) as Hbc.
  destruct (actor_range aa ab) as [E1|[E1|E1]];
    destruct (actor_range ab ac) as [E2|[E2|E2]];
    rewrite E1, E2 in *; simpl;
    try (specialize (Hab eq_refl); subst ab);
    try (specialize (Hbc eq_refl); subst ac);
    rewrite ?E1, ?E2, ?actor_refl; simpl;
    try (destruct (actor_range aa ac) as [E3|[E3|E3]]; rewrite E3 in *; simpl);
    repeat (case_match; try lia);
    rewrite ?Z.ltb_lt, ?Z.ltb_ge in *; try lia.
Qed.

Lemma After_irrefl (a : Ticket.t) : Ticket.After a a = false.
Proof. unfold Ticket.After. rewrite ticket_refl. reflexivity. Qed.

End TicketOrder.

(** ** The order of node identifiers *)

Module KeyOrder.

Lemma Compare_unfold (a b : TextNodeID.t) :
  key_ok a → key_ok b →
  TextNodeID.Compare a b =
    if Ticket.Compare (TextNodeID.createdAt a) (TextNodeID.createdAt b) =? 0
    then TextNodeID.offset a - TextNodeID.offset b
    else Ticket.Compare (TextNodeID.createdAt a) (TextNodeID.createdAt b).
Proof.
  unfold key_ok, TextNodeID.Compare, int_sub. intros Ha Hb.
  destruct (_ =? 0); simpl; [|reflexivity].
  apply wrap_id. unfold int_min, int_max in *. lia.
Qed.

Lemma key_refl (a : TextNodeID.t) : TextNodeID.Compare a a = 0.
Proof.
  unfold TextNodeID.Compare, int_sub. rewrite TicketOrder.ticket_refl. simpl.
  rewrite Z.sub_diag. reflexivity.
Qed.

Lemma key_eq (a b : TextNodeID.t) :
  key_ok a → key_ok b → TextNodeID.Compare a b = 0 → a = b.
Proof.
  intros Ha Hb. rewrite Compare_unfold by assumption.
  destruct (_ =? 0) eqn:E.
  - apply Z.eqb_eq, TicketOrder.ticket_eq in E. intros H.
    destruct a, b; simpl in *. f_equal; [exact E | lia].
  - apply Z.eqb_neq in E. contradiction.
Qed.

Lemma key_antisym (a b : TextNodeID.t) :
  key_ok a → key_ok b → TextNodeID.Compare b a = - TextNodeID.Compare a b.
Proof.
  intros Ha Hb. rewrite !Compare_unfold by assumption.
  rewrite (TicketOrder.ticket_antisym (TextNodeID.createdAt a)
             (TextNodeID.createdAt b)).
  destruct (Ticket.Compare _ _ =? 0) eqn:E.
  - apply Z.eqb_eq in E. rewrite E. simpl. lia.
  - apply Z.eqb_neq in E.
    destruct (- Ticket.Compare _ _ =? 0) eqn:E'; [|reflexivity].
    apply Z.eqb_eq in E'. lia.
Qed.

Lemma key_trans (a b c : TextNodeID.t) :
  key_ok a → key_ok b → key_ok c →
  key_lt a b → key_lt b c → key_lt a c.
Proof.
  unfold key_lt. intros Ha Hb Hc.
  rewrite !Compare_unfold by assumption.
  pose proof (TicketOrder.ticket_trans (TextNodeID.createdAt a)
                (TextNodeID.createdAt b) (TextNodeID.createdAt c)) as Ht.
  destruct (Ticket.Compare (TextNodeID.createdAt a) (TextNodeID.createdAt b)
              =? 0) eqn:E1;
  destruct (Ticket.Compare (TextNodeID.createdAt b) (TextNodeID.createdAt c)
              =? 0) eqn:E2;
  rewrite ?Z.eqb_eq, ?Z.eqb_neq in *.
  - apply TicketOrder.ticket_eq in E1, E2. rewrite E1, E2, TicketOrder.ticket_refl.
    simpl. lia.
  - apply TicketOrder.ticket_eq in E1. rewrite E1.
    destruct (_ =? 0) eqn:E3; [apply Z.eqb_eq in E3; lia | auto].
  - apply TicketOrder.ticket_eq in E2. rewrite <- E2.
    destruct (_ =? 0) eqn:E3; [apply Z.eqb_eq in E3; lia | auto].
  - intros H1 H2. specialize (Ht H1 H2).
    destruct (_ =? 0) eqn:E3; [apply Z.eqb_eq in E3; lia | auto].
Qed.

Lemma lt_gt (a b : TextNodeID.t) :
  key_ok a → key_ok b → key_lt a b → 0 < TextNodeID.Compare b a.
Proof. unfold key_lt. intros Ha Hb H. rewrite key_antisym by assumption. lia. Qed.

Lemma gt_lt (a b : TextNodeID.t) :
  key_ok a → key_ok b → 0 < TextNodeID.Compare b a → key_lt a b.
Proof.
  unfold key_lt. intros Ha Hb H. rewrite (key_antisym b a) by assumption. lia.
Qed.

End KeyOrder.

(** ** The ID index *)

Module LLRB.

Lemma Put_elem (key : TextNodeID.t) (value : handle) (t : llrb.Tree)
    (e : TextNodeID.t * handle) :
  keys_ok t → key_ok key →
  e ∈ llrb.Put key value t → e = (key, value) ∨ e ∈ t.
Proof.
  intros Ht Hk. induction t as [|[k v] tl IH]; simpl.
  - intros H%list_elem_of_singleton. auto.
  - inversion Ht as [|? ? Hkv Htl]; subst. simpl in Hkv.
    destruct (TextNodeID.Compare key k <? 0) eqn:E1.
    { rewrite !elem_of_cons. tauto. }
    destruct (TextNodeID.Compare key k =? 0) eqn:E2.
    { apply Z.eqb_eq, KeyOrder.key_eq in E2; auto. subst k.
      rewrite !elem_of_cons. tauto. }
    rewrite !elem_of_cons. intros [->|H]; auto.
    destruct (IH Htl H); auto.
Qed.

Lemma Put_keys_ok (key : TextNodeID.t) (value : handle) (t : llrb.Tree) :
  keys_ok t → key_ok key → keys_ok (llrb.Put key value t).
Proof.
  intros Ht Hk. apply Forall_forall. intros e He.
  destruct (Put_elem _ _ _ _ Ht Hk He) as [->|H]; [exact Hk|].
  unfold keys_ok in Ht. rewrite Forall_forall in Ht. auto.
Qed.

Lemma Put_sorted (key : TextNodeID.t) (value : handle) (t : llrb.Tree) :
  keys_ok t → key_ok key →
  StronglySorted entry_lt t → StronglySorted entry_lt (llrb.Put key value t).
Proof.
  intros Ht Hk Hs. induction t as [|[k v] tl IH]; simpl.
  - repeat constructor.
  - inversion Ht as [|? ? Hkv Htl]; subst. simpl in Hkv.
    inversion Hs as [|? ? Hs' Hall]; subst.
    destruct (TextNodeID.Compare key k <? 0) eqn:E1.
    { apply Z.ltb_lt in E1. constructor; [exact Hs|].
      constructor; [exact E1|].
      rewrite Forall_forall in Hall, Htl |- *. intros e He.
      unfold entry_lt in *. simpl in *.
      eapply KeyOrder.key_trans; eauto. }
    destruct (TextNodeID.Compare key k =? 0) eqn:E2.
    { constructor; [exact Hs'|]. exact Hall. }
    apply Z.ltb_ge in E1. apply Z.eqb_neq in E2.
    constructor; [apply IH; assumption|].
    apply Forall_forall. intros e He.
    destruct (Put_elem _ _ _ _ Htl Hk He) as [->|H].
    + unfold entry_lt. simpl. apply KeyOrder.gt_lt; auto. lia.
    + rewrite Forall_forall in Hall. auto.
Qed.

Lemma Put_mem (key : TextNodeID.t) (value : handle) (t : llrb.Tree) :
  keys_ok t → key_ok key → (key, value) ∈ llrb.Put key value t.
Proof.
  intros Ht Hk. induction t as [|[k v] tl IH]; simpl.
  - apply elem_of_cons. auto.
  - inversion Ht as [|? ? Hkv Htl]; subst. simpl in Hkv.
    destruct (TextNodeID.Compare key k <? 0) eqn:E1.
    { apply elem_of_cons. auto. }
    destruct (TextNodeID.Compare key k =? 0) eqn:E2.
    { apply Z.eqb_eq, KeyOrder.key_eq in E2; auto. subst k.
      apply elem_of_cons. auto. }
    apply elem_of_cons. right. apply IH, Htl.
Qed.

(** Nothing is at or below [key] in a tree whose keys are all above it. *)
Lemma Floor_above (key : TextNodeID.t) (t : llrb.Tree) :
  Forall (λ e, key_lt key (fst e)) t → llrb.Floor key t = None.
Proof.
  intros H. destruct t as [|[k v] tl]; simpl; [reflexivity|].
  inversion H as [|? ? Hlt ?]; subst. unfold key_lt in Hlt. simpl in Hlt.
  apply Z.ltb_lt in Hlt. rewrite Hlt. reflexivity.
Qed.

(** The floor of a key that is in the tree is its own entry. *)
Lemma Floor_exact (key : TextNodeID.t) (value : handle) (t : llrb.Tree) :
  keys_ok t → StronglySorted entry_lt t → (key, value) ∈ t →
  llrb.Floor key t = Some (key, value).
Proof.
  intros Ht Hs. induction t as [|[k v] tl IH]; intros He.
  - inversion He.
  - inversion Ht as [|? ? Hkv Htl]; subst. simpl in Hkv.
    inversion Hs as [|? ? Hs' Hall]; subst.
    apply elem_of_cons in He as [E|He].
    + injection E as -> ->. simpl. rewrite KeyOrder.key_refl. simpl.
      rewrite Floor_above; [reflexivity|]. exact Hall.
    + assert (key_ok key) as Hk.
      { unfold keys_ok in Htl. rewrite Forall_forall in Htl.
        apply (Htl _ He). }
      assert (key_lt k key) as Hlt.
      { rewrite Forall_forall in Hall. apply (Hall _ He). }
      simpl. apply KeyOrder.lt_gt in Hlt; auto.
      destruct (TextNodeID.Compare key k <? 0) eqn:E1;
        [apply Z.ltb_lt in E1; lia|].
      rewrite IH; auto.
Qed.

(** The floor of a key strictly between two adjacent entries is the left
    one. *)
Lemma Floor_between (key : TextNodeID.t) (pre post : llrb.Tree)
    (a b : TextNodeID.t * handle) :
  keys_ok (pre ++ a :: b :: post) → key_ok key →
  StronglySorted entry_lt (pre ++ a :: b :: post) →
  key_lt (fst a) key → key_lt key (fst b) →
  llrb.Floor key (pre ++ a :: b :: post) = Some a.
Proof.
  intros Ht Hk Hs Ha Hb. induction pre as [|[k v] pre IH]; simpl in *.
  - inversion Ht as [|? ? Hka Htl]; subst.
    inversion Htl as [|? ? Hkb Htl']; subst.
    inversion Hs as [|? ? Hs' Hall]; subst.
    inversion Hs' as [|? ? Hs'' Hall']; subst.
    destruct a as [ka va]. simpl in *.
    apply KeyOrder.lt_gt in Ha; auto.
    destruct (TextNodeID.Compare key ka <? 0) eqn:E1;
      [apply Z.ltb_lt in E1; lia|].
    destruct b as [kb vb]. simpl in *.
    unfold key_lt in Hb. apply Z.ltb_lt in Hb. rewrite Hb. reflexivity.
  - inversion Ht as [|? ? Hkv Htl]; subst. simpl in Hkv.
    inversion Hs as [|? ? Hs' Hall]; subst.
    assert (key_lt k key) as Hlt.
    { rewrite Forall_forall in Hall.
      assert (entry_lt (k, v) a) as H1.
      { apply Hall. apply elem_of_app. right. apply elem_of_cons. auto. }
      unfold entry_lt in H1. simpl in H1.
      eapply KeyOrder.key_trans; [| | |exact H1|exact Ha]; auto.
      unfold keys_ok in Htl. rewrite Forall_forall in Htl.
      apply (Htl a). apply elem_of_app. right. apply elem_of_cons. auto. }
    apply KeyOrder.lt_gt in Hlt; auto.
    destruct (TextNodeID.Compare key k <? 0) eqn:E1;
      [apply Z.ltb_lt in E1; lia|].
    rewrite IH; auto.
Qed.

Lemma Floor_Put (key : TextNodeID.t) (value : handle) (t : llrb.Tree) :
  keys_ok t → key_ok key → StronglySorted entry_lt t →
  llrb.Floor key (llrb.Put key value t) = Some (key, value).
Proof.
  intros Ht Hk Hs. apply Floor_exact.
  - apply Put_keys_ok; assumption.
  - apply Put_sorted; assumption.
  - apply Put_mem; assumption.
Qed.

Lemma Floor_elem (key : TextNodeID.t) (t : llrb.Tree)
    (e : TextNodeID.t * handle) :
  llrb.Floor key t = Some e → e ∈ t.
Proof.
  revert e. induction t as [|[k v] tl IH]; simpl; intros e H;
    [discriminate|].
  destruct (TextNodeID.Compare key k <? 0); [discriminate|].
  destruct (llrb.Floor key tl) as [r|] eqn:E.
  - injection H as <-. apply elem_of_cons. right. apply IH. reflexivity.
  - injection H as <-. apply elem_of_cons. auto.
Qed.

End LLRB.

(** ** The linking operations in closed form *)

Lemma getNode_is_Some (hp : Heap) (h : handle) :
  is_Some (hp !! h) → ∃ n, getNode hp h = Ok n ∧ hp !! h = Some n.
Proof. intros [n Hn]. exists n. split; [apply getNode_Ok|]; exact Hn. Qed.

Lemma setPrev_spec (hp hp' : Heap) (t node : handle) :
  setPrev hp t node = Ok hp' ↔
  (t < length hp)%nat ∧ (node < length hp)%nat ∧
  hp' = alter (TextNode.set_next (Some t)) node
          (alter (TextNode.set_prev (Some node)) t hp).
Proof.
  unfold setPrev. split.
  - intros H. res_inv. apply lookup_lt_Some in E, E0.
    rewrite length_alter in E0. auto.
  - intros (Ht & Hn & ->).
    apply lookup_lt_is_Some_2, getNode_is_Some in Ht as (a & -> & _). simpl.
    rewrite <- (length_alter (TextNode.set_prev (Some node)) hp t) in Hn.
    apply lookup_lt_is_Some_2, getNode_is_Some in Hn as (b & -> & _).
    reflexivity.
Qed.

Lemma SetInsPrev_spec (hp hp' : Heap) (t node : handle) :
  SetInsPrev hp t node = Ok hp' ↔
  (t < length hp)%nat ∧ (node < length hp)%nat ∧
  hp' = alter (TextNode.set_insNext (Some t)) node
          (alter (TextNode.set_insPrev (Some node)) t hp).
Proof.
  unfold SetInsPrev. split.
  - intros H. res_inv. apply lookup_lt_Some in E, E0.
    rewrite length_alter in E0. auto.
  - intros (Ht & Hn & ->).
    apply lookup_lt_is_Some_2, getNode_is_Some in Ht as (a & -> & _). simpl.
    rewrite <- (length_alter (TextNode.set_insPrev (Some node)) hp t) in Hn.
    apply lookup_lt_is_Some_2, getNode_is_Some in Hn as (b & -> & _).
    reflexivity.
Qed.

Lemma length_insertAfter_heap (hp : Heap) (prev node : handle)
    (nx : option handle) :
  length (insertAfter_heap hp prev node nx) = length hp.
Proof.
  unfold insertAfter_heap. destruct nx; rewrite ?length_alter; reflexivity.
Qed.

Lemma length_relink_heap (hp : Heap) (node f : handle) (i : option handle) :
  length (relink_heap hp node f i) = length hp.
Proof.
  unfold relink_heap. destruct i; rewrite ?length_alter; reflexivity.
Qed.

Lemma length_split_alloc (hp : Heap) (node : handle) (n : TextNode.t) (k : Z) :
  length (split_alloc hp node n k) = S (length hp).
Proof.
  unfold split_alloc. rewrite length_app, length_alter. simpl. lia.
Qed.

(** [InsertAfter] returns exactly when its two arguments and the old
    successor are nodes of the store. *)
Lemma InsertAfter_spec (s s' : RGATreeSplit.t) (prev node : handle) :
  InsertAfter s prev node = Ok s' ↔
  ∃ p n, heap s !! prev = Some p ∧ heap s !! node = Some n ∧
    (∀ x, TextNode.next p = Some x → (x < length (heap s))%nat) ∧
    s' = RGATreeSplit.mk
           (insertAfter_heap (heap s) prev node (TextNode.next p))
           (initialHead s)
           (splay.InsertAfter prev node (treeByIndex s))
           (llrb.Put (TextNode.id n) node (treeByID s)).
Proof.
  unfold InsertAfter. split.
  - intros H. res_inv. rename r into p, r2 into n2.
    apply setPrev_spec in E0 as (Hn & Hp & ->).
    apply lookup_lt_is_Some_2 in Hn as [n Hn].
    exists p, n. split; [exact E|]. split; [exact Hn|].
    destruct (TextNode.next p) as [x|] eqn:Ex.
    + apply setPrev_spec in E1 as (Hx & _ & ->).
      rewrite !length_alter in Hx.
      split; [intros ? [= <-]; exact Hx|].
      unfold insertAfter_heap. f_equal.
      rewrite list_lookup_alter_eq in E2.
      destruct (decide (x = node)) as [->|Hne].
      * rewrite list_lookup_alter_eq in E2.
        rewrite list_lookup_alter in E2.
        destruct (decide (prev = node)) as [->|Hne'].
        -- rewrite list_lookup_alter_eq, Hn in E2. simpl in E2.
           injection E2 as <-. reflexivity.
        -- rewrite list_lookup_alter_eq, Hn in E2. simpl in E2.
           injection E2 as <-. reflexivity.
      * rewrite list_lookup_alter_ne in E2 by exact Hne.
        rewrite list_lookup_alter in E2.
        destruct (decide (prev = node)) as [->|Hne'].
        -- rewrite list_lookup_alter_eq, Hn in E2. simpl in E2.
           injection E2 as <-. reflexivity.
        -- rewrite list_lookup_alter_eq, Hn in E2. simpl in E2.
           injection E2 as <-. reflexivity.
    + res_inv. split; [intros ? [=]|].
      unfold insertAfter_heap. f_equal.
      rewrite list_lookup_alter in E2.
      destruct (decide (prev = node)) as [->|Hne'].
      * rewrite list_lookup_alter_eq, Hn in E2. simpl in E2.
        injection E2 as <-. reflexivity.
      * rewrite list_lookup_alter_eq, Hn in E2. simpl in E2.
        injection E2 as <-. reflexivity.
  - intros (p & n & Hp & Hn & Hx & ->).
    rewrite (getNode_lookup _ _ _ Hp). simpl.
    assert (setPrev (heap s) node prev =
            Ok (alter (TextNode.set_next (Some node)) prev
                  (alter (TextNode.set_prev (Some prev)) node (heap s)))) as ->.
    { apply setPrev_spec. repeat split; eapply lookup_lt_Some; eauto. }
    simpl. unfold insertAfter_heap.
    destruct (TextNode.next p) as [x|] eqn:Ex.
    + specialize (Hx x eq_refl).
      match goal with |- context [setPrev ?h x node] =>
        assert (setPrev h x node =
                Ok (alter (TextNode.set_next (Some x)) node
                      (alter (TextNode.set_prev (Some node)) x h))) as ->
      end.
      { apply setPrev_spec. rewrite !length_alter.
        repeat split; [exact Hx | eapply lookup_lt_Some; eauto]. }
      simpl.
      match goal with |- context [getNode ?h node] =>
        assert (∃ n', h !! node = Some n' ∧ TextNode.id n' = TextNode.id n)
          as (n' & Hn' & Hid)
      end.
      { repeat (rewrite list_lookup_alter; repeat (case_decide; subst));
          rewrite Hn; simpl; eexists; split; reflexivity. }
      rewrite (getNode_lookup _ _ _ Hn'). simpl. rewrite Hid. reflexivity.
    + simpl.
      match goal with |- context [getNode ?h node] =>
        assert (∃ n', h !! node = Some n' ∧ TextNode.id n' = TextNode.id n)
          as (n' & Hn' & Hid)
      end.
      { repeat (rewrite list_lookup_alter; repeat (case_decide; subst));
          rewrite Hn; simpl; eexists; split; reflexivity. }
      rewrite (getNode_lookup _ _ _ Hn'). simpl. rewrite Hid. reflexivity.
Qed.

(** A projection of the nodes that an update leaves alone is unchanged at
    every handle. *)
Lemma lookup_alter_proj {B} (g : TextNode.t → B) (f : TextNode.t → TextNode.t)
    (i j : handle) (hp : Heap) :
  (∀ y, g (f y) = g y) → g <$> (alter f i hp !! j) = g <$> (hp !! j).
Proof.
  intros Hg. rewrite list_lookup_alter. case_decide; [subst|reflexivity].
  destruct (hp !! j); simpl; [f_equal; apply Hg | reflexivity].
Qed.

Lemma insertAfter_heap_proj {B} (g : TextNode.t → B) (hp : Heap)
    (prev node : handle) (nx : option handle) (j : handle) :
  (∀ a y, g (TextNode.set_prev a y) = g y) →
  (∀ a y, g (TextNode.set_next a y) = g y) →
  g <$> (insertAfter_heap hp prev node nx !! j) = g <$> (hp !! j).
Proof.
  intros H1 H2. unfold insertAfter_heap.
  destruct nx; rewrite !lookup_alter_proj by auto; reflexivity.
Qed.

Lemma fmap_Some_proj {B} (g : TextNode.t → B) (o : option TextNode.t)
    (n : TextNode.t) :
  g <$> o = g <$> Some n → ∃ n', o = Some n' ∧ g n' = g n.
Proof. destruct o; simpl; intros [=]; eauto. Qed.

Lemma length_split_final (hp : Heap) (node : handle) (n : TextNode.t) (k : Z) :
  length (split_final hp node n k) = S (length hp).
Proof.
  unfold split_final.
  rewrite length_relink_heap, length_insertAfter_heap, length_split_alloc.
  reflexivity.
Qed.

Lemma splitTextNode_zero (s : RGATreeSplit.t) (node : handle)
    (n : TextNode.t) :
  heap s !! node = Some n →
  splitTextNode s node 0 = Ok (s, Some node).
Proof.
  intros Hn. unfold splitTextNode. rewrite (getNode_lookup _ _ _ Hn). simpl.
  pose proof (len_nonneg (TextNode.value n)) as Hl.
  unfold TextNode.contentLen.
  destruct (len (TextNode.value n) <? 0) eqn:E;
    [apply Z.ltb_lt in E; lia | reflexivity].
Qed.

Lemma splitTextNode_full (s : RGATreeSplit.t) (node : handle)
    (n : TextNode.t) :
  heap s !! node = Some n → TextNode.contentLen n ≠ 0 →
  splitTextNode s node (TextNode.contentLen n) = Ok (s, TextNode.next n).
Proof.
  intros Hn Hk. unfold splitTextNode. rewrite (getNode_lookup _ _ _ Hn).
  simpl. rewrite Z.ltb_irrefl.
  apply Z.eqb_neq in Hk. rewrite Hk, Z.eqb_refl. reflexivity.
Qed.

Lemma splitTextNode_cases (s s' : RGATreeSplit.t) (node : handle) (k : Z)
    (r : option handle) :
  splitTextNode s node k = Ok (s', r) →
  ∃ n, heap s !! node = Some n ∧
       (k = 0 ∨ (k ≠ 0 ∧ k = TextNode.contentLen n) ∨
        0 < k < TextNode.contentLen n).
Proof.
  unfold splitTextNode. intros H.
  apply bind_Ok_inv in H as (n & Hn & H).
  apply getNode_Ok in Hn. exists n. split; [exact Hn|].
  destruct (TextNode.contentLen n <? k) eqn:E1; [discriminate|].
  apply Z.ltb_ge in E1.
  destruct (k =? 0) eqn:E2; [apply Z.eqb_eq in E2; auto|].
  apply Z.eqb_neq in E2.
  destruct (k =? TextNode.contentLen n) eqn:E3;
    [apply Z.eqb_eq in E3; auto|].
  apply Z.eqb_neq in E3. right. right.
  apply bind_Ok_inv in H as ([hp1 f] & Hsp & H).
  unfold split in Hsp. rewrite (getNode_lookup _ _ _ Hn) in Hsp.
  simpl in Hsp.
  destruct ((k <? 0) || (TextNode.contentLen n <? k)) eqn:E4;
    [discriminate|].
  apply orb_false_iff in E4 as [E4 _]. apply Z.ltb_ge in E4. lia.
Qed.

(** A proper split returns, with the new node at the end of the store. *)
Lemma splitTextNode_split (s : RGATreeSplit.t) (node : handle)
    (n : TextNode.t) (k : Z) :
  heap s !! node = Some n →
  0 < k < TextNode.contentLen n →
  (∀ x, TextNode.next n = Some x → (x < length (heap s))%nat) →
  (∀ i, TextNode.insNext n = Some i → (i < length (heap s))%nat) →
  splitTextNode s node k =
  Ok (RGATreeSplit.mk (split_final (heap s) node n k) (initialHead s)
        (splay.InsertAfter node (length (heap s)) (treeByIndex s))
        (llrb.Put (TextNodeID.split (TextNode.id n) k) (length (heap s))
           (treeByID s)),
      Some (length (heap s))).
Proof.
  intros Hn Hk Hx Hi. unfold splitTextNode.
  rewrite (getNode_lookup _ _ _ Hn). simpl.
  destruct (TextNode.contentLen n <? k) eqn:E1;
    [apply Z.ltb_lt in E1; lia|].
  destruct (k =? 0) eqn:E2; [apply Z.eqb_eq in E2; lia|].
  destruct (k =? TextNode.contentLen n) eqn:E3; [apply Z.eqb_eq in E3; lia|].
  unfold split. rewrite (getNode_lookup _ _ _ Hn). simpl.
  destruct (k <? 0) eqn:E4; [apply Z.ltb_lt in E4; lia|]. simpl.
  rewrite E1. simpl. rewrite length_alter.
  fold (split_alloc (heap s) node n k).
  pose proof (lookup_lt_Some _ _ _ Hn) as Hlt.
  assert (split_alloc (heap s) node n k !! node =
          Some (TextNode.set_value
                  (slice_to (Z.to_nat k) (TextNode.value n)) n)) as Hp.
  { unfold split_alloc. rewrite lookup_app_l by (rewrite length_alter; lia).
    rewrite list_lookup_alter_eq, Hn. reflexivity. }
  assert (split_alloc (heap s) node n k !! length (heap s) =
          Some (TextNode.newTextNode (TextNodeID.split (TextNode.id n) k)
                  (slice_from (Z.to_nat k) (TextNode.value n)))) as Hf.
  { unfold split_alloc. rewrite lookup_app_r by (rewrite length_alter; lia).
    rewrite length_alter, Nat.sub_diag. reflexivity. }
  match goal with |- context [InsertAfter ?s1 node ?f] =>
    assert (InsertAfter s1 node f =
            Ok (RGATreeSplit.mk
                  (insertAfter_heap (split_alloc (heap s) node n k) node
                     (length (heap s)) (TextNode.next n))
                  (initialHead s)
                  (splay.InsertAfter node (length (heap s)) (treeByIndex s))
                  (llrb.Put (TextNodeID.split (TextNode.id n) k)
                     (length (heap s)) (treeByID s)))) as ->
  end.
  { apply InsertAfter_spec. simpl. eexists _, _.
    split; [exact Hp|]. split; [exact Hf|]. simpl.
    split; [|reflexivity].
    intros x Hxx. rewrite length_split_alloc. specialize (Hx x Hxx). lia. }
  simpl.
  assert (∃ n2, insertAfter_heap (split_alloc (heap s) node n k) node
                  (length (heap s)) (TextNode.next n) !! node = Some n2 ∧
                TextNode.insNext n2 = TextNode.insNext n) as (n2 & Hn2 & Hi2).
  { apply (fmap_Some_proj TextNode.insNext).
    rewrite insertAfter_heap_proj by reflexivity. rewrite Hp. reflexivity. }
  rewrite (getNode_lookup _ _ _ Hn2). simpl. rewrite Hi2.
  unfold split_final, relink_heap.
  destruct (TextNode.insNext n) as [i|] eqn:Ei.
  - match goal with |- context [SetInsPrev ?h i ?f] =>
      assert (SetInsPrev h i f =
              Ok (alter (TextNode.set_insNext (Some i)) f
                    (alter (TextNode.set_insPrev (Some f)) i h))) as ->
    end.
    { apply SetInsPrev_spec.
      rewrite length_insertAfter_heap, length_split_alloc.
      specialize (Hi i eq_refl). repeat split; lia. }
    simpl.
    match goal with |- context [SetInsPrev ?h ?f node] =>
      assert (SetInsPrev h f node =
              Ok (alter (TextNode.set_insNext (Some f)) node
                    (alter (TextNode.set_insPrev (Some node)) f h))) as ->
    end.
    { apply SetInsPrev_spec.
      rewrite !length_alter, length_insertAfter_heap, length_split_alloc.
      repeat split; lia. }
    reflexivity.
  - simpl.
    match goal with |- context [SetInsPrev ?h ?f node] =>
      assert (SetInsPrev h f node =
              Ok (alter (TextNode.set_insNext (Some f)) node
                    (alter (TextNode.set_insPrev (Some node)) f h))) as ->
    end.
    { apply SetInsPrev_spec.
      rewrite length_insertAfter_heap, length_split_alloc.
      repeat split; lia. }
    reflexivity.
Qed.

(** The nodes of the store after a proper split. *)
Lemma split_final_lookup (hp : Heap) (node : handle) (n : TextNode.t) (k : Z)
    (j : handle) :
  hp !! node = Some n →
  TextNode.next n ≠ Some node → TextNode.insNext n ≠ Some node →
  (∀ x, TextNode.next n = Some x → (x < length hp)%nat) →
  (∀ i, TextNode.insNext n = Some i → (i < length hp)%nat) →
  split_final hp node n k !! j =
    if decide (j = node) then Some (split_left n k (length hp))
    else if decide (j = length hp) then Some (split_right n k node)
    else split_other n (length hp) j <$> hp !! j.
Proof.
  intros Hn Hnx Hni Hx Hi.
  pose proof (lookup_lt_Some _ _ _ Hn) as Hlt.
  unfold split_final, relink_heap, insertAfter_heap, split_alloc.
  destruct (TextNode.next n) as [x|] eqn:Ex;
    destruct (TextNode.insNext n) as [i|] eqn:Ei;
    try specialize (Hx _ eq_refl); try specialize (Hi _ eq_refl);
    repeat (rewrite list_lookup_alter; repeat (case_decide; subst; try lia;
                                               try congruence));
    rewrite ?lookup_app, ?list_lookup_alter_eq, ?Hn; simpl;
    rewrite ?length_alter, ?Nat.sub_diag; simpl.
  all: try (rewrite (lookup_ge_None_2 _ (length hp))
                by (rewrite length_alter; lia)).
  all: try (rewrite (list_lookup_alter_ne _ _ node j) by congruence).
  all: try (unfold split_left; destruct n; simpl in *; subst; reflexivity).
  all: try (unfold split_right, TextNode.newTextNode; simpl;
            rewrite ?Ex, ?Ei; reflexivity).
  all: unfold split_other; rewrite ?Ex, ?Ei;
    destruct (hp !! j) as [y|] eqn:Ej; simpl;
    [ repeat case_decide; try congruence; destruct y; reflexivity
    | apply lookup_ge_None_1 in Ej;
      destruct (j - length hp)%nat as [|d] eqn:Ed; [lia|]; simpl;
      rewrite ?lookup_nil; reflexivity ].
Qed.

(** ** Linked segments *)

Lemma hd_or_app (l1 l2 : list handle) (q : option handle) :
  hd_or (l1 ++ l2) q = hd_or l1 (hd_or l2 q).
Proof. destruct l1; reflexivity. Qed.

Lemma last_or_cons (h : handle) (l : list handle) (p : option handle) :
  last_or (h :: l) p = last_or l (Some h).
Proof.
  unfold last_or. destruct l as [|x l]; [reflexivity|].
  change (last (h :: x :: l)) with (last (x :: l)).
  destruct (last (x :: l)) eqn:E; [reflexivity|].
  apply last_None in E. discriminate.
Qed.

Lemma lseg_app (hp : Heap) (p q : option handle) (l1 l2 : list handle) :
  lseg hp p (l1 ++ l2) q ↔
  lseg hp p l1 (hd_or l2 q) ∧ lseg hp (last_or l1 p) l2 q.
Proof.
  revert p. induction l1 as [|h l1 IH]; intros p; simpl.
  - unfold last_or. simpl. tauto.
  - rewrite last_or_cons, hd_or_app. split.
    + intros (n & Hn & Hp & Hx & Hl). apply IH in Hl as [H1 H2].
      split; [|exact H2]. exists n. auto.
    + intros [(n & Hn & Hp & Hx & Hl) H2]. exists n.
      repeat split; auto. apply IH. auto.
Qed.

Lemma lseg_frame (hp hp' : Heap) (p q : option handle) (l : list handle) :
  (∀ h, h ∈ l → links <$> hp' !! h = links <$> hp !! h) →
  lseg hp p l q → lseg hp' p l q.
Proof.
  revert p. induction l as [|h l IH]; intros p Hf; simpl; [auto|].
  intros (n & Hn & Hp & Hx & Hl).
  pose proof (Hf h ltac:(apply elem_of_cons; auto)) as Hh.
  rewrite Hn in Hh. apply fmap_Some_proj in Hh as (n' & Hn' & Hlk).
  injection Hlk as Hp' Hx'.
  exists n'. repeat split; try congruence.
  apply IH; [|exact Hl]. intros h' Hh'. apply Hf, elem_of_cons. auto.
Qed.

Lemma lseg_lookup (hp : Heap) (p q : option handle) (l : list handle)
    (h : handle) :
  lseg hp p l q → h ∈ l → is_Some (hp !! h).
Proof.
  revert p. induction l as [|x l IH]; intros p Hl Hh; [inversion Hh|].
  destruct Hl as (n & Hn & _ & _ & Hl).
  apply elem_of_cons in Hh as [->|Hh]; [eauto|]. eapply IH; eauto.
Qed.

(** The node in the middle of a segment. *)
Lemma lseg_middle (hp : Heap) (p q : option handle) (l1 l2 : list handle)
    (h : handle) :
  lseg hp p (l1 ++ h :: l2) q →
  ∃ n, hp !! h = Some n ∧ TextNode.prev n = last_or l1 p ∧
       TextNode.next n = hd_or l2 q.
Proof.
  intros [_ H]%lseg_app. destruct H as (n & Hn & Hp & Hx & _). eauto.
Qed.

(** ** The traversal *)

Lemma chain_valid (s : RGATreeSplit.t) (l : list handle) (h : handle) :
  chain s l → h ∈ l → is_Some (heap s !! h).
Proof. intros [_ _ Hl _] Hh. eapply lseg_lookup; eauto. Qed.

Lemma chain_elem (s : RGATreeSplit.t) (l : list handle) (h : handle) :
  chain s l → (h ∈ l ↔ (h < length (heap s))%nat).
Proof.
  intros Hc. split.
  - intros Hh. apply lookup_lt_is_Some. eapply chain_valid; eauto.
  - apply (chain_all _ _ Hc).
Qed.

Lemma chain_length (s : RGATreeSplit.t) (l : list handle) :
  chain s l → length l = length (heap s).
Proof.
  intros Hc.
  assert (l ≡ₚ seq 0 (length (heap s))) as HP.
  { apply NoDup_Permutation.
    - apply (chain_nodup _ _ Hc).
    - apply NoDup_seq.
    - intros x. rewrite (chain_elem _ _ _ Hc), elem_of_seq. lia. }
  rewrite HP. apply length_seq.
Qed.

Lemma chain_split_at (s : RGATreeSplit.t) (l : list handle) (h : handle)
    (n : TextNode.t) :
  chain s l → heap s !! h = Some n →
  ∃ l1 l2, l = l1 ++ h :: l2 ∧ (h ∉ l1) ∧ (h ∉ l2) ∧
           TextNode.prev n = last_or l1 None ∧ TextNode.next n = hd_or l2 None.
Proof.
  intros Hc Hn.
  assert (h ∈ l) as Hh.
  { apply (chain_elem _ _ _ Hc). eapply lookup_lt_Some, Hn. }
  apply list_elem_of_split in Hh as (l1 & l2 & ->).
  exists l1, l2. split; [reflexivity|].
  pose proof (chain_nodup _ _ Hc) as Hnd.
  apply NoDup_app in Hnd as (_ & Hd & Hnd2).
  apply NoDup_cons in Hnd2 as [Hn2 _].
  split. { intros Hin. apply (Hd _ Hin). apply elem_of_cons. auto. }
  split; [exact Hn2|].
  destruct (lseg_middle _ _ _ _ _ _ (chain_lseg _ _ Hc))
    as (n' & Hn' & Hp & Hx).
  rewrite Hn in Hn'. injection Hn' as <-. auto.
Qed.

(** In a traversal, the successor of a node is a node, and is not the node
    itself. *)
Lemma chain_next (s : RGATreeSplit.t) (l : list handle) (h x : handle)
    (n : TextNode.t) :
  chain s l → heap s !! h = Some n → TextNode.next n = Some x →
  (x < length (heap s))%nat ∧ x ≠ h ∧ x ≠ initialHead s.
Proof.
  intros Hc Hn Hx.
  destruct (chain_split_at _ _ _ _ Hc Hn) as (l1 & l2 & -> & H1 & H2 & _ & Hn2).
  rewrite Hx in Hn2. destruct l2 as [|y l2]; [discriminate|].
  injection Hn2 as <-.
  split. { apply (chain_elem _ _ _ Hc). rewrite elem_of_app, !elem_of_cons. auto. }
  split. { intros ->. apply H2, elem_of_cons. auto. }
  intros ->. pose proof (chain_head _ _ Hc) as Hh.
  pose proof (chain_nodup _ _ Hc) as Hnd.
  destruct l1 as [|z l1]; simpl in Hh.
  - injection Hh as ->. apply H2, elem_of_cons. auto.
  - injection Hh as ->. apply NoDup_cons in Hnd as [Hnd _].
    apply Hnd. rewrite elem_of_app, !elem_of_cons. auto.
Qed.

Lemma splay_InsertAfter_middle (l1 l2 : list handle) (ref node : handle) :
  ref ∉ l1 →
  splay.InsertAfter ref node (l1 ++ ref :: l2) = l1 ++ ref :: node :: l2.
Proof.
  induction l1 as [|x l1 IH]; intros Hn; simpl.
  - rewrite decide_True by reflexivity. reflexivity.
  - rewrite decide_False.
    + f_equal. apply IH. intros H. apply Hn, elem_of_cons. auto.
    + intros ->. apply Hn, elem_of_cons. auto.
Qed.

(** ** Well-formed states: what the invariants give *)

Lemma wf_next_valid (s : RGATreeSplit.t) (h x : handle) (n : TextNode.t) :
  wf s → heap s !! h = Some n → TextNode.next n = Some x →
  (x < length (heap s))%nat ∧ x ≠ h ∧ x ≠ initialHead s.
Proof. intros Hwf. apply chain_next with (l := treeByIndex s), Hwf. Qed.

Lemma wf_insNext_valid (s : RGATreeSplit.t) (h i : handle) (n : TextNode.t) :
  wf s → heap s !! h = Some n → TextNode.insNext n = Some i →
  (i < length (heap s))%nat ∧ i ≠ h.
Proof.
  intros Hwf Hn Hi.
  destruct (ins_next _ _ _ (wf_ins _ Hwf _ _ Hn) _ Hi) as (mn & Hm & Hp).
  split; [eapply lookup_lt_Some, Hm|].
  intros ->. rewrite Hn in Hm. injection Hm as <-.
  destruct (ins_prev _ _ _ (wf_ins _ Hwf _ _ Hn) _ Hp) as (pn & Hpn & _ & _ & _ & Hlt).
  rewrite Hn in Hpn. injection Hpn as <-. lia.
Qed.

Lemma wf_head_empty (s : RGATreeSplit.t) (n : TextNode.t) :
  wf s → heap s !! initialHead s = Some n → TextNode.contentLen n = 0.
Proof.
  intros Hwf Hn. destruct (wf_head _ Hwf) as (n' & Hn' & Hv).
  rewrite Hn in Hn'. injection Hn' as <-.
  unfold TextNode.contentLen. rewrite Hv. reflexivity.
Qed.

Lemma contentLen_slice_to (k : Z) (v : string) :
  0 ≤ k ≤ len v → len (slice_to (Z.to_nat k) v) = k.
Proof.
  unfold len. intros H. rewrite length_slice_to; lia.
Qed.

Lemma contentLen_slice_from (k : Z) (v : string) :
  0 ≤ k ≤ len v → len (slice_from (Z.to_nat k) v) = len v - k.
Proof.
  unfold len. intros H. rewrite length_slice_from. lia.
Qed.

(** ** A proper split keeps the state well-formed *)

Section SplitProper.

Variables (s : RGATreeSplit.t) (node : handle) (n : TextNode.t) (k : Z).
Hypothesis Hwf : wf s.
Hypothesis Hn : heap s !! node = Some n.
Hypothesis Hk : 0 < k < TextNode.contentLen n.

Local Abbreviation f := (length (heap s)).
Local Abbreviation hp' := (split_final (heap s) node n k).
Local Abbreviation s' :=
  (RGATreeSplit.mk hp' (initialHead s)
     (splay.InsertAfter node f (treeByIndex s))
     (llrb.Put (TextNodeID.split (TextNode.id n) k) f (treeByID s))).

Lemma split_returns : splitTextNode s node k = Ok (s', Some f).
Proof.
  apply splitTextNode_split; auto.
  - intros x Hx. eapply wf_next_valid; eauto.
  - intros i Hi. eapply wf_insNext_valid; eauto.
Qed.

Lemma split_lookup (j : handle) :
  hp' !! j =
    if decide (j = node) then Some (split_left n k f)
    else if decide (j = f) then Some (split_right n k node)
    else split_other n f j <$> heap s !! j.
Proof.
  apply split_final_lookup; auto.
  - intros Hx. destruct (wf_next_valid _ _ _ _ Hwf Hn Hx) as (_ & H & _).
    congruence.
  - intros Hi. destruct (wf_insNext_valid _ _ _ _ Hwf Hn Hi) as (_ & H).
    congruence.
  - intros x Hx. eapply wf_next_valid; eauto.
  - intros i Hi. eapply wf_insNext_valid; eauto.
Qed.

Lemma split_node_lt : (node < f)%nat.
Proof. eapply lookup_lt_Some, Hn. Qed.

Lemma split_lookup_node : hp' !! node = Some (split_left n k f).
Proof. rewrite split_lookup, decide_True by reflexivity. reflexivity. Qed.

Lemma split_lookup_new : hp' !! f = Some (split_right n k node).
Proof.
  pose proof split_node_lt.
  rewrite split_lookup, decide_False, decide_True by lia. reflexivity.
Qed.

Lemma split_lookup_other (j : handle) (y : TextNode.t) :
  j ≠ node → heap s !! j = Some y →
  hp' !! j = Some (split_other n f j y).
Proof.
  intros Hj Hy. pose proof (lookup_lt_Some _ _ _ Hy).
  rewrite split_lookup, decide_False, decide_False, Hy by lia.
  reflexivity.
Qed.

(** Every node of the new store is the left part, the new node, or an old
    node with its back links redirected. *)
Lemma split_lookup_inv (j : handle) (y' : TextNode.t) :
  hp' !! j = Some y' →
  (j = node ∧ y' = split_left n k f) ∨
  (j = f ∧ y' = split_right n k node) ∨
  (j ≠ node ∧ j ≠ f ∧ ∃ y, heap s !! j = Some y ∧ y' = split_other n f j y).
Proof.
  rewrite split_lookup. repeat case_decide.
  - intros [= <-]. auto.
  - intros [= <-]. auto.
  - destruct (heap s !! j) as [y|]; simpl; intros [= <-]. eauto 10.
Qed.

Lemma split_not_head : node ≠ initialHead s.
Proof.
  intros ->. pose proof (wf_head_empty _ _ Hwf Hn). lia.
Qed.

Lemma split_new_offset :
  TextNodeID.split (TextNode.id n) k =
  TextNodeID.mk (TextNode.createdAt n) (offset_of n + k).
Proof.
  unfold TextNodeID.split, TextNodeID.NewTextNodeID, int_add.
  destruct (ins_range _ _ _ (wf_ins _ Hwf _ _ Hn)) as [H1 H2].
  pose proof (len_nonneg (TextNode.value n)).
  rewrite wrap_id; [reflexivity|].
  unfold offset_of, int_min, int_max, TextNode.contentLen in *. lia.
Qed.

Lemma split_head_ok : head_ok s'.
Proof.
  destruct (wf_head _ Hwf) as (hn & Hh & Hv).
  exists (split_other n f (initialHead s) hn). simpl.
  split; [|auto].
  apply split_lookup_other; [|exact Hh].
  intros E. apply split_not_head. auto.
Qed.

Lemma split_ins_inv : ins_inv hp'.
Proof.
  pose proof split_node_lt as Hlt.
  pose proof (wf_ins _ Hwf) as Hins.
  pose proof (Hins _ _ Hn) as [[Hr1 Hr2] Hhp Hip Hin].
  pose proof (len_nonneg (TextNode.value n)) as Hlen.
  assert (offset_of (split_right n k node) = offset_of n + k) as Hoff.
  { unfold offset_of, split_right. cbn [TextNode.id].
    rewrite split_new_offset. reflexivity. }
  assert (TextNode.contentLen (split_right n k node)
          = TextNode.contentLen n - k) as Hlr.
  { unfold TextNode.contentLen, split_right. simpl.
    apply contentLen_slice_from. unfold TextNode.contentLen in Hk. lia. }
  assert (TextNode.contentLen (split_left n k f) = k) as Hll.
  { unfold TextNode.contentLen, split_left. simpl.
    apply contentLen_slice_to. unfold TextNode.contentLen in Hk. lia. }
  assert (TextNode.createdAt (split_right n k node) = TextNode.createdAt n)
    as Hcr.
  { unfold TextNode.createdAt at 1. unfold split_right. cbn [TextNode.id].
    rewrite split_new_offset. reflexivity. }
  intros j y' Hj.
  apply split_lookup_inv in Hj
    as [[-> ->]|[[-> ->]|(Hj1 & Hj2 & y & Hy & ->)]].
  - (* the left part *)
    constructor.
    + rewrite Hll. unfold offset_of in *. simpl. lia.
    + exact Hhp.
    + simpl. intros p Hp.
      destruct (Hip p Hp) as (pn & Hpn & Hpx & Hpc & Hpo & Hpl).
      assert (p ≠ node) as Hne.
      { intros ->. rewrite Hn in Hpn. injection Hpn as <-. lia. }
      exists (split_other n f p pn).
      split; [apply split_lookup_other; auto|].
      unfold offset_of, TextNode.createdAt, TextNode.contentLen in *.
      simpl. auto.
    + simpl. intros m [= <-]. exists (split_right n k node).
      split; [apply split_lookup_new | reflexivity].
  - (* the new node *)
    constructor.
    + rewrite Hoff, Hlr. lia.
    + intros _. simpl. eauto.
    + simpl. intros p [= <-]. exists (split_left n k f).
      split; [apply split_lookup_node|].
      split; [reflexivity|]. split; [rewrite Hcr; reflexivity|].
      rewrite Hoff, Hll. unfold offset_of. simpl. lia.
    + simpl. intros m Hm.
      destruct (Hin m Hm) as (mn & Hmn & Hmp).
      destruct (wf_insNext_valid _ _ _ _ Hwf Hn Hm) as [_ Hne].
      exists (split_other n f m mn).
      split; [apply split_lookup_other; auto|].
      simpl. rewrite decide_True by exact Hm. reflexivity.
  - (* an old node *)
    pose proof (Hins _ _ Hy) as [[Hyr1 Hyr2] Hyhp Hyip Hyin].
    constructor.
    + unfold offset_of, TextNode.contentLen in *. simpl. lia.
    + simpl. case_decide; [eauto|]. exact Hyhp.
    + simpl. intros p Hp. case_decide as Hd.
      * injection Hp as <-.
        destruct (Hin j Hd) as (mn & Hmn & Hmp).
        rewrite Hy in Hmn. injection Hmn as <-.
        destruct (Hyip node Hmp) as (pn & Hpn & Hpx & Hpc & Hpo & Hpl).
        rewrite Hn in Hpn. injection Hpn as <-.
        exists (split_right n k node).
        split; [apply split_lookup_new|].
        split; [exact Hd|].
        split; [rewrite Hcr; exact Hpc|].
        rewrite Hoff, Hlr.
        unfold offset_of, TextNode.contentLen in *. simpl. lia.
      * destruct (Hyip p Hp) as (pn & Hpn & Hpx & Hpc & Hpo & Hpl).
        assert (p ≠ node) as Hne.
        { intros ->. rewrite Hn in Hpn. injection Hpn as <-. auto. }
        exists (split_other n f p pn).
        split; [apply split_lookup_other; auto|].
        unfold offset_of, TextNode.createdAt, TextNode.contentLen in *.
        simpl. auto.
    + simpl. intros m Hm.
      destruct (Hyin m Hm) as (mn & Hmn & Hmp).
      destruct (decide (m = node)) as [->|Hne].
      * rewrite Hn in Hmn. injection Hmn as <-.
        exists (split_left n k f).
        split; [apply split_lookup_node | exact Hmp].
      * exists (split_other n f m mn).
        split; [apply split_lookup_other; auto|].
        simpl. rewrite decide_False; [exact Hmp|].
        intros Hd. destruct (Hin m Hd) as (mn' & Hmn' & Hmp').
        rewrite Hmn in Hmn'. injection Hmn' as <-.
        rewrite Hmp in Hmp'. injection Hmp' as ->. auto.
Qed.

Lemma split_links_other (j : handle) :
  j ≠ node → j ≠ f → TextNode.next n ≠ Some j →
  links <$> hp' !! j = links <$> heap s !! j.
Proof.
  intros H1 H2 H3. rewrite split_lookup, decide_False, decide_False by auto.
  destruct (heap s !! j) as [y|]; simpl; [|reflexivity].
  unfold links, split_other. simpl. rewrite decide_False by auto.
  reflexivity.
Qed.

Lemma split_chain_shape :
  ∃ l1 l2, treeByIndex s = l1 ++ node :: l2 ∧
           treeByIndex s' = l1 ++ node :: f :: l2 ∧
           (node ∉ l1) ∧ (node ∉ l2) ∧
           TextNode.next n = hd_or l2 None.
Proof.
  destruct (chain_split_at _ _ _ _ (wf_chain _ Hwf) Hn)
    as (l1 & l2 & Hl & H1 & H2 & Hp & Hx).
  exists l1, l2. split; [exact Hl|]. split; [|auto].
  simpl. rewrite Hl. apply splay_InsertAfter_middle, H1.
Qed.

Lemma split_chain : chain s' (treeByIndex s').
Proof.
  pose proof (wf_chain _ Hwf) as Hc.
  pose proof split_node_lt as Hlt.
  destruct (chain_split_at _ _ _ _ Hc Hn)
    as (l1 & l2 & Hl & H1 & H2 & Hp & Hx).
  assert (treeByIndex s' = l1 ++ node :: f :: l2) as Hl'.
  { simpl. rewrite Hl. apply splay_InsertAfter_middle, H1. }
  rewrite Hl'.
  destruct Hc as [Hhd Hnd Hls Hall]. rewrite Hl in Hhd, Hnd, Hls, Hall.
  assert (∀ h, h ∈ l1 ++ node :: l2 → (h < f)%nat) as Hval.
  { intros h Hh. apply lookup_lt_is_Some. eapply lseg_lookup; eauto. }
  assert (f ∉ l1 ++ node :: l2) as Hfresh.
  { intros Hf. apply Hval in Hf. lia. }
  apply NoDup_app in Hnd as (Hnd1 & Hdisj & Hnd2).
  apply NoDup_cons in Hnd2 as [_ Hnd2].
  apply lseg_app in Hls as [Hls1 Hls2].
  simpl in Hls2. destruct Hls2 as (n0 & Hn0 & Hp0 & Hx0 & Hls2).
  rewrite Hn in Hn0. injection Hn0 as <-.
  constructor.
  - destruct l1; exact Hhd.
  - apply NoDup_app. split; [exact Hnd1|]. split.
    + intros x Hx1 Hx2. apply elem_of_cons in Hx2 as [->|Hx2]; [auto|].
      apply elem_of_cons in Hx2 as [->|Hx2].
      * apply Hfresh, elem_of_app. auto.
      * eapply Hdisj; eauto. apply elem_of_cons. auto.
    + apply NoDup_cons. split.
      * intros Hin. apply elem_of_cons in Hin as [->|Hin]; [lia|auto].
      * apply NoDup_cons. split; [|exact Hnd2].
        intros Hin. apply Hfresh, elem_of_app. right.
        apply elem_of_cons. auto.
  - apply lseg_app. split.
    + eapply lseg_frame; [|exact Hls1]. intros h Hh.
      assert (h ≠ node) by (intros ->; auto).
      apply split_links_other; auto.
      * intros ->. apply Hfresh, elem_of_app. auto.
      * rewrite Hx. destruct l2 as [|x l2]; [discriminate|].
        simpl. intros [= ->]. eapply Hdisj; eauto.
        rewrite !elem_of_cons. auto.
    + simpl. exists (split_left n k f).
      split; [apply split_lookup_node|]. split; [exact Hp|].
      split; [reflexivity|].
      exists (split_right n k node).
      split; [apply split_lookup_new|]. split; [reflexivity|].
      split; [exact Hx|].
      destruct l2 as [|x l2]; [exact I|].
      simpl in Hls2. destruct Hls2 as (xn & Hxn & Hxp & Hxx & Hls3).
      assert (x ≠ node) as Hxne.
      { intros ->. apply H2, elem_of_cons. auto. }
      simpl. exists (split_other n f x xn).
      split; [apply split_lookup_other; auto|].
      simpl. rewrite decide_True by exact Hx.
      split; [reflexivity|]. split; [exact Hxx|].
      eapply lseg_frame; [|exact Hls3]. intros h Hh.
      apply NoDup_cons in Hnd2 as [Hxl2 _].
      apply split_links_other.
      * intros ->. apply H2, elem_of_cons. auto.
      * intros ->. apply Hfresh, elem_of_app. right.
        rewrite !elem_of_cons. auto.
      * rewrite Hx. simpl. intros [= ->]. auto.
  - intros h Hh. simpl in Hh.
    rewrite length_split_final in Hh.
    destruct (decide (h = f)) as [->|Hne].
    + rewrite elem_of_app, !elem_of_cons. auto.
    + assert (h ∈ l1 ++ node :: l2) as Hin by (apply Hall; lia).
      rewrite elem_of_app, !elem_of_cons in *. tauto.
Qed.

Lemma split_new_key_ok : key_ok (TextNodeID.split (TextNode.id n) k).
Proof.
  rewrite split_new_offset. unfold key_ok. simpl.
  destruct (ins_range _ _ _ (wf_ins _ Hwf _ _ Hn)) as [H1 H2].
  unfold TextNode.contentLen in *. lia.
Qed.

Lemma split_keys_ok : keys_ok (treeByID s).
Proof.
  pose proof (idx_entries _ (wf_idx _ Hwf)) as H.
  unfold keys_ok. eapply Forall_impl; [exact H|].
  intros e [He _]. exact He.
Qed.

Lemma split_idx_inv : idx_inv s'.
Proof.
  pose proof (wf_idx _ Hwf) as [Hs He].
  pose proof split_keys_ok as Hko.
  pose proof split_new_key_ok as Hnk.
  constructor; simpl.
  - apply LLRB.Put_sorted; auto.
  - apply Forall_forall. intros e Hin.
    apply LLRB.Put_elem in Hin as [->|Hin]; auto.
    + split; [exact Hnk|]. simpl. exists (split_right n k node).
      split; [apply split_lookup_new | reflexivity].
    + rewrite Forall_forall in He. destruct (He e Hin) as [Hk1 (y & Hy & Hid)].
      split; [exact Hk1|].
      destruct (decide (snd e = node)) as [E|Hne].
      * rewrite E in *. rewrite Hn in Hy. injection Hy as <-.
        exists (split_left n k f). split; [apply split_lookup_node|].
        exact Hid.
      * exists (split_other n f (snd e) y).
        split; [apply split_lookup_other; auto | exact Hid].
Qed.

Lemma split_wf : wf s'.
Proof.
  constructor.
  - apply split_chain.
  - apply split_head_ok.
  - apply split_ins_inv.
  - apply split_idx_inv.
Qed.

End SplitProper.

Lemma keys_ok_of_wf (s : RGATreeSplit.t) : wf s → keys_ok (treeByID s).
Proof.
  intros Hwf. pose proof (idx_entries _ (wf_idx _ Hwf)) as H.
  unfold keys_ok. eapply Forall_impl; [exact H|].
  intros e [He _]. exact He.
Qed.

(** [splitTextNode] keeps the state well-formed, whichever case applies. *)
Lemma wf_splitTextNode (s s' : RGATreeSplit.t) (node : handle) (k : Z)
    (r : option handle) :
  wf s → splitTextNode s node k = Ok (s', r) → wf s'.
Proof.
  intros Hwf H.
  destruct (splitTextNode_cases _ _ _ _ _ H) as (n & Hn & [->|[[Hk ->]|Hk]]).
  - rewrite (splitTextNode_zero _ _ _ Hn) in H. injection H as <- <-. exact Hwf.
  - rewrite (splitTextNode_full _ _ _ Hn Hk) in H. injection H as <- <-.
    exact Hwf.
  - rewrite (split_returns _ _ _ _ Hwf Hn Hk) in H. injection H as <- <-.
    apply split_wf; assumption.
Qed.

(** ** Changes that touch tombstones only *)

Lemma shape_inv (a b : TextNode.t) :
  shape a = shape b →
  TextNode.id a = TextNode.id b ∧ TextNode.value a = TextNode.value b ∧
  TextNode.prev a = TextNode.prev b ∧ TextNode.next a = TextNode.next b ∧
  TextNode.insPrev a = TextNode.insPrev b ∧
  TextNode.insNext a = TextNode.insNext b.
Proof.
  unfold shape. intros H. injection H as ? ? ? ? ? ?.
  repeat split; assumption.
Qed.

Lemma wf_same_shape (s s' : RGATreeSplit.t) :
  wf s →
  initialHead s' = initialHead s →
  treeByIndex s' = treeByIndex s →
  treeByID s' = treeByID s →
  length (heap s') = length (heap s) →
  (∀ j, shape <$> heap s' !! j = shape <$> heap s !! j) →
  wf s'.
Proof.
  intros [Hc Hh Hi [Hs He]] Ehd Eix Eid Hlen Hsh.
  assert (∀ j y, heap s !! j = Some y →
            ∃ y', heap s' !! j = Some y' ∧ shape y' = shape y) as Hfw.
  { intros j y Hy. specialize (Hsh j). rewrite Hy in Hsh.
    apply fmap_Some_proj in Hsh. exact Hsh. }
  assert (∀ j y', heap s' !! j = Some y' →
            ∃ y, heap s !! j = Some y ∧ shape y' = shape y) as Hbw.
  { intros j y' Hy. specialize (Hsh j). rewrite Hy in Hsh.
    symmetry in Hsh. apply fmap_Some_proj in Hsh as (y & ? & ?). eauto. }
  constructor.
  - rewrite Eix. destruct Hc as [H1 H2 H3 H4]. constructor.
    + congruence.
    + exact H2.
    + eapply lseg_frame; [|exact H3]. intros h _.
      specialize (Hsh h).
      destruct (heap s' !! h) as [a|], (heap s !! h) as [b|];
        simpl in *; try discriminate; [|reflexivity].
      assert (shape a = shape b) as Hab by congruence.
      apply shape_inv in Hab as (? & ? & ? & ? & ? & ?).
      unfold links. congruence.
    + rewrite Hlen. exact H4.
  - destruct Hh as (n & Hn & Hv). unfold head_ok. rewrite Ehd.
    destruct (Hfw _ _ Hn) as (n' & Hn' & Hs').
    exists n'. split; [exact Hn'|].
    apply shape_inv in Hs' as (? & ? & ? & ? & ? & ?). congruence.
  - intros j y' Hy'. destruct (Hbw _ _ Hy') as (y & Hy & Hsy).
    apply shape_inv in Hsy as (Eid' & Ev & Ep & En & Eip & Ein).
    destruct (Hi _ _ Hy) as [Hr Hhp Hip Hin].
    unfold offset_of, TextNode.contentLen, TextNode.createdAt in *.
    constructor; unfold offset_of, TextNode.contentLen, TextNode.createdAt.
    + rewrite Eid', Ev. exact Hr.
    + rewrite Eid', Eip. exact Hhp.
    + rewrite Eip. intros p Hp.
      destruct (Hip p Hp) as (pn & Hpn & H1 & H2 & H3 & H4).
      destruct (Hfw _ _ Hpn) as (pn' & Hpn' & Hsp).
      apply shape_inv in Hsp as (? & ? & ? & ? & ? & ?).
      exists pn'. split; [exact Hpn'|]. rewrite Eid'.
      repeat split; congruence.
    + rewrite Ein. intros m Hm.
      destruct (Hin m Hm) as (mn & Hmn & H1).
      destruct (Hfw _ _ Hmn) as (mn' & Hmn' & Hsm).
      apply shape_inv in Hsm as (? & ? & ? & ? & ? & ?).
      exists mn'. split; [exact Hmn' | congruence].
  - constructor; rewrite Eid; [exact Hs|].
    eapply Forall_impl; [exact He|].
    intros e [Hk (y & Hy & Hid)]. split; [exact Hk|].
    destruct (Hfw _ _ Hy) as (y' & Hy' & Hsy).
    apply shape_inv in Hsy as (? & ? & ? & ? & ? & ?).
    exists y'. split; [exact Hy' | congruence].
Qed.

(** ** deleteNodes *)

Lemma delete_deletable (m : option (gmap string Ticket.t))
    (editedAt : Ticket.t) (n : TextNode.t) :
  TextNode.delete n editedAt
    (maxCreatedAtFor m (Ticket.ActorIDHex (TextNode.createdAt n))) =
  (tombstone m editedAt n, deletable m editedAt n).
Proof.
  unfold TextNode.delete, tombstone, deletable.
  destruct (negb _ && _); reflexivity.
Qed.

Lemma shape_tombstone (m : option (gmap string Ticket.t))
    (editedAt : Ticket.t) (n : TextNode.t) :
  shape (tombstone m editedAt n) = shape n.
Proof. unfold tombstone. destruct (deletable m editedAt n); reflexivity. Qed.

Lemma tombstoned_tickets_ext (hp hp' : Heap)
    (m : option (gmap string Ticket.t)) (editedAt : Ticket.t)
    (cs : list handle) :
  (∀ h, h ∈ cs → hp' !! h = hp !! h) →
  tombstoned_tickets hp' m editedAt cs = tombstoned_tickets hp m editedAt cs.
Proof.
  induction cs as [|c cs IH]; intros H; [reflexivity|].
  simpl. rewrite (H c) by (apply elem_of_cons; auto).
  rewrite IH; [reflexivity|]. intros h Hh. apply H, elem_of_cons. auto.
Qed.

(** The loop of [deleteNodes] over distinct candidates: it returns, changes
    the candidates only, each by [tombstone], and folds [record_max] over the
    creation tickets of the nodes it tombstones. *)
Lemma deleteNodes_loop_spec (m : option (gmap string Ticket.t))
    (editedAt : Ticket.t) (candidates : list handle) :
  ∀ (s : RGATreeSplit.t) (acc : gmap string Ticket.t),
  NoDup candidates →
  (∀ h, h ∈ candidates → (h < length (heap s))%nat) →
  ∃ s', deleteNodes_loop s candidates m editedAt acc =
        Ok (s', foldl record_max acc
                  (tombstoned_tickets (heap s) m editedAt candidates)) ∧
    initialHead s' = initialHead s ∧
    treeByIndex s' = treeByIndex s ∧
    treeByID s' = treeByID s ∧
    length (heap s') = length (heap s) ∧
    ∀ j, heap s' !! j =
         if decide (j ∈ candidates)
         then tombstone m editedAt <$> heap s !! j
         else heap s !! j.
Proof.
  induction candidates as [|c cs IH]; intros s acc Hnd Hval.
  - exists s. simpl. repeat split; auto.
  - apply NoDup_cons in Hnd as [Hc Hnd].
    assert (c < length (heap s))%nat as Hlt
      by (apply Hval, elem_of_cons; auto).
    destruct (lookup_lt_is_Some_2 _ _ Hlt) as [n Hn].
    simpl. rewrite (getNode_lookup _ _ _ Hn). simpl.
    rewrite delete_deletable.
    rewrite Hn.
    destruct (deletable m editedAt n) eqn:Ed.
    + set (s1 := RGATreeSplit.mk (<[c:=tombstone m editedAt n]> (heap s))
                   (initialHead s) (splay.Splay c (treeByIndex s))
                   (treeByID s)).
      destruct (IH s1 (record_max acc (TextNode.createdAt n)) Hnd)
        as (s' & Hrun & H1 & H2 & H3 & H4 & H5).
      { intros h Hh. simpl. rewrite length_insert. apply Hval, elem_of_cons.
        auto. }
      assert (tombstoned_tickets (heap s1) m editedAt cs =
              tombstoned_tickets (heap s) m editedAt cs) as Ett.
      { apply tombstoned_tickets_ext. intros h Hh. simpl.
        apply list_lookup_insert_ne. intros ->. auto. }
      rewrite Ett in Hrun.
      exists s'. split.
      { simpl in Hrun |- *. unfold record_max in Hrun.
        unfold TextNode.createdAt in Hrun. exact Hrun. }
      simpl in *. rewrite length_insert in H4.
      repeat split; auto.
      intros j. rewrite H5.
      destruct (decide (j = c)) as [->|Hne].
      * rewrite decide_False by exact Hc.
        rewrite decide_True by (apply elem_of_cons; auto).
        rewrite list_lookup_insert_eq by exact Hlt. rewrite Hn. reflexivity.
      * rewrite list_lookup_insert_ne by auto.
        destruct (decide (j ∈ cs)) as [Hin|Hin].
        -- rewrite decide_True by (apply elem_of_cons; auto). reflexivity.
        -- rewrite decide_False; [reflexivity|].
           intros [?|?]%elem_of_cons; auto.
    + destruct (IH s acc Hnd) as (s' & Hrun & H1 & H2 & H3 & H4 & H5).
      { intros h Hh. apply Hval, elem_of_cons. auto. }
      exists s'. split; [exact Hrun|]. repeat split; auto.
      intros j. rewrite H5.
      destruct (decide (j = c)) as [->|Hne].
      * rewrite decide_False by exact Hc.
        rewrite decide_True by (apply elem_of_cons; auto).
        rewrite Hn. simpl. unfold tombstone. rewrite Ed. reflexivity.
      * destruct (decide (j ∈ cs)) as [Hin|Hin].
        -- rewrite decide_True by (apply elem_of_cons; auto). reflexivity.
        -- rewrite decide_False; [reflexivity|].
           intros [?|?]%elem_of_cons; auto.
Qed.

Lemma wf_deleteNodes (s s' : RGATreeSplit.t) (candidates : list handle)
    (m : option (gmap string Ticket.t)) (editedAt : Ticket.t)
    (deleted : gmap string Ticket.t) :
  wf s → NoDup candidates →
  (∀ h, h ∈ candidates → (h < length (heap s))%nat) →
  deleteNodes s candidates m editedAt = Ok (s', deleted) →
  wf s'.
Proof.
  intros Hwf Hnd Hval H. unfold deleteNodes in H.
  destruct (deleteNodes_loop_spec m editedAt candidates s ∅ Hnd Hval)
    as (s1 & Hrun & H1 & H2 & H3 & H4 & H5).
  rewrite Hrun in H. injection H as <- _.
  apply (wf_same_shape s); auto.
  intros j. rewrite H5. case_decide; [|reflexivity].
  destruct (heap s !! j); simpl; [|reflexivity].
  rewrite shape_tombstone. reflexivity.
Qed.

(** ** Linking a new node *)

Lemma length_insert_final (hp : Heap) (prev : handle) (p : TextNode.t)
    (id : TextNodeID.t) (content : string) :
  length (insert_final hp prev p id content) = S (length hp).
Proof.
  unfold insert_final. rewrite length_insertAfter_heap, length_app. simpl. lia.
Qed.

Lemma insert_final_lookup (hp : Heap) (prev : handle) (p : TextNode.t)
    (id : TextNodeID.t) (content : string) (j : handle) :
  hp !! prev = Some p →
  TextNode.next p ≠ Some prev →
  (∀ x, TextNode.next p = Some x → (x < length hp)%nat) →
  insert_final hp prev p id content !! j =
    if decide (j = prev) then Some (insert_left p (length hp))
    else if decide (j = length hp) then Some (insert_new id content prev p)
    else insert_other p (length hp) j <$> hp !! j.
Proof.
  intros Hp Hnx Hx.
  pose proof (lookup_lt_Some _ _ _ Hp) as Hlt.
  unfold insert_final, insertAfter_heap.
  destruct (TextNode.next p) as [x|] eqn:Ex;
    try specialize (Hx _ eq_refl);
    repeat (rewrite list_lookup_alter; repeat (case_decide; subst; try lia;
                                               try congruence));
    rewrite ?lookup_app, ?Hp; simpl;
    rewrite ?Nat.sub_diag; simpl.
  all: try (rewrite (lookup_ge_None_2 _ (length hp)) by lia).
  all: try (unfold insert_left; destruct p; simpl in *; subst; reflexivity).
  all: try (unfold insert_new, TextNode.newTextNode; simpl;
            rewrite ?Ex; reflexivity).
  all: unfold insert_other; rewrite ?Ex;
    destruct (hp !! j) as [y|] eqn:Ej; simpl;
    [ repeat case_decide; try congruence; destruct y; reflexivity
    | apply lookup_ge_None_1 in Ej;
      destruct (j - length hp)%nat as [|d] eqn:Ed; [lia|]; simpl;
      rewrite ?lookup_nil; reflexivity ].
Qed.

Section InsertNew.

Variables (s : RGATreeSplit.t) (prev : handle) (p : TextNode.t).
Variables (editedAt : Ticket.t) (content : string).
Hypothesis Hwf : wf s.
Hypothesis Hp : heap s !! prev = Some p.
Hypothesis Hlen : len content ≤ int_max.

Local Abbreviation f := (length (heap s)).
Local Abbreviation id := (TextNodeID.NewTextNodeID editedAt 0).
Local Abbreviation hp' := (insert_final (heap s) prev p id content).
Local Abbreviation s' :=
  (RGATreeSplit.mk hp' (initialHead s)
     (splay.InsertAfter prev f (treeByIndex s))
     (llrb.Put id f (treeByID s))).

Lemma insert_returns :
  InsertAfter
    (with_heap s (heap s ++ [TextNode.newTextNode id content])) prev f
  = Ok s'.
Proof.
  apply InsertAfter_spec. simpl.
  exists p, (TextNode.newTextNode id content).
  split. { apply lookup_app_l_Some, Hp. }
  split. { rewrite lookup_app_r by reflexivity.
           rewrite Nat.sub_diag. reflexivity. }
  split; [|reflexivity].
  intros x Hx. rewrite length_app. simpl.
  destruct (wf_next_valid _ _ _ _ Hwf Hp Hx). lia.
Qed.

Lemma insert_lookup (j : handle) :
  hp' !! j =
    if decide (j = prev) then Some (insert_left p f)
    else if decide (j = f) then Some (insert_new id content prev p)
    else insert_other p f j <$> heap s !! j.
Proof.
  apply insert_final_lookup; auto.
  - intros Hx. destruct (wf_next_valid _ _ _ _ Hwf Hp Hx) as (_ & H & _).
    congruence.
  - intros x Hx. eapply wf_next_valid; eauto.
Qed.

Lemma insert_prev_lt : (prev < f)%nat.
Proof. eapply lookup_lt_Some, Hp. Qed.

Lemma insert_lookup_prev : hp' !! prev = Some (insert_left p f).
Proof. rewrite insert_lookup, decide_True by reflexivity. reflexivity. Qed.

Lemma insert_lookup_new : hp' !! f = Some (insert_new id content prev p).
Proof.
  pose proof insert_prev_lt.
  rewrite insert_lookup, decide_False, decide_True by lia. reflexivity.
Qed.

Lemma insert_lookup_other (j : handle) (y : TextNode.t) :
  j ≠ prev → heap s !! j = Some y →
  hp' !! j = Some (insert_other p f j y).
Proof.
  intros Hj Hy. pose proof (lookup_lt_Some _ _ _ Hy).
  rewrite insert_lookup, decide_False, decide_False, Hy by lia.
  reflexivity.
Qed.

(** An old node keeps everything but, for the old successor, its [prev]. *)
Lemma insert_lookup_old (j : handle) (y : TextNode.t) :
  heap s !! j = Some y →
  ∃ y', hp' !! j = Some y' ∧ payload y' = payload y ∧
        TextNode.insPrev y' = TextNode.insPrev y ∧
        TextNode.insNext y' = TextNode.insNext y.
Proof.
  intros Hy. destruct (decide (j = prev)) as [->|Hne].
  - rewrite Hp in Hy. injection Hy as <-.
    exists (insert_left p f). split; [apply insert_lookup_prev|].
    destruct p; auto.
  - exists (insert_other p f j y).
    split; [apply insert_lookup_other; auto|].
    unfold insert_other. case_decide; destruct y; auto.
Qed.

Lemma insert_lookup_inv (j : handle) (y' : TextNode.t) :
  hp' !! j = Some y' →
  (j = f ∧ y' = insert_new id content prev p) ∨
  (j ≠ f ∧ ∃ y, heap s !! j = Some y ∧ payload y' = payload y ∧
                TextNode.insPrev y' = TextNode.insPrev y ∧
                TextNode.insNext y' = TextNode.insNext y).
Proof.
  intros Hj. destruct (decide (j = f)) as [->|Hne].
  - rewrite insert_lookup_new in Hj. injection Hj as <-. auto.
  - right. split; [exact Hne|].
    assert (j < f)%nat as Hlt.
    { apply lookup_lt_Some in Hj.
      rewrite length_insert_final in Hj. lia. }
    destruct (lookup_lt_is_Some_2 _ _ Hlt) as [y Hy].
    destruct (insert_lookup_old _ _ Hy) as (y2 & Hy2 & H1 & H2 & H3).
    rewrite Hj in Hy2. injection Hy2 as <-. eauto.
Qed.

Lemma insert_links_other (j : handle) :
  j ≠ prev → j ≠ f → TextNode.next p ≠ Some j →
  links <$> hp' !! j = links <$> heap s !! j.
Proof.
  intros H1 H2 H3. rewrite insert_lookup, decide_False, decide_False by auto.
  destruct (heap s !! j) as [y|]; simpl; [|reflexivity].
  unfold insert_other. rewrite decide_False by auto. reflexivity.
Qed.

Lemma insert_chain : chain s' (treeByIndex s').
Proof.
  pose proof (wf_chain _ Hwf) as Hc.
  pose proof insert_prev_lt as Hlt.
  destruct (chain_split_at _ _ _ _ Hc Hp)
    as (l1 & l2 & Hl & H1 & H2 & Hpp & Hx).
  assert (treeByIndex s' = l1 ++ prev :: f :: l2) as Hl'.
  { simpl. rewrite Hl. apply splay_InsertAfter_middle, H1. }
  rewrite Hl'.
  destruct Hc as [Hhd Hnd Hls Hall]. rewrite Hl in Hhd, Hnd, Hls, Hall.
  assert (∀ h, h ∈ l1 ++ prev :: l2 → (h < f)%nat) as Hval.
  { intros h Hh. apply lookup_lt_is_Some. eapply lseg_lookup; eauto. }
  assert (f ∉ l1 ++ prev :: l2) as Hfresh.
  { intros Hf. apply Hval in Hf. lia. }
  apply NoDup_app in Hnd as (Hnd1 & Hdisj & Hnd2).
  apply NoDup_cons in Hnd2 as [_ Hnd2].
  apply lseg_app in Hls as [Hls1 Hls2].
  simpl in Hls2. destruct Hls2 as (n0 & Hn0 & Hp0 & Hx0 & Hls2).
  rewrite Hp in Hn0. injection Hn0 as <-.
  constructor.
  - destruct l1; exact Hhd.
  - apply NoDup_app. split; [exact Hnd1|]. split.
    + intros x Hx1 Hx2. apply elem_of_cons in Hx2 as [->|Hx2]; [auto|].
      apply elem_of_cons in Hx2 as [->|Hx2].
      * apply Hfresh, elem_of_app. auto.
      * eapply Hdisj; eauto. apply elem_of_cons. auto.
    + apply NoDup_cons. split.
      * intros Hin. apply elem_of_cons in Hin as [->|Hin]; [lia|auto].
      * apply NoDup_cons. split; [|exact Hnd2].
        intros Hin. apply Hfresh, elem_of_app. right.
        apply elem_of_cons. auto.
  - apply lseg_app. split.
    + eapply lseg_frame; [|exact Hls1]. intros h Hh.
      assert (h ≠ prev) by (intros ->; auto).
      apply insert_links_other; auto.
      * intros ->. apply Hfresh, elem_of_app. auto.
      * rewrite Hx. destruct l2 as [|x l2]; [discriminate|].
        simpl. intros [= ->]. eapply Hdisj; eauto.
        rewrite !elem_of_cons. auto.
    + simpl. exists (insert_left p f).
      split; [apply insert_lookup_prev|]. split; [exact Hpp|].
      split; [reflexivity|].
      exists (insert_new id content prev p).
      split; [apply insert_lookup_new|]. split; [reflexivity|].
      split; [exact Hx|].
      destruct l2 as [|x l2]; [exact I|].
      simpl in Hls2. destruct Hls2 as (xn & Hxn & Hxp & Hxx & Hls3).
      assert (x ≠ prev) as Hxne.
      { intros ->. apply H2, elem_of_cons. auto. }
      simpl. exists (insert_other p f x xn).
      split; [apply insert_lookup_other; auto|].
      unfold insert_other. rewrite decide_True by exact Hx. simpl.
      split; [reflexivity|]. split; [exact Hxx|].
      eapply lseg_frame; [|exact Hls3]. intros h Hh.
      apply NoDup_cons in Hnd2 as [Hxl2 _].
      apply insert_links_other.
      * intros ->. apply H2, elem_of_cons. auto.
      * intros ->. apply Hfresh, elem_of_app. right.
        rewrite !elem_of_cons. auto.
      * rewrite Hx. simpl. intros [= ->]. auto.
  - intros h Hh. simpl in Hh.
    rewrite length_insert_final in Hh.
    destruct (decide (h = f)) as [->|Hne].
    + rewrite elem_of_app, !elem_of_cons. auto.
    + assert (h ∈ l1 ++ prev :: l2) as Hin by (apply Hall; lia).
      rewrite elem_of_app, !elem_of_cons in *. tauto.
Qed.

Lemma insert_head_ok : head_ok s'.
Proof.
  destruct (wf_head _ Hwf) as (hn & Hh & Hv).
  destruct (insert_lookup_old _ _ Hh) as (y' & Hy' & Hpl & _).
  exists y'. split; [exact Hy'|].
  unfold payload in Hpl. injection Hpl as _ Hv' _. congruence.
Qed.

Lemma insert_ins_inv : ins_inv hp'.
Proof.
  pose proof (wf_ins _ Hwf) as Hins.
  intros j y' Hj.
  apply insert_lookup_inv in Hj as [[-> ->]|(Hne & y & Hy & Hpl & Hip & Hin)].
  - constructor; simpl.
    + unfold offset_of, TextNode.contentLen. simpl.
      pose proof (len_nonneg content). lia.
    + unfold offset_of. simpl. lia.
    + intros ? [=].
    + intros ? [=].
  - unfold payload in Hpl. injection Hpl as Hid Hv Hd.
    destruct (Hins _ _ Hy) as [Hr Hhp Hipv Hinx].
    unfold offset_of, TextNode.contentLen, TextNode.createdAt in *.
    constructor; unfold offset_of, TextNode.contentLen, TextNode.createdAt.
    + rewrite Hid, Hv. exact Hr.
    + rewrite Hid, Hip. exact Hhp.
    + rewrite Hip, Hid. intros q Hq.
      destruct (Hipv q Hq) as (pn & Hpn & H1 & H2 & H3 & H4).
      destruct (insert_lookup_old _ _ Hpn) as (pn' & Hpn' & Hpl' & Hip' & Hin').
      unfold payload in Hpl'. injection Hpl' as Hid' Hv' Hd'.
      exists pn'. split; [exact Hpn'|]. rewrite Hin', Hid', Hv'. auto.
    + rewrite Hin. intros m Hm.
      destruct (Hinx m Hm) as (mn & Hmn & H1).
      destruct (insert_lookup_old _ _ Hmn) as (mn' & Hmn' & Hpl' & Hip' & Hin').
      exists mn'. split; [exact Hmn' | congruence].
Qed.

Lemma insert_idx_inv : idx_inv s'.
Proof.
  pose proof (wf_idx _ Hwf) as [Hs He].
  pose proof (keys_ok_of_wf _ Hwf) as Hko.
  assert (key_ok id) as Hnk.
  { unfold key_ok, int_max. simpl. lia. }
  constructor; simpl.
  - apply LLRB.Put_sorted; auto.
  - apply Forall_forall. intros e Hin.
    apply LLRB.Put_elem in Hin as [->|Hin]; auto.
    + split; [exact Hnk|]. simpl. exists (insert_new id content prev p).
      split; [apply insert_lookup_new | reflexivity].
    + rewrite Forall_forall in He.
      destruct (He e Hin) as [Hk1 (y & Hy & Hid)].
      split; [exact Hk1|].
      destruct (insert_lookup_old _ _ Hy) as (y' & Hy' & Hpl & _).
      unfold payload in Hpl. injection Hpl as Hid' _ _.
      exists y'. split; [exact Hy' | congruence].
Qed.

Lemma insert_wf : wf s'.
Proof.
  constructor.
  - apply insert_chain.
  - apply insert_head_ok.
  - apply insert_ins_inv.
  - apply insert_idx_inv.
Qed.

End InsertNew.

(** ** The loops over a traversal *)

Lemma default_last_cons (x node : handle) (run : list handle) :
  default node (last (x :: run)) = default x (last run).
Proof.
  destruct run as [|y run]; [reflexivity|].
  change (last (x :: y :: run)) with (last (y :: run)).
  destruct (last (y :: run)) eqn:E; [reflexivity|].
  apply last_None in E. discriminate.
Qed.

(** The slide stops at the end of the maximal run of successors created
    after [editedAt], and it needs no more steps than there are nodes. *)
Lemma slide_spec (hp : Heap) (editedAt : Ticket.t) (l2 : list handle) :
  ∀ (node : handle) (p : option handle) (fuel : nat),
  lseg hp p (node :: l2) None → (length l2 < fuel)%nat →
  ∃ run post, l2 = run ++ post ∧
    Forall (λ h, created_after hp editedAt h = true) run ∧
    (∀ x, head post = Some x → created_after hp editedAt x = false) ∧
    slide fuel hp editedAt node = Ok (default node (last run)).
Proof.
  induction l2 as [|x l2 IH]; intros node p fuel Hl Hf.
  - destruct Hl as (n & Hn & _ & Hx & _). simpl in Hx.
    exists [], []. repeat split; auto.
    + intros x [=].
    + destruct fuel; [lia|]. simpl.
      rewrite (getNode_lookup _ _ _ Hn). simpl. rewrite Hx. reflexivity.
  - destruct Hl as (n & Hn & _ & Hx & Hl). simpl in Hx.
    pose proof Hl as (m & Hm & _).
    destruct fuel as [|fuel]; [simpl in Hf; lia|]. simpl in Hf.
    destruct (Ticket.After (TextNode.createdAt m) editedAt) eqn:Ea.
    + destruct (IH x (Some node) fuel Hl ltac:(lia))
        as (run & post & -> & Hrun & Hpost & Hs).
      exists (x :: run), post. split; [reflexivity|].
      split. { constructor; [|exact Hrun]. unfold created_after.
               rewrite Hm. exact Ea. }
      split; [exact Hpost|].
      simpl. rewrite (getNode_lookup _ _ _ Hn). simpl. rewrite Hx.
      rewrite (getNode_lookup _ _ _ Hm). simpl. rewrite Ea.
      rewrite Hs. rewrite default_last_cons. reflexivity.
    + exists [], (x :: l2). split; [reflexivity|].
      split; [constructor|].
      split. { intros ? [= <-]. unfold created_after. rewrite Hm. exact Ea. }
      simpl. rewrite (getNode_lookup _ _ _ Hn). simpl. rewrite Hx.
      rewrite (getNode_lookup _ _ _ Hm). simpl. rewrite Ea. reflexivity.
Qed.

(** [findBetween] collects the traversal from [from] up to, and excluding,
    [to], or up to the end if [to] does not come up. *)
Lemma findBetween_loop_spec (hp : Heap) (to : option handle)
    (l2 : list handle) :
  ∀ (p : option handle) (fuel : nat) (nodes : list handle),
  lseg hp p l2 None → (length l2 < fuel)%nat →
  ∃ cands rest, l2 = cands ++ rest ∧
    (∀ h, h ∈ cands → Some h ≠ to) ∧
    (rest = [] ∨ (rest ≠ [] ∧ hd_or rest None = to)) ∧
    findBetween_loop fuel hp (hd_or l2 None) to nodes = Ok (nodes ++ cands).
Proof.
  induction l2 as [|x l2 IH]; intros p fuel nodes Hl Hf.
  - exists [], []. split; [reflexivity|].
    split; [intros h Hh; inversion Hh|]. split; [auto|].
    destruct fuel; [simpl in Hf; lia|]. simpl. rewrite app_nil_r.
    reflexivity.
  - destruct Hl as (n & Hn & _ & Hx & Hl).
    destruct fuel as [|fuel]; [simpl in Hf; lia|]. simpl in Hf.
    simpl. destruct (decide (Some x = to)) as [Ht|Ht].
    + exists [], (x :: l2). rewrite app_nil_r.
      split; [reflexivity|]. split; [intros h Hh; inversion Hh|].
      split; [|reflexivity]. right. split; [discriminate | exact Ht].
    + destruct (IH (Some x) fuel (nodes ++ [x]) Hl ltac:(lia))
        as (cands & rest & -> & Hc & Hr & Hrun).
      exists (x :: cands), rest. split; [reflexivity|].
      split. { intros h [->|Hh]%elem_of_cons; auto. }
      split; [exact Hr|].
      rewrite (getNode_lookup _ _ _ Hn). simpl. rewrite Hx, Hrun.
      rewrite <- app_assoc. reflexivity.
Qed.

Lemma marshal_loop_spec (hp : Heap) (l : list handle) :
  ∀ (p : option handle) (fuel : nat) (values : list string),
  lseg hp p l None → (length l < fuel)%nat →
  marshal_loop fuel hp (hd_or l None) values = Ok (values ++ live_values hp l).
Proof.
  induction l as [|x l IH]; intros p fuel values Hl Hf.
  - destruct fuel; [simpl in Hf; lia|]. simpl. rewrite app_nil_r. reflexivity.
  - destruct Hl as (n & Hn & _ & Hx & Hl).
    destruct fuel as [|fuel]; [simpl in Hf; lia|]. simpl in Hf.
    simpl. rewrite (getNode_lookup _ _ _ Hn), Hn. simpl. rewrite Hx.
    rewrite (IH (Some x) fuel _ Hl ltac:(lia)).
    destruct (TextNode.deletedAt n); [reflexivity|].
    rewrite <- app_assoc. reflexivity.
Qed.

Lemma textNodes_loop_spec (hp : Heap) (l : list handle) :
  ∀ (p : option handle) (fuel : nat) (nodes : list handle),
  lseg hp p l None → (length l < fuel)%nat →
  textNodes_loop fuel hp (hd_or l None) nodes = Ok (nodes ++ l).
Proof.
  induction l as [|x l IH]; intros p fuel nodes Hl Hf.
  - destruct fuel; [simpl in Hf; lia|]. simpl. rewrite app_nil_r. reflexivity.
  - destruct Hl as (n & Hn & _ & Hx & Hl).
    destruct fuel as [|fuel]; [simpl in Hf; lia|]. simpl in Hf.
    simpl. rewrite (getNode_lookup _ _ _ Hn). simpl. rewrite Hx.
    rewrite (IH (Some x) fuel _ Hl ltac:(lia)).
    rewrite <- app_assoc. reflexivity.
Qed.

(** The part of a traversal that starts at a node. *)
Lemma chain_suffix (s : RGATreeSplit.t) (h : handle) (n : TextNode.t) :
  wf s → heap s !! h = Some n →
  ∃ l1 l2, treeByIndex s = l1 ++ h :: l2 ∧
    lseg (heap s) (last_or l1 None) (h :: l2) None ∧
    (length l2 < length (heap s))%nat ∧ NoDup (h :: l2) ∧
    TextNode.next n = hd_or l2 None.
Proof.
  intros Hwf Hn. pose proof (wf_chain _ Hwf) as Hc.
  destruct (chain_split_at _ _ _ _ Hc Hn) as (l1 & l2 & Hl & H1 & H2 & Hp & Hx).
  exists l1, l2. split; [exact Hl|].
  pose proof (chain_lseg _ _ Hc) as Hls. rewrite Hl in Hls.
  apply lseg_app in Hls as [_ Hls]. split; [exact Hls|].
  pose proof (chain_length _ _ Hc) as Hlen. rewrite Hl in Hlen.
  rewrite length_app in Hlen. simpl in Hlen.
  split; [lia|].
  pose proof (chain_nodup _ _ Hc) as Hnd. rewrite Hl in Hnd.
  apply NoDup_app in Hnd as (_ & _ & Hnd). auto.
Qed.

Lemma lseg_last_next (hp : Heap) (run post : list handle) :
  ∀ (node : handle) (p : option handle),
  lseg hp p (node :: run ++ post) None →
  ∃ n, hp !! default node (last run) = Some n ∧
       TextNode.next n = hd_or post None.
Proof.
  induction run as [|x run IH]; intros node p Hl.
  - destruct Hl as (n & Hn & _ & Hx & _). exists n. auto.
  - destruct Hl as (_ & _ & _ & _ & Hl).
    rewrite default_last_cons. apply (IH x (Some node)). exact Hl.
Qed.

(** ** Position resolution *)

Lemma splitTextNode_length (s s' : RGATreeSplit.t) (node : handle) (k : Z)
    (r : option handle) :
  wf s → splitTextNode s node k = Ok (s', r) →
  (length (heap s) ≤ length (heap s'))%nat ∧ initialHead s' = initialHead s.
Proof.
  intros Hwf H.
  destruct (splitTextNode_cases _ _ _ _ _ H) as (n & Hn & [->|[[Hk ->]|Hk]]).
  - rewrite (splitTextNode_zero _ _ _ Hn) in H. injection H as <- <-. auto.
  - rewrite (splitTextNode_full _ _ _ Hn Hk) in H. injection H as <- <-. auto.
  - rewrite (split_returns _ _ _ _ Hwf Hn Hk) in H. injection H as <- <-.
    simpl. rewrite length_split_final. auto.
Qed.

(** In a well-formed state, position resolution returns as soon as the
    floor lookup and the split do; the slide does not run out of steps. *)
Lemma findTextNodeWithSplit_returns (s s1 : RGATreeSplit.t)
    (pos : TextNodePos.t) (editedAt : Ticket.t) (node : handle)
    (n : TextNode.t) (r : option handle) :
  wf s →
  findFloorTextNodePreferToLeft s (TextNodePos.getAbsoluteID pos) = Ok node →
  heap s !! node = Some n →
  splitTextNode s node
    (int_sub (TextNodeID.offset (TextNodePos.getAbsoluteID pos))
       (TextNodeID.offset (TextNode.id n))) = Ok (s1, r) →
  ∃ l1 run post,
    treeByIndex s1 = l1 ++ node :: run ++ post ∧
    Forall (λ h, created_after (heap s1) editedAt h = true) run ∧
    (∀ x, head post = Some x → created_after (heap s1) editedAt x = false) ∧
    findTextNodeWithSplit s pos editedAt =
      Ok (s1, default node (last run), hd_or post None).
Proof.
  intros Hwf Hfl Hn Hsp.
  pose proof (wf_splitTextNode _ _ _ _ _ Hwf Hsp) as Hwf1.
  destruct (splitTextNode_length _ _ _ _ _ Hwf Hsp) as [Hlen _].
  assert (node < length (heap s1))%nat as Hlt.
  { apply lookup_lt_Some in Hn. lia. }
  destruct (lookup_lt_is_Some_2 _ _ Hlt) as [n1 Hn1].
  destruct (chain_suffix _ _ _ Hwf1 Hn1) as (l1 & l2 & Hl & Hls & Hf & _ & _).
  destruct (slide_spec (heap s1) editedAt l2 node _ _ Hls Hf)
    as (run & post & -> & Hrun & Hpost & Hslide).
  exists l1, run, post. split; [exact Hl|]. split; [exact Hrun|].
  split; [exact Hpost|].
  destruct (lseg_last_next _ _ _ _ _ Hls) as (nl & Hnl & Hnx).
  unfold findTextNodeWithSplit.
  rewrite Hfl. cbn [mbind result_mbind result_bind].
  rewrite (getNode_lookup _ _ _ Hn). cbn [mbind result_mbind result_bind].
  rewrite Hsp. cbn [mbind result_mbind result_bind].
  rewrite Hslide. cbn [mbind result_mbind result_bind].
  rewrite (getNode_lookup _ _ _ Hnl). cbn [mbind result_mbind result_bind].
  rewrite Hnx. reflexivity.
Qed.

Lemma findTextNodeWithSplit_inv (s s1 : RGATreeSplit.t)
    (pos : TextNodePos.t) (editedAt : Ticket.t) (left : handle)
    (right : option handle) :
  wf s →
  findTextNodeWithSplit s pos editedAt = Ok (s1, left, right) →
  ∃ node n r l1 run post,
    findFloorTextNodePreferToLeft s (TextNodePos.getAbsoluteID pos) = Ok node ∧
    heap s !! node = Some n ∧
    splitTextNode s node
      (int_sub (TextNodeID.offset (TextNodePos.getAbsoluteID pos))
         (TextNodeID.offset (TextNode.id n))) = Ok (s1, r) ∧
    treeByIndex s1 = l1 ++ node :: run ++ post ∧
    Forall (λ h, created_after (heap s1) editedAt h = true) run ∧
    (∀ x, head post = Some x → created_after (heap s1) editedAt x = false) ∧
    left = default node (last run) ∧ right = hd_or post None.
Proof.
  intros Hwf H. pose proof H as H0. unfold findTextNodeWithSplit in H.
  apply bind_Ok_inv in H as (node & Hfl & H).
  apply bind_Ok_inv in H as (n & Hn & H). apply getNode_Ok in Hn.
  apply bind_Ok_inv in H as ([s1' r] & Hsp & H).
  assert (s1' = s1) as ->.
  { res_inv. reflexivity. }
  destruct (findTextNodeWithSplit_returns _ _ _ editedAt _ _ _ Hwf Hfl Hn Hsp)
    as (l1 & run & post & Hl & Hrun & Hpost & Hret).
  rewrite Hret in H0. injection H0 as <- <-.
  exists node, n, r, l1, run, post. auto 10.
Qed.

Lemma wf_findTextNodeWithSplit (s s1 : RGATreeSplit.t)
    (pos : TextNodePos.t) (editedAt : Ticket.t) (left : handle)
    (right : option handle) :
  wf s →
  findTextNodeWithSplit s pos editedAt = Ok (s1, left, right) →
  wf s1 ∧ (length (heap s) ≤ length (heap s1))%nat ∧
  initialHead s1 = initialHead s ∧
  ∃ ln, heap s1 !! left = Some ln ∧ TextNode.next ln = right.
Proof.
  intros Hwf H.
  destruct (findTextNodeWithSplit_inv _ _ _ _ _ _ Hwf H)
    as (node & n & r & l1 & run & post & Hfl & Hn & Hsp & Hl & _ & _ & -> & ->).
  pose proof (wf_splitTextNode _ _ _ _ _ Hwf Hsp) as Hwf1.
  destruct (splitTextNode_length _ _ _ _ _ Hwf Hsp) as [Hlen Hhd].
  split; [exact Hwf1|]. split; [exact Hlen|]. split; [exact Hhd|].
  pose proof (chain_lseg _ _ (wf_chain _ Hwf1)) as Hls. rewrite Hl in Hls.
  apply lseg_app in Hls as [_ Hls].
  apply (lseg_last_next _ _ _ _ _ Hls).
Qed.

(** ** The span to delete *)

Lemma findBetween_spec (s : RGATreeSplit.t) (from to : option handle) :
  wf s →
  (∀ h, from = Some h → (h < length (heap s))%nat) →
  ∃ cands l1 rest,
    findBetween s from to = Ok cands ∧
    treeByIndex s = l1 ++ cands ++ rest ∧
    hd_or (cands ++ rest) None = from ∧
    (∀ h, h ∈ cands → Some h ≠ to) ∧
    (rest = [] ∨ (rest ≠ [] ∧ hd_or rest None = to)).
Proof.
  intros Hwf Hv. unfold findBetween. destruct from as [h|].
  - destruct (lookup_lt_is_Some_2 _ _ (Hv h eq_refl)) as [n Hn].
    destruct (chain_suffix _ _ _ Hwf Hn) as (l1 & l2 & Hl & Hls & Hf & _ & _).
    destruct (findBetween_loop_spec (heap s) to (h :: l2) _
                (S (length (heap s))) [] Hls)
      as (cands & rest & E & Hc & Hr & Hrun).
    { simpl. lia. }
    exists cands, l1, rest. simpl in Hrun. split; [exact Hrun|].
    split; [rewrite Hl, E; reflexivity|].
    split; [rewrite <- E; reflexivity|]. auto.
  - exists [], (treeByIndex s), []. simpl.
    rewrite app_nil_r. repeat split; auto.
    intros h Hh. inversion Hh.
Qed.

Lemma findBetween_candidates (s : RGATreeSplit.t) (cands l1 rest : list handle) :
  wf s → treeByIndex s = l1 ++ cands ++ rest →
  NoDup cands ∧ ∀ h, h ∈ cands → (h < length (heap s))%nat.
Proof.
  intros Hwf Hl. pose proof (wf_chain _ Hwf) as Hc.
  pose proof (chain_nodup _ _ Hc) as Hnd. rewrite Hl in Hnd.
  apply NoDup_app in Hnd as (_ & _ & Hnd).
  apply NoDup_app in Hnd as (Hnd & _ & _).
  split; [exact Hnd|]. intros h Hh.
  apply (chain_elem _ _ _ Hc). rewrite Hl, !elem_of_app. auto.
Qed.

(** ** The steps of an edit *)

Lemma deleteNodes_length (s s' : RGATreeSplit.t) (cands : list handle)
    (m : option (gmap string Ticket.t)) (editedAt : Ticket.t)
    (deleted : gmap string Ticket.t) :
  NoDup cands → (∀ h, h ∈ cands → (h < length (heap s))%nat) →
  deleteNodes s cands m editedAt = Ok (s', deleted) →
  length (heap s') = length (heap s) ∧ initialHead s' = initialHead s ∧
  treeByIndex s' = treeByIndex s ∧ treeByID s' = treeByID s ∧
  deleted = foldl record_max ∅ (tombstoned_tickets (heap s) m editedAt cands) ∧
  ∀ j, heap s' !! j =
       if decide (j ∈ cands) then tombstone m editedAt <$> heap s !! j
       else heap s !! j.
Proof.
  intros Hnd Hval H. unfold deleteNodes in H.
  destruct (deleteNodes_loop_spec m editedAt cands s ∅ Hnd Hval)
    as (s1 & Hrun & H1 & H2 & H3 & H4 & H5).
  rewrite Hrun in H. injection H as <- <-. auto 10.
Qed.

(** An edit that returns from a well-formed state went through these
    steps. *)
Lemma edit_inv (s s' : RGATreeSplit.t) (from to : TextNodePos.t)
    (m : option (gmap string Ticket.t)) (content : string)
    (editedAt : Ticket.t) (caretPos : TextNodePos.t)
    (deleted : gmap string Ticket.t) :
  wf s →
  edit s from to m content editedAt = Ok (s', caretPos, deleted) →
  ∃ tr, edit_steps s from to m content editedAt s' caretPos deleted tr.
Proof.
  intros Hwf H. unfold edit in H.
  apply bind_Ok_inv in H as ([[s1 fromLeft] fromRight] & Hfrom & H).
  apply bind_Ok_inv in H as ([[s2 toLeft] toRight] & Hto & H).
  apply bind_Ok_inv in H as (cands & Hbt & H).
  apply bind_Ok_inv in H as ([s3 dm] & Hdel & H).
  apply bind_Ok_inv in H as (caretID & Hcaret & H).
  destruct (wf_findTextNodeWithSplit _ _ _ _ _ _ Hwf Hfrom)
    as (Hwf1 & Hlen1 & Hhd1 & fl & Hfl & Hfr).
  destruct (wf_findTextNodeWithSplit _ _ _ _ _ _ Hwf1 Hto)
    as (Hwf2 & Hlen2 & Hhd2 & tl & Htl & Htr).
  assert (∀ h, fromRight = Some h → (h < length (heap s2))%nat) as Hfrv.
  { intros h ->. destruct (wf_next_valid _ _ _ _ Hwf1 Hfl Hfr). lia. }
  destruct (findBetween_spec s2 fromRight toRight Hwf2 Hfrv)
    as (cands' & l1 & rest & Hbt' & Hspan & Hsf & Hst & Hse).
  rewrite Hbt in Hbt'. injection Hbt' as <-.
  destruct (findBetween_candidates _ _ _ _ Hwf2 Hspan) as [Hnd Hval].
  pose proof (wf_deleteNodes _ _ _ _ _ _ Hwf2 Hnd Hval Hdel) as Hwf3.
  destruct (deleteNodes_length _ _ _ _ _ _ Hnd Hval Hdel)
    as (Hlen3 & Hhd3 & _).
  assert (fromLeft < length (heap s3))%nat as Hflv.
  { apply lookup_lt_Some in Hfl. lia. }
  destruct (lookup_lt_is_Some_2 _ _ Hflv) as [p Hp].
  assert (∃ cn, heap s3 !! default toLeft toRight = Some cn ∧
                caretID = TextNode.id cn) as (cn & Hcn & ->).
  { destruct toRight as [r|]; simpl in *; res_inv; eauto. }
  exists (mk_edit_trace s1 s2 s3 fromLeft fromRight toLeft toRight cands l1
            rest).
  destruct (String.eqb content EmptyString) eqn:Eb; simpl in H.
  - apply String.eqb_eq in Eb. subst content.
    injection H as <- <- <-.
    constructor; simpl; auto; [eauto|]. intros Hne. contradiction.
  - assert (content ≠ EmptyString) as Hne.
    { intros ->. rewrite String.eqb_refl in Eb. discriminate. }
    rewrite (insert_returns _ _ _ editedAt content Hwf3 Hp) in H.
    cbn [mbind result_mbind result_bind] in H.
    cbn [heap] in H.
    rewrite (getNode_lookup _ _ _
               (insert_lookup_new _ _ _ editedAt content Hwf3 Hp)) in H.
    cbn [mbind result_mbind result_bind] in H.
    injection H as <- <- <-.
    constructor; simpl; auto; [intros ->; contradiction|].
    intros _. exists p. split; [exact Hp|]. split; reflexivity.
Qed.

(** ** Every reachable state is well-formed *)

Lemma wf_edit (s s' : RGATreeSplit.t) (from to : TextNodePos.t)
    (m : option (gmap string Ticket.t)) (content : string)
    (editedAt : Ticket.t) (caretPos : TextNodePos.t)
    (deleted : gmap string Ticket.t) :
  wf s → len content ≤ int_max →
  edit s from to m content editedAt = Ok (s', caretPos, deleted) →
  wf s'.
Proof.
  intros Hwf Hlen H.
  destruct (edit_inv _ _ _ _ _ _ _ _ _ Hwf H) as [tr Hs].
  destruct (decide (content = EmptyString)) as [E|E].
  - destruct (es_caret_noinsert _ _ _ _ _ _ _ _ _ _ Hs E) as [-> _].
    apply (es_wf3 _ _ _ _ _ _ _ _ _ _ Hs).
  - destruct (es_caret_insert _ _ _ _ _ _ _ _ _ _ Hs E) as (p & Hp & -> & _).
    apply insert_wf; auto. apply (es_wf3 _ _ _ _ _ _ _ _ _ _ Hs).
Qed.

Lemma wf_new : wf NewRGATreeSplit.
Proof.
  unfold NewRGATreeSplit, splay.Insert, splay.NewTree, llrb.NewTree.
  constructor.
  - constructor; simpl.
    + reflexivity.
    + apply NoDup_singleton.
    + eexists. repeat split; reflexivity.
    + intros h Hh. apply list_elem_of_singleton. lia.
  - eexists. split; reflexivity.
  - intros [|h] n Hn; [|discriminate]. injection Hn as <-.
    constructor; simpl.
    + split; vm_compute; discriminate.
    + unfold offset_of. simpl. lia.
    + intros ? [=].
    + intros ? [=].
  - constructor; simpl.
    + repeat constructor.
    + constructor; [|constructor]. split.
      * split; vm_compute; discriminate.
      * eexists. split; reflexivity.
Qed.

Lemma reachable_wf (s : RGATreeSplit.t) : reachable s → wf s.
Proof.
  induction 1 as [|s from to m content editedAt s' caretPos deleted _ IH Hl He].
  - apply wf_new.
  - eapply wf_edit; eauto.
Qed.


(** ** The map of deleted actors *)

Lemma After_max_trans (c' mx c : Ticket.t) :
  Ticket.After c' mx = false → Ticket.After c mx = true →
  Ticket.After c' c = false.
Proof.
  unfold Ticket.After. intros H1 H2.
  apply Z.ltb_ge in H1. apply Z.ltb_lt in H2. apply Z.ltb_ge.
  assert (Ticket.Compare mx c < 0) as H3.
  { rewrite TicketOrder.ticket_antisym. lia. }
  destruct (Z.eq_dec (Ticket.Compare c' mx) 0) as [E|E].
  - apply TicketOrder.ticket_eq in E. subst c'. lia.
  - pose proof (TicketOrder.ticket_trans c' mx c). lia.
Qed.

Lemma max_map_of_step (acc : gmap string Ticket.t) (seen : list Ticket.t)
    (c : Ticket.t) :
  max_map_of acc seen → max_map_of (record_max acc c) (seen ++ [c]).
Proof.
  intros [Hn Hs]. unfold record_max.
  destruct (acc !! Ticket.ActorIDHex c) as [mx|] eqn:E.
  - destruct (Hs _ _ E) as (Hmx & Hhex & Hmax).
    destruct (Ticket.After c mx) eqn:Ea.
    + split.
      * intros a. rewrite lookup_insert. case_decide as Ha.
        -- split; [discriminate|]. intros H. exfalso.
           apply (H c); [apply elem_of_app; right; apply elem_of_cons; auto|].
           exact Ha.
        -- rewrite Hn. split.
           ++ intros H c0 [Hc0|Hc0]%elem_of_app; [auto|].
              apply list_elem_of_singleton in Hc0. subst c0. exact Ha.
           ++ intros H c0 Hc0. apply H, elem_of_app. auto.
      * intros a c0. rewrite lookup_insert. case_decide as Ha.
        -- intros [= <-]. split; [apply elem_of_app; right;
                                   apply elem_of_cons; auto|].
           split; [exact Ha|].
           intros c' [Hc'|Hc']%elem_of_app Hh.
           ++ eapply After_max_trans; [|exact Ea]. apply Hmax; auto.
              congruence.
           ++ apply list_elem_of_singleton in Hc'. subst c'.
              apply TicketOrder.After_irrefl.
        -- intros H0. destruct (Hs _ _ H0) as (H1 & H2 & H3).
           split; [apply elem_of_app; auto|]. split; [exact H2|].
           intros c' [Hc'|Hc']%elem_of_app Hh; [auto|].
           apply list_elem_of_singleton in Hc'. subst c'. congruence.
    + split.
      * intros a. rewrite Hn. split.
        -- intros H c0 [Hc0|Hc0]%elem_of_app; [auto|].
           apply list_elem_of_singleton in Hc0. subst c0.
           intros <-. apply (H mx Hmx). exact Hhex.
        -- intros H c0 Hc0. apply H, elem_of_app. auto.
      * intros a c0 H0. destruct (Hs _ _ H0) as (H1 & H2 & H3).
        split; [apply elem_of_app; auto|]. split; [exact H2|].
        intros c' [Hc'|Hc']%elem_of_app Hh; [auto|].
        apply list_elem_of_singleton in Hc'. subst c'.
        assert (c0 = mx) as -> by congruence. exact Ea.
  - split.
    + intros a. rewrite lookup_insert. case_decide as Ha.
      * split; [discriminate|]. intros H. exfalso.
        apply (H c); [apply elem_of_app; right; apply elem_of_cons; auto|].
        exact Ha.
      * rewrite Hn. split.
        -- intros H c0 [Hc0|Hc0]%elem_of_app; [auto|].
           apply list_elem_of_singleton in Hc0. subst c0. exact Ha.
        -- intros H c0 Hc0. apply H, elem_of_app. auto.
    + intros a c0. rewrite lookup_insert. case_decide as Ha.
      * intros [= <-]. split; [apply elem_of_app; right;
                                apply elem_of_cons; auto|].
        split; [exact Ha|].
        intros c' [Hc'|Hc']%elem_of_app Hh.
        -- exfalso. apply (proj1 (Hn _) E c' Hc'). congruence.
        -- apply list_elem_of_singleton in Hc'. subst c'.
           apply TicketOrder.After_irrefl.
      * intros H0. destruct (Hs _ _ H0) as (H1 & H2 & H3).
        split; [apply elem_of_app; auto|]. split; [exact H2|].
        intros c' [Hc'|Hc']%elem_of_app Hh; [auto|].
        apply list_elem_of_singleton in Hc'. subst c'. congruence.
Qed.

Lemma max_map_of_fold (tickets : list Ticket.t) :
  ∀ (acc : gmap string Ticket.t) (seen : list Ticket.t),
  max_map_of acc seen →
  max_map_of (foldl record_max acc tickets) (seen ++ tickets).
Proof.
  induction tickets as [|c tickets IH]; intros acc seen H; simpl.
  - rewrite app_nil_r. exact H.
  - replace (seen ++ c :: tickets) with ((seen ++ [c]) ++ tickets)
      by (rewrite <- app_assoc; reflexivity).
    apply IH, max_map_of_step, H.
Qed.

Lemma max_map_of_empty : max_map_of ∅ [].
Proof.
  split.
  - intros a. rewrite lookup_empty. split; [|reflexivity].
    intros _ c Hc. inversion Hc.
  - intros a c. rewrite lookup_empty. discriminate.
Qed.

Lemma elem_of_tombstoned_tickets (hp : Heap)
    (m : option (gmap string Ticket.t)) (editedAt : Ticket.t)
    (cands : list handle) (c : Ticket.t) :
  (∀ h, h ∈ cands → is_Some (hp !! h)) →
  c ∈ tombstoned_tickets hp m editedAt cands ↔
  ∃ h n, h ∈ cands ∧ hp !! h = Some n ∧ deletable m editedAt n = true ∧
         TextNode.createdAt n = c.
Proof.
  induction cands as [|x cands IH]; intros Hv; simpl.
  - split; [intros H; inversion H|].
    intros (h & n & H & _). inversion H.
  - destruct (Hv x ltac:(apply elem_of_cons; auto)) as [xn Hxn].
    rewrite Hxn.
    assert (∀ h, h ∈ cands → is_Some (hp !! h)) as Hv'.
    { intros h Hh. apply Hv, elem_of_cons. auto. }
    specialize (IH Hv').
    destruct (deletable m editedAt xn) eqn:Ed.
    + rewrite elem_of_cons, IH. split.
      * intros [->|(h & n & H1 & H2)].
        -- exists x, xn. split; [apply elem_of_cons; auto|]. auto.
        -- exists h, n. split; [apply elem_of_cons; auto|]. exact H2.
      * intros (h & n & [->|H1]%elem_of_cons & H2 & H3 & H4).
        -- left. congruence.
        -- right. exists h, n. auto.
    + rewrite IH. split.
      * intros (h & n & H1 & H2). exists h, n.
        split; [apply elem_of_cons; auto|]. exact H2.
      * intros (h & n & [->|H1]%elem_of_cons & H2 & H3 & H4).
        -- congruence.
        -- exists h, n. auto.
Qed.

(** ** C1: causal filtering of the span to delete *)

Lemma deletable_test (m : option (gmap string Ticket.t))
    (editedAt : Ticket.t) (n : TextNode.t) :
  deletable m editedAt n = true ↔
  Ticket.After (TextNode.createdAt n)
    (match m with
     | None => Ticket.MaxTicket
     | Some mm =>
         default Ticket.InitialTicket
           (mm !! Ticket.ActorIDHex (TextNode.createdAt n))
     end) = false ∧
  (TextNode.deletedAt n = None ∨
   ∃ d, TextNode.deletedAt n = Some d ∧ Ticket.After editedAt d = true).
Proof.
  unfold deletable, maxCreatedAtFor.
  rewrite andb_true_iff, negb_true_iff.
  assert (match m with
          | Some m0 =>
              match m0 !! Ticket.ActorIDHex (TextNode.createdAt n) with
              | Some createdAt => createdAt
              | None => Ticket.InitialTicket
              end
          | None => Ticket.MaxTicket
          end =
          match m with
          | None => Ticket.MaxTicket
          | Some mm =>
              default Ticket.InitialTicket
                (mm !! Ticket.ActorIDHex (TextNode.createdAt n))
          end) as ->.
  { destruct m as [mm|]; [|reflexivity].
    destruct (mm !! _); reflexivity. }
  destruct (TextNode.deletedAt n) as [d|].
  - split.
    + intros [H1 H2]. split; [exact H1|]. right. eauto.
    + intros [H1 [H2|(d' & [= <-] & H2)]]; [discriminate|]. auto.
  - split; [intros [H1 _]; auto | intros [H1 _]; auto].
Qed.

(** The stores of an edit, from the one the candidates were found in to
    the one returned: only tombstones change on the nodes already there. *)
Lemma edit_final_lookup (s s' : RGATreeSplit.t) (from to : TextNodePos.t)
    (m : option (gmap string Ticket.t)) (content : string)
    (editedAt : Ticket.t) (caretPos : TextNodePos.t)
    (deleted : gmap string Ticket.t) (tr : edit_trace) (h : handle)
    (n : TextNode.t) :
  edit_steps s from to m content editedAt s' caretPos deleted tr →
  heap (es_s2 tr) !! h = Some n →
  ∃ n', heap s' !! h = Some n' ∧ TextNode.id n' = TextNode.id n ∧
    TextNode.value n' = TextNode.value n ∧
    TextNode.deletedAt n' =
      if decide (h ∈ es_cands tr)
      then TextNode.deletedAt (tombstone m editedAt n)
      else TextNode.deletedAt n.
Proof.
  intros Hs Hn.
  destruct (findBetween_candidates _ _ _ _ (es_wf2 _ _ _ _ _ _ _ _ _ _ Hs)
              (es_span _ _ _ _ _ _ _ _ _ _ Hs)) as [Hnd Hval].
  destruct (deleteNodes_length _ _ _ _ _ _ Hnd Hval
              (es_delete _ _ _ _ _ _ _ _ _ _ Hs))
    as (_ & _ & _ & _ & _ & Hlk).
  assert (∃ n3, heap (es_s3 tr) !! h = Some n3 ∧
            TextNode.id n3 = TextNode.id n ∧
            TextNode.value n3 = TextNode.value n ∧
            TextNode.deletedAt n3 =
              if decide (h ∈ es_cands tr)
              then TextNode.deletedAt (tombstone m editedAt n)
              else TextNode.deletedAt n) as (n3 & Hn3 & Hid & Hv & Hd).
  { specialize (Hlk h). rewrite Hn in Hlk. case_decide.
    - exists (tombstone m editedAt n). split; [exact Hlk|].
      unfold tombstone. destruct (deletable m editedAt n); auto.
    - exists n. auto. }
  destruct (decide (content = EmptyString)) as [E|E].
  - destruct (es_caret_noinsert _ _ _ _ _ _ _ _ _ _ Hs E) as [-> _].
    exists n3. auto.
  - destruct (es_caret_insert _ _ _ _ _ _ _ _ _ _ Hs E) as (p & Hp & -> & _).
    destruct (insert_lookup_old _ _ _ editedAt content
                (es_wf3 _ _ _ _ _ _ _ _ _ _ Hs) Hp _ _ Hn3)
      as (n' & Hn' & Hpl & _).
    unfold payload in Hpl. injection Hpl as H1 H2 H3.
    exists n'. split; [exact Hn'|]. repeat split; congruence.
Qed.

(** C1. For every call of [edit] that returns, from a well-formed state:
    the candidates are the traversal from [fromRight] up to, and excluding,
    [toRight]; each is tested against the bound of its actor ([MaxTicket]
    for a nil map, the map's entry if there is one, else [InitialTicket]);
    it is tombstoned, with [deletedAt = editedAt], if and only if it was not
    created after the bound and is not deleted yet or was deleted before
    [editedAt]; the returned map holds exactly the actors of the nodes
    tombstoned, each with the greatest creation ticket among them. *)
Theorem C1_edit_deletes_span (s s' : RGATreeSplit.t) (from to : TextNodePos.t)
    (m : option (gmap string Ticket.t)) (content : string)
    (editedAt : Ticket.t) (caretPos : TextNodePos.t)
    (deleted : gmap string Ticket.t) :
  wf s →
  edit s from to m content editedAt = Ok (s', caretPos, deleted) →
  ∃ tr, edit_steps s from to m content editedAt s' caretPos deleted tr ∧
        deletion_law m editedAt (heap (es_s2 tr)) (es_cands tr) (heap s')
          deleted.
Proof.
  intros Hwf H. destruct (edit_inv _ _ _ _ _ _ _ _ _ Hwf H) as [tr Hs].
  exists tr. split; [exact Hs|].
  destruct (findBetween_candidates _ _ _ _ (es_wf2 _ _ _ _ _ _ _ _ _ _ Hs)
              (es_span _ _ _ _ _ _ _ _ _ _ Hs)) as [Hnd Hval].
  destruct (deleteNodes_length _ _ _ _ _ _ Hnd Hval
              (es_delete _ _ _ _ _ _ _ _ _ _ Hs))
    as (_ & _ & _ & _ & Hdm & _).
  assert (∀ h, h ∈ es_cands tr → is_Some (heap (es_s2 tr) !! h)) as Hv.
  { intros h Hh. apply lookup_lt_is_Some, Hval, Hh. }
  pose proof (max_map_of_fold
                (tombstoned_tickets (heap (es_s2 tr)) m editedAt (es_cands tr))
                ∅ [] max_map_of_empty) as [Habs Hpre].
  simpl in Habs, Hpre. rewrite <- Hdm in Habs, Hpre.
  constructor.
  - intros h n Hh Hn.
    destruct (edit_final_lookup _ _ _ _ _ _ _ _ _ _ _ _ Hs Hn)
      as (n' & Hn' & Hid & Hval' & Hd).
    exists n'. split; [exact Hn'|]. split; [exact Hid|]. split; [exact Hval'|].
    rewrite Hd, decide_True by exact Hh.
    unfold tombstone. destruct (deletable m editedAt n); reflexivity.
  - intros h n Hh Hn.
    destruct (edit_final_lookup _ _ _ _ _ _ _ _ _ _ _ _ Hs Hn)
      as (n' & Hn' & Hid & Hval' & Hd).
    exists n'. split; [exact Hn'|]. split; [exact Hid|]. split; [exact Hval'|].
    rewrite Hd, decide_False by exact Hh. reflexivity.
  - apply deletable_test.
  - intros a. rewrite Habs. split.
    + intros Hno h n Hh Hn Hd.
      apply Hno. apply elem_of_tombstoned_tickets; [exact Hv|].
      exists h, n. auto.
    + intros Hno c Hc.
      apply elem_of_tombstoned_tickets in Hc as (h & n & Hh & Hn & Hd & <-);
        [|exact Hv].
      eapply Hno; eauto.
  - intros a c Hac. destruct (Hpre _ _ Hac) as (Hc & Hhex & Hmax).
    apply elem_of_tombstoned_tickets in Hc as (h & n & Hh & Hn & Hd & Hcn);
      [|exact Hv].
    split.
    + exists h, n. repeat split; auto. congruence.
    + intros h' n' Hh' Hn' Hd' Hhex'. apply Hmax; [|exact Hhex'].
      apply elem_of_tombstoned_tickets; [exact Hv|]. exists h', n'. auto.
Qed.

(** ** The scenario states are reachable *)

Module ScenarioFacts.
Import Scenario.

Lemma apply_edit_reachable (s s' : RGATreeSplit.t) (e : Edit) :
  reachable s → len (e_content e) ≤ int_max → apply_edit s e = Ok s' →
  reachable s'.
Proof.
  intros Hr Hl H. unfold apply_edit in H.
  apply bind_Ok_inv in H as ([[s1 c] d] & He & H). injection H as <-.
  eapply reach_edit; eauto.
Qed.

Lemma apply_edits_reachable (es : list Edit) :
  ∀ s s', reachable s → Forall (λ e, len (e_content e) ≤ int_max) es →
          apply_edits s es = Ok s' → reachable s'.
Proof.
  induction es as [|e es IH]; intros s s' Hr Hl H; simpl in H.
  - injection H as <-. exact Hr.
  - apply bind_Ok_inv in H as (s1 & He & H).
    inversion Hl as [|? ? Hl1 Hl2]; subst.
    eapply IH; [|exact Hl2|exact H].
    eapply apply_edit_reachable; eauto.
Qed.

Lemma reachable_st_ABC : reachable st_ABC.
Proof.
  apply (apply_edits_reachable [insertABC] NewRGATreeSplit);
    [apply reach_new | | vm_compute; reflexivity].
  repeat constructor; vm_compute; discriminate.
Qed.

Lemma reachable_st_deleted : reachable st_deleted.
Proof.
  apply (apply_edits_reachable [insertABC; deleteABC] NewRGATreeSplit);
    [apply reach_new | | vm_compute; reflexivity].
  repeat constructor; vm_compute; discriminate.
Qed.

Lemma reachable_st_AxBC : reachable st_AxBC.
Proof.
  apply (apply_edits_reachable [insertABC; insertX] NewRGATreeSplit);
    [apply reach_new | | vm_compute; reflexivity].
  repeat constructor; vm_compute; discriminate.
Qed.

Lemma reachable_st_A_BC : reachable st_A_BC.
Proof.
  apply (apply_edits_reachable [insertABC; noopAt 1 2] NewRGATreeSplit);
    [apply reach_new | | vm_compute; reflexivity].
  repeat constructor; vm_compute; discriminate.
Qed.

Lemma reachable_st_xBC : reachable st_xBC.
Proof.
  apply (apply_edits_reachable [insertABC; deleteABC; insertX]
           NewRGATreeSplit);
    [apply reach_new | | vm_compute; reflexivity].
  repeat constructor; vm_compute; discriminate.
Qed.

Lemma reachable_st_BA : reachable st_BA.
Proof.
  apply (apply_edits_reachable [insertA_head; insertB_head]
           NewRGATreeSplit);
    [apply reach_new | | vm_compute; reflexivity].
  repeat constructor; vm_compute; discriminate.
Qed.

End ScenarioFacts.

Lemma C1_edit_deletes_span_witness :
  ∃ tr,
    edit_steps Scenario.st_ABC Scenario.headPos (Scenario.posA 3)
      (e_map Scenario.deleteABC) EmptyString (Scenario.tk 2 Scenario.actorB)
      Scenario.st_deleted
      (TextNodePos.mk (TextNodeID.mk (Scenario.tk 1 Scenario.actorA) 0) 0)
      {[ Ticket.ActorIDHex (Scenario.tk 1 Scenario.actorA)
         := Scenario.tk 1 Scenario.actorA ]} tr ∧
    deletion_law (e_map Scenario.deleteABC) (Scenario.tk 2 Scenario.actorB)
      (heap (es_s2 tr)) (es_cands tr) (heap Scenario.st_deleted)
      {[ Ticket.ActorIDHex (Scenario.tk 1 Scenario.actorA)
         := Scenario.tk 1 Scenario.actorA ]}.
Proof.
  apply C1_edit_deletes_span.
  - apply reachable_wf, ScenarioFacts.reachable_st_ABC.
  - vm_compute. reflexivity.
Defined.

(** ** C10: marshal *)

Lemma marshal_chain (s : RGATreeSplit.t) (l : list handle) :
  chain s l → head_ok s →
  marshal s = Ok (concat_strings (live_values (heap s) l)).
Proof.
  intros Hc (hn & Hh & Hv).
  pose proof (chain_length _ _ Hc) as Hlen.
  destruct Hc as [Hhd _ Hls _].
  destruct l as [|h rest]; [discriminate|]. simpl in Hhd.
  injection Hhd as ->.
  destruct Hls as (n & Hn & _ & Hx & Hls).
  rewrite Hh in Hn. injection Hn as <-.
  unfold marshal. rewrite (getNode_lookup _ _ _ Hh).
  cbn [mbind result_mbind result_bind]. rewrite Hx.
  rewrite (marshal_loop_spec _ _ (Some (initialHead s)) _ [] Hls)
    by (simpl in Hlen; lia).
  cbn [mbind result_mbind result_bind]. rewrite Join_empty.
  simpl. rewrite Hh.
  destruct (TextNode.deletedAt hn); [reflexivity|].
  simpl. rewrite Hv. reflexivity.
Qed.

(** C10. [marshal()] returns the concatenation, in traversal order from
    [initialHead], of the values of the nodes whose [deletedAt] is unset;
    tombstoned nodes contribute nothing ([live_values] leaves them out). *)
Theorem C10_marshal_live_values (s : RGATreeSplit.t) (l : list handle) :
  chain s l → head_ok s →
  marshal s = Ok (concat_strings (live_values (heap s) l)) ∧
  Text.Marshal (Text.NewText s Ticket.InitialTicket) =
    Ok (Text.quote +:+ concat_strings (live_values (heap s) l)
        +:+ Text.quote).
Proof.
  intros Hc Hh. pose proof (marshal_chain s l Hc Hh) as Hm.
  split; [exact Hm|].
  unfold Text.Marshal, Text.NewText. simpl. rewrite Hm. reflexivity.
Qed.

Lemma C10_marshal_live_values_witness :
  marshal Scenario.st_xBC =
    Ok (concat_strings
          (live_values (heap Scenario.st_xBC) (treeByIndex Scenario.st_xBC))) ∧
  Text.Marshal (Text.NewText Scenario.st_xBC Ticket.InitialTicket) =
    Ok (Text.quote +:+
        concat_strings
          (live_values (heap Scenario.st_xBC) (treeByIndex Scenario.st_xBC))
        +:+ Text.quote).
Proof.
  apply C10_marshal_live_values.
  - apply wf_chain, reachable_wf, ScenarioFacts.reachable_st_xBC.
  - exists (TextNode.mk initialTextNodeID EmptyString None None (Some 1%nat)
              None None).
    split; reflexivity.
Defined.

(** ** C4: splitTextNode *)

Lemma findFloorTextNode_Put (s : RGATreeSplit.t) (key : TextNodeID.t)
    (value : handle) (hp : Heap) (ix : splay.Tree) :
  wf s → key_ok key →
  findFloorTextNode
    (RGATreeSplit.mk hp (initialHead s) ix (llrb.Put key value (treeByID s)))
    key = Some value.
Proof.
  intros Hwf Hk. unfold findFloorTextNode. simpl.
  rewrite LLRB.Floor_Put; auto.
  - unfold TextNodeID.Equal. rewrite KeyOrder.key_refl. reflexivity.
  - apply keys_ok_of_wf, Hwf.
  - apply (idx_sorted _ (wf_idx _ Hwf)).
Qed.

Lemma proper_split_holds (s : RGATreeSplit.t) (node : handle)
    (n : TextNode.t) (k : Z) :
  wf s → heap s !! node = Some n → 0 < k < TextNode.contentLen n →
  ∃ s', splitTextNode s node k = Ok (s', Some (length (heap s))) ∧
        proper_split s node n k s' (length (heap s)).
Proof.
  intros Hwf Hn Hk.
  eexists. split; [apply (split_returns _ _ _ _ Hwf Hn Hk)|].
  pose proof (split_new_offset _ _ _ k Hwf Hn Hk) as Hid.
  fold (TextNode.createdAt n) in Hid.
  constructor.
  - apply lookup_ge_None_2. lia.
  - exists (split_left n k (length (heap s))), (split_right n k node).
    split; [apply split_lookup_node; auto|].
    split; [apply split_lookup_new; auto|].
    simpl. rewrite Hid.
    split; [reflexivity|]. split; [reflexivity|].
    split; [reflexivity|]. split; [reflexivity|].
    split; [apply slice_to_from|].
    split; [apply contentLen_slice_to; unfold TextNode.contentLen in Hk; lia|].
    split; [apply contentLen_slice_from;
            unfold TextNode.contentLen in Hk; lia|].
    repeat split; reflexivity.
  - intros x Hx. simpl.
    destruct (wf_next_valid _ _ _ _ Hwf Hn Hx) as (Hv & Hne & _).
    destruct (lookup_lt_is_Some_2 _ _ Hv) as [xn Hxn].
    exists (split_other n (length (heap s)) x xn).
    split; [apply split_lookup_other; auto|].
    simpl. rewrite decide_True by exact Hx. reflexivity.
  - intros i Hi. simpl.
    destruct (wf_insNext_valid _ _ _ _ Hwf Hn Hi) as (Hv & Hne).
    destruct (lookup_lt_is_Some_2 _ _ Hv) as [yn Hyn].
    exists (split_other n (length (heap s)) i yn).
    split; [apply split_lookup_other; auto|].
    simpl. rewrite decide_True by exact Hi. reflexivity.
  - intros j y Hj Hy. simpl.
    exists (split_other n (length (heap s)) j y).
    split; [apply split_lookup_other; auto|].
    simpl. repeat split; auto.
    + intros Hne. rewrite decide_False by exact Hne. reflexivity.
    + intros Hne. rewrite decide_False by exact Hne. reflexivity.
  - destruct (split_chain_shape _ _ _ k Hwf Hn) as (l1 & l2 & H1 & H2 & _).
    exists l1, l2. split; [exact H1|]. split; [exact H2|].
    rewrite <- H2. apply (split_chain s node n k); auto.
  - reflexivity.
  - simpl. rewrite Hid. split; [reflexivity|].
    rewrite <- Hid. apply findFloorTextNode_Put; [exact Hwf|].
    apply (split_new_key_ok s node n k); auto.
  - apply (split_wf s node n k); auto.
Qed.

(** C4 (amended). [splitTextNode(node, k)] performs no split, the state
    being unchanged, when [k == 0], where it returns the node itself, and
    when [k == contentLen(node)] with [k > 0], where it returns [node.next];
    the test for [k == 0] comes first, so that for a node of empty content
    (the sentinel) the offset [contentLen(node) = 0] returns the node itself
    and not [node.next].  For [0 < k < contentLen(node)] it creates a fresh
    node with identifier (createdAt, offset + k) and the content from [k] on,
    cuts the node's content to its first [k] code units (the two contents
    concatenate to the former content, the first of length [k]), and puts
    the new node right after the node in the linked list, in the splay index
    and in the LLRB, and between the node and its former [insNext] in the
    insertion-history chain. *)
Theorem C4_splitTextNode (s : RGATreeSplit.t) (node : handle)
    (n : TextNode.t) :
  wf s → heap s !! node = Some n →
  splitTextNode s node 0 = Ok (s, Some node) ∧
  splitTextNode s node (TextNode.contentLen n) =
    Ok (s, if TextNode.contentLen n =? 0 then Some node else TextNode.next n) ∧
  ∀ k, 0 < k < TextNode.contentLen n →
    ∃ s', splitTextNode s node k = Ok (s', Some (length (heap s))) ∧
          proper_split s node n k s' (length (heap s)).
Proof.
  intros Hwf Hn. split; [apply (splitTextNode_zero _ _ _ Hn)|]. split.
  - destruct (TextNode.contentLen n =? 0) eqn:E.
    + apply Z.eqb_eq in E. rewrite E. apply (splitTextNode_zero _ _ _ Hn).
    + apply Z.eqb_neq in E. apply (splitTextNode_full _ _ _ Hn E).
  - intros k Hk. apply proper_split_holds; auto.
Qed.

Lemma C4_splitTextNode_witness :
  splitTextNode Scenario.st_ABC 1 0 = Ok (Scenario.st_ABC, Some 1%nat) ∧
  splitTextNode Scenario.st_ABC 1 (TextNode.contentLen Scenario.node_ABC) =
    Ok (Scenario.st_ABC,
        if TextNode.contentLen Scenario.node_ABC =? 0 then Some 1%nat
        else TextNode.next Scenario.node_ABC) ∧
  ∀ k, 0 < k < TextNode.contentLen Scenario.node_ABC →
    ∃ s', splitTextNode Scenario.st_ABC 1 k =
            Ok (s', Some (length (heap Scenario.st_ABC))) ∧
          proper_split Scenario.st_ABC 1 Scenario.node_ABC k s'
            (length (heap Scenario.st_ABC)).
Proof.
  apply C4_splitTextNode.
  - apply reachable_wf, ScenarioFacts.reachable_st_ABC.
  - reflexivity.
Defined.

(** The sentinel of "ABC" has an empty content and a successor, the node of
    "ABC": [splitTextNode] at offset [contentLen(sentinel) = 0] returns the
    sentinel itself, not its [next]. *)
Lemma C4_counterexample :
  let sentinel :=
    TextNode.mk initialTextNodeID EmptyString None None (Some 1%nat) None None
  in
  reachable Scenario.st_ABC ∧
  heap Scenario.st_ABC !! 0%nat = Some sentinel ∧
  TextNode.contentLen sentinel = 0 ∧
  TextNode.next sentinel = Some 1%nat ∧
  splitTextNode Scenario.st_ABC 0 (TextNode.contentLen sentinel)
    = Ok (Scenario.st_ABC, Some 0%nat) ∧
  splitTextNode Scenario.st_ABC 0 (TextNode.contentLen sentinel)
    ≠ Ok (Scenario.st_ABC, TextNode.next sentinel).
Proof.
  cbv zeta.
  split; [apply ScenarioFacts.reachable_st_ABC|].
  split; [reflexivity|].
  split; [reflexivity|]. split; [reflexivity|].
  split; [vm_compute; reflexivity|].
  vm_compute. discriminate.
Qed.

(** ** C5: the rightward slide of position resolution *)

(** C5. After the floor lookup and the split, [findTextNodeWithSplit] returns
    (in a well-formed state the slide cannot run out of steps): with [node]
    the resolved node, the traversal is [l1 ++ node :: run ++ post] where
    [run] is the maximal run of successors created after [editedAt], all of
    [run] was created after it and the first node of [post], if any, was
    not; the result is the last node of [node :: run] and its [next], the
    first node of [post].  A new node anchored after the returned node by
    [InsertAfter] becomes its immediate successor and the immediate
    predecessor of the returned right node, so that nothing, in particular no
    node created after [editedAt], lies between them. *)
Theorem C5_findTextNodeWithSplit_slide (s s1 : RGATreeSplit.t)
    (pos : TextNodePos.t) (editedAt : Ticket.t) (node : handle)
    (n : TextNode.t) (r : option handle) :
  wf s →
  findFloorTextNodePreferToLeft s (TextNodePos.getAbsoluteID pos) = Ok node →
  heap s !! node = Some n →
  splitTextNode s node
    (int_sub (TextNodeID.offset (TextNodePos.getAbsoluteID pos))
       (TextNodeID.offset (TextNode.id n))) = Ok (s1, r) →
  ∃ l1 run post,
    let leftNode := default node (last run) in
    let rightNode := hd_or post None in
    findTextNodeWithSplit s pos editedAt = Ok (s1, leftNode, rightNode) ∧
    chain s1 (l1 ++ node :: run ++ post) ∧
    Forall (λ h, created_after (heap s1) editedAt h = true) run ∧
    (∀ x, rightNode = Some x → created_after (heap s1) editedAt x = false) ∧
    ∀ content, len content ≤ int_max →
      ∃ s2 ln nn,
        InsertAfter
          (with_heap s1
             (heap s1 ++
              [TextNode.newTextNode (TextNodeID.NewTextNodeID editedAt 0)
                 content]))
          leftNode (length (heap s1)) = Ok s2 ∧
        heap s2 !! leftNode = Some ln ∧
        TextNode.next ln = Some (length (heap s1)) ∧
        heap s2 !! length (heap s1) = Some nn ∧
        TextNode.prev nn = Some leftNode ∧
        TextNode.next nn = rightNode ∧
        chain s2 (treeByIndex s2).
Proof.
  intros Hwf Hfl Hn Hsp.
  destruct (findTextNodeWithSplit_returns _ _ _ editedAt _ _ _ Hwf Hfl Hn Hsp)
    as (l1 & run & post & Hl & Hrun & Hpost & Hret).
  exists l1, run, post. cbn zeta.
  destruct (wf_findTextNodeWithSplit _ _ _ _ _ _ Hwf Hret)
    as (Hwf1 & _ & _ & ln & Hln & Hnx).
  split; [exact Hret|].
  split; [rewrite <- Hl; apply (wf_chain _ Hwf1)|].
  split; [exact Hrun|].
  split. { intros x Hx. apply Hpost. destruct post; [discriminate|exact Hx]. }
  intros content Hlen.
  eexists. exists (insert_left ln (length (heap s1))).
  exists (insert_new (TextNodeID.NewTextNodeID editedAt 0) content
            (default node (last run)) ln).
  split; [apply (insert_returns _ _ _ editedAt content Hwf1 Hln)|].
  split; [apply insert_lookup_prev; auto|].
  split; [reflexivity|].
  split; [apply insert_lookup_new; auto|].
  split; [reflexivity|].
  split; [exact Hnx|].
  apply (insert_chain s1 _ ln editedAt content); auto.
Qed.

Lemma C5_findTextNodeWithSplit_slide_witness :
  ∃ l1 run post,
    let leftNode := default 0%nat (last run) in
    let rightNode := hd_or post None in
    findTextNodeWithSplit Scenario.st_BA Scenario.headPos
      (Scenario.tk 2 Scenario.actorC)
    = Ok (Scenario.st_BA, leftNode, rightNode) ∧
    chain Scenario.st_BA (l1 ++ 0%nat :: run ++ post) ∧
    Forall (λ h, created_after (heap Scenario.st_BA)
                   (Scenario.tk 2 Scenario.actorC) h = true) run ∧
    (∀ x, rightNode = Some x →
          created_after (heap Scenario.st_BA)
            (Scenario.tk 2 Scenario.actorC) x = false) ∧
    ∀ content, len content ≤ int_max →
      ∃ s2 ln nn,
        InsertAfter
          (with_heap Scenario.st_BA
             (heap Scenario.st_BA ++
              [TextNode.newTextNode
                 (TextNodeID.NewTextNodeID (Scenario.tk 2 Scenario.actorC) 0)
                 content]))
          leftNode (length (heap Scenario.st_BA)) = Ok s2 ∧
        heap s2 !! leftNode = Some ln ∧
        TextNode.next ln = Some (length (heap Scenario.st_BA)) ∧
        heap s2 !! length (heap Scenario.st_BA) = Some nn ∧
        TextNode.prev nn = Some leftNode ∧
        TextNode.next nn = rightNode ∧
        chain s2 (treeByIndex s2).
Proof.
  apply (C5_findTextNodeWithSplit_slide Scenario.st_BA Scenario.st_BA
           Scenario.headPos (Scenario.tk 2 Scenario.actorC) 0%nat
           (TextNode.mk initialTextNodeID EmptyString None None (Some 2%nat)
              None None)
           (Some 0%nat)).
  - apply reachable_wf, ScenarioFacts.reachable_st_BA.
  - vm_compute. reflexivity.
  - reflexivity.
  - vm_compute. reflexivity.
Defined.

(** ** C6: the insPrev invariant *)

(** C6. After every edit, every node reachable from [initialHead] through
    [next] whose identifier has a positive offset has an [insPrev], which
    has the same [createdAt] and a strictly smaller offset. *)
Theorem C6_insPrev_invariant (s : RGATreeSplit.t) (h : handle)
    (n : TextNode.t) :
  reachable s → via_next s h → heap s !! h = Some n →
  0 < TextNodeID.offset (TextNode.id n) →
  ∃ p pn, TextNode.insPrev n = Some p ∧ heap s !! p = Some pn ∧
          TextNodeID.createdAt (TextNode.id pn)
            = TextNodeID.createdAt (TextNode.id n) ∧
          TextNodeID.offset (TextNode.id pn)
            < TextNodeID.offset (TextNode.id n).
Proof.
  intros Hr _ Hn Hoff.
  pose proof (wf_ins _ (reachable_wf _ Hr) _ _ Hn) as [_ Hhp Hip _].
  destruct (Hhp Hoff) as [p Hp].
  destruct (Hip p Hp) as (pn & Hpn & _ & Hc & _ & Hlt).
  exists p, pn. auto.
Qed.

Lemma C6_insPrev_invariant_witness :
  ∃ p pn,
    TextNode.insPrev
      (TextNode.mk (TextNodeID.mk (Scenario.tk 1 Scenario.actorA) 1) "BC"
         None (Some 3%nat) None (Some 1%nat) None) = Some p ∧
    heap Scenario.st_AxBC !! p = Some pn ∧
    TextNodeID.createdAt (TextNode.id pn) = Scenario.tk 1 Scenario.actorA ∧
    TextNodeID.offset (TextNode.id pn) < 1.
Proof.
  apply (C6_insPrev_invariant Scenario.st_AxBC 2%nat).
  - apply ScenarioFacts.reachable_st_AxBC.
  - eapply via_step; [eapply via_step; [eapply via_step; [apply via_head|..]|..]|..];
      reflexivity.
  - reflexivity.
  - reflexivity.
Defined.

(** ** C8: floor lookups in the ID index *)

(** C8, as the code has it.  In a well-formed state the floor lookup on the
    key of an index entry returns that entry's node, whose identifier is the
    key.  For an identifier strictly between two adjacent keys [a] and [b],
    the tree's floor is the entry of [a]; [findFloorTextNode] returns its
    node only if [a] has the identifier's [createdAt], and nil otherwise. *)
Theorem C8_floor_lookup (s : RGATreeSplit.t) :
  wf s →
  (∀ e, e ∈ treeByID s →
     ∃ n, heap s !! snd e = Some n ∧ TextNode.id n = fst e ∧
          findFloorTextNode s (TextNode.id n) = Some (snd e) ∧
          FindTextNode s (Some (TextNode.id n)) = Some (snd e)) ∧
  (∀ pre a b post id,
     treeByID s = pre ++ a :: b :: post →
     key_ok id → key_lt (fst a) id → key_lt id (fst b) →
     llrb.Floor id (treeByID s) = Some a ∧
     findFloorTextNode s id =
       if TextNodeID.hasSameCreatedAt (fst a) id then Some (snd a) else None).
Proof.
  intros Hwf. pose proof (wf_idx _ Hwf) as [Hs He].
  pose proof (keys_ok_of_wf _ Hwf) as Hk. split.
  - intros [k h] Hin. rewrite Forall_forall in He.
    destruct (He _ Hin) as [_ (n & Hn & Hid)]. simpl in *.
    exists n. split; [exact Hn|]. split; [exact Hid|].
    assert (findFloorTextNode s (TextNode.id n) = Some h) as Hf.
    { unfold findFloorTextNode. rewrite Hid.
      rewrite (LLRB.Floor_exact k h); auto.
      unfold TextNodeID.Equal. rewrite KeyOrder.key_refl. reflexivity. }
    split; [exact Hf|]. exact Hf.
  - intros pre [ka va] b post id Ht Hid Ha Hb. simpl in *.
    assert (llrb.Floor id (treeByID s) = Some (ka, va)) as Hfl.
    { rewrite Ht in *. apply LLRB.Floor_between; auto. }
    split; [exact Hfl|].
    unfold findFloorTextNode. rewrite Hfl.
    unfold TextNodeID.Equal. unfold key_lt in Ha.
    destruct (TextNodeID.Compare ka id =? 0) eqn:E;
      [apply Z.eqb_eq in E; lia|].
    simpl. destruct (TextNodeID.hasSameCreatedAt ka id); reflexivity.
Qed.

Lemma C8_floor_lookup_witness :
  (∀ e, e ∈ treeByID Scenario.st_AxBC →
     ∃ n, heap Scenario.st_AxBC !! snd e = Some n ∧ TextNode.id n = fst e ∧
          findFloorTextNode Scenario.st_AxBC (TextNode.id n) = Some (snd e) ∧
          FindTextNode Scenario.st_AxBC (Some (TextNode.id n)) = Some (snd e)) ∧
  (∀ pre a b post id,
     treeByID Scenario.st_AxBC = pre ++ a :: b :: post →
     key_ok id → key_lt (fst a) id → key_lt id (fst b) →
     llrb.Floor id (treeByID Scenario.st_AxBC) = Some a ∧
     findFloorTextNode Scenario.st_AxBC id =
       if TextNodeID.hasSameCreatedAt (fst a) id then Some (snd a) else None).
Proof.
  apply C8_floor_lookup.
  apply reachable_wf, ScenarioFacts.reachable_st_AxBC.
Defined.

(** An identifier strictly between the two adjacent keys of [st_ABC], the
    sentinel's and that of "ABC", but of another creation ticket than the
    sentinel: the floor lookup returns nil, not the sentinel. *)
Lemma C8_counterexample :
  reachable Scenario.st_ABC ∧
  treeByID Scenario.st_ABC =
    [] ++ (initialTextNodeID, 0%nat)
       :: (TextNodeID.mk (Scenario.tk 1 Scenario.actorA) 0, 1%nat) :: [] ∧
  key_ok (TextNodeID.mk (Scenario.tk 0 Scenario.actorA) 0) ∧
  key_lt initialTextNodeID (TextNodeID.mk (Scenario.tk 0 Scenario.actorA) 0) ∧
  key_lt (TextNodeID.mk (Scenario.tk 0 Scenario.actorA) 0)
         (TextNodeID.mk (Scenario.tk 1 Scenario.actorA) 0) ∧
  findFloorTextNode Scenario.st_ABC
    (TextNodeID.mk (Scenario.tk 0 Scenario.actorA) 0) = None ∧
  findFloorTextNode Scenario.st_ABC
    (TextNodeID.mk (Scenario.tk 0 Scenario.actorA) 0) ≠ Some 0%nat.
Proof.
  split; [apply ScenarioFacts.reachable_st_ABC|].
  split; [reflexivity|].
  split; [split; vm_compute; discriminate|].
  split; [vm_compute; reflexivity|].
  split; [vm_compute; reflexivity|].
  split; [vm_compute; reflexivity|].
  vm_compute. discriminate.
Qed.

(** ** C3: findBoundary *)

Lemma Len_nonneg (n : TextNode.t) : 0 ≤ TextNode.Len n.
Proof.
  unfold TextNode.Len, TextNode.contentLen.
  destruct (TextNode.deletedAt n); [lia | apply len_nonneg].
Qed.

Lemma weight_nonneg (hp : Heap) (h : handle) : 0 ≤ weight hp h.
Proof.
  unfold weight. destruct (hp !! h); [apply Len_nonneg | lia].
Qed.

Lemma find_from_in_range (w : handle → Z) (t : splay.Tree) :
  (∀ h, 0 ≤ w h) → ∀ k, t ≠ [] → 0 ≤ k ≤ splay.total w t →
  ∃ h off, splay.find_from w t k = Some (h, off) ∧ h ∈ t.
Proof.
  intros Hw. induction t as [|x t IH]; intros k Hne Hk; [contradiction|].
  simpl in *. destruct (k <=? w x) eqn:E.
  - exists x, k. split; [reflexivity | apply elem_of_cons; auto].
  - apply Z.leb_gt in E. destruct t as [|y t].
    + simpl in Hk. lia.
    + destruct (IH (k - w x) ltac:(discriminate) ltac:(lia))
        as (h & off & Hf & Hin).
      exists h, off. split; [exact Hf | apply elem_of_cons; auto].
Qed.

Lemma findTextNodePos_range (s : RGATreeSplit.t) (k : Z) :
  wf s →
  (0 ≤ k ≤ visible_total s → ∃ p, findTextNodePos s k = Ok p) ∧
  (¬ (0 ≤ k ≤ visible_total s) →
   findTextNodePos s k = Panic InvalidPosition).
Proof.
  intros Hwf. unfold findTextNodePos, splay.Find, visible_total. split.
  - intros Hk.
    destruct (k <? 0) eqn:E1; [apply Z.ltb_lt in E1; lia|].
    destruct (splay.total (weight (heap s)) (treeByIndex s) <? k) eqn:E2;
      [apply Z.ltb_lt in E2; lia|].
    simpl.
    pose proof (wf_chain _ Hwf) as Hc.
    assert (treeByIndex s ≠ []) as Hne.
    { intros E. pose proof (chain_head _ _ Hc) as Hh. rewrite E in Hh.
      discriminate. }
    destruct (find_from_in_range _ _ (weight_nonneg (heap s)) k Hne Hk)
      as (h & off & Hf & Hin).
    rewrite Hf. simpl.
    destruct (chain_valid _ _ _ Hc Hin) as [n Hn].
    rewrite (getNode_lookup _ _ _ Hn). simpl. eauto.
  - intros Hk.
    destruct (k <? 0) eqn:E1; [reflexivity|].
    destruct (splay.total (weight (heap s)) (treeByIndex s) <? k) eqn:E2;
      [reflexivity|].
    apply Z.ltb_ge in E1, E2. lia.
Qed.

Lemma len_append (a b : string) : len (a +:+ b) = len a + len b.
Proof.
  unfold len. induction a as [|c a IH]; [rewrite append_nil; simpl; lia|].
  rewrite append_cons. cbn [String.length]. rewrite !Nat2Z.inj_succ. lia.
Qed.

(** The weight of the index is the length of the visible string. *)
Lemma total_live_values (hp : Heap) (l : list handle) :
  splay.total (weight hp) l = len (concat_strings (live_values hp l)).
Proof.
  induction l as [|h l IH]; [reflexivity|].
  simpl. rewrite IH. unfold weight, TextNode.Len, TextNode.contentLen.
  destruct (hp !! h) as [n|]; [|lia].
  destruct (TextNode.deletedAt n); [lia|].
  simpl. rewrite len_append. reflexivity.
Qed.

Lemma visible_total_marshal (s : RGATreeSplit.t) (str : string) :
  wf s → marshal s = Ok str → visible_total s = len str.
Proof.
  intros Hwf H.
  rewrite (marshal_chain s _ (wf_chain _ Hwf) (wf_head _ Hwf)) in H.
  injection H as <-. apply total_live_values.
Qed.

(** C3, as the code has it.  [findBoundary] has no check of its own: it
    fails with InvalidPosition exactly when an index it looks up lies
    outside [[0, totalVisibleLength]] ([to] is not looked up when it equals
    [from]); whenever both indices are in range it returns the two positions,
    also when [from > to].  The total visible length is the length of
    [marshal()]. *)
Theorem C3_findBoundary_range (s : RGATreeSplit.t) (from to : Z) :
  wf s →
  (findBoundary s from to = Panic InvalidPosition ↔
   (¬ (0 ≤ from ≤ visible_total s) ∨
    (from ≠ to ∧ ¬ (0 ≤ to ≤ visible_total s)))) ∧
  (0 ≤ from ≤ visible_total s → 0 ≤ to ≤ visible_total s →
   ∃ fromPos toPos, findBoundary s from to = Ok (fromPos, toPos)) ∧
  Text.FindBoundary (Text.NewText s Ticket.InitialTicket) from to =
    findBoundary s from to ∧
  (∀ str, marshal s = Ok str → visible_total s = len str).
Proof.
  intros Hwf.
  destruct (findTextNodePos_range s from Hwf) as [Hf1 Hf2].
  destruct (findTextNodePos_range s to Hwf) as [Ht1 Ht2].
  split; [|split; [|split; [reflexivity|]]];
    [| |intros str; apply visible_total_marshal, Hwf].
  - unfold findBoundary. split.
    + intros H.
      destruct (decide (0 ≤ from ≤ visible_total s)) as [Hin|Hout]; [|auto].
      right. destruct (Hf1 Hin) as [p Hp]. rewrite Hp in H. simpl in H.
      destruct (from =? to) eqn:E; [discriminate|].
      apply Z.eqb_neq in E. split; [exact E|].
      intros Hto. destruct (Ht1 Hto) as [q Hq]. rewrite Hq in H.
      discriminate.
    + intros [Hout|[Hne Hout]].
      * rewrite (Hf2 Hout). reflexivity.
      * destruct (decide (0 ≤ from ≤ visible_total s)) as [Hin|Hout'].
        -- destruct (Hf1 Hin) as [p Hp]. rewrite Hp. simpl.
           apply Z.eqb_neq in Hne. rewrite Hne.
           rewrite (Ht2 Hout). reflexivity.
        -- rewrite (Hf2 Hout'). reflexivity.
  - intros Hin Hto. unfold findBoundary.
    destruct (Hf1 Hin) as [p Hp]. destruct (Ht1 Hto) as [q Hq].
    rewrite Hp. simpl. destruct (from =? to); [eauto|].
    rewrite Hq. simpl. eauto.
Qed.

Lemma C3_findBoundary_range_witness :
  (findBoundary Scenario.st_ABC 3 1 = Panic InvalidPosition ↔
   (¬ (0 ≤ 3 ≤ visible_total Scenario.st_ABC) ∨
    (3 ≠ 1 ∧ ¬ (0 ≤ 1 ≤ visible_total Scenario.st_ABC)))) ∧
  (0 ≤ 3 ≤ visible_total Scenario.st_ABC →
   0 ≤ 1 ≤ visible_total Scenario.st_ABC →
   ∃ fromPos toPos, findBoundary Scenario.st_ABC 3 1 = Ok (fromPos, toPos)) ∧
  Text.FindBoundary (Text.NewText Scenario.st_ABC Ticket.InitialTicket) 3 1 =
    findBoundary Scenario.st_ABC 3 1 ∧
  (∀ str, marshal Scenario.st_ABC = Ok str →
          visible_total Scenario.st_ABC = len str).
Proof.
  apply C3_findBoundary_range.
  apply reachable_wf, ScenarioFacts.reachable_st_ABC.
Defined.

(** On "ABC", [findBoundary(3, 1)], with [from > to] and both indices within
    [[0, 3]], returns two positions. *)
Lemma C3_counterexample :
  reachable Scenario.st_ABC ∧
  1 < 3 ∧ visible_total Scenario.st_ABC = 3 ∧
  findBoundary Scenario.st_ABC 3 1 = Ok (Scenario.posA 3, Scenario.posA 1) ∧
  Text.FindBoundary (Text.NewText Scenario.st_ABC Ticket.InitialTicket) 3 1
    ≠ Panic InvalidPosition.
Proof.
  split; [apply ScenarioFacts.reachable_st_ABC|].
  split; [lia|]. split; [reflexivity|]. split; [reflexivity|].
  vm_compute. discriminate.
Qed.

(** ** C9: an edit with an empty range and no content *)

Lemma findBetween_same (s : RGATreeSplit.t) (x : option handle) :
  findBetween s x x = Ok [].
Proof.
  unfold findBetween. simpl. destruct x as [c|]; [|reflexivity].
  rewrite decide_True by reflexivity. reflexivity.
Qed.

Lemma wrap_low (d : Z) :
  int_min - int_max ≤ d < int_min → wrap d = d + 2 ^ 64.
Proof.
  unfold wrap, int_min, int_max. intros H.
  replace (d + 2 ^ 63) with (d + 2 ^ 63 + 2 ^ 64 + (-1) * 2 ^ 64) by lia.
  rewrite Z_mod_plus_full. rewrite Z.mod_small; lia.
Qed.

(** The node a position resolves to was created by the position's ticket. *)
Lemma findFloor_createdAt (s : RGATreeSplit.t) (id : TextNodeID.t)
    (node : handle) (n : TextNode.t) :
  wf s → findFloorTextNodePreferToLeft s id = Ok node →
  heap s !! node = Some n →
  TextNode.createdAt n = TextNodeID.createdAt id.
Proof.
  intros Hwf H Hn. unfold findFloorTextNodePreferToLeft in H.
  unfold findFloorTextNode in H.
  destruct (llrb.Floor id (treeByID s)) as [[k0 h0]|] eqn:Hfl;
    [|discriminate].
  destruct (negb (TextNodeID.Equal k0 id) &&
            negb (TextNodeID.hasSameCreatedAt k0 id)) eqn:Hg; [discriminate|].
  assert (TextNodeID.createdAt k0 = TextNodeID.createdAt id) as Hc.
  { apply TicketOrder.ticket_eq.
    apply andb_false_iff in Hg as [Hg|Hg]; apply negb_false_iff in Hg.
    - unfold TextNodeID.Equal, TextNodeID.Compare in Hg.
      destruct (Ticket.Compare (TextNodeID.createdAt k0)
                  (TextNodeID.createdAt id) =? 0) eqn:E.
      + apply Z.eqb_eq in E. exact E.
      + simpl in Hg. rewrite Hg in E. discriminate.
    - unfold TextNodeID.hasSameCreatedAt in Hg. apply Z.eqb_eq in Hg.
      exact Hg. }
  pose proof (LLRB.Floor_elem _ _ _ Hfl) as Hin.
  pose proof (idx_entries _ (wf_idx _ Hwf)) as He.
  rewrite Forall_forall in He. destruct (He _ Hin) as [_ (n0 & Hn0 & Hid)].
  simpl in *.
  apply bind_Ok_inv in H as (n0' & Hn0' & H). apply getNode_Ok in Hn0'.
  rewrite Hn0 in Hn0'. injection Hn0' as <-.
  destruct ((0 <? TextNodeID.offset id) && _).
  - destruct (TextNode.insPrev n0) as [p|] eqn:Ep; [|discriminate].
    injection H as <-.
    destruct (ins_prev _ _ _ (wf_ins _ Hwf _ _ Hn0) _ Ep)
      as (pn & Hpn & _ & Hcr & _).
    rewrite Hn in Hpn. injection Hpn as <-.
    rewrite Hcr. unfold TextNode.createdAt. rewrite Hid. exact Hc.
  - injection H as <-. rewrite Hn in Hn0. injection Hn0 as <-.
    unfold TextNode.createdAt. rewrite Hid. exact Hc.
Qed.

(** When the split of a resolved position is a proper one, the position's
    absolute identifier is the identifier of the new node. *)
Lemma split_offset_exact (s : RGATreeSplit.t) (pos : TextNodePos.t)
    (node : handle) (n : TextNode.t) :
  wf s →
  findFloorTextNodePreferToLeft s (TextNodePos.getAbsoluteID pos) = Ok node →
  heap s !! node = Some n →
  let k := int_sub (TextNodeID.offset (TextNodePos.getAbsoluteID pos))
             (TextNodeID.offset (TextNode.id n)) in
  0 < k < TextNode.contentLen n →
  TextNodePos.getAbsoluteID pos = TextNodeID.split (TextNode.id n) k ∧
  TextNodeID.offset (TextNodePos.getAbsoluteID pos) = offset_of n + k.
Proof.
  intros Hwf Hfl Hn k Hk.
  pose proof (findFloor_createdAt _ _ _ _ Hwf Hfl Hn) as Hc.
  destruct (ins_range _ _ _ (wf_ins _ Hwf _ _ Hn)) as [Hr1 Hr2].
  set (a := TextNodeID.offset (TextNodePos.getAbsoluteID pos)) in *.
  assert (int_min ≤ a ≤ int_max) as Ha.
  { subst a. unfold TextNodePos.getAbsoluteID, TextNodeID.NewTextNodeID,
      int_add. simpl. apply wrap_range. }
  assert (a = offset_of n + k) as Hoff.
  { subst k. unfold int_sub in *. fold (offset_of n) in *.
    destruct (Z_lt_le_dec (a - offset_of n) int_min) as [Hlow|Hhigh].
    - rewrite wrap_low in * by (unfold int_min, int_max in *; lia).
      unfold int_min, int_max in *. lia.
    - rewrite wrap_id by (unfold int_min, int_max in *; lia). lia. }
  split; [|exact Hoff].
  rewrite (split_new_offset _ _ _ k Hwf Hn Hk).
  rewrite Hc, <- Hoff. subst a.
  destruct (TextNodePos.getAbsoluteID pos). reflexivity.
Qed.

(** Resolving a position a second time changes nothing and gives the same
    nodes: the split, if any, has been made. *)
Lemma findTextNodeWithSplit_again (s s1 : RGATreeSplit.t)
    (pos : TextNodePos.t) (editedAt : Ticket.t) (leftNode : handle)
    (rightNode : option handle) :
  wf s →
  findTextNodeWithSplit s pos editedAt = Ok (s1, leftNode, rightNode) →
  findTextNodeWithSplit s1 pos editedAt = Ok (s1, leftNode, rightNode).
Proof.
  intros Hwf H. pose proof H as H0. unfold findTextNodeWithSplit in H.
  apply bind_Ok_inv in H as (node & Hfl & H).
  apply bind_Ok_inv in H as (n & Hn & H). apply getNode_Ok in Hn.
  apply bind_Ok_inv in H as ([s1' r] & Hsp & H).
  apply bind_Ok_inv in H as (l' & Hsl & H).
  apply bind_Ok_inv in H as (ln & Hln & H).
  injection H as -> <- <-.
  destruct (splitTextNode_cases _ _ _ _ _ Hsp) as (n' & Hn' & Hcase).
  rewrite Hn in Hn'. injection Hn' as <-.
  destruct Hcase as [Hk|[[Hk1 Hk2]|Hk]].
  - rewrite Hk in Hsp. rewrite (splitTextNode_zero _ _ _ Hn) in Hsp.
    injection Hsp as <- _. exact H0.
  - rewrite Hk2 in Hsp. rewrite Hk2 in Hk1.
    rewrite (splitTextNode_full _ _ _ Hn Hk1) in Hsp.
    injection Hsp as <- _. exact H0.
  - destruct (split_offset_exact _ _ _ _ Hwf Hfl Hn Hk) as [Habs Hoff].
    pose proof (split_new_offset _ _ _ _ Hwf Hn Hk) as Hsid.
    set (k := int_sub (TextNodeID.offset (TextNodePos.getAbsoluteID pos))
                (TextNodeID.offset (TextNode.id n))) in *.
    rewrite (split_returns _ _ _ _ Hwf Hn Hk) in Hsp.
    injection Hsp as <- <-.
    pose proof (split_wf _ _ _ _ Hwf Hn Hk) as Hwf1.
    pose proof (split_lookup_node _ _ _ k Hwf Hn) as Hl1.
    pose proof (split_lookup_new _ _ _ k Hwf Hn) as Hf1.
    destruct (ins_range _ _ _ (wf_ins _ Hwf _ _ Hn)) as [Hr1 Hr2].
    unfold findTextNodeWithSplit.
    assert (findFloorTextNodePreferToLeft
              {| heap := split_final (heap s) node n k;
                 initialHead := initialHead s;
                 treeByIndex :=
                   splay.InsertAfter node (length (heap s)) (treeByIndex s);
                 treeByID :=
                   llrb.Put (TextNodeID.split (TextNode.id n) k)
                     (length (heap s)) (treeByID s) |}
              (TextNodePos.getAbsoluteID pos) = Ok node) as ->.
    { unfold findFloorTextNodePreferToLeft. rewrite Habs.
      rewrite findFloorTextNode_Put;
        [|exact Hwf|apply (split_new_key_ok _ _ _ _ Hwf Hn Hk)].
      cbn [heap]. rewrite (getNode_lookup _ _ _ Hf1).
      cbn [mbind result_mbind result_bind].
      cbn [split_right TextNode.id TextNode.insPrev].
      rewrite Z.eqb_refl, andb_true_r.
      rewrite Hsid. cbn [TextNodeID.offset].
      destruct (0 <? offset_of n + k) eqn:E;
        [reflexivity | apply Z.ltb_ge in E; unfold offset_of in *; lia]. }
    cbn [mbind result_mbind result_bind]. cbn [heap].
    rewrite (getNode_lookup _ _ _ Hl1).
    cbn [mbind result_mbind result_bind].
    cbn [split_left TextNode.id].
    assert (int_sub (TextNodeID.offset (TextNodePos.getAbsoluteID pos))
              (TextNodeID.offset (TextNode.id n)) = k) as -> by reflexivity.
    assert (TextNode.contentLen (split_left n k (length (heap s))) = k)
      as Hll.
    { unfold TextNode.contentLen, split_left. simpl.
      apply contentLen_slice_to. unfold TextNode.contentLen in Hk. lia. }
    pose proof (splitTextNode_full
                  (RGATreeSplit.mk (split_final (heap s) node n k)
                     (initialHead s)
                     (splay.InsertAfter node (length (heap s)) (treeByIndex s))
                     (llrb.Put (TextNodeID.split (TextNode.id n) k)
                        (length (heap s)) (treeByID s)))
                  _ _ Hl1) as Hfull.
    rewrite Hll in Hfull. rewrite Hfull by lia.
    cbn [mbind result_mbind result_bind]. cbn [heap] in *.
    rewrite Hsl. cbn [mbind result_mbind result_bind].
    rewrite Hln. reflexivity.
Qed.

(** C9, as the code has it.  An edit with [fromPos = toPos] and no content
    returns whenever the position resolves; it returns the state in which
    the position was resolved (at most one node has been split), in which no
    node has been tombstoned, an empty map, and the caret
    [(toRight.id, 0)], or [(toLeft.id, 0)] when there is no [toRight]. *)
Theorem C9_noop_edit (s s1 : RGATreeSplit.t) (pos : TextNodePos.t)
    (m : option (gmap string Ticket.t)) (editedAt : Ticket.t)
    (leftNode : handle) (rightNode : option handle) :
  wf s →
  findTextNodeWithSplit s pos editedAt = Ok (s1, leftNode, rightNode) →
  ∃ cn, heap s1 !! default leftNode rightNode = Some cn ∧
    edit s pos pos m EmptyString editedAt =
      Ok (s1, TextNodePos.mk (TextNode.id cn) 0, ∅) ∧
    ∀ h n, heap s !! h = Some n →
      ∃ n', heap s1 !! h = Some n' ∧
            TextNode.deletedAt n' = TextNode.deletedAt n.
Proof.
  intros Hwf H.
  pose proof (findTextNodeWithSplit_again _ _ _ _ _ _ Hwf H) as H2.
  destruct (wf_findTextNodeWithSplit _ _ _ _ _ _ Hwf H)
    as (Hwf1 & _ & _ & ln & Hln & Hnx).
  assert (∃ cn, heap s1 !! default leftNode rightNode = Some cn)
    as [cn Hcn].
  { destruct rightNode as [x|]; simpl; [|eauto].
    destruct (wf_next_valid _ _ _ _ Hwf1 Hln Hnx) as [Hv _].
    apply lookup_lt_is_Some_2, Hv. }
  exists cn. split; [exact Hcn|]. split.
  - unfold edit. rewrite H. cbn [mbind result_mbind result_bind].
    rewrite H2. cbn [mbind result_mbind result_bind].
    rewrite findBetween_same. cbn [mbind result_mbind result_bind].
    unfold deleteNodes. cbn [deleteNodes_loop mbind result_mbind result_bind].
    destruct rightNode as [x|]; simpl in Hcn;
      rewrite (getNode_lookup _ _ _ Hcn); reflexivity.
  - intros h n Hn.
    destruct (findTextNodeWithSplit_inv _ _ _ _ _ _ Hwf H)
      as (node & n0 & r & _ & _ & _ & _ & Hn0 & Hsp & _).
    destruct (splitTextNode_cases _ _ _ _ _ Hsp) as (n' & Hn' & Hcase).
    rewrite Hn0 in Hn'. injection Hn' as <-.
    destruct Hcase as [Hk|[[Hk1 Hk2]|Hk]].
    + rewrite Hk in Hsp. rewrite (splitTextNode_zero _ _ _ Hn0) in Hsp.
      injection Hsp as <- _. eauto.
    + rewrite Hk2 in Hsp. rewrite Hk2 in Hk1.
      rewrite (splitTextNode_full _ _ _ Hn0 Hk1) in Hsp.
      injection Hsp as <- _. eauto.
    + rewrite (split_returns _ _ _ _ Hwf Hn0 Hk) in Hsp.
      injection Hsp as <- _. simpl.
      destruct (decide (h = node)) as [->|Hne].
      * rewrite Hn0 in Hn. injection Hn as <-.
        eexists. split; [apply split_lookup_node; auto|]. reflexivity.
      * eexists. split; [apply split_lookup_other; eauto|]. reflexivity.
Qed.

Lemma C9_noop_edit_witness :
  ∃ cn, heap Scenario.st_A_BC !! default 1%nat (Some 2%nat) = Some cn ∧
    edit Scenario.st_ABC (Scenario.posA 1) (Scenario.posA 1) (Some ∅)
      EmptyString (Scenario.tk 2 Scenario.actorA) =
      Ok (Scenario.st_A_BC, TextNodePos.mk (TextNode.id cn) 0, ∅) ∧
    ∀ h n, heap Scenario.st_ABC !! h = Some n →
      ∃ n', heap Scenario.st_A_BC !! h = Some n' ∧
            TextNode.deletedAt n' = TextNode.deletedAt n.
Proof.
  apply (C9_noop_edit Scenario.st_ABC Scenario.st_A_BC (Scenario.posA 1)
           (Some ∅) (Scenario.tk 2 Scenario.actorA) 1%nat (Some 2%nat)).
  - apply reachable_wf, ScenarioFacts.reachable_st_ABC.
  - vm_compute. reflexivity.
Defined.

(** In "A", "BC" (one insertion, split), an edit with the empty range at the
    end of the text and no content returns the caret [((t1(A), 1), 0)].  The
    position given denotes offset 3, the end; the caret denotes offset 1,
    both as the engine resolves positions and as section 3 of the spec reads
    them. *)
Lemma C9_counterexample :
  reachable Scenario.st_A_BC ∧
  edit Scenario.st_A_BC (Scenario.posA 3) (Scenario.posA 3) (Some ∅)
    EmptyString (Scenario.tk 3 Scenario.actorA) =
    Ok (Scenario.st_A_BC,
        TextNodePos.mk (TextNodeID.mk (Scenario.tk 1 Scenario.actorA) 1) 0,
        ∅) ∧
  resolved_index Scenario.st_A_BC (Scenario.posA 3)
    (Scenario.tk 4 Scenario.actorA) = Ok 3 ∧
  resolved_index Scenario.st_A_BC
    (TextNodePos.mk (TextNodeID.mk (Scenario.tk 1 Scenario.actorA) 1) 0)
    (Scenario.tk 4 Scenario.actorA) = Ok 1 ∧
  named_index Scenario.st_A_BC (Scenario.posA 3) = Ok 3 ∧
  named_index Scenario.st_A_BC
    (TextNodePos.mk (TextNodeID.mk (Scenario.tk 1 Scenario.actorA) 1) 0)
    = Ok 1.
Proof.
  split; [apply ScenarioFacts.reachable_st_A_BC|].
  repeat split; vm_compute; reflexivity.
Qed.

(** ** C7: a split and the visible string *)

Lemma live_values_app (hp : Heap) (l1 l2 : list handle) :
  live_values hp (l1 ++ l2) = live_values hp l1 ++ live_values hp l2.
Proof.
  induction l1 as [|h l1 IH]; simpl; [reflexivity|].
  destruct (hp !! h) as [n|]; [|exact IH].
  destruct (TextNode.deletedAt n); [exact IH|]. simpl. f_equal. exact IH.
Qed.

Lemma live_values_ext (hp hp' : Heap) (l : list handle) :
  (∀ h, h ∈ l → payload <$> hp' !! h = payload <$> hp !! h) →
  live_values hp' l = live_values hp l.
Proof.
  induction l as [|h l IH]; intros H; simpl; [reflexivity|].
  pose proof (H h ltac:(apply elem_of_cons; auto)) as Hh.
  rewrite IH by (intros x Hx; apply H, elem_of_cons; auto).
  destruct (hp' !! h) as [a|], (hp !! h) as [b|]; simpl in Hh;
    try discriminate; [|reflexivity].
  unfold payload in Hh. injection Hh as _ Hv Hd. rewrite Hv, Hd. reflexivity.
Qed.

(** The live values after a proper split: those before, with the node's
    value cut in two, and with the tail of the value there even if the node
    is a tombstone, because the new node has no [deletedAt]. *)
Lemma split_live_values (s s' : RGATreeSplit.t) (node : handle)
    (n : TextNode.t) (k : Z) :
  wf s → heap s !! node = Some n → 0 < k < TextNode.contentLen n →
  splitTextNode s node k = Ok (s', Some (length (heap s))) →
  ∃ l1 l2,
    treeByIndex s = l1 ++ node :: l2 ∧
    live_values (heap s) (treeByIndex s) =
      live_values (heap s) l1 ++
      match TextNode.deletedAt n with
      | None => [TextNode.value n]
      | Some _ => []
      end ++ live_values (heap s) l2 ∧
    live_values (heap s') (treeByIndex s') =
      live_values (heap s) l1 ++
      match TextNode.deletedAt n with
      | None => [slice_to (Z.to_nat k) (TextNode.value n)]
      | Some _ => []
      end ++ [slice_from (Z.to_nat k) (TextNode.value n)] ++
      live_values (heap s) l2.
Proof.
  intros Hwf Hn Hk Hsp.
  rewrite (split_returns _ _ _ _ Hwf Hn Hk) in Hsp. injection Hsp as <-.
  destruct (chain_split_at _ _ _ _ (wf_chain _ Hwf) Hn)
    as (l1 & l2 & Hl & H1 & H2 & _ & _).
  exists l1, l2. split; [exact Hl|].
  pose proof (lookup_lt_Some _ _ _ Hn) as Hlt.
  pose proof (wf_chain _ Hwf) as Hc.
  assert (∀ h, h ∈ l1 ++ node :: l2 → (h < length (heap s))%nat) as Hval.
  { intros h Hh. apply (chain_elem _ _ _ Hc). rewrite Hl. exact Hh. }
  assert (∀ l, (∀ h, h ∈ l → h ≠ node ∧ (h < length (heap s))%nat) →
            live_values (split_final (heap s) node n k) l =
            live_values (heap s) l) as Hext.
  { intros l Hl'. apply live_values_ext. intros h Hh.
    destruct (Hl' h Hh) as [Hne Hv].
    rewrite (split_lookup _ _ _ k Hwf Hn), decide_False, decide_False
      by (auto; lia).
    destruct (heap s !! h); reflexivity. }
  split.
  - rewrite Hl, live_values_app. simpl. rewrite Hn.
    destruct (TextNode.deletedAt n); reflexivity.
  - cbn [treeByIndex heap]. rewrite Hl.
    rewrite splay_InsertAfter_middle by exact H1.
    rewrite live_values_app. cbn [live_values].
    rewrite (split_lookup_node _ _ _ k Hwf Hn).
    rewrite (split_lookup_new _ _ _ k Hwf Hn).
    cbn [split_left split_right TextNode.deletedAt TextNode.value].
    rewrite !Hext.
    + destruct (TextNode.deletedAt n); reflexivity.
    + intros h Hh. split; [intros ->; auto|].
      apply Hval. rewrite elem_of_app, elem_of_cons. auto.
    + intros h Hh. split; [intros ->; auto|].
      apply Hval. rewrite elem_of_app. auto.
Qed.

(** Splitting a live node leaves [marshal()] as it is. *)
Lemma split_live_marshal (s s' : RGATreeSplit.t) (node : handle)
    (n : TextNode.t) (k : Z) (r : option handle) :
  wf s → heap s !! node = Some n → TextNode.deletedAt n = None →
  splitTextNode s node k = Ok (s', r) →
  marshal s' = marshal s.
Proof.
  intros Hwf Hn Hd Hsp.
  destruct (splitTextNode_cases _ _ _ _ _ Hsp) as (n' & Hn' & Hcase).
  rewrite Hn in Hn'. injection Hn' as <-.
  destruct Hcase as [->|[[Hk1 ->]|Hk]].
  - rewrite (splitTextNode_zero _ _ _ Hn) in Hsp. injection Hsp as <- _.
    reflexivity.
  - rewrite (splitTextNode_full _ _ _ Hn Hk1) in Hsp. injection Hsp as <- _.
    reflexivity.
  - pose proof (wf_splitTextNode _ _ _ _ _ Hwf Hsp) as Hwf'.
    pose proof Hsp as Hsp'.
    rewrite (split_returns _ _ _ _ Hwf Hn Hk) in Hsp'.
    injection Hsp' as _ <-.
    destruct (split_live_values _ _ _ _ _ Hwf Hn Hk Hsp)
      as (l1 & l2 & _ & Hold & Hnew).
    rewrite (marshal_chain s' _ (wf_chain _ Hwf') (wf_head _ Hwf')).
    rewrite (marshal_chain s _ (wf_chain _ Hwf) (wf_head _ Hwf)).
    rewrite Hold, Hnew, Hd. f_equal.
    rewrite !concat_strings_app. f_equal. simpl.
    rewrite !app_empty_r, <- app_assoc_s, slice_to_from. reflexivity.
Qed.

(** Splitting a tombstone makes the tail of its value visible: the new node
    is created without the [deletedAt] of the node it is cut from. *)
Lemma split_tombstone_marshal (s s' : RGATreeSplit.t) (node : handle)
    (n : TextNode.t) (k : Z) (d : Ticket.t) :
  wf s → heap s !! node = Some n → TextNode.deletedAt n = Some d →
  0 < k < TextNode.contentLen n →
  splitTextNode s node k = Ok (s', Some (length (heap s))) →
  ∃ l1 l2 nn,
    treeByIndex s = l1 ++ node :: l2 ∧
    heap s' !! length (heap s) = Some nn ∧
    TextNode.deletedAt nn = None ∧
    marshal s =
      Ok (concat_strings (live_values (heap s) l1) +:+
          concat_strings (live_values (heap s) l2)) ∧
    marshal s' =
      Ok (concat_strings (live_values (heap s) l1) +:+
          slice_from (Z.to_nat k) (TextNode.value n) +:+
          concat_strings (live_values (heap s) l2)).
Proof.
  intros Hwf Hn Hd Hk Hsp.
  pose proof (wf_splitTextNode _ _ _ _ _ Hwf Hsp) as Hwf'.
  destruct (split_live_values _ _ _ _ _ Hwf Hn Hk Hsp)
    as (l1 & l2 & Hl & Hold & Hnew).
  exists l1, l2, (split_right n k node).
  split; [exact Hl|].
  rewrite (split_returns _ _ _ _ Hwf Hn Hk) in Hsp. injection Hsp as <-.
  split; [apply (split_lookup_new _ _ _ k Hwf Hn)|].
  split; [reflexivity|].
  rewrite (marshal_chain _ _ (wf_chain _ Hwf') (wf_head _ Hwf')).
  rewrite (marshal_chain s _ (wf_chain _ Hwf) (wf_head _ Hwf)).
  rewrite Hold, Hnew, Hd. simpl.
  rewrite !concat_strings_app. simpl. rewrite ?app_empty_r. auto.
Qed.

(** C7, where the code fails.  In the reachable state that holds "ABC" as
    one tombstoned node, [marshal()] is the empty string; after
    [splitTextNode] of that node at 1 it is "BC". *)
Theorem C7_split_of_tombstone_changes_marshal :
  reachable Scenario.st_deleted ∧
  (∃ n, heap Scenario.st_deleted !! 1%nat = Some n ∧
        TextNode.value n = "ABC"%string ∧
        TextNode.deletedAt n = Some (Scenario.tk 2 Scenario.actorB)) ∧
  marshal Scenario.st_deleted = Ok EmptyString ∧
  ∃ s', splitTextNode Scenario.st_deleted 1 1 = Ok (s', Some 2%nat) ∧
        marshal s' = Ok "BC"%string.
Proof.
  split; [apply ScenarioFacts.reachable_st_deleted|].
  split; [eexists; repeat split; reflexivity|].
  split; [reflexivity|].
  eexists. split; vm_compute; reflexivity.
Qed.

(** ** C2: convergence *)

(** C2, where the code fails.  A inserts "ABC"; B, having seen it, deletes
    all of it; C, having seen it too, inserts "x" after its first letter.
    The replica that applies B's edit before C's ends with "xBC", the one
    that applies C's before B's with "x": C's position lies inside the
    tombstone B's edit left, and the split it causes brings "BC" back. *)
Theorem C2_concurrent_orders_diverge :
  [Scenario.insertABC; Scenario.deleteABC; Scenario.insertX] ≡ₚ
  [Scenario.insertABC; Scenario.insertX; Scenario.deleteABC] ∧
  NoDup (map e_editedAt
           [Scenario.insertABC; Scenario.deleteABC; Scenario.insertX]) ∧
  final_marshal [Scenario.insertABC; Scenario.deleteABC; Scenario.insertX]
    = Ok "xBC"%string ∧
  final_marshal [Scenario.insertABC; Scenario.insertX; Scenario.deleteABC]
    = Ok "x"%string ∧
  final_marshal [Scenario.deleteABC; Scenario.insertABC; Scenario.insertX]
    = Panic "the node of the given id should be found".
Proof.
  split; [apply perm_skip, perm_swap|].
  split.
  { repeat (apply NoDup_cons; split); try apply NoDup_nil_2;
      rewrite ?elem_of_cons, ?elem_of_nil;
      intros H; repeat destruct H as [H|H]; try exact H;
      vm_compute in H; discriminate H. }
  split; [vm_compute; reflexivity|].
  split; vm_compute; reflexivity.
Qed.

(** * Further properties of the engine *)

(** ** Identifiers *)

Lemma wrap_high (d : Z) :
  int_max < d ≤ int_max - int_min → wrap d = d - 2 ^ 64.
Proof.
  unfold wrap, int_max, int_min. intros H.
  assert (d + 2 ^ 63 = (d - 2 ^ 63) + 1 * 2 ^ 64) as -> by lia.
  rewrite Z.mod_add by lia. rewrite Z.mod_small by lia. lia.
Qed.

(** X1: [TextNodeID.Compare] orders two identifiers of one creation ticket
    by the difference of their offsets, computed in [int]: it is the exact
    difference whenever that fits, and has the opposite sign when it does
    not. *)
Theorem X1_Compare_same_createdAt (a o : TextNodeID.t) :
  Ticket.Compare (TextNodeID.createdAt a) (TextNodeID.createdAt o) = 0 →
  int_min ≤ TextNodeID.offset a ≤ int_max →
  int_min ≤ TextNodeID.offset o ≤ int_max →
  (int_min ≤ TextNodeID.offset a - TextNodeID.offset o ≤ int_max →
   TextNodeID.Compare a o = TextNodeID.offset a - TextNodeID.offset o) ∧
  (int_max < TextNodeID.offset a - TextNodeID.offset o →
   TextNodeID.Compare a o < 0) ∧
  (TextNodeID.offset a - TextNodeID.offset o < int_min →
   0 < TextNodeID.Compare a o).
Proof.
  intros Hc Ha Ho. unfold TextNodeID.Compare. rewrite Hc. simpl.
  unfold int_sub. split; [|split]; intros Hd.
  - apply wrap_id, Hd.
  - rewrite wrap_high; unfold int_max, int_min in *; lia.
  - rewrite wrap_low; unfold int_max, int_min in *; lia.
Qed.

Lemma X1_Compare_same_createdAt_witness :
  (int_min ≤ int_min - 1 ≤ int_max →
   TextNodeID.Compare (TextNodeID.mk Ticket.InitialTicket int_min)
     (TextNodeID.mk Ticket.InitialTicket 1) = int_min - 1) ∧
  (int_max < int_min - 1 →
   TextNodeID.Compare (TextNodeID.mk Ticket.InitialTicket int_min)
     (TextNodeID.mk Ticket.InitialTicket 1) < 0) ∧
  (int_min - 1 < int_min →
   0 < TextNodeID.Compare (TextNodeID.mk Ticket.InitialTicket int_min)
         (TextNodeID.mk Ticket.InitialTicket 1)).
Proof.
  apply (X1_Compare_same_createdAt
           (TextNodeID.mk Ticket.InitialTicket int_min)
           (TextNodeID.mk Ticket.InitialTicket 1)).
  - reflexivity.
  - simpl. unfold int_min, int_max. lia.
  - simpl. unfold int_min, int_max. lia.
Defined.

(** X2: on identifiers whose offsets lie in [[0, int_max]],
    [TextNodeID.Compare] is a total order that agrees with equality, [Equal]
    is equality, and [hasSameCreatedAt] is equality of the creation
    tickets. *)
Theorem X2_Compare_total_order (a b c : TextNodeID.t) :
  key_ok a → key_ok b → key_ok c →
  (TextNodeID.Compare a b = 0 ↔ a = b) ∧
  (TextNodeID.Equal a b = true ↔ a = b) ∧
  TextNodeID.Compare b a = - TextNodeID.Compare a b ∧
  (TextNodeID.Compare a b < 0 → TextNodeID.Compare b c < 0 →
   TextNodeID.Compare a c < 0) ∧
  (TextNodeID.hasSameCreatedAt a b = true ↔
   TextNodeID.createdAt a = TextNodeID.createdAt b).
Proof.
  intros Ha Hb Hc.
  assert (TextNodeID.Compare a b = 0 ↔ a = b) as Heq.
  { split; [apply KeyOrder.key_eq; assumption|].
    intros ->. apply KeyOrder.key_refl. }
  split; [exact Heq|]. split.
  { unfold TextNodeID.Equal. rewrite Z.eqb_eq. exact Heq. }
  split; [apply KeyOrder.key_antisym; assumption|]. split.
  { apply KeyOrder.key_trans; assumption. }
  unfold TextNodeID.hasSameCreatedAt. rewrite Z.eqb_eq. split.
  - apply TicketOrder.ticket_eq.
  - intros ->. apply TicketOrder.ticket_refl.
Qed.

Lemma X2_Compare_total_order_witness :
  (TextNodeID.Compare initialTextNodeID
     (TextNodeID.mk (Scenario.tk 1 Scenario.actorA) 0) = 0 ↔
   initialTextNodeID = TextNodeID.mk (Scenario.tk 1 Scenario.actorA) 0) ∧
  (TextNodeID.Equal initialTextNodeID
     (TextNodeID.mk (Scenario.tk 1 Scenario.actorA) 0) = true ↔
   initialTextNodeID = TextNodeID.mk (Scenario.tk 1 Scenario.actorA) 0) ∧
  TextNodeID.Compare (TextNodeID.mk (Scenario.tk 1 Scenario.actorA) 0)
    initialTextNodeID =
  - TextNodeID.Compare initialTextNodeID
      (TextNodeID.mk (Scenario.tk 1 Scenario.actorA) 0) ∧
  (TextNodeID.Compare initialTextNodeID
     (TextNodeID.mk (Scenario.tk 1 Scenario.actorA) 0) < 0 →
   TextNodeID.Compare (TextNodeID.mk (Scenario.tk 1 Scenario.actorA) 0)
     (TextNodeID.mk (Scenario.tk 1 Scenario.actorA) 1) < 0 →
   TextNodeID.Compare initialTextNodeID
     (TextNodeID.mk (Scenario.tk 1 Scenario.actorA) 1) < 0) ∧
  (TextNodeID.hasSameCreatedAt initialTextNodeID
     (TextNodeID.mk (Scenario.tk 1 Scenario.actorA) 0) = true ↔
   TextNodeID.createdAt initialTextNodeID =
   TextNodeID.createdAt (TextNodeID.mk (Scenario.tk 1 Scenario.actorA) 0)).
Proof.
  apply (X2_Compare_total_order initialTextNodeID
           (TextNodeID.mk (Scenario.tk 1 Scenario.actorA) 0)
           (TextNodeID.mk (Scenario.tk 1 Scenario.actorA) 1));
    unfold key_ok, int_max; simpl; lia.
Defined.

(** ** Tombstones *)

(** X3: [TextNode.delete] changes nothing of a node but [deletedAt]; when it
    returns true the node carries [editedAt] and has visible length zero,
    when it returns false the node is unchanged; it never clears a
    tombstone; and a second call with the same arguments returns false and
    changes nothing. *)
Theorem X3_delete_tombstone (n : TextNode.t)
    (editedAt maxCreatedAtByOwner : Ticket.t) :
  let r := TextNode.delete n editedAt maxCreatedAtByOwner in
  shape (fst r) = shape n ∧
  (snd r = true →
   TextNode.deletedAt (fst r) = Some editedAt ∧ TextNode.Len (fst r) = 0) ∧
  (snd r = false → fst r = n) ∧
  (is_Some (TextNode.deletedAt n) → is_Some (TextNode.deletedAt (fst r))) ∧
  TextNode.delete (fst r) editedAt maxCreatedAtByOwner = (fst r, false).
Proof.
  unfold TextNode.delete.
  destruct (negb (Ticket.After (TextNode.createdAt n) maxCreatedAtByOwner))
    eqn:Ec; simpl.
  - destruct (TextNode.deletedAt n) as [d|] eqn:Ed; simpl.
    + destruct (Ticket.After editedAt d) eqn:Ea; simpl.
      * repeat split; try discriminate; eauto.
        unfold TextNode.createdAt in *. simpl. rewrite Ec. simpl.
        rewrite TicketOrder.After_irrefl. reflexivity.
      * repeat split; try discriminate; eauto.
        rewrite Ec, Ed. simpl. rewrite Ea. reflexivity.
    + repeat split; try discriminate; eauto.
      unfold TextNode.createdAt in *. simpl. rewrite Ec. simpl.
      rewrite TicketOrder.After_irrefl. reflexivity.
  - repeat split; try discriminate; eauto.
    rewrite Ec. reflexivity.
Qed.

(** ** The linked list *)

Lemma hd_or_Some (l : list handle) (x : handle) :
  hd_or l None = Some x → ∃ l', l = x :: l'.
Proof. destruct l as [|y l']; simpl; [discriminate|]. intros [= ->]. eauto. Qed.

Lemma last_or_Some (l : list handle) (x : handle) :
  last_or l None = Some x → ∃ l', l = l' ++ [x].
Proof.
  unfold last_or. destruct (last l) as [y|] eqn:E; [|discriminate].
  intros [= ->]. apply last_Some in E. exact E.
Qed.

Lemma last_or_snoc (l : list handle) (x : handle) (p : option handle) :
  last_or (l ++ [x]) p = Some x.
Proof. unfold last_or. rewrite last_snoc. reflexivity. Qed.

Lemma wf_links (s : RGATreeSplit.t) (h : handle) (n : TextNode.t) :
  wf s → heap s !! h = Some n →
  (∀ x, TextNode.next n = Some x →
     ∃ xn, heap s !! x = Some xn ∧ TextNode.prev xn = Some h) ∧
  (∀ x, TextNode.prev n = Some x →
     ∃ xn, heap s !! x = Some xn ∧ TextNode.next xn = Some h) ∧
  (TextNode.prev n = None ↔ h = initialHead s).
Proof.
  intros Hwf Hn. pose proof (wf_chain _ Hwf) as Hc.
  destruct (chain_split_at _ _ _ _ Hc Hn) as (l1 & l2 & Hl & Hn1 & Hn2 & Hp & Hx).
  pose proof (chain_lseg _ _ Hc) as Hseg. rewrite Hl in Hseg.
  split; [|split].
  - intros x Hnx. rewrite Hx in Hnx. apply hd_or_Some in Hnx as (l' & ->).
    replace (l1 ++ h :: x :: l') with ((l1 ++ [h]) ++ x :: l') in Hseg
      by (rewrite <- app_assoc; reflexivity).
    apply lseg_middle in Hseg as (xn & Hxn & Hpx & _).
    exists xn. split; [exact Hxn|]. rewrite Hpx. apply last_or_snoc.
  - intros x Hpx. rewrite Hp in Hpx. apply last_or_Some in Hpx as (l' & ->).
    rewrite <- app_assoc in Hseg. simpl in Hseg.
    apply lseg_middle in Hseg as (xn & Hxn & _ & Hnx).
    exists xn. split; [exact Hxn|]. exact Hnx.
  - rewrite Hp. pose proof (chain_head _ _ Hc) as Hhd. rewrite Hl in Hhd.
    destruct l1 as [|y l1]; simpl in *.
    + split; [intros _; congruence|reflexivity].
    + injection Hhd as ->. split.
      * unfold last_or. rewrite last_cons.
        destruct (last l1); discriminate.
      * intros ->. exfalso. apply Hn1. apply elem_of_cons. auto.
Qed.

(** X5: in every state reached by edits, [next] and [prev] are inverse to
    each other, as are [insNext] and [insPrev], and the sentinel is the only
    node without a [prev]. *)
Theorem X5_links_inverse (s : RGATreeSplit.t) (h : handle) (n : TextNode.t) :
  reachable s → heap s !! h = Some n →
  (∀ x, TextNode.next n = Some x →
     ∃ xn, heap s !! x = Some xn ∧ TextNode.prev xn = Some h) ∧
  (∀ x, TextNode.prev n = Some x →
     ∃ xn, heap s !! x = Some xn ∧ TextNode.next xn = Some h) ∧
  (∀ x, TextNode.insNext n = Some x →
     ∃ xn, heap s !! x = Some xn ∧ TextNode.insPrev xn = Some h) ∧
  (∀ x, TextNode.insPrev n = Some x →
     ∃ xn, heap s !! x = Some xn ∧ TextNode.insNext xn = Some h) ∧
  (TextNode.prev n = None ↔ h = initialHead s).
Proof.
  intros Hr Hn. pose proof (reachable_wf _ Hr) as Hwf.
  destruct (wf_links _ _ _ Hwf Hn) as (H1 & H2 & H3).
  pose proof (wf_ins _ Hwf _ _ Hn) as [_ _ Hip Hin].
  split; [exact H1|]. split; [exact H2|]. split; [exact Hin|].
  split; [|exact H3].
  intros x Hx. destruct (Hip x Hx) as (pn & Hpn & Hnx & _). eauto.
Qed.

Lemma X5_links_inverse_witness :
  (∀ x, TextNode.next
          (TextNode.mk (TextNodeID.mk (Scenario.tk 1 Scenario.actorA) 0) "A"
             None (Some 0%nat) (Some 3%nat) None (Some 2%nat)) = Some x →
     ∃ xn, heap Scenario.st_AxBC !! x = Some xn ∧
           TextNode.prev xn = Some 1%nat) ∧
  (∀ x, TextNode.prev
          (TextNode.mk (TextNodeID.mk (Scenario.tk 1 Scenario.actorA) 0) "A"
             None (Some 0%nat) (Some 3%nat) None (Some 2%nat)) = Some x →
     ∃ xn, heap Scenario.st_AxBC !! x = Some xn ∧
           TextNode.next xn = Some 1%nat) ∧
  (∀ x, TextNode.insNext
          (TextNode.mk (TextNodeID.mk (Scenario.tk 1 Scenario.actorA) 0) "A"
             None (Some 0%nat) (Some 3%nat) None (Some 2%nat)) = Some x →
     ∃ xn, heap Scenario.st_AxBC !! x = Some xn ∧
           TextNode.insPrev xn = Some 1%nat) ∧
  (∀ x, TextNode.insPrev
          (TextNode.mk (TextNodeID.mk (Scenario.tk 1 Scenario.actorA) 0) "A"
             None (Some 0%nat) (Some 3%nat) None (Some 2%nat)) = Some x →
     ∃ xn, heap Scenario.st_AxBC !! x = Some xn ∧
           TextNode.insNext xn = Some 1%nat) ∧
  (TextNode.prev
     (TextNode.mk (TextNodeID.mk (Scenario.tk 1 Scenario.actorA) 0) "A"
        None (Some 0%nat) (Some 3%nat) None (Some 2%nat)) = None ↔
   1%nat = initialHead Scenario.st_AxBC).
Proof.
  apply (X5_links_inverse Scenario.st_AxBC 1%nat).
  - apply ScenarioFacts.reachable_st_AxBC.
  - reflexivity.
Defined.

(** ** Enumerating the nodes *)

Lemma textNodes_chain (s : RGATreeSplit.t) :
  wf s →
  ∃ l, textNodes s = Ok l ∧ treeByIndex s = initialHead s :: l ∧
       marshal s = Ok (concat_strings (live_values (heap s) l)).
Proof.
  intros Hwf. pose proof (wf_chain _ Hwf) as Hc.
  pose proof (chain_head _ _ Hc) as Hhd.
  destruct (treeByIndex s) as [|h0 l] eqn:El; [discriminate|].
  injection Hhd as ->. exists l.
  pose proof (chain_lseg _ _ Hc) as Hseg. simpl in Hseg.
  destruct Hseg as (n & Hn & _ & Hnx & Hseg).
  pose proof (chain_length _ _ Hc) as Hlen. simpl in Hlen.
  split; [|split; [reflexivity|]].
  - unfold textNodes. rewrite (getNode_lookup _ _ _ Hn).
    cbn [mbind result_mbind result_bind]. rewrite Hnx.
    rewrite (textNodes_loop_spec (heap s) l (Some (initialHead s))); auto.
    lia.
  - rewrite (marshal_chain s _ Hc (wf_head _ Hwf)). simpl. rewrite Hn.
    destruct (wf_head _ Hwf) as (n' & Hn' & Hv).
    assert (n' = n) as -> by congruence.
    destruct (TextNode.deletedAt n); [reflexivity|].
    simpl. rewrite Hv, append_nil. reflexivity.
Qed.

(** X4: in every state reached by edits, [textNodes] returns every node
    other than the sentinel exactly once, in [next] order, and [marshal] is
    the concatenation of the values of those of them that are not
    deleted. *)
Theorem X4_textNodes_all (s : RGATreeSplit.t) :
  reachable s →
  ∃ l, textNodes s = Ok l ∧ NoDup l ∧
       (∀ h, h ∈ l ↔ (h < length (heap s))%nat ∧ h ≠ initialHead s) ∧
       lseg (heap s) (Some (initialHead s)) l None ∧
       marshal s = Ok (concat_strings (live_values (heap s) l)).
Proof.
  intros Hr. pose proof (reachable_wf _ Hr) as Hwf.
  destruct (textNodes_chain s Hwf) as (l & Ht & El & Hm).
  pose proof (wf_chain _ Hwf) as Hc. rewrite El in Hc.
  exists l. split; [exact Ht|].
  pose proof (chain_nodup _ _ Hc) as Hnd. apply NoDup_cons in Hnd as [Hni Hnd].
  split; [exact Hnd|]. split.
  - intros h. pose proof (chain_elem _ _ h Hc) as He.
    rewrite elem_of_cons in He. split.
    + intros Hin. split; [apply He; auto|]. intros ->. auto.
    + intros [Hlt Hne]. apply He in Hlt as [->|Hin]; [contradiction|exact Hin].
  - split; [|exact Hm].
    pose proof (chain_lseg _ _ Hc) as Hseg. simpl in Hseg.
    destruct Hseg as (n & _ & _ & _ & Hseg). exact Hseg.
Qed.

Lemma X4_textNodes_all_witness :
  ∃ l, textNodes Scenario.st_AxBC = Ok l ∧ NoDup l ∧
       (∀ h, h ∈ l ↔ (h < length (heap Scenario.st_AxBC))%nat ∧
                     h ≠ initialHead Scenario.st_AxBC) ∧
       lseg (heap Scenario.st_AxBC) (Some (initialHead Scenario.st_AxBC)) l
         None ∧
       marshal Scenario.st_AxBC =
         Ok (concat_strings (live_values (heap Scenario.st_AxBC) l)).
Proof.
  apply (X4_textNodes_all Scenario.st_AxBC).
  apply ScenarioFacts.reachable_st_AxBC.
Defined.

(** ** A new text *)

Lemma findTextNodePos_new (k : Z) :
  findTextNodePos NewRGATreeSplit k =
    if k =? 0 then Ok (TextNodePos.mk initialTextNodeID 0)
    else Panic InvalidPosition.
Proof. destruct k as [|p|p]; cbv; reflexivity. Qed.

(** X7: a new text is empty: it marshals to the empty string, has no text
    node, and offers index 0 as its only boundary.  The first edit, at that
    boundary, makes the content the whole text, whatever ticket and map it
    carries; its caret is behind the content. *)
Theorem X7_first_edit (m : option (gmap string Ticket.t)) (content : string)
    (editedAt : Ticket.t) :
  marshal NewRGATreeSplit = Ok EmptyString ∧
  textNodes NewRGATreeSplit = Ok [] ∧
  (∀ from to,
     findBoundary NewRGATreeSplit from to =
       if (from =? 0) && (to =? 0)
       then Ok (TextNodePos.mk initialTextNodeID 0,
                TextNodePos.mk initialTextNodeID 0)
       else Panic InvalidPosition) ∧
  ∃ s',
    edit NewRGATreeSplit (TextNodePos.mk initialTextNodeID 0)
      (TextNodePos.mk initialTextNodeID 0) m content editedAt
      = Ok (s',
            if String.eqb content EmptyString
            then TextNodePos.mk initialTextNodeID 0
            else TextNodePos.mk (TextNodeID.mk editedAt 0) (len content),
            ∅) ∧
    marshal s' = Ok content.
Proof.
  split; [reflexivity|]. split; [reflexivity|]. split.
  - intros from to. unfold findBoundary.
    rewrite !findTextNodePos_new.
    destruct (from =? 0) eqn:Ef; [|reflexivity].
    apply Z.eqb_eq in Ef as ->.
    cbn [mbind result_mbind result_bind andb].
    destruct (0 =? to) eqn:E0.
    + apply Z.eqb_eq in E0 as <-. reflexivity.
    + rewrite Z.eqb_sym, E0. reflexivity.
  - destruct content as [|a c].
    + eexists. split; vm_compute; reflexivity.
    + eexists. split; vm_compute; reflexivity.
Qed.

(** ** What an edit leaves in place *)

Lemma slice_to_all (v : string) : slice_to (String.length v) v = v.
Proof. induction v as [|c v IH]; simpl; [reflexivity|]. rewrite IH. reflexivity. Qed.

Lemma slice_to_slice_to (j k : nat) (v : string) :
  slice_to j (slice_to k v) = slice_to (Nat.min j k) v.
Proof.
  revert k v. induction j as [|j IH]; intros k v.
  - simpl. destruct (slice_to k v); reflexivity.
  - destruct k as [|k]; [destruct v; reflexivity|].
    destruct v as [|c v]; [reflexivity|]. simpl. rewrite IH. reflexivity.
Qed.

Lemma sublist_InsertAfter (ref node : handle) (l : list handle) :
  sublist l (splay.InsertAfter ref node l).
Proof.
  induction l as [|x l IH]; simpl; [constructor|].
  destruct (decide (x = ref)).
  - apply sublist_skip, sublist_cons, reflexivity.
  - apply sublist_skip, IH.
Qed.

Lemma grows_refl (s : RGATreeSplit.t) : grows s s.
Proof.
  constructor; [reflexivity|lia| |reflexivity].
  intros h n Hn. exists n. repeat split; auto.
  exists (String.length (TextNode.value n)). symmetry. apply slice_to_all.
Qed.

Lemma grows_trans (s1 s2 s3 : RGATreeSplit.t) :
  grows s1 s2 → grows s2 s3 → grows s1 s3.
Proof.
  intros [H1 L1 N1 O1] [H2 L2 N2 O2].
  constructor; [congruence|lia| |etransitivity; eassumption].
  intros h n Hn. destruct (N1 _ _ Hn) as (n2 & Hn2 & Hi2 & (k2 & Hv2) & Hd2).
  destruct (N2 _ _ Hn2) as (n3 & Hn3 & Hi3 & (k3 & Hv3) & Hd3).
  exists n3. split; [exact Hn3|]. split; [congruence|]. split; [|tauto].
  exists (Nat.min k3 k2). rewrite Hv3, Hv2. apply slice_to_slice_to.
Qed.

(** The outcome of [splitTextNode]: nothing, or a proper split. *)
Lemma splitTextNode_result (s s1 : RGATreeSplit.t) (node : handle) (k : Z)
    (r : option handle) :
  wf s → splitTextNode s node k = Ok (s1, r) →
  ∃ n, heap s !! node = Some n ∧
    ((s1 = s ∧ (k = 0 ∨ k = TextNode.contentLen n)) ∨
     (0 < k < TextNode.contentLen n ∧ s1 = split_state s node n k ∧
      r = Some (length (heap s)))).
Proof.
  intros Hwf H.
  destruct (splitTextNode_cases _ _ _ _ _ H) as (n & Hn & [->|[[Hk ->]|Hk]]).
  - rewrite (splitTextNode_zero _ _ _ Hn) in H. injection H as <- <-.
    exists n. split; [exact Hn|]. left. auto.
  - rewrite (splitTextNode_full _ _ _ Hn Hk) in H. injection H as <- <-.
    exists n. split; [exact Hn|]. left. auto.
  - rewrite (split_returns _ _ _ _ Hwf Hn Hk) in H. injection H as <- <-.
    exists n. split; [exact Hn|]. right. auto.
Qed.

Lemma grows_split (s : RGATreeSplit.t) (node : handle) (n : TextNode.t)
    (k : Z) :
  wf s → heap s !! node = Some n →
  grows s (split_state s node n k).
Proof.
  intros Hwf Hn. constructor; simpl.
  - reflexivity.
  - rewrite length_split_final. lia.
  - intros h y Hy. rewrite (split_lookup _ _ _ k Hwf Hn).
    destruct (decide (h = node)) as [->|Hne].
    + assert (y = n) as -> by congruence.
      eexists. split; [reflexivity|]. simpl. eauto.
    + destruct (decide (h = length (heap s))) as [->|Hnf].
      { apply lookup_lt_Some in Hy. lia. }
      rewrite Hy. simpl. eexists. split; [reflexivity|]. simpl.
      repeat split; auto.
      exists (String.length (TextNode.value y)). symmetry. apply slice_to_all.
  - apply sublist_InsertAfter.
Qed.

Lemma grows_findTextNodeWithSplit (s s1 : RGATreeSplit.t)
    (pos : TextNodePos.t) (editedAt : Ticket.t) (left : handle)
    (right : option handle) :
  wf s →
  findTextNodeWithSplit s pos editedAt = Ok (s1, left, right) →
  grows s s1 ∧ (length (heap s1) ≤ S (length (heap s)))%nat.
Proof.
  intros Hwf H.
  destruct (findTextNodeWithSplit_inv _ _ _ _ _ _ Hwf H)
    as (node & n & r & l1 & run & post & _ & Hn & Hs & _).
  destruct (splitTextNode_result _ _ _ _ _ Hwf Hs)
    as (n' & Hn' & [[-> _]|(_ & -> & _)]).
  - split; [apply grows_refl|lia].
  - split; [apply grows_split; assumption|].
    simpl. rewrite length_split_final. lia.
Qed.

Lemma grows_deleteNodes (s s' : RGATreeSplit.t) (cands : list handle)
    (m : option (gmap string Ticket.t)) (editedAt : Ticket.t)
    (deleted : gmap string Ticket.t) :
  NoDup cands → (∀ h, h ∈ cands → (h < length (heap s))%nat) →
  deleteNodes s cands m editedAt = Ok (s', deleted) →
  grows s s' ∧ length (heap s') = length (heap s).
Proof.
  intros Hnd Hv H.
  destruct (deleteNodes_length _ _ _ _ _ _ Hnd Hv H)
    as (Hl & Hh & Hix & _ & _ & Hlk).
  split; [|exact Hl]. constructor; [exact Hh|lia| |rewrite Hix; reflexivity].
  intros h n Hn. rewrite Hlk, Hn.
  assert (∀ y, TextNode.id (tombstone m editedAt y) = TextNode.id y ∧
               TextNode.value (tombstone m editedAt y) = TextNode.value y ∧
               (is_Some (TextNode.deletedAt y) →
                is_Some (TextNode.deletedAt (tombstone m editedAt y)))) as Ht.
  { intros y. unfold tombstone. destruct (deletable m editedAt y); simpl; eauto. }
  destruct (decide (h ∈ cands)); simpl.
  - destruct (Ht n) as (Hi & Hval & Hd). eexists. split; [reflexivity|].
    split; [exact Hi|]. split; [|exact Hd].
    exists (String.length (TextNode.value n)). rewrite Hval.
    symmetry. apply slice_to_all.
  - exists n. repeat split; auto.
    exists (String.length (TextNode.value n)). symmetry. apply slice_to_all.
Qed.

Lemma grows_insert (s : RGATreeSplit.t) (prev : handle) (p : TextNode.t)
    (editedAt : Ticket.t) (content : string) :
  wf s → heap s !! prev = Some p →
  grows s (insert_state s prev p editedAt content).
Proof.
  intros Hwf Hp. constructor; simpl.
  - reflexivity.
  - rewrite length_insert_final. lia.
  - intros h y Hy.
    destruct (insert_lookup_old _ _ _ editedAt content Hwf Hp _ _ Hy)
      as (y' & Hy' & Hpl & _).
    exists y'. split; [exact Hy'|]. unfold payload in Hpl.
    injection Hpl as Hi Hv Hd. split; [exact Hi|]. split.
    + exists (String.length (TextNode.value y)). rewrite Hv.
      symmetry. apply slice_to_all.
    + rewrite Hd. auto.
  - apply sublist_InsertAfter.
Qed.

Lemma grows_edit (s s' : RGATreeSplit.t) (from to : TextNodePos.t)
    (m : option (gmap string Ticket.t)) (content : string)
    (editedAt : Ticket.t) (caretPos : TextNodePos.t)
    (deleted : gmap string Ticket.t) :
  wf s →
  edit s from to m content editedAt = Ok (s', caretPos, deleted) →
  grows s s' ∧ (length (heap s') ≤ length (heap s) + 3)%nat.
Proof.
  intros Hwf H.
  destruct (edit_inv _ _ _ _ _ _ _ _ _ Hwf H) as (tr & Hes).
  destruct Hes as [Hfrom Hto Hbt Hspan _ _ _ Hdel Hwf1 Hwf2 Hwf3 Hlv Hno Hins].
  destruct (grows_findTextNodeWithSplit _ _ _ _ _ _ Hwf Hfrom) as [G1 L1].
  destruct (grows_findTextNodeWithSplit _ _ _ _ _ _ Hwf1 Hto) as [G2 L2].
  destruct (findBetween_candidates _ _ _ _ Hwf2 Hspan) as [Hnd Hv].
  destruct (grows_deleteNodes _ _ _ _ _ _ Hnd Hv Hdel) as [G3 L3].
  pose proof (grows_trans _ _ _ (grows_trans _ _ _ G1 G2) G3) as G.
  destruct (decide (content = EmptyString)) as [Hc|Hc].
  - destruct (Hno Hc) as [-> _]. split; [exact G|lia].
  - destruct (Hins Hc) as (p & Hp & -> & _). split.
    + eapply grows_trans; [exact G|].
      apply (grows_insert _ _ _ editedAt content Hwf3 Hp).
    + simpl. rewrite length_insert_final. lia.
Qed.

(** X6: an edit removes and reorders nothing.  Every node keeps its handle
    and identifier, its value is a prefix of what it was, a deleted node
    stays deleted, at most three nodes are added, and the nodes [textNodes]
    returned before the edit come in the same order after it. *)
Theorem X6_edit_keeps_nodes (s s' : RGATreeSplit.t) (from to : TextNodePos.t)
    (m : option (gmap string Ticket.t)) (content : string)
    (editedAt : Ticket.t) (caretPos : TextNodePos.t)
    (deleted : gmap string Ticket.t) :
  reachable s → len content ≤ int_max →
  edit s from to m content editedAt = Ok (s', caretPos, deleted) →
  initialHead s' = initialHead s ∧
  (length (heap s) ≤ length (heap s') ≤ length (heap s) + 3)%nat ∧
  (∀ h n, heap s !! h = Some n →
     ∃ n', heap s' !! h = Some n' ∧ TextNode.id n' = TextNode.id n ∧
       (∃ k, TextNode.value n' = slice_to k (TextNode.value n)) ∧
       (is_Some (TextNode.deletedAt n) → is_Some (TextNode.deletedAt n'))) ∧
  ∃ l l', textNodes s = Ok l ∧ textNodes s' = Ok l' ∧ sublist l l'.
Proof.
  intros Hr Hlen H. pose proof (reachable_wf _ Hr) as Hwf.
  pose proof (wf_edit _ _ _ _ _ _ _ _ _ Hwf Hlen H) as Hwf'.
  destruct (grows_edit _ _ _ _ _ _ _ _ _ Hwf H) as [[Hh Hl Hn Ho] Hl3].
  split; [exact Hh|]. split; [lia|]. split; [exact Hn|].
  destruct (textNodes_chain s Hwf) as (l & Ht & El & _).
  destruct (textNodes_chain s' Hwf') as (l' & Ht' & El' & _).
  exists l, l'. split; [exact Ht|]. split; [exact Ht'|].
  rewrite El, El', Hh in Ho.
  apply sublist_cons_r in Ho as [Ho|(l0 & [= <-] & Ho)]; [|exact Ho].
  exfalso. pose proof (chain_nodup _ _ (wf_chain _ Hwf')) as Hnd.
  rewrite El', Hh in Hnd. apply NoDup_cons in Hnd as [Hni _].
  apply Hni. eapply elem_of_sublist; [|exact Ho]. apply elem_of_cons. auto.
Qed.

Lemma X6_edit_keeps_nodes_witness :
  initialHead Scenario.st_xBC = initialHead Scenario.st_deleted ∧
  (length (heap Scenario.st_deleted) ≤ length (heap Scenario.st_xBC)
   ≤ length (heap Scenario.st_deleted) + 3)%nat ∧
  (∀ h n, heap Scenario.st_deleted !! h = Some n →
     ∃ n', heap Scenario.st_xBC !! h = Some n' ∧
       TextNode.id n' = TextNode.id n ∧
       (∃ k, TextNode.value n' = slice_to k (TextNode.value n)) ∧
       (is_Some (TextNode.deletedAt n) → is_Some (TextNode.deletedAt n'))) ∧
  ∃ l l', textNodes Scenario.st_deleted = Ok l ∧
          textNodes Scenario.st_xBC = Ok l' ∧ sublist l l'.
Proof.
  apply (X6_edit_keeps_nodes Scenario.st_deleted Scenario.st_xBC
           (Scenario.posA 1) (Scenario.posA 1) (Some ∅) "x"
           (Scenario.tk 2 Scenario.actorC)
           (TextNodePos.mk (TextNodeID.mk (Scenario.tk 2 Scenario.actorC) 0) 1)
           ∅).
  - apply ScenarioFacts.reachable_st_deleted.
  - vm_compute. discriminate.
  - vm_compute. reflexivity.
Defined.

(** ** The insertion history through an edit *)

Lemma split_right_facts (s : RGATreeSplit.t) (node : handle) (n : TextNode.t)
    (k : Z) :
  wf s → heap s !! node = Some n → 0 < k < TextNode.contentLen n →
  offset_of (split_right n k node) = offset_of n + k ∧
  TextNode.contentLen (split_right n k node) = TextNode.contentLen n - k ∧
  TextNode.contentLen (split_left n k (length (heap s))) = k ∧
  TextNode.createdAt (split_right n k node) = TextNode.createdAt n.
Proof.
  intros Hwf Hn Hk.
  pose proof (split_new_offset _ _ _ k Hwf Hn Hk) as Hid.
  split; [|split; [|split]].
  - unfold offset_of, split_right. cbn [TextNode.id]. rewrite Hid. reflexivity.
  - unfold TextNode.contentLen, split_right. simpl.
    apply contentLen_slice_from. unfold TextNode.contentLen in Hk. lia.
  - unfold TextNode.contentLen, split_left. simpl.
    apply contentLen_slice_to. unfold TextNode.contentLen in Hk. lia.
  - unfold TextNode.createdAt at 1. unfold split_right. cbn [TextNode.id].
    rewrite Hid. reflexivity.
Qed.

Lemma sublist_pair_middle (l1 l2 : list handle) (a b : handle) :
  sublist [a; b] (l1 ++ a :: b :: l2).
Proof.
  apply sublist_inserts_l. repeat apply sublist_skip. apply sublist_nil_l.
Qed.

Lemma sublist_pair_after (l1 l2 : list handle) (a b : handle) :
  NoDup (l1 ++ a :: l2) → sublist [a; b] (l1 ++ a :: l2) → b ∈ l2.
Proof.
  intros Hnd H. apply sublist_app_cons_r in H as [H|(k1 & k2 & E & H1 & H2)].
  - exfalso. apply NoDup_app in Hnd as (_ & Hd & Hnd2).
    apply NoDup_cons in Hnd2 as [Ha _].
    assert (a ∈ l1 ++ l2) as Hin.
    { eapply elem_of_sublist; [|exact H]. apply elem_of_cons. auto. }
    apply elem_of_app in Hin as [Hin|Hin]; [|contradiction].
    apply (Hd a Hin). apply elem_of_cons. auto.
  - destruct k1 as [|x k1]; simpl in E.
    + injection E as <-. eapply elem_of_sublist; [|exact H2].
      apply elem_of_cons. auto.
    + injection E as <- E. exfalso.
      apply NoDup_app in Hnd as (_ & Hd & _).
      assert (a ∈ l1) as Hin.
      { eapply elem_of_sublist; [|exact H1]. apply elem_of_cons. auto. }
      apply (Hd a Hin). apply elem_of_cons. auto.
Qed.

Lemma history_split (s : RGATreeSplit.t) (node : handle) (n : TextNode.t)
    (k : Z) :
  wf s → history_ok s → heap s !! node = Some n →
  0 < k < TextNode.contentLen n →
  history_ok (split_state s node n k).
Proof.
  intros Hwf [Hhd Htight Hbefore Hne] Hn Hk.
  destruct (split_right_facts _ _ _ _ Hwf Hn Hk) as (Hoff & Hlr & Hll & Hcr).
  pose proof (split_node_lt _ _ _ Hn) as Hlt.
  pose proof (wf_ins _ Hwf) as Hins.
  pose proof (Hins _ _ Hn) as [_ _ Hip Hin].
  destruct (split_chain_shape _ _ _ k Hwf Hn) as (L1 & L2 & EL & EL' & Hn1 & Hn2 & _).
  pose proof (chain_nodup _ _ (wf_chain _ Hwf)) as Hnd. rewrite EL in Hnd.
  constructor; simpl.
  - destruct Hhd as (hn & Hhn & Hid).
    pose proof (split_not_head _ _ _ k Hwf Hn Hk) as Hnh.
    exists (split_other n (length (heap s)) (initialHead s) hn).
    split; [|exact Hid].
    apply (split_lookup_other _ _ _ k Hwf Hn); auto.
  - intros h y' p pn' Hy' Hp Hpn'.
    apply (split_lookup_inv _ _ _ k Hwf Hn) in Hy'
      as [[-> ->]|[[-> ->]|(Hj1 & Hj2 & y & Hy & ->)]].
    + (* the left part *)
      simpl in Hp. destruct (Hip p Hp) as (pn & Hpn & _ & _ & _ & Hpl).
      assert (p ≠ node) as Hpne.
      { intros ->. rewrite Hn in Hpn. injection Hpn as <-. lia. }
      rewrite (split_lookup_other _ _ _ k Hwf Hn p pn Hpne Hpn) in Hpn'.
      injection Hpn' as <-.
      pose proof (Htight _ _ _ _ Hn Hp Hpn) as Ht.
      unfold offset_of, TextNode.contentLen in *. simpl. exact Ht.
    + (* the new node *)
      simpl in Hp. injection Hp as <-.
      rewrite (split_lookup_node _ _ _ k Hwf Hn) in Hpn'.
      injection Hpn' as <-. rewrite Hoff, Hll. unfold offset_of. simpl. lia.
    + (* an old node *)
      simpl in Hp. case_decide as Hd.
      * injection Hp as <-.
        rewrite (split_lookup_new _ _ _ k Hwf Hn) in Hpn'.
        injection Hpn' as <-. rewrite Hoff, Hlr.
        destruct (Hin h Hd) as (mn & Hmn & Hmp).
        rewrite Hy in Hmn. injection Hmn as <-.
        pose proof (Htight _ _ _ _ Hy Hmp Hn) as Ht.
        unfold offset_of, TextNode.contentLen in *. simpl. lia.
      * pose proof (wf_ins _ Hwf _ _ Hy) as [_ _ Hyip _].
        destruct (Hyip p Hp) as (pn & Hpn & Hpx & _).
        assert (p ≠ node) as Hpne.
        { intros ->. rewrite Hn in Hpn. injection Hpn as <-. auto. }
        rewrite (split_lookup_other _ _ _ k Hwf Hn p pn Hpne Hpn) in Hpn'.
        injection Hpn' as <-.
        pose proof (Htight _ _ _ _ Hy Hp Hpn) as Ht.
        unfold offset_of, TextNode.contentLen in *. simpl. exact Ht.
  - intros h y' p Hy' Hp.
    apply (split_lookup_inv _ _ _ k Hwf Hn) in Hy'
      as [[-> ->]|[[-> ->]|(Hj1 & Hj2 & y & Hy & ->)]].
    + simpl in Hp. etransitivity; [apply (Hbefore _ _ _ Hn Hp)|].
      apply sublist_InsertAfter.
    + simpl in Hp. injection Hp as <-.
      change (splay.InsertAfter node (length (heap s)) (treeByIndex s))
        with (treeByIndex (split_state s node n k)).
      unfold split_state. rewrite EL'. apply sublist_pair_middle.
    + simpl in Hp. case_decide as Hd.
      * injection Hp as <-.
        destruct (Hin h Hd) as (mn & Hmn & Hmp).
        rewrite Hy in Hmn. injection Hmn as <-.
        pose proof (Hbefore _ _ _ Hy Hmp) as Hb. rewrite EL in Hb.
        apply sublist_pair_after in Hb; [|exact Hnd].
        apply list_elem_of_split in Hb as (l2a & l2b & ->).
        change (splay.InsertAfter node (length (heap s)) (treeByIndex s))
          with (treeByIndex (split_state s node n k)).
        unfold split_state. rewrite EL'.
        replace (L1 ++ node :: length (heap s) :: l2a ++ h :: l2b)
          with ((L1 ++ [node]) ++ length (heap s) :: l2a ++ h :: l2b)
          by (rewrite <- app_assoc; reflexivity).
        apply sublist_inserts_l, sublist_skip, sublist_inserts_l.
        apply sublist_skip, sublist_nil_l.
      * etransitivity; [apply (Hbefore _ _ _ Hy Hp)|].
        apply sublist_InsertAfter.
  - intros h y' Hy' Hnh.
    apply (split_lookup_inv _ _ _ k Hwf Hn) in Hy'
      as [[-> ->]|[[-> ->]|(Hj1 & Hj2 & y & Hy & ->)]].
    + rewrite Hll. lia.
    + rewrite Hlr. lia.
    + pose proof (Hne _ _ Hy Hnh) as H0.
      unfold TextNode.contentLen in *. simpl. exact H0.
Qed.

Lemma same_shape_fw (s s' : RGATreeSplit.t) (j : handle) (y : TextNode.t) :
  same_shape s s' → heap s !! j = Some y →
  ∃ y', heap s' !! j = Some y' ∧ shape y' = shape y.
Proof.
  intros (_ & _ & _ & _ & Hsh) Hy. specialize (Hsh j). rewrite Hy in Hsh.
  apply fmap_Some_proj in Hsh. exact Hsh.
Qed.

Lemma same_shape_bw (s s' : RGATreeSplit.t) (j : handle) (y' : TextNode.t) :
  same_shape s s' → heap s' !! j = Some y' →
  ∃ y, heap s !! j = Some y ∧ shape y' = shape y.
Proof.
  intros (_ & _ & _ & _ & Hsh) Hy. specialize (Hsh j). rewrite Hy in Hsh.
  symmetry in Hsh. apply fmap_Some_proj in Hsh as (y & ? & ?). eauto.
Qed.

Lemma same_shape_deleteNodes (s s' : RGATreeSplit.t) (cands : list handle)
    (m : option (gmap string Ticket.t)) (editedAt : Ticket.t)
    (deleted : gmap string Ticket.t) :
  NoDup cands → (∀ h, h ∈ cands → (h < length (heap s))%nat) →
  deleteNodes s cands m editedAt = Ok (s', deleted) →
  same_shape s s'.
Proof.
  intros Hnd Hv H.
  destruct (deleteNodes_length _ _ _ _ _ _ Hnd Hv H)
    as (Hl & Hh & Hix & Hid & _ & Hlk).
  repeat split; auto.
  intros j. rewrite Hlk. case_decide; [|reflexivity].
  destruct (heap s !! j); simpl; [|reflexivity].
  rewrite shape_tombstone. reflexivity.
Qed.

Lemma history_same_shape (s s' : RGATreeSplit.t) :
  same_shape s s' → history_ok s → history_ok s'.
Proof.
  intros Hss [Hhd Htight Hbefore Hne].
  pose proof Hss as (Ehd & Eix & Eid & Hlen & Hsh).
  constructor.
  - destruct Hhd as (n & Hn & Hid). rewrite Ehd.
    destruct (same_shape_fw _ _ _ _ Hss Hn) as (n' & Hn' & Hs').
    apply shape_inv in Hs' as (? & _). exists n'. split; congruence.
  - intros h y' p pn' Hy' Hp Hpn'.
    destruct (same_shape_bw _ _ _ _ Hss Hy') as (y & Hy & Hsy).
    destruct (same_shape_bw _ _ _ _ Hss Hpn') as (pn & Hpn & Hsp).
    apply shape_inv in Hsy as (E1 & E2 & _ & _ & E5 & _).
    apply shape_inv in Hsp as (F1 & F2 & _).
    rewrite E5 in Hp. pose proof (Htight _ _ _ _ Hy Hp Hpn) as Ht.
    unfold offset_of, TextNode.contentLen in *. congruence.
  - intros h y' p Hy' Hp.
    destruct (same_shape_bw _ _ _ _ Hss Hy') as (y & Hy & Hsy).
    apply shape_inv in Hsy as (_ & _ & _ & _ & E5 & _).
    rewrite E5 in Hp. rewrite Eix. apply (Hbefore _ _ _ Hy Hp).
  - intros h y' Hy' Hnh.
    destruct (same_shape_bw _ _ _ _ Hss Hy') as (y & Hy & Hsy).
    apply shape_inv in Hsy as (_ & E2 & _).
    rewrite Ehd in Hnh. pose proof (Hne _ _ Hy Hnh) as H0.
    unfold TextNode.contentLen in *. congruence.
Qed.

Lemma len_pos (v : string) : v ≠ EmptyString → 0 < len v.
Proof. destruct v; [contradiction|]. intros _. unfold len. simpl. lia. Qed.

Lemma history_insert (s : RGATreeSplit.t) (prev : handle) (p : TextNode.t)
    (editedAt : Ticket.t) (content : string) :
  wf s → history_ok s → heap s !! prev = Some p →
  content ≠ EmptyString →
  history_ok (insert_state s prev p editedAt content).
Proof.
  intros Hwf [Hhd Htight Hbefore Hne] Hp Hc.
  constructor; simpl.
  - destruct Hhd as (hn & Hhn & Hid).
    destruct (insert_lookup_old _ _ _ editedAt content Hwf Hp _ _ Hhn)
      as (y' & Hy' & Hpl & _).
    unfold payload in Hpl. injection Hpl as Hi _ _.
    exists y'. split; [exact Hy'|congruence].
  - intros h y' q qn' Hy' Hq Hqn'.
    apply (insert_lookup_inv _ _ _ editedAt content Hwf Hp) in Hy'
      as [[-> ->]|(Hnf & y & Hy & Hpl & Hip & Hin)]; [discriminate|].
    rewrite Hip in Hq.
    pose proof (wf_ins _ Hwf _ _ Hy) as [_ _ Hyip _].
    destruct (Hyip q Hq) as (qn & Hqn & _).
    destruct (insert_lookup_old _ _ _ editedAt content Hwf Hp _ _ Hqn)
      as (qn2 & Hqn2 & Hpl2 & _).
    rewrite Hqn2 in Hqn'. injection Hqn' as <-.
    unfold payload in Hpl, Hpl2.
    injection Hpl as E1 E2 _. injection Hpl2 as F1 F2 _.
    pose proof (Htight _ _ _ _ Hy Hq Hqn) as Ht.
    unfold offset_of, TextNode.contentLen in *. congruence.
  - intros h y' q Hy' Hq.
    apply (insert_lookup_inv _ _ _ editedAt content Hwf Hp) in Hy'
      as [[-> ->]|(Hnf & y & Hy & Hpl & Hip & Hin)]; [discriminate|].
    rewrite Hip in Hq. etransitivity; [apply (Hbefore _ _ _ Hy Hq)|].
    apply sublist_InsertAfter.
  - intros h y' Hy' Hnh.
    apply (insert_lookup_inv _ _ _ editedAt content Hwf Hp) in Hy'
      as [[-> ->]|(Hnf & y & Hy & Hpl & Hip & Hin)].
    + unfold TextNode.contentLen. simpl. apply len_pos, Hc.
    + unfold payload in Hpl. injection Hpl as _ E2 _.
      pose proof (Hne _ _ Hy Hnh) as H0.
      unfold TextNode.contentLen in *. congruence.
Qed.

(** How a property of states goes through an edit: through the splits,
    through the deletion, and through the insertion. *)
Lemma edit_preserves (P Q : RGATreeSplit.t → Prop) (content : string)
    (editedAt : Ticket.t) :
  (∀ s node n k, wf s → P s → heap s !! node = Some n →
     0 < k < TextNode.contentLen n → P (split_state s node n k)) →
  (∀ s s', wf s → P s → same_shape s s' → P s') →
  (∀ s, wf s → P s → Q s) →
  (∀ s prev p, wf s → P s → heap s !! prev = Some p →
     content ≠ EmptyString →
     Q (insert_state s prev p editedAt content)) →
  ∀ s s' from to m caretPos deleted,
    wf s → P s →
    edit s from to m content editedAt = Ok (s', caretPos, deleted) →
    Q s'.
Proof.
  intros Hsplit Hshape Hnone Hinsert s s' from to m caretPos deleted Hwf HP H.
  destruct (edit_inv _ _ _ _ _ _ _ _ _ Hwf H) as (tr & Hes).
  destruct Hes as [Hfrom Hto Hbt Hspan _ _ _ Hdel Hwf1 Hwf2 Hwf3 Hlv Hno Hins].
  assert (∀ s0 s1 pos l r, wf s0 → P s0 →
            findTextNodeWithSplit s0 pos editedAt = Ok (s1, l, r) → P s1)
    as Hstep.
  { intros s0 s1 pos l r Hwf0 HP0 H0.
    destruct (findTextNodeWithSplit_inv _ _ _ _ _ _ Hwf0 H0)
      as (node & n & r0 & l1 & run & post & _ & Hn & Hs & _).
    destruct (splitTextNode_result _ _ _ _ _ Hwf0 Hs)
      as (n' & Hn' & [[-> _]|(Hk & -> & _)]); [exact HP0|].
    apply Hsplit; auto. }
  pose proof (Hstep _ _ _ _ _ Hwf HP Hfrom) as HP1.
  pose proof (Hstep _ _ _ _ _ Hwf1 HP1 Hto) as HP2.
  destruct (findBetween_candidates _ _ _ _ Hwf2 Hspan) as [Hnd Hv].
  pose proof (same_shape_deleteNodes _ _ _ _ _ _ Hnd Hv Hdel) as Hss.
  pose proof (Hshape _ _ Hwf2 HP2 Hss) as HP3.
  destruct (decide (content = EmptyString)) as [Hc|Hc].
  - destruct (Hno Hc) as [-> _]. apply Hnone; assumption.
  - destruct (Hins Hc) as (p & Hp & -> & _).
    apply (Hinsert _ _ _ Hwf3 HP3 Hp Hc).
Qed.

Lemma history_new : history_ok NewRGATreeSplit.
Proof.
  constructor.
  - eexists. split; reflexivity.
  - intros [|h] n p pn Hn Hp; simpl in Hn; [|discriminate].
    injection Hn as <-. discriminate.
  - intros [|h] n p Hn Hp; simpl in Hn; [|discriminate].
    injection Hn as <-. discriminate.
  - intros [|h] n Hn Hnh; simpl in Hn; [|discriminate]. contradiction.
Qed.

Lemma reachable_history (s : RGATreeSplit.t) : reachable s → history_ok s.
Proof.
  induction 1 as [|s from to m content editedAt s' caretPos deleted Hr IH Hl He].
  - apply history_new.
  - pose proof (reachable_wf _ Hr) as Hwf.
    apply (edit_preserves history_ok history_ok content editedAt)
      with (s := s) (from := from) (to := to) (m := m) (caretPos := caretPos)
           (deleted := deleted); auto.
    + intros; apply history_split; assumption.
    + intros ? ? _ ? ?. eapply history_same_shape; eassumption.
    + intros; apply history_insert; assumption.
Qed.

(** ** Unique identifiers *)

Lemma Put_keeps (key : TextNodeID.t) (value : handle) (t : llrb.Tree)
    (e : TextNodeID.t * handle) :
  e ∈ t → TextNodeID.Compare key (fst e) ≠ 0 → e ∈ llrb.Put key value t.
Proof.
  induction t as [|[k v] tl IH]; intros He Hc; [inversion He|].
  simpl. destruct (TextNodeID.Compare key k <? 0) eqn:E1.
  - apply elem_of_cons. right. exact He.
  - destruct (TextNodeID.Compare key k =? 0) eqn:E2.
    + apply Z.eqb_eq in E2. apply elem_of_cons in He as [->|He].
      * simpl in Hc. contradiction.
      * apply elem_of_cons. right. exact He.
    + apply elem_of_cons in He as [->|He].
      * apply elem_of_cons. left. reflexivity.
      * apply elem_of_cons. right. apply IH; assumption.
Qed.

Lemma node_key_ok (s : RGATreeSplit.t) (h : handle) (n : TextNode.t) :
  wf s → heap s !! h = Some n → key_ok (TextNode.id n).
Proof.
  intros Hwf Hn. pose proof (wf_ins _ Hwf _ _ Hn) as [[H1 H2] _ _ _].
  pose proof (len_nonneg (TextNode.value n)).
  unfold key_ok, offset_of, TextNode.contentLen in *. lia.
Qed.

Lemma fresh_ticket_spec (hp : Heap) (t : Ticket.t) :
  fresh_ticket hp t = true ↔ fresh_in hp t.
Proof.
  unfold fresh_ticket, fresh_in. rewrite forallb_forall. split.
  - intros H h n Hn E. apply list_elem_of_lookup_2 in Hn.
    apply list_elem_of_In in Hn. specialize (H _ Hn).
    rewrite E, TicketOrder.ticket_refl in H. discriminate.
  - intros H n Hn. apply list_elem_of_In in Hn.
    apply list_elem_of_lookup in Hn as (h & Hn).
    apply negb_true_iff, Z.eqb_neq. intros E.
    apply TicketOrder.ticket_eq in E. exact (H _ _ Hn E).
Qed.

Lemma fresh_split (s : RGATreeSplit.t) (node : handle) (n : TextNode.t)
    (k : Z) (t : Ticket.t) :
  wf s → heap s !! node = Some n → 0 < k < TextNode.contentLen n →
  fresh_in (heap s) t → fresh_in (heap (split_state s node n k)) t.
Proof.
  intros Hwf Hn Hk Hf h y' Hy'. simpl in Hy'.
  destruct (split_right_facts _ _ _ _ Hwf Hn Hk) as (_ & _ & _ & Hcr).
  apply (split_lookup_inv _ _ _ k Hwf Hn) in Hy'
    as [[-> ->]|[[-> ->]|(Hj1 & Hj2 & y & Hy & ->)]].
  - apply (Hf _ _ Hn).
  - rewrite Hcr. apply (Hf _ _ Hn).
  - apply (Hf _ _ Hy).
Qed.

Lemma fresh_same_shape (s s' : RGATreeSplit.t) (t : Ticket.t) :
  same_shape s s' → fresh_in (heap s) t → fresh_in (heap s') t.
Proof.
  intros Hss Hf h y' Hy'.
  destruct (same_shape_bw _ _ _ _ Hss Hy') as (y & Hy & Hsy).
  apply shape_inv in Hsy as (E1 & _).
  unfold TextNode.createdAt. rewrite E1. apply (Hf _ _ Hy).
Qed.

Lemma ids_unique_split (s : RGATreeSplit.t) (node : handle) (n : TextNode.t)
    (k : Z) :
  wf s → ids_unique s → heap s !! node = Some n →
  0 < k < TextNode.contentLen n →
  ids_unique (split_state s node n k).
Proof.
  intros Hwf [Hidx Hfrag] Hn Hk.
  destruct (split_right_facts _ _ _ _ Hwf Hn Hk) as (Hoff & Hlr & Hll & Hcr).
  pose proof (split_node_lt _ _ _ Hn) as Hlt.
  pose proof (split_new_offset _ _ _ k Hwf Hn Hk) as Hid.
  pose proof (split_new_key_ok _ _ _ k Hwf Hn Hk) as Hkok.
  pose proof (keys_ok_of_wf _ Hwf) as Hkeys.
  assert (∀ j y, heap s !! j = Some y →
            TextNodeID.Compare (TextNodeID.split (TextNode.id n) k)
              (TextNode.id y) ≠ 0) as Hfreshkey.
  { intros j y Hy E.
    apply KeyOrder.key_eq in E; [|exact Hkok|eapply node_key_ok; eassumption].
    rewrite Hid in E.
    assert (TextNode.createdAt y = TextNode.createdAt n) as Ec.
    { unfold TextNode.createdAt at 1. rewrite <- E. reflexivity. }
    assert (offset_of y = offset_of n + k) as Eo.
    { unfold offset_of at 1. rewrite <- E. reflexivity. }
    destruct (decide (j = node)) as [->|Hne].
    - rewrite Hn in Hy. injection Hy as <-. lia.
    - destruct (Hfrag _ _ _ _ Hn Hy (not_eq_sym Hne) (eq_sym Ec)) as [_ H2].
      lia. }
  constructor; simpl.
  - intros h y' Hy'.
    apply (split_lookup_inv _ _ _ k Hwf Hn) in Hy'
      as [[-> ->]|[[-> ->]|(Hj1 & Hj2 & y & Hy & ->)]].
    + simpl. apply Put_keeps; [apply Hidx, Hn|]. simpl.
      apply (Hfreshkey _ _ Hn).
    + simpl. apply LLRB.Put_mem; assumption.
    + simpl. apply Put_keeps; [apply Hidx, Hy|]. simpl.
      apply (Hfreshkey _ _ Hy).
  - intros h1 y1 h2 y2 Hy1 Hy2 Hne Hc.
    apply (split_lookup_inv _ _ _ k Hwf Hn) in Hy1
      as [[-> ->]|[[-> ->]|(Ha1 & Ha2 & a & Ha & ->)]];
    apply (split_lookup_inv _ _ _ k Hwf Hn) in Hy2
      as [[-> ->]|[[-> ->]|(Hb1 & Hb2 & b & Hb & ->)]];
      try contradiction; try lia.
    + rewrite Hoff, Hll. unfold offset_of. simpl. lia.
    + rewrite Hll.
      assert (TextNode.createdAt n = TextNode.createdAt b) as Hc' by exact Hc.
      destruct (Hfrag _ _ _ _ Hn Hb (not_eq_sym Hb1) Hc') as [H1 H2].
      unfold offset_of, TextNode.contentLen in *. simpl. lia.
    + rewrite Hoff. unfold offset_of at 2 4. simpl.
      unfold offset_of in *. lia.
    + rewrite Hcr in Hc.
      assert (TextNode.createdAt n = TextNode.createdAt b) as Hc' by exact Hc.
      destruct (Hfrag _ _ _ _ Hn Hb (not_eq_sym Hb1) Hc') as [H1 H2].
      destruct (Hfrag _ _ _ _ Hb Hn Hb1 (eq_sym Hc')) as [H3 H4].
      rewrite Hoff, Hlr.
      unfold offset_of, TextNode.contentLen in *. simpl. lia.
    + assert (TextNode.createdAt a = TextNode.createdAt n) as Hc' by exact Hc.
      destruct (Hfrag _ _ _ _ Ha Hn Ha1 Hc') as [H1 H2].
      unfold offset_of, TextNode.contentLen in *. simpl. lia.
    + rewrite Hcr in Hc.
      assert (TextNode.createdAt a = TextNode.createdAt n) as Hc' by exact Hc.
      destruct (Hfrag _ _ _ _ Ha Hn Ha1 Hc') as [H1 H2].
      destruct (Hfrag _ _ _ _ Hn Ha (not_eq_sym Ha1) (eq_sym Hc')) as [H3 H4].
      rewrite Hoff.
      unfold offset_of, TextNode.contentLen in *. simpl. lia.
    + assert (TextNode.createdAt a = TextNode.createdAt b) as Hc' by exact Hc.
      destruct (Hfrag _ _ _ _ Ha Hb Hne Hc') as [H1 H2].
      unfold offset_of, TextNode.contentLen in *. simpl. lia.
Qed.

Lemma ids_unique_same_shape (s s' : RGATreeSplit.t) :
  same_shape s s' → ids_unique s → ids_unique s'.
Proof.
  intros Hss [Hidx Hfrag].
  pose proof Hss as (Ehd & Eix & Eid & Hlen & Hsh).
  constructor.
  - intros h y' Hy'.
    destruct (same_shape_bw _ _ _ _ Hss Hy') as (y & Hy & Hsy).
    apply shape_inv in Hsy as (E1 & _). rewrite Eid, E1. apply Hidx, Hy.
  - intros h1 a' h2 b' Ha' Hb' Hne Hc.
    destruct (same_shape_bw _ _ _ _ Hss Ha') as (a & Ha & Hsa).
    destruct (same_shape_bw _ _ _ _ Hss Hb') as (b & Hb & Hsb).
    apply shape_inv in Hsa as (E1 & E2 & _).
    apply shape_inv in Hsb as (F1 & F2 & _).
    assert (TextNode.createdAt a = TextNode.createdAt b) as Hc'.
    { unfold TextNode.createdAt in *. congruence. }
    destruct (Hfrag _ _ _ _ Ha Hb Hne Hc') as [H1 H2].
    unfold offset_of, TextNode.contentLen in *.
    rewrite E1, E2, F1. auto.
Qed.

Lemma ids_unique_insert (s : RGATreeSplit.t) (prev : handle) (p : TextNode.t)
    (editedAt : Ticket.t) (content : string) :
  wf s → ids_unique s → fresh_in (heap s) editedAt →
  heap s !! prev = Some p →
  ids_unique (insert_state s prev p editedAt content).
Proof.
  intros Hwf [Hidx Hfrag] Hfresh Hp.
  pose proof (keys_ok_of_wf _ Hwf) as Hkeys.
  assert (key_ok (TextNodeID.NewTextNodeID editedAt 0)) as Hkok.
  { unfold key_ok, int_max. simpl. lia. }
  constructor; simpl.
  - intros h y' Hy'.
    apply (insert_lookup_inv _ _ _ editedAt content Hwf Hp) in Hy'
      as [[-> ->]|(Hnf & y & Hy & Hpl & _)].
    + simpl. apply LLRB.Put_mem; assumption.
    + unfold payload in Hpl. injection Hpl as E1 _ _. rewrite E1.
      apply Put_keeps; [apply Hidx, Hy|]. simpl. intros E.
      apply KeyOrder.key_eq in E; [|exact Hkok|eapply node_key_ok; eassumption].
      apply (Hfresh _ _ Hy). unfold TextNode.createdAt. rewrite <- E.
      reflexivity.
  - intros h1 a' h2 b' Ha' Hb' Hne Hc.
    apply (insert_lookup_inv _ _ _ editedAt content Hwf Hp) in Ha'
      as [[-> ->]|(Ha1 & a & Ha & Hpa & _)];
    apply (insert_lookup_inv _ _ _ editedAt content Hwf Hp) in Hb'
      as [[-> ->]|(Hb1 & b & Hb & Hpb & _)]; try contradiction.
    + unfold payload in Hpb. injection Hpb as F1 _ _. exfalso.
      apply (Hfresh _ _ Hb). unfold TextNode.createdAt in *.
      rewrite <- F1, <- Hc. reflexivity.
    + unfold payload in Hpa. injection Hpa as E1 _ _. exfalso.
      apply (Hfresh _ _ Ha). unfold TextNode.createdAt in *.
      rewrite <- E1, Hc. reflexivity.
    + unfold payload in Hpa, Hpb.
      injection Hpa as E1 E2 _. injection Hpb as F1 F2 _.
      assert (TextNode.createdAt a = TextNode.createdAt b) as Hc'.
      { unfold TextNode.createdAt in *. congruence. }
      destruct (Hfrag _ _ _ _ Ha Hb Hne Hc') as [H1 H2].
      unfold offset_of, TextNode.contentLen in *.
      rewrite E1, E2, F1. auto.
Qed.

Lemma ids_unique_new : ids_unique NewRGATreeSplit.
Proof.
  constructor.
  - intros [|h] n Hn; simpl in Hn; [|discriminate]. injection Hn as <-.
    apply elem_of_cons. left. reflexivity.
  - intros [|h1] a [|h2] b Ha Hb Hne; simpl in Ha, Hb;
      try discriminate. contradiction.
Qed.

Lemma reachable_fresh_reachable (s : RGATreeSplit.t) :
  reachable_fresh s → reachable s.
Proof.
  induction 1; [apply reach_new|]. eapply reach_edit; eassumption.
Qed.

Lemma reachable_fresh_ids (s : RGATreeSplit.t) :
  reachable_fresh s → ids_unique s.
Proof.
  induction 1 as [|s from to m content editedAt s' caretPos deleted Hr IH Hl
                    Hf He].
  - apply ids_unique_new.
  - pose proof (reachable_wf _ (reachable_fresh_reachable _ Hr)) as Hwf.
    apply fresh_ticket_spec in Hf.
    apply (edit_preserves
             (λ x, ids_unique x ∧ fresh_in (heap x) editedAt)
             ids_unique content editedAt)
      with (s := s) (from := from) (to := to) (m := m) (caretPos := caretPos)
           (deleted := deleted); auto.
    + intros x node n k Hwfx [Hu Hfx] Hn Hk. split.
      * apply ids_unique_split; assumption.
      * apply fresh_split; assumption.
    + intros x x' _ [Hu Hfx] Hss. split.
      * eapply ids_unique_same_shape; eassumption.
      * eapply fresh_same_shape; eassumption.
    + intros x _ [Hu _]. exact Hu.
    + intros x prev p Hwfx [Hu Hfx] Hp _.
      apply ids_unique_insert; assumption.
Qed.

(** What the invariants give for lookups by identifier. *)
Lemma lookup_by_id (s : RGATreeSplit.t) (h : handle) (n : TextNode.t) :
  wf s → ids_unique s → heap s !! h = Some n →
  findFloorTextNode s (TextNode.id n) = Some h.
Proof.
  intros Hwf Hu Hn. unfold findFloorTextNode.
  rewrite (LLRB.Floor_exact _ h); cycle 1.
  - apply keys_ok_of_wf, Hwf.
  - apply (idx_sorted _ (wf_idx _ Hwf)).
  - apply (iu_indexed _ Hu), Hn.
  - unfold TextNodeID.Equal. rewrite KeyOrder.key_refl. reflexivity.
Qed.

Lemma ids_distinct (s : RGATreeSplit.t) (h1 h2 : handle)
    (n1 n2 : TextNode.t) :
  ids_unique s → heap s !! h1 = Some n1 → heap s !! h2 = Some n2 →
  TextNode.id n1 = TextNode.id n2 → h1 = h2.
Proof.
  intros Hu H1 H2 E. destruct (decide (h1 = h2)) as [|Hne]; [assumption|].
  exfalso.
  assert (TextNode.createdAt n1 = TextNode.createdAt n2) as Hc.
  { unfold TextNode.createdAt. rewrite E. reflexivity. }
  destruct (iu_frag _ Hu _ _ _ _ H1 H2 Hne Hc) as [Ho _].
  apply Ho. unfold offset_of. rewrite E. reflexivity.
Qed.

(** ** Lookups by identifier *)

Module FreshFacts.
Import Scenario.

Lemma apply_edits_fresh (es : list Edit) :
  ∀ s s', reachable_fresh s →
          Forall (λ e, len (e_content e) ≤ int_max) es →
          fresh_edits s es = true →
          apply_edits s es = Ok s' → reachable_fresh s'.
Proof.
  induction es as [|e es IH]; intros s s' Hr Hl Hf H; simpl in H.
  - injection H as <-. exact Hr.
  - apply bind_Ok_inv in H as (s1 & He & H).
    inversion Hl as [|? ? Hl1 Hl2]; subst.
    simpl in Hf. apply andb_true_iff in Hf as [Hf1 Hf2].
    rewrite He in Hf2.
    eapply IH; [|exact Hl2|exact Hf2|exact H].
    unfold apply_edit in He.
    apply bind_Ok_inv in He as ([[s2 c] d] & He & He'). injection He' as <-.
    eapply fresh_edit; eauto.
Qed.

Lemma fresh_st_ABC : reachable_fresh st_ABC.
Proof.
  apply (apply_edits_fresh [insertABC] NewRGATreeSplit);
    [apply fresh_new | | vm_compute; reflexivity | vm_compute; reflexivity].
  repeat constructor; vm_compute; discriminate.
Qed.

Lemma fresh_st_AxBC : reachable_fresh st_AxBC.
Proof.
  apply (apply_edits_fresh [insertABC; insertX] NewRGATreeSplit);
    [apply fresh_new | | vm_compute; reflexivity | vm_compute; reflexivity].
  repeat constructor; vm_compute; discriminate.
Qed.

Lemma fresh_st_A_BC : reachable_fresh st_A_BC.
Proof.
  apply (apply_edits_fresh [insertABC; noopAt 1 2] NewRGATreeSplit);
    [apply fresh_new | | vm_compute; reflexivity | vm_compute; reflexivity].
  repeat constructor; vm_compute; discriminate.
Qed.

Lemma fresh_st_deleted : reachable_fresh st_deleted.
Proof.
  apply (apply_edits_fresh [insertABC; deleteABC] NewRGATreeSplit);
    [apply fresh_new | | vm_compute; reflexivity | vm_compute; reflexivity].
  repeat constructor; vm_compute; discriminate.
Qed.

End FreshFacts.

(** X9: when no edit reuses the ticket of an earlier insertion, every node
    is found by its identifier, by [FindTextNode] as by
    [findFloorTextNode], and no two nodes carry the same identifier;
    [FindTextNode(nil)] is nil. *)
Theorem X9_FindTextNode_by_id (s : RGATreeSplit.t) (h : handle)
    (n : TextNode.t) :
  reachable_fresh s → heap s !! h = Some n →
  FindTextNode s (Some (TextNode.id n)) = Some h ∧
  findFloorTextNode s (TextNode.id n) = Some h ∧
  (∀ h' n', heap s !! h' = Some n' → TextNode.id n' = TextNode.id n →
            h' = h) ∧
  FindTextNode s None = None.
Proof.
  intros Hr Hn.
  pose proof (reachable_wf _ (reachable_fresh_reachable _ Hr)) as Hwf.
  pose proof (reachable_fresh_ids _ Hr) as Hu.
  pose proof (lookup_by_id _ _ _ Hwf Hu Hn) as Hf.
  split; [exact Hf|]. split; [exact Hf|]. split; [|reflexivity].
  intros h' n' Hn' E. apply (ids_distinct _ _ _ _ _ Hu Hn' Hn E).
Qed.

Lemma X9_FindTextNode_by_id_witness :
  FindTextNode Scenario.st_AxBC
    (Some (TextNodeID.mk (Scenario.tk 1 Scenario.actorA) 1)) = Some 2%nat ∧
  findFloorTextNode Scenario.st_AxBC
    (TextNodeID.mk (Scenario.tk 1 Scenario.actorA) 1) = Some 2%nat ∧
  (∀ h' n', heap Scenario.st_AxBC !! h' = Some n' →
            TextNode.id n' = TextNodeID.mk (Scenario.tk 1 Scenario.actorA) 1 →
            h' = 2%nat) ∧
  FindTextNode Scenario.st_AxBC None = None.
Proof.
  apply (X9_FindTextNode_by_id Scenario.st_AxBC 2%nat
           (TextNode.mk (TextNodeID.mk (Scenario.tk 1 Scenario.actorA) 1) "BC"
              None (Some 3%nat) None (Some 1%nat) None)).
  - apply FreshFacts.fresh_st_AxBC.
  - reflexivity.
Defined.

(** X12: in such a state, [InsPrevID] followed by [FindTextNode] gives back
    [insPrev], nil included. *)
Theorem X12_InsPrevID_round_trip (s : RGATreeSplit.t) (h : handle)
    (n : TextNode.t) :
  reachable_fresh s → heap s !! h = Some n →
  ∃ o, InsPrevID (heap s) n = Ok o ∧
       FindTextNode s o = TextNode.insPrev n ∧
       (o = None ↔ TextNode.insPrev n = None).
Proof.
  intros Hr Hn.
  pose proof (reachable_wf _ (reachable_fresh_reachable _ Hr)) as Hwf.
  pose proof (reachable_fresh_ids _ Hr) as Hu.
  unfold InsPrevID. destruct (TextNode.insPrev n) as [p|] eqn:Ep.
  - pose proof (wf_ins _ Hwf _ _ Hn) as [_ _ Hip _].
    destruct (Hip p Ep) as (pn & Hpn & _).
    rewrite (getNode_lookup _ _ _ Hpn).
    cbn [mbind result_mbind result_bind].
    eexists. split; [reflexivity|]. split.
    + simpl. apply (lookup_by_id _ _ _ Hwf Hu Hpn).
    + split; discriminate.
  - exists None. repeat split; reflexivity.
Qed.

Lemma X12_InsPrevID_round_trip_witness :
  ∃ o, InsPrevID (heap Scenario.st_AxBC)
         (TextNode.mk (TextNodeID.mk (Scenario.tk 1 Scenario.actorA) 1) "BC"
            None (Some 3%nat) None (Some 1%nat) None) = Ok o ∧
       FindTextNode Scenario.st_AxBC o =
         TextNode.insPrev
           (TextNode.mk (TextNodeID.mk (Scenario.tk 1 Scenario.actorA) 1)
              "BC" None (Some 3%nat) None (Some 1%nat) None) ∧
       (o = None ↔
        TextNode.insPrev
          (TextNode.mk (TextNodeID.mk (Scenario.tk 1 Scenario.actorA) 1)
             "BC" None (Some 3%nat) None (Some 1%nat) None) = None).
Proof.
  apply (X12_InsPrevID_round_trip Scenario.st_AxBC 2%nat).
  - apply FreshFacts.fresh_st_AxBC.
  - reflexivity.
Defined.

(** X13: the fragments of one insertion tile it.  In every state reached by
    edits, [insPrev] ends exactly where the node begins and comes before it
    in the traversal, and only the sentinel is empty; when no ticket is
    reused, two nodes of one creation ticket begin at different offsets and
    do not overlap. *)
Theorem X13_fragments_tile (s : RGATreeSplit.t) (h : handle) (n : TextNode.t) :
  reachable_fresh s → heap s !! h = Some n →
  (h ≠ initialHead s → 0 < TextNode.contentLen n) ∧
  (h = initialHead s → TextNode.id n = initialTextNodeID) ∧
  (∀ p, TextNode.insPrev n = Some p →
     ∃ pn l, heap s !! p = Some pn ∧
       TextNode.createdAt pn = TextNode.createdAt n ∧
       offset_of pn + TextNode.contentLen pn = offset_of n ∧
       textNodes s = Ok l ∧ sublist [p; h] (initialHead s :: l)) ∧
  (∀ h2 n2, heap s !! h2 = Some n2 → h2 ≠ h →
     TextNode.createdAt n2 = TextNode.createdAt n →
     offset_of n + TextNode.contentLen n ≤ offset_of n2 ∨
     offset_of n2 + TextNode.contentLen n2 ≤ offset_of n).
Proof.
  intros Hr Hn.
  pose proof (reachable_fresh_reachable _ Hr) as Hre.
  pose proof (reachable_wf _ Hre) as Hwf.
  pose proof (reachable_fresh_ids _ Hr) as Hu.
  pose proof (reachable_history _ Hre) as [Hhd Htight Hbefore Hne].
  split; [apply (Hne _ _ Hn)|]. split; [|split].
  - intros ->. destruct Hhd as (hn & Hhn & Hid). congruence.
  - intros p Hp. pose proof (wf_ins _ Hwf _ _ Hn) as [_ _ Hip _].
    destruct (Hip p Hp) as (pn & Hpn & _ & Hc & _).
    destruct (textNodes_chain s Hwf) as (l & Ht & El & _).
    exists pn, l. split; [exact Hpn|]. split; [exact Hc|].
    split; [apply (Htight _ _ _ _ Hn Hp Hpn)|]. split; [exact Ht|].
    rewrite <- El. apply (Hbefore _ _ _ Hn Hp).
  - intros h2 n2 Hn2 Hne2 Hc.
    destruct (iu_frag _ Hu _ _ _ _ Hn Hn2 (not_eq_sym Hne2) (eq_sym Hc))
      as [H1 H2].
    destruct (iu_frag _ Hu _ _ _ _ Hn2 Hn Hne2 Hc) as [H3 H4].
    lia.
Qed.

Lemma X13_fragments_tile_witness :
  (2%nat ≠ initialHead Scenario.st_AxBC →
   0 < TextNode.contentLen
         (TextNode.mk (TextNodeID.mk (Scenario.tk 1 Scenario.actorA) 1) "BC"
            None (Some 3%nat) None (Some 1%nat) None)) ∧
  (2%nat = initialHead Scenario.st_AxBC →
   TextNode.id
     (TextNode.mk (TextNodeID.mk (Scenario.tk 1 Scenario.actorA) 1) "BC"
        None (Some 3%nat) None (Some 1%nat) None) = initialTextNodeID) ∧
  (∀ p, TextNode.insPrev
          (TextNode.mk (TextNodeID.mk (Scenario.tk 1 Scenario.actorA) 1) "BC"
             None (Some 3%nat) None (Some 1%nat) None) = Some p →
     ∃ pn l, heap Scenario.st_AxBC !! p = Some pn ∧
       TextNode.createdAt pn = Scenario.tk 1 Scenario.actorA ∧
       offset_of pn + TextNode.contentLen pn = 1 ∧
       textNodes Scenario.st_AxBC = Ok l ∧
       sublist [p; 2%nat] (initialHead Scenario.st_AxBC :: l)) ∧
  (∀ h2 n2, heap Scenario.st_AxBC !! h2 = Some n2 → h2 ≠ 2%nat →
     TextNode.createdAt n2 = Scenario.tk 1 Scenario.actorA →
     1 + 2 ≤ offset_of n2 ∨
     offset_of n2 + TextNode.contentLen n2 ≤ 1).
Proof.
  apply (X13_fragments_tile Scenario.st_AxBC 2%nat
           (TextNode.mk (TextNodeID.mk (Scenario.tk 1 Scenario.actorA) 1) "BC"
              None (Some 3%nat) None (Some 1%nat) None)).
  - apply FreshFacts.fresh_st_AxBC.
  - reflexivity.
Defined.

(** ** Resolving a position *)

Lemma Floor_None_above (key : TextNodeID.t) (t : llrb.Tree) :
  keys_ok t → key_ok key → StronglySorted entry_lt t →
  llrb.Floor key t = None →
  ∀ e, e ∈ t → TextNodeID.Compare key (fst e) < 0.
Proof.
  intros Hk Hkey Hs H e He. destruct t as [|[k v] tl]; [inversion He|].
  simpl in H. destruct (TextNodeID.Compare key k <? 0) eqn:E.
  - apply Z.ltb_lt in E. apply elem_of_cons in He as [->|He]; [exact E|].
    apply StronglySorted_inv in Hs as [_ Hall].
    rewrite Forall_forall in Hall. specialize (Hall _ He).
    unfold keys_ok in Hk. rewrite Forall_forall in Hk.
    apply (KeyOrder.key_trans key k (fst e)); auto.
    + apply (Hk (k, v)). apply elem_of_cons. auto.
    + apply Hk. apply elem_of_cons. auto.
  - destruct (llrb.Floor key tl); discriminate.
Qed.

Lemma Floor_Some_greatest (key : TextNodeID.t) (t : llrb.Tree)
    (e : TextNodeID.t * handle) :
  keys_ok t → key_ok key → StronglySorted entry_lt t →
  llrb.Floor key t = Some e →
  e ∈ t ∧ 0 ≤ TextNodeID.Compare key (fst e) ∧
  ∀ e', e' ∈ t → 0 ≤ TextNodeID.Compare key (fst e') →
        0 ≤ TextNodeID.Compare (fst e) (fst e').
Proof.
  intros Hk Hkey Hs. revert e.
  induction t as [|[k v] tl IH]; intros e H; [discriminate|].
  simpl in H. destruct (TextNodeID.Compare key k <? 0) eqn:E; [discriminate|].
  apply Z.ltb_ge in E.
  pose proof Hk as Hk'. unfold keys_ok in Hk'. rewrite Forall_forall in Hk'.
  assert (key_ok k) as Hkk by (apply (Hk' (k, v)); apply elem_of_cons; auto).
  pose proof (Forall_inv_tail Hk) as Hktl.
  pose proof Hs as Hs'. apply StronglySorted_inv in Hs' as [Hstl Hall].
  rewrite Forall_forall in Hall.
  destruct (llrb.Floor key tl) as [r|] eqn:Ef.
  - injection H as <-.
    destruct (IH Hktl Hstl r eq_refl) as (Hin & Hge & Hmax).
    split; [apply elem_of_cons; auto|]. split; [exact Hge|].
    intros e' He' Hge'. apply elem_of_cons in He' as [->|He'].
    + simpl. specialize (Hall _ Hin). unfold entry_lt, key_lt in Hall.
      simpl in Hall.
      rewrite (KeyOrder.key_antisym k (fst r)); [lia|exact Hkk|].
      apply Hk'. apply elem_of_cons. auto.
    + apply Hmax; assumption.
  - injection H as <-. split; [apply elem_of_cons; auto|].
    split; [exact E|]. intros e' He' Hge'.
    apply elem_of_cons in He' as [->|He'].
    + simpl. rewrite KeyOrder.key_refl. lia.
    + pose proof (Floor_None_above key tl Hktl Hkey Hstl Ef _ He'). lia.
Qed.

Lemma Compare_same_createdAt (c : Ticket.t) (a b : Z) :
  0 ≤ a ≤ int_max → 0 ≤ b ≤ int_max →
  TextNodeID.Compare (TextNodeID.mk c a) (TextNodeID.mk c b) = a - b.
Proof.
  intros Ha Hb. rewrite KeyOrder.Compare_unfold by (unfold key_ok; simpl; lia).
  simpl. rewrite TicketOrder.ticket_refl. reflexivity.
Qed.

(** Two keys with a third one between them in the order, the outer ones of
    one creation ticket: all three are. *)
Lemma Compare_squeeze (lo mid hi : TextNodeID.t) :
  key_ok lo → key_ok mid → key_ok hi →
  TextNodeID.createdAt lo = TextNodeID.createdAt hi →
  0 ≤ TextNodeID.Compare mid lo → 0 ≤ TextNodeID.Compare hi mid →
  TextNodeID.createdAt mid = TextNodeID.createdAt lo ∧
  TextNodeID.offset lo ≤ TextNodeID.offset mid ≤ TextNodeID.offset hi.
Proof.
  intros Hlo Hmid Hhi Ec H1 H2.
  rewrite KeyOrder.Compare_unfold in H1, H2 by assumption.
  rewrite <- Ec in H2.
  pose proof (TicketOrder.ticket_antisym (TextNodeID.createdAt lo)
                (TextNodeID.createdAt mid)) as Ha.
  destruct (Ticket.Compare (TextNodeID.createdAt mid)
              (TextNodeID.createdAt lo) =? 0) eqn:E1.
  - apply Z.eqb_eq in E1. rewrite E1 in Ha.
    assert (Ticket.Compare (TextNodeID.createdAt lo)
              (TextNodeID.createdAt mid) = 0) as E2 by lia.
    rewrite E2 in H2. simpl in H2.
    split; [apply TicketOrder.ticket_eq, E1|]. lia.
  - apply Z.eqb_neq in E1.
    destruct (Ticket.Compare (TextNodeID.createdAt lo)
                (TextNodeID.createdAt mid) =? 0) eqn:E2.
    + apply Z.eqb_eq in E2. lia.
    + lia.
Qed.

Lemma resolve_inside (s : RGATreeSplit.t) (h : handle) (n : TextNode.t)
    (a : Z) :
  wf s → ids_unique s → history_ok s →
  heap s !! h = Some n →
  offset_of n < a ≤ offset_of n + TextNode.contentLen n →
  findFloorTextNodePreferToLeft s (TextNodeID.mk (TextNode.createdAt n) a)
    = Ok h.
Proof.
  intros Hwf Hu Hh Hn Ha.
  pose proof (wf_ins _ Hwf) as Hins.
  pose proof (Hins _ _ Hn) as [[Hr1 Hr2] _ _ _].
  pose proof (keys_ok_of_wf _ Hwf) as Hkeys.
  pose proof (idx_sorted _ (wf_idx _ Hwf)) as Hsorted.
  pose proof (idx_entries _ (wf_idx _ Hwf)) as Hent.
  set (key := TextNodeID.mk (TextNode.createdAt n) a).
  assert (key_ok key) as Hkey by (unfold key_ok, key; simpl; lia).
  assert (key_ok (TextNode.id n)) as Hkn by (eapply node_key_ok; eassumption).
  assert (TextNodeID.Compare key (TextNode.id n) = a - offset_of n) as Hcmp.
  { destruct (TextNode.id n) as [c o] eqn:Eid.
    unfold key, TextNode.createdAt, offset_of. rewrite Eid. simpl.
    apply Compare_same_createdAt; [lia|].
    unfold key_ok in Hkn. simpl in Hkn. exact Hkn. }
  pose proof (iu_indexed _ Hu _ _ Hn) as Hidx.
  unfold findFloorTextNodePreferToLeft, findFloorTextNode.
  destruct (llrb.Floor key (treeByID s)) as [[ke he]|] eqn:Ef; cycle 1.
  { pose proof (Floor_None_above key _ Hkeys Hkey Hsorted Ef _ Hidx) as Hlt.
    simpl in Hlt. lia. }
  destruct (Floor_Some_greatest key _ _ Hkeys Hkey Hsorted Ef)
    as (Hin & Hge & Hmax).
  simpl in Hge. specialize (Hmax _ Hidx). simpl in Hmax.
  assert (0 ≤ TextNodeID.Compare ke (TextNode.id n)) as Hge2
    by (apply Hmax; lia).
  rewrite Forall_forall in Hent.
  destruct (Hent _ Hin) as (Hkke & y & Hy & Hidy). simpl in Hkke, Hy, Hidy.
  destruct (Compare_squeeze (TextNode.id n) ke key Hkn Hkke Hkey eq_refl
              Hge2 Hge) as (Hc & Ho1 & Ho2).
  simpl in Ho2. subst ke.
  assert (TextNodeID.hasSameCreatedAt (TextNode.id y) key = true) as Hsame.
  { unfold TextNodeID.hasSameCreatedAt. rewrite Hc. simpl.
    apply Z.eqb_eq. apply TicketOrder.ticket_refl. }
  rewrite Hsame, andb_false_r.
  rewrite (getNode_lookup _ _ _ Hy). cbn [mbind result_mbind result_bind].
  replace (0 <? TextNodeID.offset key) with true
    by (symmetry; apply Z.ltb_lt; simpl; lia).
  cbn [andb]. simpl TextNodeID.offset.
  destruct (decide (he = h)) as [->|Hne].
  - assert (y = n) as -> by congruence.
    replace (TextNodeID.offset (TextNode.id n) =? a) with false; [reflexivity|].
    symmetry. apply Z.eqb_neq. unfold offset_of in Ha. lia.
  - assert (TextNode.createdAt n = TextNode.createdAt y) as Hc'
      by (unfold TextNode.createdAt; congruence).
    destruct (iu_frag _ Hu _ _ _ _ Hn Hy (not_eq_sym Hne) Hc') as [Hd1 Hd2].
    unfold offset_of in *.
    assert (TextNodeID.offset (TextNode.id y) = a) as Eoy by lia.
    rewrite Eoy, Z.eqb_refl.
    pose proof (Hins _ _ Hy) as [_ Hhp Hip _].
    destruct Hhp as [p Hp]; [unfold offset_of; lia|]. rewrite Hp.
    destruct (Hip p Hp) as (pn & Hpn & _ & Hpc & _ & Hpl).
    pose proof (ho_tight _ Hh _ _ _ _ Hy Hp Hpn) as Ht.
    unfold offset_of in *.
    destruct (decide (p = h)) as [->|Hph]; [reflexivity|]. exfalso.
    assert (TextNode.createdAt n = TextNode.createdAt pn) as Hc2 by congruence.
    destruct (iu_frag _ Hu _ _ _ _ Hn Hpn (not_eq_sym Hph) Hc2) as [He1 He2].
    destruct (iu_frag _ Hu _ _ _ _ Hpn Hn Hph (eq_sym Hc2)) as [He3 He4].
    unfold offset_of in *. lia.
Qed.

Lemma getAbsoluteID_node (s : RGATreeSplit.t) (h : handle) (n : TextNode.t)
    (k : Z) :
  wf s → heap s !! h = Some n → 0 ≤ k ≤ TextNode.contentLen n →
  TextNodePos.getAbsoluteID (TextNodePos.mk (TextNode.id n) k) =
    TextNodeID.mk (TextNode.createdAt n) (offset_of n + k).
Proof.
  intros Hwf Hn Hk. pose proof (wf_ins _ Hwf _ _ Hn) as [[Hr1 Hr2] _ _ _].
  unfold TextNodePos.getAbsoluteID, TextNodeID.NewTextNodeID. simpl.
  unfold int_add. rewrite wrap_id; [reflexivity|].
  unfold offset_of, int_min, int_max in *. lia.
Qed.

Lemma resolve_position (s : RGATreeSplit.t) (h : handle) (n : TextNode.t)
    (k : Z) :
  wf s → ids_unique s → history_ok s →
  heap s !! h = Some n → 0 ≤ k ≤ TextNode.contentLen n →
  ∃ node nn,
    findFloorTextNodePreferToLeft s
      (TextNodePos.getAbsoluteID (TextNodePos.mk (TextNode.id n) k))
      = Ok node ∧
    heap s !! node = Some nn ∧
    TextNode.createdAt nn = TextNode.createdAt n ∧
    int_sub
      (TextNodeID.offset
         (TextNodePos.getAbsoluteID (TextNodePos.mk (TextNode.id n) k)))
      (TextNodeID.offset (TextNode.id nn))
      = offset_of n + k - offset_of nn ∧
    0 ≤ offset_of n + k - offset_of nn ≤ TextNode.contentLen nn ∧
    (0 < k ∨ offset_of n = 0 → node = h) ∧
    (k = 0 → 0 < offset_of n →
     TextNode.insPrev n = Some node ∧
     offset_of n - offset_of nn = TextNode.contentLen nn).
Proof.
  intros Hwf Hu Hh Hn Hk.
  pose proof (wf_ins _ Hwf) as Hins.
  pose proof (Hins _ _ Hn) as [[Hr1 Hr2] Hhp Hip _].
  rewrite (getAbsoluteID_node _ _ _ _ Hwf Hn Hk). simpl TextNodeID.offset.
  assert (∀ nn, 0 ≤ offset_of nn ≤ int_max →
            int_sub (offset_of n + k) (TextNodeID.offset (TextNode.id nn))
            = offset_of n + k - offset_of nn) as Hsub.
  { intros nn Hnn. unfold int_sub. apply wrap_id.
    unfold offset_of, int_min, int_max in *. lia. }
  destruct (decide (0 < k)) as [Hpos|Hz].
  - exists h, n. split; [apply resolve_inside; auto; lia|].
    split; [exact Hn|]. split; [reflexivity|].
    split; [apply Hsub; pose proof (len_nonneg (TextNode.value n));
            unfold TextNode.contentLen in *; lia|].
    split; [lia|]. split; [auto|]. intros ->. lia.
  - assert (k = 0) as -> by lia.
    assert (TextNodeID.mk (TextNode.createdAt n) (offset_of n + 0)
            = TextNode.id n) as Eid.
    { rewrite Z.add_0_r. unfold TextNode.createdAt, offset_of.
      destruct (TextNode.id n). reflexivity. }
    rewrite Eid. unfold findFloorTextNodePreferToLeft.
    rewrite (lookup_by_id _ _ _ Hwf Hu Hn).
    rewrite (getNode_lookup _ _ _ Hn). cbn [mbind result_mbind result_bind].
    rewrite Z.eqb_refl, andb_true_r.
    destruct (0 <? TextNodeID.offset (TextNode.id n)) eqn:E0.
    + apply Z.ltb_lt in E0. destruct (Hhp E0) as [p Hp]. rewrite Hp.
      destruct (Hip p Hp) as (pn & Hpn & _ & Hpc & _ & Hpl).
      pose proof (ho_tight _ Hh _ _ _ _ Hn Hp Hpn) as Ht.
      pose proof (Hins _ _ Hpn) as [[Hp1 Hp2] _ _ _].
      pose proof (len_nonneg (TextNode.value pn)) as Hl.
      unfold TextNode.contentLen in *.
      exists p, pn. split; [reflexivity|]. split; [exact Hpn|].
      split; [exact Hpc|].
      split; [apply Hsub; lia|].
      split; [lia|]. split; [unfold offset_of in *; lia|].
      intros _ _. split; [reflexivity|lia].
    + apply Z.ltb_ge in E0. exists h, n. split; [reflexivity|].
      split; [exact Hn|]. split; [reflexivity|].
      split; [apply Hsub; unfold offset_of in *; lia|].
      pose proof (len_nonneg (TextNode.value n)).
      unfold TextNode.contentLen in *.
      split; [lia|]. split; [auto|]. unfold offset_of. lia.
Qed.

(** X8: when no ticket is reused, a position [(node.id, k)] with
    [0 ≤ k ≤ contentLen] is resolved by [findFloorTextNodePreferToLeft] to
    the node that holds the code unit in front of the boundary: the node
    itself when [k > 0] or the node is the first fragment of its insertion,
    and its [insPrev], at its full length, when [k = 0] otherwise.  The
    relative offset [findTextNodeWithSplit] computes from it lies within
    that node's value. *)
Theorem X8_position_resolves (s : RGATreeSplit.t) (h : handle)
    (n : TextNode.t) (k : Z) :
  reachable_fresh s → heap s !! h = Some n →
  0 ≤ k ≤ TextNode.contentLen n →
  ∃ node nn,
    findFloorTextNodePreferToLeft s
      (TextNodePos.getAbsoluteID (TextNodePos.mk (TextNode.id n) k))
      = Ok node ∧
    heap s !! node = Some nn ∧
    TextNode.createdAt nn = TextNode.createdAt n ∧
    int_sub
      (TextNodeID.offset
         (TextNodePos.getAbsoluteID (TextNodePos.mk (TextNode.id n) k)))
      (TextNodeID.offset (TextNode.id nn))
      = offset_of n + k - offset_of nn ∧
    0 ≤ offset_of n + k - offset_of nn ≤ TextNode.contentLen nn ∧
    (0 < k ∨ offset_of n = 0 → node = h) ∧
    (k = 0 → 0 < offset_of n →
     TextNode.insPrev n = Some node ∧
     offset_of n - offset_of nn = TextNode.contentLen nn).
Proof.
  intros Hr Hn Hk.
  pose proof (reachable_fresh_reachable _ Hr) as Hre.
  apply resolve_position; auto.
  - apply reachable_wf, Hre.
  - apply reachable_fresh_ids, Hr.
  - apply reachable_history, Hre.
Qed.

Lemma X8_position_resolves_witness :
  ∃ node nn,
    findFloorTextNodePreferToLeft Scenario.st_AxBC
      (TextNodePos.getAbsoluteID
         (TextNodePos.mk (TextNodeID.mk (Scenario.tk 1 Scenario.actorA) 1) 0))
      = Ok node ∧
    heap Scenario.st_AxBC !! node = Some nn ∧
    TextNode.createdAt nn = Scenario.tk 1 Scenario.actorA ∧
    int_sub
      (TextNodeID.offset
         (TextNodePos.getAbsoluteID
            (TextNodePos.mk (TextNodeID.mk (Scenario.tk 1 Scenario.actorA) 1)
               0)))
      (TextNodeID.offset (TextNode.id nn))
      = 1 + 0 - offset_of nn ∧
    0 ≤ 1 + 0 - offset_of nn ≤ TextNode.contentLen nn ∧
    (0 < 0 ∨ 1 = 0 → node = 2%nat) ∧
    (0 = 0 → 0 < 1 →
     Some 1%nat = Some node ∧ 1 - offset_of nn = TextNode.contentLen nn).
Proof.
  apply (X8_position_resolves Scenario.st_AxBC 2%nat
           (TextNode.mk (TextNodeID.mk (Scenario.tk 1 Scenario.actorA) 1) "BC"
              None (Some 3%nat) None (Some 1%nat) None) 0).
  - apply FreshFacts.fresh_st_AxBC.
  - reflexivity.
  - vm_compute. split; discriminate.
Defined.

(** ** Edits at the latest ticket *)

(** *** Lists *)

Lemma NoDup_split_unique (l1 l2 l1' l2' : list handle) (x : handle) :
  NoDup (l1 ++ x :: l2) → l1 ++ x :: l2 = l1' ++ x :: l2' →
  l1 = l1' ∧ l2 = l2'.
Proof.
  revert l1'. induction l1 as [|a l1 IH]; intros l1' Hnd E.
  - destruct l1' as [|b l1']; simpl in E.
    + injection E as <-. auto.
    + injection E as <- E. exfalso. simpl in Hnd.
      apply NoDup_cons in Hnd as [Hni _]. apply Hni. rewrite E.
      apply elem_of_app. right. apply elem_of_cons. auto.
  - destruct l1' as [|b l1']; simpl in E.
    + injection E as -> E. exfalso. simpl in Hnd.
      apply NoDup_cons in Hnd as [Hni _]. apply Hni.
      apply elem_of_app. right. apply elem_of_cons. auto.
    + injection E as <- E. simpl in Hnd. apply NoDup_cons in Hnd as [_ Hnd].
      destruct (IH _ Hnd E) as [-> ->]. auto.
Qed.

Lemma InsertAfter_app_in (ref node : handle) (l r : list handle) :
  ref ∈ l →
  splay.InsertAfter ref node (l ++ r) = splay.InsertAfter ref node l ++ r.
Proof.
  induction l as [|x l IH]; intros Hin; [inversion Hin|].
  simpl. destruct (decide (x = ref)); [reflexivity|].
  apply elem_of_cons in Hin as [->|Hin]; [contradiction|].
  rewrite IH by exact Hin. reflexivity.
Qed.

Lemma InsertAfter_app_notin (ref node : handle) (l r : list handle) :
  ref ∉ l →
  splay.InsertAfter ref node (l ++ r) = l ++ splay.InsertAfter ref node r.
Proof.
  induction l as [|x l IH]; intros Hni; [reflexivity|].
  simpl. destruct (decide (x = ref)) as [->|Hne].
  - exfalso. apply Hni. apply elem_of_cons. auto.
  - rewrite IH; [reflexivity|]. intros Hin. apply Hni.
    apply elem_of_cons. auto.
Qed.

Lemma hd_or_InsertAfter (ref node : handle) (l : list handle) :
  hd_or (splay.InsertAfter ref node l) None = hd_or l None.
Proof.
  destruct l as [|x l]; [reflexivity|]. simpl.
  destruct (decide (x = ref)); reflexivity.
Qed.

Lemma live_text_app (hp : Heap) (l1 l2 : list handle) :
  live_text hp (l1 ++ l2) = live_text hp l1 +:+ live_text hp l2.
Proof.
  unfold live_text. rewrite live_values_app. apply concat_strings_app.
Qed.

Lemma live_text_live (hp : Heap) (h : handle) (n : TextNode.t) :
  hp !! h = Some n → TextNode.deletedAt n = None →
  live_text hp [h] = TextNode.value n.
Proof.
  intros Hn Hd. unfold live_text. simpl. rewrite Hn, Hd. simpl.
  apply app_empty_r.
Qed.

Lemma live_text_dead (hp : Heap) (h : handle) (n : TextNode.t) (d : Ticket.t) :
  hp !! h = Some n → TextNode.deletedAt n = Some d →
  live_text hp [h] = EmptyString.
Proof.
  intros Hn Hd. unfold live_text. simpl. rewrite Hn, Hd. reflexivity.
Qed.

Lemma live_text_ext (hp hp' : Heap) (l : list handle) :
  (∀ h, h ∈ l → payload <$> hp' !! h = payload <$> hp !! h) →
  live_text hp' l = live_text hp l.
Proof.
  intros H. unfold live_text. rewrite (live_values_ext hp hp' l H).
  reflexivity.
Qed.

(** *** The index lookup *)

Lemma find_from_spec (w : handle → Z) (t : splay.Tree) :
  (∀ h, 0 ≤ w h) → ∀ k x off, 0 ≤ k →
  splay.find_from w t k = Some (x, off) →
  ∃ la lb, t = la ++ x :: lb ∧ k = splay.total w la + off ∧
           0 ≤ off ≤ w x ∧ (off = 0 → la = []).
Proof.
  intros Hw. induction t as [|y t IH]; intros k x off Hk H; [discriminate|].
  simpl in H. destruct (k <=? w y) eqn:E.
  - injection H as <- <-. apply Z.leb_le in E.
    exists [], t. simpl. repeat split; auto; lia.
  - apply Z.leb_gt in E. pose proof (Hw y) as Hy.
    destruct (IH (k - w y) x off ltac:(lia) H)
      as (la & lb & -> & Hk' & Hoff & Hz).
    exists (y :: la), lb. simpl. split; [reflexivity|]. split; [lia|].
    split; [exact Hoff|]. intros ->. specialize (Hz eq_refl). subst la.
    simpl in Hk'. lia.
Qed.

Lemma findTextNodePos_denotes (s : RGATreeSplit.t) (i : Z)
    (pos : TextNodePos.t) :
  wf s → history_ok s → findTextNodePos s i = Ok pos →
  denotes s pos i.
Proof.
  intros Hwf Hh H. unfold findTextNodePos in H.
  apply bind_Ok_inv in H as ([x off] & Hfind & H).
  apply bind_Ok_inv in H as (n & Hn & H). apply getNode_Ok in Hn.
  injection H as <-.
  unfold splay.Find in Hfind.
  destruct ((i <? 0) || (splay.total (weight (heap s)) (treeByIndex s) <? i))
    eqn:Er; [discriminate|].
  apply orb_false_iff in Er as [E1 E2]. apply Z.ltb_ge in E1.
  destruct (splay.find_from (weight (heap s)) (treeByIndex s) i)
    as [[x' off']|] eqn:Ef; [|discriminate].
  injection Hfind as -> ->.
  destruct (find_from_spec _ _ (weight_nonneg (heap s)) _ _ _ E1 Ef)
    as (la & lb & El & Hi & Hoff & Hz).
  destruct (decide (off = 0)) as [->|Hnz].
  - specialize (Hz eq_refl). subst la. simpl in *.
    pose proof (chain_head _ _ (wf_chain _ Hwf)) as Hhd.
    rewrite El in Hhd. simpl in Hhd. injection Hhd as ->.
    destruct (ho_head _ Hh) as (hn & Hhn & Hid).
    assert (hn = n) as -> by congruence.
    left. rewrite Hid. split; [reflexivity|lia].
  - right. unfold weight in Hoff. rewrite Hn in Hoff.
    unfold TextNode.Len in Hoff.
    destruct (TextNode.deletedAt n) eqn:Ed; [lia|].
    pose proof (wf_ins _ Hwf _ _ Hn) as [[Hr1 Hr2] _ _ _].
    exists x, n, la, lb, (offset_of n + off).
    split; [exact El|]. split; [exact Hn|]. split; [exact Ed|].
    split; [apply (getAbsoluteID_node s x); auto; lia|].
    split; [lia|]. unfold live_text. rewrite <- total_live_values. lia.
Qed.

(** *** A split of a live node and the visible text *)

Section SplitLive.
Variables (s : RGATreeSplit.t) (node : handle) (n : TextNode.t) (k : Z).
Hypothesis Hwf : wf s.
Hypothesis Hn : heap s !! node = Some n.
Hypothesis Hk : 0 < k < TextNode.contentLen n.
Hypothesis Hlive : TextNode.deletedAt n = None.

Lemma split_payload_other (h : handle) :
  h ≠ node → h ≠ length (heap s) →
  payload <$> heap (split_state s node n k) !! h = payload <$> heap s !! h.
Proof.
  intros H1 H2. simpl. rewrite (split_lookup _ _ _ k Hwf Hn).
  rewrite decide_False by exact H1. rewrite decide_False by exact H2.
  destruct (heap s !! h); reflexivity.
Qed.

Lemma split_live_other (l : list handle) :
  node ∉ l → length (heap s) ∉ l →
  live_text (heap (split_state s node n k)) l = live_text (heap s) l.
Proof.
  intros H1 H2. apply live_text_ext. intros h Hin.
  apply split_payload_other; intros ->; contradiction.
Qed.

Lemma split_live_pair :
  live_text (heap (split_state s node n k)) [node; length (heap s)]
  = live_text (heap s) [node].
Proof.
  unfold live_text. simpl.
  rewrite (split_lookup_node _ _ _ k Hwf Hn).
  rewrite (split_lookup_new _ _ _ k Hwf Hn). rewrite Hn. simpl.
  rewrite Hlive. simpl. rewrite app_empty_r, app_empty_r.
  apply slice_to_from.
Qed.

Lemma split_live_inserted (l : list handle) :
  NoDup l → node ∈ l → length (heap s) ∉ l →
  live_text (heap (split_state s node n k))
    (splay.InsertAfter node (length (heap s)) l)
  = live_text (heap s) l.
Proof.
  intros Hnd Hin Hf. apply list_elem_of_split in Hin as (l1 & l2 & ->).
  apply NoDup_app in Hnd as (_ & Hd & Hnd2).
  apply NoDup_cons in Hnd2 as [Hn2 _].
  assert (node ∉ l1) as Hn1.
  { intros Hin. apply (Hd _ Hin). apply elem_of_cons. auto. }
  rewrite splay_InsertAfter_middle by exact Hn1.
  replace (l1 ++ node :: length (heap s) :: l2)
    with (l1 ++ [node; length (heap s)] ++ l2) by reflexivity.
  replace (l1 ++ node :: l2) with (l1 ++ [node] ++ l2) by reflexivity.
  rewrite !live_text_app. rewrite split_live_pair.
  rewrite !split_live_other; [reflexivity| | | |].
  - exact Hn2.
  - intros Hx. apply Hf. apply elem_of_app. right.
    apply elem_of_cons. auto.
  - exact Hn1.
  - intros Hx. apply Hf. apply elem_of_app. auto.
Qed.

Lemma split_text_of :
  live_text (heap (split_state s node n k)) (treeByIndex (split_state s node n k))
  = live_text (heap s) (treeByIndex s).
Proof.
  pose proof (wf_chain _ Hwf) as Hc. simpl treeByIndex.
  apply split_live_inserted.
  - apply (chain_nodup _ _ Hc).
  - apply (chain_elem _ _ _ Hc). apply lookup_lt_Some in Hn. exact Hn.
  - intros Hin. apply (chain_elem _ _ _ Hc) in Hin. lia.
Qed.

End SplitLive.

Lemma all_created_split (φ : Ticket.t → bool) (s : RGATreeSplit.t)
    (node : handle) (n : TextNode.t) (k : Z) :
  wf s → heap s !! node = Some n → 0 < k < TextNode.contentLen n →
  all_created φ (heap s) → all_created φ (heap (split_state s node n k)).
Proof.
  intros Hwf Hn Hk Hf h y' Hy'. simpl in Hy'.
  destruct (split_right_facts _ _ _ _ Hwf Hn Hk) as (_ & _ & _ & Hcr).
  apply (split_lookup_inv _ _ _ k Hwf Hn) in Hy'
    as [[-> ->]|[[-> ->]|(Hj1 & Hj2 & y & Hy & ->)]].
  - apply (Hf _ _ Hn).
  - rewrite Hcr. apply (Hf _ _ Hn).
  - apply (Hf _ _ Hy).
Qed.

Lemma all_created_spec (φ : Ticket.t → bool) (hp : Heap) :
  forallb (λ n, φ (TextNode.createdAt n)) hp = true ↔ all_created φ hp.
Proof.
  unfold all_created. rewrite forallb_forall. split.
  - intros H h n Hn. apply H. apply list_elem_of_In.
    eapply list_elem_of_lookup_2, Hn.
  - intros H n Hn. apply list_elem_of_In in Hn.
    apply list_elem_of_lookup in Hn as (h & Hn). eapply H, Hn.
Qed.

Lemma denotes_split (s : RGATreeSplit.t) (node : handle) (n : TextNode.t)
    (k : Z) (pos : TextNodePos.t) (j : Z) :
  wf s → heap s !! node = Some n → 0 < k < TextNode.contentLen n →
  TextNode.deletedAt n = None →
  denotes s pos j → denotes (split_state s node n k) pos j.
Proof.
  intros Hwf Hn Hk Hlive [Hd|(h & y & la & lb & a & El & Hy & Hyl & Ha & Hr & Hj)].
  { left. exact Hd. }
  right.
  pose proof (wf_chain _ Hwf) as Hc.
  pose proof (chain_nodup _ _ Hc) as Hnd. rewrite El in Hnd.
  assert (∀ x, x ∈ la ++ h :: lb → x ≠ length (heap s)) as Hfresh.
  { intros x Hx ->. rewrite <- El in Hx. apply (chain_elem _ _ _ Hc) in Hx.
    lia. }
  assert (length (heap s) ∉ la) as Hfla.
  { intros Hx. apply (Hfresh (length (heap s))); [|reflexivity].
    apply elem_of_app. auto. }
  destruct (split_right_facts _ _ _ _ Hwf Hn Hk) as (Hoff & Hlr & Hll & Hcr).
  pose proof Hnd as Hnd'. apply NoDup_app in Hnd' as (Hndla & Hdis & Hnd2).
  apply NoDup_cons in Hnd2 as [Hhlb Hndlb].
  destruct (decide (node ∈ la)) as [Hin|Hni].
  - (* the split node comes before [h] *)
    assert (h ≠ node) as Hne.
    { intros ->. apply (Hdis _ Hin). apply elem_of_cons. auto. }
    exists h, (split_other n (length (heap s)) h y),
      (splay.InsertAfter node (length (heap s)) la), lb, a.
    split; [simpl; rewrite El; apply InsertAfter_app_in, Hin|].
    split; [apply (split_lookup_other _ _ _ k Hwf Hn); assumption|].
    split; [exact Hyl|]. split; [exact Ha|]. split; [exact Hr|].
    rewrite (split_live_inserted s node n k Hwf Hn Hlive); auto.
  - destruct (decide (h = node)) as [->|Hne].
    + assert (y = n) as -> by congruence.
      destruct (decide (a ≤ offset_of n + k)) as [Hle|Hgt].
      * exists node, (split_left n k (length (heap s))), la,
          (length (heap s) :: lb), a.
        split; [simpl; rewrite El;
                apply splay_InsertAfter_middle, Hni|].
        split; [apply (split_lookup_node _ _ _ k Hwf Hn)|].
        split; [exact Hlive|]. split; [exact Ha|].
        split; [rewrite Hll; unfold offset_of in *; simpl; lia|].
        rewrite (split_live_other s node n k Hwf Hn); auto.
      * exists (length (heap s)), (split_right n k node), (la ++ [node]),
          lb, a.
        split.
        { simpl. rewrite El, splay_InsertAfter_middle by exact Hni.
          rewrite <- app_assoc. reflexivity. }
        split; [apply (split_lookup_new _ _ _ k Hwf Hn)|].
        split; [reflexivity|]. split; [rewrite Hcr; exact Ha|].
        split; [rewrite Hoff, Hlr; lia|].
        rewrite live_text_app, len_append.
        rewrite (split_live_other s node n k Hwf Hn) by auto.
        assert (live_text (heap (split_state s node n k)) [node]
                = TextNode.value (split_left n k (length (heap s)))) as ->.
        { apply live_text_live; [|exact Hlive].
          apply (split_lookup_node _ _ _ k Hwf Hn). }
        change (len (TextNode.value (split_left n k (length (heap s)))))
          with (TextNode.contentLen (split_left n k (length (heap s)))).
        rewrite Hll, Hoff. lia.
    + exists h, (split_other n (length (heap s)) h y), la,
        (splay.InsertAfter node (length (heap s)) lb), a.
      split.
      { simpl. rewrite El, InsertAfter_app_notin by exact Hni.
        simpl. rewrite decide_False by exact Hne. reflexivity. }
      split; [apply (split_lookup_other _ _ _ k Hwf Hn); assumption|].
      split; [exact Hyl|]. split; [exact Ha|]. split; [exact Hr|].
      rewrite (split_live_other s node n k Hwf Hn); auto.
Qed.

(** What a resolution step keeps. *)
Lemma live_step_keeps (φ : Ticket.t → bool) (s s1 : RGATreeSplit.t)
    (left : handle) :
  live_step s s1 left →
  wf s → ids_unique s → history_ok s → all_created φ (heap s) →
  wf s1 ∧ ids_unique s1 ∧ history_ok s1 ∧ all_created φ (heap s1) ∧
  live_text (heap s1) (treeByIndex s1) = live_text (heap s) (treeByIndex s) ∧
  ∀ pos j, denotes s pos j → denotes s1 pos j.
Proof.
  intros [->|(n & k & Hn & Hl & Hk & ->)] Hwf Hu Hh Hc; [tauto|].
  split; [apply split_wf; assumption|].
  split; [apply ids_unique_split; assumption|].
  split; [apply history_split; assumption|].
  split; [apply all_created_split; assumption|].
  split; [apply split_text_of; assumption|].
  intros pos j. apply denotes_split; assumption.
Qed.

(** *** Resolving a boundary at the latest ticket *)

Lemma no_run (hp : Heap) (editedAt : Ticket.t) (run : list handle) :
  all_created (λ c, negb (Ticket.After c editedAt)) hp →
  Forall (λ h, created_after hp editedAt h = true) run → run = [].
Proof.
  intros Hall Hrun. destruct run as [|x run]; [reflexivity|]. exfalso.
  apply Forall_inv in Hrun. unfold created_after in Hrun.
  destruct (hp !! x) as [y|] eqn:Ey; [|discriminate].
  specialize (Hall _ _ Ey). simpl in Hall. rewrite Hrun in Hall.
  discriminate.
Qed.

Lemma resolve_denotes_gen (s : RGATreeSplit.t) (pos : TextNodePos.t)
    (i : Z) (editedAt : Ticket.t) :
  wf s → ids_unique s → history_ok s →
  denotes s pos i →
  ∃ s1 node A run post,
    findTextNodeWithSplit s pos editedAt
      = Ok (s1, default node (last run), hd_or post None) ∧
    treeByIndex s1 = A ++ node :: run ++ post ∧
    Forall (λ h, created_after (heap s1) editedAt h = true) run ∧
    (∀ x, head post = Some x → created_after (heap s1) editedAt x = false) ∧
    len (live_text (heap s1) (A ++ [node])) = i ∧
    live_step s s1 node ∧ ends_at s1 pos node ∧
    (s1 = s ∨
     ∃ n k rest, heap s !! node = Some n ∧ 0 < k < TextNode.contentLen n ∧
       s1 = split_state s node n k ∧
       run ++ post = length (heap s) :: rest).
Proof.
  intros Hwf Hu Hh
    [[-> ->]|(h & n & la & lb & a & El & Hn & Hlive & Ha & Hr & ->)].
  - (* the sentinel *)
    destruct (ho_head _ Hh) as (hn & Hhn & Hid).
    assert (TextNodePos.getAbsoluteID (TextNodePos.mk initialTextNodeID 0)
            = TextNode.id hn) as Habs by (rewrite Hid; reflexivity).
    assert (findFloorTextNodePreferToLeft s
              (TextNodePos.getAbsoluteID (TextNodePos.mk initialTextNodeID 0))
            = Ok (initialHead s)) as Hfl.
    { rewrite Habs. unfold findFloorTextNodePreferToLeft.
      rewrite (lookup_by_id _ _ _ Hwf Hu Hhn).
      rewrite (getNode_lookup _ _ _ Hhn).
      cbn [mbind result_mbind result_bind]. rewrite Hid. reflexivity. }
    assert (splitTextNode s (initialHead s)
              (int_sub
                 (TextNodeID.offset
                    (TextNodePos.getAbsoluteID
                       (TextNodePos.mk initialTextNodeID 0)))
                 (TextNodeID.offset (TextNode.id hn)))
            = Ok (s, Some (initialHead s))) as Hsp.
    { rewrite Hid. apply (splitTextNode_zero _ _ _ Hhn). }
    destruct (findTextNodeWithSplit_returns _ _ _ editedAt _ _ _ Hwf Hfl Hhn
                Hsp) as (l1 & run & post & El & Hrun & Hpost & Hres).
    pose proof (wf_chain _ Hwf) as Hc.
    pose proof (chain_head _ _ Hc) as Hhd. rewrite El in Hhd.
    destruct l1 as [|x l1]; cycle 1.
    { exfalso. simpl in Hhd. injection Hhd as ->.
      pose proof (chain_nodup _ _ Hc) as Hnd. rewrite El in Hnd.
      simpl in Hnd. apply NoDup_cons in Hnd as [Hni _]. apply Hni.
      apply elem_of_app. right. apply elem_of_cons. auto. }
    exists s, (initialHead s), [], run, post.
    split; [exact Hres|]. split; [exact El|].
    split; [exact Hrun|]. split; [exact Hpost|].
    split; [|split; [left; reflexivity|split;
      [left; split; reflexivity|left; reflexivity]]].
    simpl. destruct (wf_head _ Hwf) as (hn' & Hhn' & Hv).
    unfold live_text. simpl. rewrite Hhn'.
    destruct (TextNode.deletedAt hn'); [reflexivity|].
    simpl. rewrite Hv. reflexivity.
  - (* a live node *)
    pose proof (wf_ins _ Hwf _ _ Hn) as [[Hr1 Hr2] _ _ _].
    pose proof (wf_chain _ Hwf) as Hc.
    pose proof (chain_nodup _ _ Hc) as Hnd. rewrite El in Hnd.
    assert (h ∉ la) as Hhla.
    { intros Hin. apply NoDup_app in Hnd as (_ & Hd & _).
      apply (Hd _ Hin). apply elem_of_cons. auto. }
    assert (findFloorTextNodePreferToLeft s (TextNodePos.getAbsoluteID pos)
            = Ok h) as Hfl.
    { rewrite Ha. apply resolve_inside; assumption. }
    assert (int_sub (TextNodeID.offset (TextNodePos.getAbsoluteID pos))
              (TextNodeID.offset (TextNode.id n)) = a - offset_of n) as Hrel.
    { rewrite Ha. simpl. unfold int_sub. apply wrap_id.
      unfold offset_of, int_min, int_max in *. lia. }
    destruct (decide (a - offset_of n = TextNode.contentLen n)) as [Efull|Hlt].
    + assert (splitTextNode s h
                (int_sub (TextNodeID.offset (TextNodePos.getAbsoluteID pos))
                   (TextNodeID.offset (TextNode.id n)))
              = Ok (s, TextNode.next n)) as Hsp.
      { rewrite Hrel, Efull. apply (splitTextNode_full _ _ _ Hn). lia. }
      destruct (findTextNodeWithSplit_returns _ _ _ editedAt _ _ _ Hwf Hfl Hn
                  Hsp) as (l1 & run & post & El1 & Hrun & Hpost & Hres).
      pose proof El1 as El1'. rewrite El in El1'.
      destruct (NoDup_split_unique _ _ _ _ _ Hnd El1') as [<- _].
      exists s, h, la, run, post. split; [exact Hres|]. split; [exact El1|].
      split; [exact Hrun|]. split; [exact Hpost|].
      split; [|split; [left; reflexivity|split; [|left; reflexivity]]].
      2:{ right. exists n. split; [exact Hn|]. split; [exact Hlive|].
          split; [lia|]. rewrite Ha. f_equal. lia. }
      rewrite live_text_app, len_append.
      rewrite (live_text_live _ _ _ Hn Hlive).
      unfold TextNode.contentLen in Efull. lia.
    + assert (0 < a - offset_of n < TextNode.contentLen n) as Hk by lia.
      assert (splitTextNode s h
                (int_sub (TextNodeID.offset (TextNodePos.getAbsoluteID pos))
                   (TextNodeID.offset (TextNode.id n)))
              = Ok (split_state s h n (a - offset_of n),
                    Some (length (heap s)))) as Hsp.
      { rewrite Hrel. apply (split_returns _ _ _ _ Hwf Hn Hk). }
      pose proof (split_wf _ _ _ _ Hwf Hn Hk) as Hwf1.
      destruct (findTextNodeWithSplit_returns _ _ _ editedAt _ _ _ Hwf Hfl Hn
                  Hsp) as (l1 & run & post & El1 & Hrun & Hpost & Hres).
      pose proof El1 as El1'. simpl in El1'.
      rewrite El, splay_InsertAfter_middle in El1' by exact Hhla.
      pose proof (chain_nodup _ _ (wf_chain _ Hwf1)) as Hnd1.
      simpl in Hnd1. rewrite El, splay_InsertAfter_middle in Hnd1
        by exact Hhla.
      destruct (NoDup_split_unique _ _ _ _ _ Hnd1 El1') as [<- Erp].
      exists (split_state s h n (a - offset_of n)), h, la, run, post.
      split; [exact Hres|]. split; [exact El1|].
      split; [exact Hrun|]. split; [exact Hpost|].
      split; [|split; [right; exists n, (a - offset_of n); auto|split;
        [|right; exists n, (a - offset_of n), lb; auto]]].
      2:{ right. exists (split_left n (a - offset_of n) (length (heap s))).
          destruct (split_right_facts _ _ _ _ Hwf Hn Hk) as (_ & _ & Hll & _).
          split; [apply (split_lookup_node _ _ _ _ Hwf Hn)|].
          split; [exact Hlive|]. rewrite Hll. split; [lia|].
          rewrite Ha. unfold offset_of, TextNode.createdAt, split_left.
          cbn [TextNode.id]. f_equal.
          unfold offset_of in *. lia. }
      rewrite live_text_app, len_append.
      rewrite (split_live_other s h n _ Hwf Hn); [|exact Hhla|].
      * assert (live_text (heap (split_state s h n (a - offset_of n))) [h]
                = TextNode.value
                    (split_left n (a - offset_of n) (length (heap s))))
          as ->.
        { apply live_text_live; [|exact Hlive].
          apply (split_lookup_node _ _ _ _ Hwf Hn). }
        destruct (split_right_facts _ _ _ _ Hwf Hn Hk) as (_ & _ & Hll & _).
        unfold TextNode.contentLen in Hll. rewrite Hll. reflexivity.
      * intros Hin. assert (length (heap s) ∈ treeByIndex s) as Hin'.
        { rewrite El. apply elem_of_app. auto. }
        apply (chain_elem _ _ _ Hc) in Hin'. lia.
Qed.

Lemma resolve_denotes (s : RGATreeSplit.t) (pos : TextNodePos.t) (i : Z)
    (editedAt : Ticket.t) :
  wf s → ids_unique s → history_ok s →
  all_created (λ c, negb (Ticket.After c editedAt)) (heap s) →
  denotes s pos i →
  ∃ s1 left A B,
    findTextNodeWithSplit s pos editedAt = Ok (s1, left, hd_or B None) ∧
    treeByIndex s1 = A ++ left :: B ∧
    len (live_text (heap s1) (A ++ [left])) = i ∧
    live_step s s1 left ∧ ends_at s1 pos left.
Proof.
  intros Hwf Hu Hh Hnew Hden.
  destruct (resolve_denotes_gen s pos i editedAt Hwf Hu Hh Hden)
    as (s1 & node & A & run & post & Hres & El & Hrun & _ & Hlen & Hstep
        & Hend & _).
  destruct (live_step_keeps _ _ _ _ Hstep Hwf Hu Hh Hnew)
    as (_ & _ & _ & Hnew1 & _).
  rewrite (no_run _ _ _ Hnew1 Hrun) in *. simpl in *.
  exists s1, node, A, post. auto.
Qed.

Lemma live_step_keeps_boundary (s1 s2 : RGATreeSplit.t) (left x : handle)
    (A B : list handle) :
  wf s1 → live_step s1 s2 left → left ≠ x →
  treeByIndex s1 = A ++ x :: B →
  ∃ A' B', treeByIndex s2 = A' ++ x :: B' ∧
    live_text (heap s2) (A' ++ [x]) = live_text (heap s1) (A ++ [x]) ∧
    hd_or B' None = hd_or B None.
Proof.
  intros Hwf [->|(n & k & Hn & Hl & Hk & ->)] Hne El.
  { exists A, B. auto. }
  pose proof (wf_chain _ Hwf) as Hc.
  pose proof (chain_nodup _ _ Hc) as Hnd. rewrite El in Hnd.
  assert (∀ y, y ∈ A ++ x :: B → y ≠ length (heap s1)) as Hfresh.
  { intros y Hy ->. rewrite <- El in Hy. apply (chain_elem _ _ _ Hc) in Hy.
    lia. }
  assert (length (heap s1) ∉ A) as HfA.
  { intros Hx. apply (Hfresh (length (heap s1))); [|reflexivity].
    apply elem_of_app. auto. }
  assert (length (heap s1) ≠ x) as Hfx.
  { intros E. apply (Hfresh x); [|auto].
    apply elem_of_app. right. apply elem_of_cons. auto. }
  apply NoDup_app in Hnd as (HndA & _ & _).
  destruct (decide (left ∈ A)) as [Hin|Hni].
  - exists (splay.InsertAfter left (length (heap s1)) A), B.
    split; [simpl; rewrite El; apply InsertAfter_app_in, Hin|].
    split; [|reflexivity].
    rewrite !live_text_app.
    rewrite (split_live_inserted s1 left n k Hwf Hn Hl) by auto.
    rewrite (split_live_other s1 left n k Hwf Hn); [reflexivity| |].
    + intros Hx. apply list_elem_of_singleton in Hx. auto.
    + intros Hx. apply list_elem_of_singleton in Hx. auto.
  - exists A, (splay.InsertAfter left (length (heap s1)) B).
    split.
    { simpl. rewrite El, InsertAfter_app_notin by exact Hni. simpl.
      rewrite decide_False by auto. reflexivity. }
    split; [|apply hd_or_InsertAfter].
    apply (split_live_other s1 left n k Hwf Hn).
    + intros Hx. apply elem_of_app in Hx as [Hx|Hx]; [auto|].
      apply list_elem_of_singleton in Hx. auto.
    + intros Hx. apply elem_of_app in Hx as [Hx|Hx]; [auto|].
      apply list_elem_of_singleton in Hx. auto.
Qed.

Lemma two_boundaries (hp : Heap) (A B C D : list handle) (x y : handle) :
  NoDup (A ++ x :: B) → A ++ x :: B = C ++ y :: D →
  len (live_text hp (A ++ [x])) < len (live_text hp (C ++ [y])) →
  ∃ M, B = M ++ y :: D ∧ C = A ++ x :: M.
Proof.
  intros Hnd E Hlt.
  assert (y ∈ A ++ x :: B) as Hy.
  { rewrite E. apply elem_of_app. right. apply elem_of_cons. auto. }
  apply elem_of_app in Hy as [Hy|Hy].
  - exfalso. apply list_elem_of_split in Hy as (A1 & A2 & ->).
    rewrite <- app_assoc in E, Hnd. simpl in E, Hnd.
    destruct (NoDup_split_unique _ _ _ _ _ Hnd E) as [<- <-].
    rewrite <- app_assoc in Hlt. simpl in Hlt.
    replace (A1 ++ y :: A2 ++ [x]) with ((A1 ++ [y]) ++ A2 ++ [x]) in Hlt
      by (rewrite <- app_assoc; reflexivity).
    rewrite (live_text_app hp (A1 ++ [y])), len_append in Hlt.
    pose proof (len_nonneg (live_text hp (A2 ++ [x]))). lia.
  - apply elem_of_cons in Hy as [->|Hy].
    + exfalso. destruct (NoDup_split_unique _ _ _ _ _ Hnd E) as [<- <-]. lia.
    + apply list_elem_of_split in Hy as (M & B2 & ->).
      replace (A ++ x :: M ++ y :: B2) with ((A ++ x :: M) ++ y :: B2) in E, Hnd
        by (rewrite <- app_assoc; reflexivity).
      destruct (NoDup_split_unique _ _ _ _ _ Hnd E) as [<- <-].
      exists M. auto.
Qed.

Lemma span_unique (P M D cands rest : list handle) (y : handle) :
  NoDup (P ++ M ++ y :: D) →
  cands ++ rest = M ++ y :: D →
  (∀ h, h ∈ cands → Some h ≠ hd_or D None) →
  (rest = [] ∨ (rest ≠ [] ∧ hd_or rest None = hd_or D None)) →
  cands = M ++ [y] ∧ rest = D.
Proof.
  intros Hnd E Hc Hr. apply NoDup_app in Hnd as (_ & _ & Hnd).
  destruct D as [|d D]; simpl in *.
  - destruct Hr as [->|[Hne Hhd]].
    + rewrite app_nil_r in E. auto.
    + destruct rest; [contradiction|discriminate].
  - assert (d ∈ cands ++ rest) as Hd.
    { rewrite E. apply elem_of_app. right. rewrite !elem_of_cons. auto. }
    apply elem_of_app in Hd as [Hd|Hd].
    { exfalso. apply (Hc _ Hd). reflexivity. }
    destruct Hr as [->|[Hne Hhd]]; [inversion Hd|].
    destruct rest as [|r rest]; [contradiction|]. simpl in Hhd.
    injection Hhd as ->.
    replace (M ++ y :: d :: D) with ((M ++ [y]) ++ d :: D) in E, Hnd
      by (rewrite <- app_assoc; reflexivity).
    destruct (NoDup_split_unique _ _ _ _ _ Hnd (eq_sym E)) as [<- <-]. auto.
Qed.

Lemma slice_to_app (x r : string) :
  slice_to (String.length x) (x +:+ r) = x.
Proof.
  induction x as [|c x IH].
  - reflexivity.
  - rewrite append_cons. cbn [String.length slice_to]. rewrite IH.
    reflexivity.
Qed.

Lemma slice_from_app (x r : string) :
  slice_from (String.length x) (x +:+ r) = r.
Proof.
  induction x as [|c x IH].
  - apply append_nil.
  - rewrite append_cons. cbn [String.length slice_from]. exact IH.
Qed.

Lemma slice_to_len (x r : string) : slice_to (Z.to_nat (len x)) (x +:+ r) = x.
Proof. unfold len. rewrite Nat2Z.id. apply slice_to_app. Qed.

Lemma slice_from_len (x r : string) :
  slice_from (Z.to_nat (len x)) (x +:+ r) = r.
Proof. unfold len. rewrite Nat2Z.id. apply slice_from_app. Qed.

(** *** The deletion of a span *)

Lemma tombstone_dead (m : option (gmap string Ticket.t)) (editedAt : Ticket.t)
    (n : TextNode.t) :
  Ticket.After (TextNode.createdAt n)
    (maxCreatedAtFor m (Ticket.ActorIDHex (TextNode.createdAt n))) = false →
  is_Some (TextNode.deletedAt (tombstone m editedAt n)).
Proof.
  intros Hc. unfold tombstone, deletable. rewrite Hc. simpl.
  destruct (TextNode.deletedAt n) as [d|] eqn:Ed; simpl.
  - destruct (Ticket.After editedAt d); simpl; [eauto|]. rewrite Ed. eauto.
  - eauto.
Qed.

Lemma deleted_span (hp hp3 : Heap) (m : option (gmap string Ticket.t))
    (editedAt : Ticket.t) (cands : list handle) :
  all_created
    (λ c, negb (Ticket.After c (maxCreatedAtFor m (Ticket.ActorIDHex c))))
    hp →
  (∀ j, hp3 !! j =
        if decide (j ∈ cands) then tombstone m editedAt <$> hp !! j
        else hp !! j) →
  live_text hp3 cands = EmptyString ∧
  ∀ l, (∀ h, h ∈ l → h ∉ cands) → live_text hp3 l = live_text hp l.
Proof.
  intros Hcov Hlk. split.
  - unfold live_text.
    assert (∀ l, (∀ h, h ∈ l → h ∈ cands) → live_values hp3 l = []) as H.
    { induction l as [|h l IH]; intros Hsub; [reflexivity|]. simpl.
      rewrite Hlk. rewrite decide_True
        by (apply Hsub; apply elem_of_cons; auto).
      assert (live_values hp3 l = []) as ->.
      { apply IH. intros x Hx. apply Hsub. apply elem_of_cons. auto. }
      destruct (hp !! h) as [y|] eqn:Ey; simpl; [|reflexivity].
      specialize (Hcov _ _ Ey). simpl in Hcov.
      apply negb_true_iff in Hcov.
      destruct (tombstone_dead m editedAt y Hcov) as [d ->]. reflexivity. }
    rewrite H; [reflexivity|auto].
  - intros l Hl. apply live_text_ext. intros h Hin. rewrite Hlk.
    rewrite decide_False by (apply Hl, Hin). reflexivity.
Qed.

(** *** The edit, step by step *)

Lemma edit_unfold (s s1 s2 s3 : RGATreeSplit.t) (from to : TextNodePos.t)
    (m : option (gmap string Ticket.t)) (content : string)
    (editedAt : Ticket.t) (fl tl : handle) (fr tr : option handle)
    (cands : list handle) (dm : gmap string Ticket.t) (cn : TextNode.t) :
  findTextNodeWithSplit s from editedAt = Ok (s1, fl, fr) →
  findTextNodeWithSplit s1 to editedAt = Ok (s2, tl, tr) →
  findBetween s2 fr tr = Ok cands →
  deleteNodes s2 cands m editedAt = Ok (s3, dm) →
  heap s3 !! default tl tr = Some cn →
  edit s from to m content editedAt =
    if negb (String.eqb content EmptyString) then
      s4 ← InsertAfter
             (with_heap s3
                (heap s3 ++
                 [TextNode.newTextNode (TextNodeID.NewTextNodeID editedAt 0)
                    content]))
             fl (length (heap s3));
      n ← getNode (heap s4) (length (heap s3));
      Ok (s4, TextNodePos.NewTextNodePos (TextNode.id n)
                (TextNode.contentLen n), dm)
    else Ok (s3, TextNodePos.NewTextNodePos (TextNode.id cn) 0, dm).
Proof.
  intros H1 H2 H3 H4 H5. unfold edit.
  rewrite H1. cbn [mbind result_mbind result_bind].
  rewrite H2. cbn [mbind result_mbind result_bind].
  rewrite H3. cbn [mbind result_mbind result_bind].
  rewrite H4. cbn [mbind result_mbind result_bind].
  destruct tr as [r|]; simpl in H5;
    rewrite (getNode_lookup _ _ _ H5);
    cbn [mbind result_mbind result_bind]; reflexivity.
Qed.

Lemma edit_finish (s3 : RGATreeSplit.t) (A R : list handle) (fl : handle)
    (content : string) (editedAt : Ticket.t) (cn : TextNode.t)
    (dm : gmap string Ticket.t) :
  wf s3 → treeByIndex s3 = A ++ fl :: R → len content ≤ int_max →
  ∃ s' caret,
    (if negb (String.eqb content EmptyString) then
       s4 ← InsertAfter
              (with_heap s3
                 (heap s3 ++
                  [TextNode.newTextNode (TextNodeID.NewTextNodeID editedAt 0)
                     content]))
              fl (length (heap s3));
       n ← getNode (heap s4) (length (heap s3));
       Ok (s4, TextNodePos.NewTextNodePos (TextNode.id n)
                 (TextNode.contentLen n), dm)
     else Ok (s3, TextNodePos.NewTextNodePos (TextNode.id cn) 0, dm))
    = Ok (s', caret, dm) ∧
    wf s' ∧
    (content ≠ EmptyString →
     caret = TextNodePos.mk (TextNodeID.mk editedAt 0) (len content)) ∧
    live_text (heap s') (treeByIndex s') =
      live_text (heap s3) (A ++ [fl]) +:+ content +:+ live_text (heap s3) R.
Proof.
  intros Hwf El Hlen.
  pose proof (wf_chain _ Hwf) as Hc.
  destruct (String.eqb content EmptyString) eqn:Eb; cbn [negb].
  - apply String.eqb_eq in Eb. subst content.
    eexists _, _. split; [reflexivity|]. split; [exact Hwf|].
    split; [intros Hne; contradiction|].
    rewrite append_nil, El.
    replace (A ++ fl :: R) with ((A ++ [fl]) ++ R)
      by (rewrite <- app_assoc; reflexivity).
    apply live_text_app.
  - assert (content ≠ EmptyString) as Hne.
    { intros ->. rewrite String.eqb_refl in Eb. discriminate. }
    assert (fl ∈ treeByIndex s3) as Hin.
    { rewrite El. apply elem_of_app. right. apply elem_of_cons. auto. }
    destruct (chain_valid _ _ _ Hc Hin) as [p Hp].
    rewrite (insert_returns _ _ _ editedAt content Hwf Hp).
    cbn [mbind result_mbind result_bind]. cbn [heap].
    rewrite (getNode_lookup _ _ _
               (insert_lookup_new _ _ _ editedAt content Hwf Hp)).
    cbn [mbind result_mbind result_bind].
    eexists _, _. split; [reflexivity|].
    split; [apply insert_wf; assumption|].
    split; [intros _; reflexivity|].
    cbn [heap treeByIndex].
    pose proof (chain_nodup _ _ Hc) as Hnd. rewrite El in Hnd.
    assert (fl ∉ A) as HflA.
    { intros Hx. apply NoDup_app in Hnd as (_ & Hd & _).
      apply (Hd _ Hx). apply elem_of_cons. auto. }
    rewrite El, splay_InsertAfter_middle by exact HflA.
    replace (A ++ fl :: length (heap s3) :: R)
      with ((A ++ [fl]) ++ [length (heap s3)] ++ R)
      by (rewrite <- app_assoc; reflexivity).
    rewrite (live_text_app _ (A ++ [fl])).
    rewrite (live_text_app _ [length (heap s3)] R).
    assert (∀ l, (∀ h, h ∈ l → h ∈ treeByIndex s3) →
              live_text
                (insert_final (heap s3) fl p
                   (TextNodeID.NewTextNodeID editedAt 0) content) l
              = live_text (heap s3) l) as Hold.
    { intros l Hl. apply live_text_ext. intros h Hh.
      destruct (chain_valid _ _ _ Hc (Hl _ Hh)) as [y Hy].
      destruct (insert_lookup_old _ _ _ editedAt content Hwf Hp _ _ Hy)
        as (y' & Hy' & Hpl & _).
      rewrite Hy', Hy. simpl. rewrite Hpl. reflexivity. }
    rewrite (Hold (A ++ [fl])), (Hold R).
    + rewrite (live_text_live _ _ _
                 (insert_lookup_new _ _ _ editedAt content Hwf Hp));
        reflexivity.
    + intros h Hh. rewrite El. apply elem_of_app. right.
      apply elem_of_cons. auto.
    + intros h Hh. rewrite El.
      replace (A ++ fl :: R) with ((A ++ [fl]) ++ R)
        by (rewrite <- app_assoc; reflexivity).
      apply elem_of_app. auto.
Qed.

(** The caret of an insertion names the boundary behind the content. *)
Lemma edit_finish_caret (s3 s' : RGATreeSplit.t) (A R : list handle)
    (fl : handle) (content : string) (editedAt : Ticket.t) (cn : TextNode.t)
    (dm : gmap string Ticket.t) (caret : TextNodePos.t) :
  wf s3 → treeByIndex s3 = A ++ fl :: R → len content ≤ int_max →
  content ≠ EmptyString →
  (if negb (String.eqb content EmptyString) then
     s4 ← InsertAfter
            (with_heap s3
               (heap s3 ++
                [TextNode.newTextNode (TextNodeID.NewTextNodeID editedAt 0)
                   content]))
            fl (length (heap s3));
     n ← getNode (heap s4) (length (heap s3));
     Ok (s4, TextNodePos.NewTextNodePos (TextNode.id n)
               (TextNode.contentLen n), dm)
   else Ok (s3, TextNodePos.NewTextNodePos (TextNode.id cn) 0, dm))
  = Ok (s', caret, dm) →
  denotes s' caret (len (live_text (heap s3) (A ++ [fl])) + len content).
Proof.
  intros Hwf El Hlen Hne He.
  pose proof (wf_chain _ Hwf) as Hc.
  destruct (String.eqb content EmptyString) eqn:Eb; cbn [negb] in He.
  { apply String.eqb_eq in Eb. contradiction. }
  assert (fl ∈ treeByIndex s3) as Hin.
  { rewrite El. apply elem_of_app. right. apply elem_of_cons. auto. }
  destruct (chain_valid _ _ _ Hc Hin) as [p Hp].
  rewrite (insert_returns _ _ _ editedAt content Hwf Hp) in He.
  cbn [mbind result_mbind result_bind] in He. cbn [heap] in He.
  rewrite (getNode_lookup _ _ _
             (insert_lookup_new _ _ _ editedAt content Hwf Hp)) in He.
  cbn [mbind result_mbind result_bind] in He.
  injection He as <- <-.
  pose proof (chain_nodup _ _ Hc) as Hnd. rewrite El in Hnd.
  assert (fl ∉ A) as HflA.
  { intros Hx. apply NoDup_app in Hnd as (_ & Hd & _).
    apply (Hd _ Hx). apply elem_of_cons. auto. }
  pose proof (len_pos _ Hne) as Hpos.
  right.
  exists (length (heap s3)),
    (insert_new (TextNodeID.NewTextNodeID editedAt 0) content fl p),
    (A ++ [fl]), R, (len content).
  split; [|split; [|split; [|split; [|split]]]].
  - cbn [treeByIndex]. rewrite El, splay_InsertAfter_middle by exact HflA.
    rewrite <- app_assoc. reflexivity.
  - apply (insert_lookup_new _ _ _ editedAt content Hwf Hp).
  - reflexivity.
  - unfold TextNodePos.getAbsoluteID, TextNodePos.NewTextNodePos,
      TextNodeID.NewTextNodeID, TextNode.contentLen, TextNode.createdAt,
      insert_new, int_add.
    cbn. rewrite wrap_id; [reflexivity|].
    unfold int_min, int_max in *. lia.
  - unfold offset_of, TextNode.contentLen, insert_new. cbn. lia.
  - unfold offset_of, insert_new. cbn [heap TextNode.id TextNodeID.offset
      TextNodeID.NewTextNodeID].
    assert (live_text
              (insert_final (heap s3) fl p
                 (TextNodeID.NewTextNodeID editedAt 0) content) (A ++ [fl])
            = live_text (heap s3) (A ++ [fl])) as ->; [|lia].
    apply live_text_ext. intros h Hh.
    assert (h ∈ treeByIndex s3) as Hh3.
    { rewrite El.
      replace (A ++ fl :: R) with ((A ++ [fl]) ++ R)
        by (rewrite <- app_assoc; reflexivity).
      apply elem_of_app. auto. }
    destruct (chain_valid _ _ _ Hc Hh3) as [y Hy].
    destruct (insert_lookup_old _ _ _ editedAt content Hwf Hp _ _ Hy)
      as (y' & Hy' & Hpl & _).
    rewrite Hy', Hy. simpl. rewrite Hpl. reflexivity.
Qed.

Lemma local_edit (s : RGATreeSplit.t) (from to : TextNodePos.t) (i j : Z)
    (m : option (gmap string Ticket.t)) (content : string)
    (editedAt : Ticket.t) :
  wf s → ids_unique s → history_ok s →
  all_created (λ c, negb (Ticket.After c editedAt)) (heap s) →
  all_created
    (λ c, negb (Ticket.After c (maxCreatedAtFor m (Ticket.ActorIDHex c))))
    (heap s) →
  len content ≤ int_max →
  denotes s from i → denotes s to j →
  i < j ∨ (i = j ∧ to = from) →
  ∃ s' caret dm X Y Z,
    edit s from to m content editedAt = Ok (s', caret, dm) ∧
    wf s' ∧
    (content ≠ EmptyString →
     caret = TextNodePos.mk (TextNodeID.mk editedAt 0) (len content)) ∧
    live_text (heap s) (treeByIndex s) = X +:+ Y +:+ Z ∧
    len X = i ∧ len Y = j - i ∧
    live_text (heap s') (treeByIndex s') = X +:+ content +:+ Z ∧
    (content ≠ EmptyString → denotes s' caret (i + len content)).
Proof.
  intros Hwf Hu Hh Hnew Hcov Hlen Hfrom Hto Hij.
  destruct (resolve_denotes _ _ _ _ Hwf Hu Hh Hnew Hfrom)
    as (s1 & fl & A & B & Hres1 & El1 & Hlen1 & Hstep1 & _).
  destruct (live_step_keeps _ _ _ _ Hstep1 Hwf Hu Hh Hnew)
    as (Hwf1 & Hu1 & Hh1 & Hnew1 & Htext1 & Hden1).
  destruct (live_step_keeps _ _ _ _ Hstep1 Hwf Hu Hh Hcov)
    as (_ & _ & _ & Hcov1 & _ & _).
  pose proof (wf_chain _ Hwf1) as Hc1.
  pose proof (chain_nodup _ _ Hc1) as Hnd1. rewrite El1 in Hnd1.
  assert (fl ∉ A) as HflA.
  { intros Hx. apply NoDup_app in Hnd1 as (_ & Hd & _).
    apply (Hd _ Hx). apply elem_of_cons. auto. }
  destruct Hij as [Hlt|[-> ->]].
  - (* a proper range *)
    specialize (Hden1 _ _ Hto).
    destruct (resolve_denotes _ _ _ _ Hwf1 Hu1 Hh1 Hnew1 Hden1)
      as (s2 & tl & C & D & Hres2 & El2 & Hlen2 & Hstep2 & _).
    destruct (live_step_keeps _ _ _ _ Hstep2 Hwf1 Hu1 Hh1 Hcov1)
      as (Hwf2 & _ & _ & Hcov2 & Htext2 & _).
    pose proof (wf_chain _ Hwf2) as Hc2.
    pose proof (chain_nodup _ _ Hc2) as Hnd2.
    assert (tl ≠ fl) as Hne.
    { intros ->. destruct Hstep2 as [->|(n & k & Hn & Hl & Hk & ->)].
      - rewrite El1 in El2.
        destruct (NoDup_split_unique _ _ _ _ _ Hnd1 El2) as [<- <-]. lia.
      - simpl in El2, Hnd2.
        rewrite El1, splay_InsertAfter_middle in El2, Hnd2 by exact HflA.
        destruct (NoDup_split_unique _ _ _ _ _ Hnd2 El2) as [<- <-].
        rewrite live_text_app, len_append in Hlen1, Hlen2.
        rewrite (split_live_other s1 fl n k Hwf1 Hn) in Hlen2;
          [|exact HflA|].
        + assert (live_text (heap (split_state s1 fl n k)) [fl]
                  = TextNode.value (split_left n k (length (heap s1)))) as E.
          { apply live_text_live; [|exact Hl].
            apply (split_lookup_node _ _ _ _ Hwf1 Hn). }
          rewrite E in Hlen2.
          rewrite (live_text_live _ _ _ Hn Hl) in Hlen1.
          destruct (split_right_facts _ _ _ _ Hwf1 Hn Hk) as (_ & _ & Hll & _).
          unfold TextNode.contentLen in *. lia.
        + intros Hx.
          assert (length (heap s1) ∈ treeByIndex s1) as Hx'
            by (rewrite El1; apply elem_of_app; auto).
          apply (chain_elem _ _ _ Hc1) in Hx'. lia. }
    destruct (live_step_keeps_boundary _ _ _ _ _ _ Hwf1 Hstep2 Hne El1)
      as (A' & B' & El2' & HtextA & HhdB).
    assert (A' ++ fl :: B' = C ++ tl :: D) as E
      by (rewrite <- El2', El2; reflexivity).
    rewrite El2' in Hnd2.
    destruct (two_boundaries (heap s2) _ _ _ _ _ _ Hnd2 E) as (M & -> & ->).
    { rewrite HtextA. lia. }
    clear E El2.
    (* the candidates *)
    assert (∀ h, hd_or B None = Some h → (h < length (heap s2))%nat) as Hval.
    { intros h Hhd. rewrite <- HhdB in Hhd.
      apply (chain_elem _ _ _ Hc2). rewrite El2'.
      apply hd_or_Some in Hhd as (t & Et). rewrite Et.
      apply elem_of_app. right. rewrite !elem_of_cons. auto. }
    destruct (findBetween_spec s2 (hd_or B None) (hd_or D None) Hwf2 Hval)
      as (cands & l1 & rest & Hfb & Hspan & Hhd & Hcn & Hend).
    assert (cands ++ rest = M ++ tl :: D) as Ecr.
    { rewrite <- HhdB in Hhd.
      destruct (M ++ tl :: D) as [|z t] eqn:EM; [destruct M; discriminate|].
      simpl in Hhd. apply hd_or_Some in Hhd as (t' & Et').
      rewrite Et' in Hspan. rewrite El2' in Hspan.
      replace (A' ++ fl :: z :: t) with ((A' ++ [fl]) ++ z :: t) in Hspan, Hnd2
        by (rewrite <- app_assoc; reflexivity).
      destruct (NoDup_split_unique _ _ _ _ _ Hnd2 Hspan) as [_ ->].
      exact Et'. }
    replace (A' ++ fl :: M ++ tl :: D) with ((A' ++ [fl]) ++ M ++ tl :: D)
      in Hnd2 by (rewrite <- app_assoc; reflexivity).
    destruct (span_unique _ _ _ _ _ _ Hnd2 Ecr Hcn Hend) as [-> ->].
    destruct (findBetween_candidates _ _ _ _ Hwf2 Hspan) as [Hndc Hvalc].
    (* the deletion *)
    destruct (deleteNodes_loop_spec m editedAt (M ++ [tl]) s2 ∅ Hndc Hvalc)
      as (s3 & Hrun & Hhd3 & Hix3 & Hid3 & Hl3 & Hlk3).
    assert (deleteNodes s2 (M ++ [tl]) m editedAt
            = Ok (s3, foldl record_max ∅
                        (tombstoned_tickets (heap s2) m editedAt (M ++ [tl]))))
      as Hdel by exact Hrun.
    pose proof (wf_deleteNodes _ _ _ _ _ _ Hwf2 Hndc Hvalc Hdel) as Hwf3.
    destruct (deleted_span _ _ _ _ _ Hcov2 Hlk3) as [Hdead Hkeep].
    assert (treeByIndex s3 = A' ++ fl :: M ++ tl :: D) as El3
      by (rewrite Hix3; exact El2').
    assert (∃ cn, heap s3 !! default tl (hd_or D None) = Some cn) as [cn Hcnode].
    { apply (chain_valid _ _ _ (wf_chain _ Hwf3)). rewrite El3.
      apply elem_of_app. right. apply elem_of_cons. right.
      apply elem_of_app. right.
      destruct D as [|d D]; simpl; rewrite !elem_of_cons; auto. }
    rewrite (edit_unfold _ _ _ _ _ _ _ content _ _ _ _ _ _ _ _
               Hres1 Hres2 Hfb Hdel Hcnode).
    destruct (edit_finish s3 A' (M ++ tl :: D) fl content editedAt cn
                (foldl record_max ∅
                   (tombstoned_tickets (heap s2) m editedAt (M ++ [tl])))
                Hwf3 El3 Hlen)
      as (s' & caret & He & Hwf' & Hcar & Htext).
    exists s', caret,
      (foldl record_max ∅
         (tombstoned_tickets (heap s2) m editedAt (M ++ [tl]))),
      (live_text (heap s2) (A' ++ [fl])),
      (live_text (heap s2) (M ++ [tl])), (live_text (heap s2) D).
    split; [exact He|]. split; [exact Hwf'|]. split; [exact Hcar|].
    apply NoDup_app in Hnd2 as (_ & Hdis & Hnd2').
    replace (M ++ tl :: D) with ((M ++ [tl]) ++ D) in Hnd2', Hdis, Htext
      by (rewrite <- app_assoc; reflexivity).
    apply NoDup_app in Hnd2' as (_ & Hdis' & _).
    split; [|split; [|split; [|split]]].
    + rewrite <- Htext1, <- Htext2, El2'.
      replace (A' ++ fl :: M ++ tl :: D)
        with ((A' ++ [fl]) ++ (M ++ [tl]) ++ D)
        by (rewrite <- !app_assoc; reflexivity).
      rewrite !live_text_app. reflexivity.
    + rewrite HtextA. exact Hlen1.
    + replace ((A' ++ fl :: M) ++ [tl]) with ((A' ++ [fl]) ++ M ++ [tl])
        in Hlen2 by (rewrite <- !app_assoc; reflexivity).
      rewrite (live_text_app _ (A' ++ [fl])), len_append in Hlen2.
      rewrite HtextA, Hlen1 in Hlen2. lia.
    + rewrite Htext. rewrite (live_text_app _ (M ++ [tl]) D).
      rewrite Hdead, append_nil.
      rewrite (Hkeep (A' ++ [fl])), (Hkeep D); [reflexivity| |].
      * intros h Hin Hc. apply (Hdis' _ Hc Hin).
      * intros h Hin Hc. apply (Hdis _ Hin). apply elem_of_app. auto.
    + intros Hne0.
      pose proof (edit_finish_caret _ _ _ _ _ _ _ _ _ _ Hwf3 El3 Hlen Hne0 He)
        as Hden.
      rewrite (Hkeep (A' ++ [fl])), HtextA, Hlen1 in Hden; [exact Hden|].
      intros h Hin Hc. apply (Hdis _ Hin). apply elem_of_app. auto.
  - (* an empty range *)
    pose proof (findTextNodeWithSplit_again _ _ _ _ _ _ Hwf Hres1) as Hres2.
    pose proof (findBetween_same s1 (hd_or B None)) as Hfb.
    assert (deleteNodes s1 [] m editedAt = Ok (s1, ∅)) as Hdel by reflexivity.
    assert (∃ cn, heap s1 !! default fl (hd_or B None) = Some cn) as [cn Hcnode].
    { apply (chain_valid _ _ _ Hc1). rewrite El1.
      apply elem_of_app. right.
      destruct B as [|b B]; simpl; rewrite !elem_of_cons; auto. }
    rewrite (edit_unfold _ _ _ _ _ _ _ content _ _ _ _ _ _ _ _
               Hres1 Hres2 Hfb Hdel Hcnode).
    destruct (edit_finish s1 A B fl content editedAt cn ∅ Hwf1 El1 Hlen)
      as (s' & caret & He & Hwf' & Hcar & Htext).
    exists s', caret, ∅, (live_text (heap s1) (A ++ [fl])), EmptyString,
      (live_text (heap s1) B).
    split; [exact He|]. split; [exact Hwf'|]. split; [exact Hcar|].
    split; [|split; [exact Hlen1|split; [unfold len; simpl; lia|split;
      [exact Htext|]]]].
    2:{ intros Hne0.
        pose proof (edit_finish_caret _ _ _ _ _ _ _ _ _ _ Hwf1 El1 Hlen Hne0
                      He) as Hden.
        rewrite Hlen1 in Hden. exact Hden. }
    rewrite <- Htext1, El1, append_nil.
    replace (A ++ fl :: B) with ((A ++ [fl]) ++ B)
      by (rewrite <- app_assoc; reflexivity).
    apply live_text_app.
Qed.

Lemma findBoundary_denotes (s : RGATreeSplit.t) (i j : Z) :
  wf s → history_ok s → 0 ≤ i ≤ j → j ≤ visible_total s →
  ∃ from to,
    findBoundary s i j = Ok (from, to) ∧
    denotes s from i ∧ denotes s to j ∧
    (i < j ∨ (i = j ∧ to = from)).
Proof.
  intros Hwf Hh Hij Hj.
  destruct (findTextNodePos_range s i Hwf) as [Hi _].
  destruct (Hi ltac:(lia)) as [from Hfrom].
  destruct (findTextNodePos_range s j Hwf) as [Hj' _].
  destruct (Hj' ltac:(lia)) as [to Hto].
  unfold findBoundary. rewrite Hfrom. cbn [mbind result_mbind result_bind].
  destruct (i =? j) eqn:E.
  - apply Z.eqb_eq in E. subst j. exists from, from.
    split; [reflexivity|].
    pose proof (findTextNodePos_denotes _ _ _ Hwf Hh Hfrom). auto.
  - apply Z.eqb_neq in E. rewrite Hto. cbn [mbind result_mbind result_bind].
    exists from, to. split; [reflexivity|].
    split; [apply (findTextNodePos_denotes _ _ _ Hwf Hh Hfrom)|].
    split; [apply (findTextNodePos_denotes _ _ _ Hwf Hh Hto)|].
    left. lia.
Qed.

(** X10: an edit made at the latest ticket replaces the range it names.
    In a state reached without reusing tickets, for indices
    [0 ≤ i ≤ j ≤ total], an edit at the positions [findBoundary(i, j)],
    with a ticket no node was created after and a map (or nil) whose bounds
    admit every node, returns; afterwards [marshal] is the text before index
    [i], the content, and the text from index [j] on; the caret of a
    non-empty content is [((editedAt, 0), len(content))]. *)
Theorem X10_local_edit_splices (s : RGATreeSplit.t) (i j : Z)
    (m : option (gmap string Ticket.t)) (content : string)
    (editedAt : Ticket.t) (str : string) :
  reachable_fresh s → len content ≤ int_max →
  newest (heap s) editedAt = true → covered (heap s) m = true →
  0 ≤ i ≤ j → j ≤ visible_total s → marshal s = Ok str →
  ∃ from to s' caret dm,
    findBoundary s i j = Ok (from, to) ∧
    edit s from to m content editedAt = Ok (s', caret, dm) ∧
    marshal s' =
      Ok (slice_to (Z.to_nat i) str +:+ content +:+
          slice_from (Z.to_nat j) str) ∧
    (content ≠ EmptyString →
     caret = TextNodePos.mk (TextNodeID.mk editedAt 0) (len content)) ∧
    ∀ c, Text.FindBoundary (Text.NewText s c) i j = Ok (from, to) ∧
         Text.Edit (Text.NewText s c) from to m content editedAt
           = Ok (Text.NewText s' c, caret, dm).
Proof.
  intros Hr Hlen Hnew Hcov Hij Hj Hm.
  pose proof (reachable_fresh_reachable _ Hr) as Hre.
  pose proof (reachable_wf _ Hre) as Hwf.
  pose proof (reachable_fresh_ids _ Hr) as Hu.
  pose proof (reachable_history _ Hre) as Hh.
  apply (all_created_spec (λ c, negb (Ticket.After c editedAt))) in Hnew.
  apply (all_created_spec
           (λ c, negb (Ticket.After c
                         (maxCreatedAtFor m (Ticket.ActorIDHex c))))) in Hcov.
  destruct (findBoundary_denotes s i j Hwf Hh Hij Hj)
    as (from & to & Hfb & Hdf & Hdt & Hcase).
  destruct (local_edit s from to i j m content editedAt Hwf Hu Hh Hnew Hcov
              Hlen Hdf Hdt Hcase)
    as (s' & caret & dm & X & Y & Z & He & Hwf' & Hcar & Htext & HX & HY
        & Htext' & _).
  exists from, to, s', caret, dm.
  split; [exact Hfb|]. split; [exact He|].
  rewrite (marshal_chain s _ (wf_chain _ Hwf) (wf_head _ Hwf)) in Hm.
  injection Hm as <-.
  change (concat_strings (live_values (heap s) (treeByIndex s)))
    with (live_text (heap s) (treeByIndex s)).
  split; [|split; [exact Hcar|]].
  - rewrite (marshal_chain s' _ (wf_chain _ Hwf') (wf_head _ Hwf')).
    change (concat_strings (live_values (heap s') (treeByIndex s')))
      with (live_text (heap s') (treeByIndex s')).
    rewrite Htext', Htext. f_equal.
    rewrite <- HX at 1. rewrite slice_to_len.
    rewrite <- (app_assoc_s X Y Z).
    assert (j = len (X +:+ Y)) as -> by (rewrite len_append; lia).
    rewrite slice_from_len. reflexivity.
  - intros c. split; [exact Hfb|].
    unfold Text.Edit, Text.NewText. simpl. rewrite He. reflexivity.
Qed.

Lemma X10_local_edit_splices_witness :
  ∃ from to s' caret dm,
    findBoundary Scenario.st_AxBC 1 3 = Ok (from, to) ∧
    edit Scenario.st_AxBC from to None "yz" (Scenario.tk 5 Scenario.actorA)
      = Ok (s', caret, dm) ∧
    marshal s' =
      Ok (slice_to (Z.to_nat 1) "AxBC" +:+ "yz" +:+
          slice_from (Z.to_nat 3) "AxBC") ∧
    ("yz"%string ≠ EmptyString →
     caret = TextNodePos.mk
               (TextNodeID.mk (Scenario.tk 5 Scenario.actorA) 0) (len "yz")) ∧
    ∀ c, Text.FindBoundary (Text.NewText Scenario.st_AxBC c) 1 3
           = Ok (from, to) ∧
         Text.Edit (Text.NewText Scenario.st_AxBC c) from to None "yz"
           (Scenario.tk 5 Scenario.actorA)
           = Ok (Text.NewText s' c, caret, dm).
Proof.
  apply (X10_local_edit_splices Scenario.st_AxBC 1 3 None "yz"
           (Scenario.tk 5 Scenario.actorA) "AxBC").
  - apply FreshFacts.fresh_st_AxBC.
  - vm_compute. discriminate.
  - vm_compute. reflexivity.
  - vm_compute. reflexivity.
  - lia.
  - vm_compute. discriminate.
  - vm_compute. reflexivity.
Defined.

(** *** From an index to a position and back *)

Lemma visible_upto_spec (hp : Heap) (target : handle) (A : list handle) :
  ∀ (B : list handle) (p q : option handle) (fuel : nat) (acc : Z),
  lseg hp p (A ++ target :: B) q → target ∉ A → (length A < fuel)%nat →
  visible_upto fuel hp (Some (default target (head A))) target acc
  = Ok (acc + splay.total (weight hp) (A ++ [target])).
Proof.
  induction A as [|x A IH]; intros B p q fuel acc Hseg Hni Hf.
  - destruct fuel as [|fuel]; [lia|]. simpl in *.
    destruct Hseg as (n & Hn & _). rewrite (getNode_lookup _ _ _ Hn).
    cbn [mbind result_mbind result_bind].
    rewrite decide_True by reflexivity. unfold weight. rewrite Hn.
    f_equal. lia.
  - destruct fuel as [|fuel]; [simpl in Hf; lia|].
    simpl in Hseg. destruct Hseg as (n & Hn & _ & Hnx & Hseg).
    change (default target (head (x :: A))) with x.
    cbn [visible_upto].
    rewrite (getNode_lookup _ _ _ Hn). cbn [mbind result_mbind result_bind].
    assert (x ≠ target) as Hne.
    { intros ->. apply Hni. apply elem_of_cons. auto. }
    rewrite decide_False by exact Hne. rewrite Hnx.
    assert (hd_or (A ++ target :: B) q = Some (default target (head A))) as ->.
    { destruct A; reflexivity. }
    rewrite (IH B (Some x) q fuel _ Hseg).
    + simpl. unfold weight at 2. rewrite Hn. f_equal. lia.
    + intros Hin. apply Hni. apply elem_of_cons. auto.
    + simpl in Hf. lia.
Qed.

(** X11: from an index to a position and back.  In a state reached without
    reusing tickets, the position [findTextNodePos(i)] gives for an index in
    range is resolved by [findTextNodeWithSplit], at a ticket no node was
    created after, to a left node whose last code unit is the [i]-th of the
    visible text; the resolution leaves [marshal] as it is. *)
Theorem X11_index_position_round_trip (s : RGATreeSplit.t) (i : Z)
    (editedAt : Ticket.t) (str : string) :
  reachable_fresh s → newest (heap s) editedAt = true →
  0 ≤ i ≤ visible_total s → marshal s = Ok str →
  ∃ pos s1 leftNode rightNode,
    findTextNodePos s i = Ok pos ∧
    findTextNodeWithSplit s pos editedAt = Ok (s1, leftNode, rightNode) ∧
    resolved_index s pos editedAt = Ok i ∧
    marshal s1 = Ok str.
Proof.
  intros Hr Hnew Hi Hm.
  pose proof (reachable_fresh_reachable _ Hr) as Hre.
  pose proof (reachable_wf _ Hre) as Hwf.
  pose proof (reachable_fresh_ids _ Hr) as Hu.
  pose proof (reachable_history _ Hre) as Hh.
  apply (all_created_spec (λ c, negb (Ticket.After c editedAt))) in Hnew.
  destruct (findTextNodePos_range s i Hwf) as [Hpos _].
  destruct (Hpos Hi) as [pos Hp].
  pose proof (findTextNodePos_denotes _ _ _ Hwf Hh Hp) as Hd.
  destruct (resolve_denotes _ _ _ _ Hwf Hu Hh Hnew Hd)
    as (s1 & fl & A & B & Hres & El & Hlen & Hstep & _).
  destruct (live_step_keeps _ _ _ _ Hstep Hwf Hu Hh Hnew)
    as (Hwf1 & _ & _ & _ & Htext & _).
  exists pos, s1, fl, (hd_or B None).
  split; [exact Hp|]. split; [exact Hres|]. split.
  - unfold resolved_index. rewrite Hres.
    cbn [mbind result_mbind result_bind].
    pose proof (wf_chain _ Hwf1) as Hc.
    pose proof (chain_lseg _ _ Hc) as Hseg. rewrite El in Hseg.
    pose proof (chain_nodup _ _ Hc) as Hnd. rewrite El in Hnd.
    pose proof (chain_head _ _ Hc) as Hhd. rewrite El in Hhd.
    assert (initialHead s1 = default fl (head A)) as ->.
    { destruct A; simpl in *; congruence. }
    rewrite (visible_upto_spec _ _ _ _ _ _ _ _ Hseg).
    + rewrite total_live_values. unfold live_text in Hlen.
      rewrite Hlen. reflexivity.
    + intros Hin. apply NoDup_app in Hnd as (_ & Hdis & _).
      apply (Hdis _ Hin). apply elem_of_cons. auto.
    + pose proof (chain_length _ _ Hc) as Hl. rewrite El in Hl.
      rewrite length_app in Hl. simpl in Hl. lia.
  - rewrite (marshal_chain s _ (wf_chain _ Hwf) (wf_head _ Hwf)) in Hm.
    rewrite (marshal_chain s1 _ (wf_chain _ Hwf1) (wf_head _ Hwf1)).
    unfold live_text in Htext. rewrite Htext. exact Hm.
Qed.

Lemma X11_index_position_round_trip_witness :
  ∃ pos s1 leftNode rightNode,
    findTextNodePos Scenario.st_AxBC 3 = Ok pos ∧
    findTextNodeWithSplit Scenario.st_AxBC pos (Scenario.tk 5 Scenario.actorA)
      = Ok (s1, leftNode, rightNode) ∧
    resolved_index Scenario.st_AxBC pos (Scenario.tk 5 Scenario.actorA)
      = Ok 3 ∧
    marshal s1 = Ok "AxBC"%string.
Proof.
  apply (X11_index_position_round_trip Scenario.st_AxBC 3
           (Scenario.tk 5 Scenario.actorA) "AxBC").
  - apply FreshFacts.fresh_st_AxBC.
  - vm_compute. reflexivity.
  - vm_compute. split; discriminate.
  - vm_compute. reflexivity.
Defined.

(** ** Text.Deepcopy *)

Lemma Put_present (key k : TextNodeID.t) (value v : handle) (t : llrb.Tree) :
  keys_ok t → key_ok key → (k, v) ∈ t →
  ∃ v', (k, v') ∈ llrb.Put key value t.
Proof.
  intros Hk Hkey Hin.
  destruct (decide (TextNodeID.Compare key k = 0)) as [E|E].
  - apply KeyOrder.key_eq in E; [|exact Hkey|].
    + subst k. exists value. apply LLRB.Put_mem; assumption.
    + unfold keys_ok in Hk. rewrite Forall_forall in Hk. apply (Hk _ Hin).
  - exists v. apply Put_keeps; assumption.
Qed.

Lemma InsertAfter_seq_last (j : nat) :
  splay.InsertAfter j (S j) (seq 0 (S j)) = seq 0 (S (S j)).
Proof.
  rewrite (seq_S (S j)). rewrite (seq_S j). simpl Nat.add.
  rewrite InsertAfter_app_notin.
  - simpl. rewrite decide_True by reflexivity. rewrite <- app_assoc.
    reflexivity.
  - intros Hin. apply elem_of_seq in Hin. lia.
Qed.

Lemma findFloor_present (s : RGATreeSplit.t) (k : TextNodeID.t) (v : handle) :
  keys_ok (treeByID s) → StronglySorted entry_lt (treeByID s) →
  (k, v) ∈ treeByID s → findFloorTextNode s k = Some v.
Proof.
  intros Hk Hs Hin. unfold findFloorTextNode.
  rewrite (LLRB.Floor_exact _ v) by assumption.
  unfold TextNodeID.Equal. rewrite KeyOrder.key_refl. reflexivity.
Qed.

Section CopyStep.
Variables (hp : Heap) (done : list handle) (ns : RGATreeSplit.t).
Variables (h : handle) (n : TextNode.t).
Hypothesis Hcp : copied hp done ns.
Hypothesis Hn : hp !! h = Some n.
Hypothesis Hkey : key_ok (TextNode.id n).

Local Abbreviation j := (length done).
Local Abbreviation f := (length (heap ns)).
Local Abbreviation H1 :=
  (alter (TextNode.set_next (Some f)) j
     (alter (TextNode.set_prev (Some j)) f (heap ns ++ [DeepCopy n]))).
Local Abbreviation s1 :=
  (RGATreeSplit.mk H1 (initialHead ns)
     (splay.InsertAfter j f (treeByIndex ns))
     (llrb.Put (TextNode.id n) f (treeByID ns))).

Lemma copy_f : f = S j.
Proof. apply (cp_length _ _ _ Hcp). Qed.

Lemma copy_last : ∃ p0, heap ns !! j = Some p0 ∧ TextNode.next p0 = None.
Proof.
  pose proof copy_f as Hf.
  destruct (lookup_lt_is_Some_2 (heap ns) j ltac:(lia)) as [p0 Hp0].
  exists p0. split; [exact Hp0|].
  destruct (cp_links _ _ _ Hcp _ _ Hp0) as [_ Hnx].
  rewrite decide_True in Hnx by reflexivity. exact Hnx.
Qed.

Lemma copy_H1_lookup (k : handle) :
  H1 !! k =
    if decide (k = j) then TextNode.set_next (Some f) <$> heap ns !! j
    else if decide (k = f)
         then Some (TextNode.set_prev (Some j) (DeepCopy n))
         else heap ns !! k.
Proof.
  pose proof copy_f as Hf.
  rewrite list_lookup_alter. destruct (decide (j = k)) as [<-|Hne].
  - rewrite decide_True by reflexivity.
    rewrite list_lookup_alter_ne by lia.
    rewrite lookup_app_l by lia. reflexivity.
  - rewrite decide_False by auto.
    rewrite list_lookup_alter. destruct (decide (f = k)) as [<-|Hnf].
    + rewrite decide_True by reflexivity.
      rewrite list_lookup_middle by reflexivity. reflexivity.
    + rewrite decide_False by auto.
      destruct (decide (k < f)%nat) as [Hlt|Hge].
      * apply lookup_app_l. exact Hlt.
      * rewrite lookup_ge_None_2; [|rewrite length_app; simpl; lia].
        symmetry. apply lookup_ge_None_2. lia.
Qed.

Lemma copy_insert :
  InsertAfter (with_heap ns (heap ns ++ [DeepCopy n])) j f = Ok s1.
Proof.
  pose proof copy_f as Hf. destruct copy_last as (p0 & Hp0 & Hnx).
  apply InsertAfter_spec. exists p0, (DeepCopy n). simpl.
  split; [rewrite lookup_app_l by lia; exact Hp0|].
  split; [apply list_lookup_middle; reflexivity|].
  split; [intros x Hx; rewrite Hnx in Hx; discriminate|].
  rewrite Hnx. reflexivity.
Qed.

Lemma copy_H1_length : length H1 = S f.
Proof. rewrite !length_alter, length_app. simpl. lia. Qed.

(** The state after the loop body: [s1], or [s1] with the new node's
    [insPrev] set. *)
Lemma copy_copied (hp2 : Heap) :
  length hp2 = S f →
  (∀ k, payload <$> hp2 !! k = payload <$> H1 !! k) →
  (∀ k, links <$> hp2 !! k = links <$> H1 !! k) →
  copied hp (done ++ [h]) (with_heap s1 hp2).
Proof.
  intros Hlen Hpl Hlk. pose proof copy_f as Hf.
  destruct Hcp as [Cl Ch Chv Cix Clinks Cpay Ckeys Csorted Cvals Cinit Cpres].
  assert (length (done ++ [h]) = S j) as Hdl
    by (rewrite length_app; simpl; lia).
  assert (∀ k y2, hp2 !! k = Some y2 →
            ∃ y1, H1 !! k = Some y1 ∧ payload y2 = payload y1 ∧
                  links y2 = links y1) as Hback.
  { intros k y2 Hy2. specialize (Hpl k). specialize (Hlk k).
    rewrite Hy2 in Hpl, Hlk. simpl in Hpl, Hlk.
    destruct (H1 !! k) as [y1|]; [|discriminate].
    exists y1. simpl in *. split; [reflexivity|]. split; congruence. }
  assert (∀ k y1, H1 !! k = Some y1 →
            ∃ y2, hp2 !! k = Some y2 ∧ payload y2 = payload y1 ∧
                  links y2 = links y1) as Hfw.
  { intros k y1 Hy1. specialize (Hpl k). specialize (Hlk k).
    rewrite Hy1 in Hpl, Hlk. simpl in Hpl, Hlk.
    destruct (hp2 !! k) as [y2|]; [|discriminate].
    exists y2. simpl in *. split; [reflexivity|]. split; congruence. }
  constructor; simpl.
  - rewrite Hlen, Hdl. lia.
  - exact Ch.
  - destruct Chv as (h0 & Hh0 & Hv0).
    assert (∃ y1, H1 !! 0%nat = Some y1 ∧ TextNode.value y1 = EmptyString)
      as (y1 & Hy1 & Hv1).
    { rewrite copy_H1_lookup. destruct (decide (0%nat = j)) as [E|E].
      - rewrite <- E, Hh0. simpl. eauto.
      - rewrite decide_False by lia. eauto. }
    destruct (Hfw _ _ Hy1) as (y2 & Hy2 & Hp2 & _).
    exists y2. split; [exact Hy2|]. unfold payload in Hp2.
    injection Hp2 as _ Hv _. congruence.
  - rewrite Hdl, Cix, Hf. apply InsertAfter_seq_last.
  - intros k y2 Hy2. destruct (Hback _ _ Hy2) as (y1 & Hy1 & _ & Hl).
    unfold links in Hl. injection Hl as Hp Hx. rewrite Hp, Hx. rewrite Hdl.
    rewrite copy_H1_lookup in Hy1.
    destruct (decide (k = j)) as [->|Hkj].
    + destruct (heap ns !! j) as [p0|] eqn:Ep0; [|discriminate].
      injection Hy1 as <-. simpl.
      destruct (Clinks _ _ Ep0) as [Hpp _]. rewrite Hpp.
      split; [reflexivity|]. rewrite decide_False by lia. rewrite Hf.
      reflexivity.
    + destruct (decide (k = f)) as [->|Hkf].
      * injection Hy1 as <-. simpl. rewrite decide_False by lia.
        rewrite decide_True by lia. rewrite Hf. auto.
      * destruct (Clinks _ _ Hy1) as [Hpp Hnn]. rewrite Hpp, Hnn.
        split; [reflexivity|]. rewrite decide_False by exact Hkj.
        apply lookup_lt_Some in Hy1.
        rewrite decide_False by lia. reflexivity.
  - intros i x Hx.
    destruct (decide (i < j)%nat) as [Hlt|Hge].
    + rewrite lookup_app_l in Hx by exact Hlt.
      destruct (Cpay _ _ Hx) as (y & y' & Hy & Hy' & Hp).
      assert (∃ y1, H1 !! S i = Some y1 ∧ payload y1 = payload y')
        as (y1 & Hy1 & Hp1).
      { rewrite copy_H1_lookup. destruct (decide (S i = j)) as [E|E].
        - rewrite <- E, Hy'. simpl. eauto.
        - rewrite decide_False by lia. eauto. }
      destruct (Hfw _ _ Hy1) as (y2 & Hy2 & Hp2 & _).
      exists y, y2. split; [exact Hy|]. split; [exact Hy2|]. congruence.
    + assert (i = j) as ->.
      { apply lookup_lt_Some in Hx. rewrite Hdl in Hx. lia. }
      rewrite list_lookup_middle in Hx by reflexivity. injection Hx as <-.
      assert (H1 !! S j = Some (TextNode.set_prev (Some j) (DeepCopy n)))
        as Hy1.
      { rewrite copy_H1_lookup. rewrite decide_False by lia.
        rewrite decide_True by lia. reflexivity. }
      destruct (Hfw _ _ Hy1) as (y2 & Hy2 & Hp2 & _).
      exists n, y2. split; [exact Hn|]. split; [exact Hy2|].
      rewrite Hp2. reflexivity.
  - apply LLRB.Put_keys_ok; assumption.
  - apply LLRB.Put_sorted; assumption.
  - intros e He. rewrite Hdl.
    apply LLRB.Put_elem in He as [->|He]; [simpl; lia| |assumption|assumption].
    specialize (Cvals _ He). lia.
  - destruct Cinit as [v Hv]. eapply Put_present; eassumption.
  - intros x y Hx Hy. apply elem_of_app in Hx as [Hx|Hx].
    + destruct (Cpres _ _ Hx Hy) as [v Hv]. eapply Put_present; eassumption.
    + apply list_elem_of_singleton in Hx. subst x.
      assert (y = n) as -> by congruence.
      exists f. apply LLRB.Put_mem; assumption.
Qed.

End CopyStep.

Lemma sublist_pair_before (l1 l2 : list handle) (p h : handle) :
  NoDup (l1 ++ h :: l2) → sublist [p; h] (l1 ++ h :: l2) → p ∈ l1.
Proof.
  induction l1 as [|a l1 IH]; intros Hnd Hs; simpl in *.
  - exfalso. apply NoDup_cons in Hnd as [Hni _].
    apply sublist_cons_r in Hs as [Hs|(l' & E & Hs)].
    + apply Hni. eapply elem_of_sublist; [|exact Hs].
      rewrite !elem_of_cons. auto.
    + injection E as -> <-. apply Hni.
      eapply elem_of_sublist; [|exact Hs]. apply elem_of_cons. auto.
  - apply NoDup_cons in Hnd as [_ Hnd].
    apply sublist_cons_r in Hs as [Hs|(l' & E & Hs)].
    + apply elem_of_cons. right. apply IH; assumption.
    + injection E as -> _. apply elem_of_cons. auto.
Qed.

Lemma copy_body (hp : Heap) (done : list handle) (ns : RGATreeSplit.t)
    (h : handle) (n : TextNode.t) :
  copied hp done ns → hp !! h = Some n → key_ok (TextNode.id n) →
  (∀ p, TextNode.insPrev n = Some p →
     ∃ pn, hp !! p = Some pn ∧
           (TextNode.id pn = initialTextNodeID ∨ p ∈ done)) →
  ∃ s2,
    (s1 ← InsertAfter (with_heap ns (heap ns ++ [DeepCopy n]))
            (length done) (length (heap ns));
     insPrevID ← InsPrevID hp n;
     match insPrevID with
     | Some id =>
         match FindTextNode s1 (Some id) with
         | Some insPrevNode =>
             hp' ← SetInsPrev (heap s1) (length (heap ns)) insPrevNode;
             Ok (with_heap s1 hp')
         | None => Panic "invalid memory address or nil pointer dereference"
         end
     | None => Ok s1
     end) = Ok s2 ∧
    copied hp (done ++ [h]) s2.
Proof.
  intros Hcp Hn Hkey Hprev.
  rewrite (copy_insert hp done ns n Hcp).
  cbn [mbind result_mbind result_bind].
  pose proof (copy_H1_length done ns n) as Hlen1.
  unfold InsPrevID. destruct (TextNode.insPrev n) as [p|] eqn:Ep.
  - destruct (Hprev p eq_refl) as (pn & Hpn & Hwhere).
    rewrite (getNode_lookup _ _ _ Hpn).
    cbn [mbind result_mbind result_bind FindTextNode].
    pose proof (cp_keys _ _ _ Hcp) as Hkeys.
    pose proof (cp_sorted _ _ _ Hcp) as Hsorted.
    assert (∃ v, (TextNode.id pn, v) ∈ treeByID ns) as [v Hv].
    { destruct Hwhere as [->|Hin].
      - apply (cp_initial _ _ _ Hcp).
      - apply (cp_present _ _ _ Hcp _ _ Hin Hpn). }
    destruct (Put_present (TextNode.id n) _ (length (heap ns)) _ _
                Hkeys Hkey Hv) as [v' Hv'].
    rewrite (findFloor_present _ _ v'); cycle 1.
    { simpl. apply LLRB.Put_keys_ok; assumption. }
    { simpl. apply LLRB.Put_sorted; assumption. }
    { exact Hv'. }
    assert (v' < S (length (heap ns)))%nat as Hvlt.
    { apply LLRB.Put_elem in Hv' as [E|Hin]; [| |assumption|assumption].
      - injection E as _ ->. lia.
      - pose proof (cp_values _ _ _ Hcp _ Hin) as Hlt. simpl in Hlt.
        rewrite (cp_length _ _ _ Hcp). lia. }
    cbn [heap].
    eassert (SetInsPrev _ (length (heap ns)) v' = Ok _) as ->.
    { apply SetInsPrev_spec. rewrite Hlen1.
      split; [lia|]. split; [exact Hvlt|]. reflexivity. }
    cbn [mbind result_mbind result_bind].
    eexists. split; [reflexivity|].
    apply (copy_copied hp done ns h n Hcp Hn Hkey).
    + rewrite !length_alter, length_app. simpl. lia.
    + intros k. rewrite lookup_alter_proj by (intros; reflexivity).
      rewrite lookup_alter_proj by (intros; reflexivity). reflexivity.
    + intros k. rewrite lookup_alter_proj by (intros; reflexivity).
      rewrite lookup_alter_proj by (intros; reflexivity). reflexivity.
  - cbn [mbind result_mbind result_bind].
    eexists. split; [reflexivity|].
    apply (copy_copied hp done ns h n Hcp Hn Hkey); auto.
Qed.

Lemma Deepcopy_loop_spec (hp : Heap) (rest : list handle) :
  ∀ (done : list handle) (ns : RGATreeSplit.t),
  copied hp done ns → NoDup (done ++ rest) →
  (∀ h, h ∈ rest →
     ∃ n, hp !! h = Some n ∧ key_ok (TextNode.id n) ∧
          ∀ p, TextNode.insPrev n = Some p →
               ∃ pn, hp !! p = Some pn ∧
                     (TextNode.id pn = initialTextNodeID ∨
                      sublist [p; h] (done ++ rest))) →
  ∃ ns', Deepcopy_loop hp ns (length done) rest = Ok ns' ∧
         copied hp (done ++ rest) ns'.
Proof.
  induction rest as [|h rest IH]; intros done ns Hcp Hnd Hall.
  - exists ns. rewrite app_nil_r. split; [reflexivity|exact Hcp].
  - destruct (Hall h ltac:(apply elem_of_cons; auto))
      as (n & Hn & Hkey & Hprev).
    destruct (copy_body hp done ns h n Hcp Hn Hkey) as (s2 & Hbody & Hcp2).
    { intros p Hp. destruct (Hprev p Hp) as (pn & Hpn & [Hid|Hsub]).
      - exists pn. auto.
      - exists pn. split; [exact Hpn|]. right.
        apply (sublist_pair_before _ _ _ _ Hnd Hsub). }
    replace (done ++ h :: rest) with ((done ++ [h]) ++ rest) in *
      by (rewrite <- app_assoc; reflexivity).
    destruct (IH (done ++ [h]) s2 Hcp2 Hnd) as (ns' & Hloop & Hcp').
    { intros x Hx. apply Hall. apply elem_of_cons. auto. }
    exists ns'. split; [|exact Hcp'].
    cbn [Deepcopy_loop]. rewrite (getNode_lookup _ _ _ Hn).
    cbn [mbind result_mbind result_bind].
    apply bind_Ok_inv in Hbody as (s1 & Hs1 & Hbody).
    rewrite Hs1. cbn [mbind result_mbind result_bind].
    apply bind_Ok_inv in Hbody as (o & Ho & Hbody).
    rewrite Ho. cbn [mbind result_mbind result_bind].
    rewrite Hbody. cbn [mbind result_mbind result_bind].
    rewrite (cp_length _ _ _ Hcp).
    replace (S (length done)) with (length (done ++ [h]))
      by (rewrite length_app; simpl; lia).
    exact Hloop.
Qed.

Lemma copied_new (hp : Heap) : copied hp [] NewRGATreeSplit.
Proof.
  constructor; simpl; try reflexivity.
  - eexists. split; reflexivity.
  - intros [|k] y Hy; simpl in Hy; [|discriminate].
    injection Hy as <-. auto.
  - intros i h Hi. discriminate.
  - repeat constructor; unfold key_ok, int_max; simpl; lia.
  - repeat constructor.
  - intros e He. apply list_elem_of_singleton in He. subst e. simpl. lia.
  - eexists. apply elem_of_cons. left. reflexivity.
  - intros h y Hh. inversion Hh.
Qed.

Lemma copied_lseg (hp : Heap) (done : list handle) (ns : RGATreeSplit.t) :
  copied hp done ns →
  ∀ (cnt a : nat), (a + cnt = S (length done))%nat →
  lseg (heap ns) (if decide (a = 0%nat) then None else Some (pred a))
    (seq a cnt) None.
Proof.
  intros Hcp. induction cnt as [|cnt IH]; intros a Ha; [exact I|].
  simpl.
  destruct (lookup_lt_is_Some_2 (heap ns) a) as [y Hy].
  { rewrite (cp_length _ _ _ Hcp). lia. }
  destruct (cp_links _ _ _ Hcp _ _ Hy) as [Hp Hx].
  exists y. split; [exact Hy|]. split; [exact Hp|]. split.
  - rewrite Hx. destruct cnt as [|cnt]; simpl.
    + rewrite decide_True by lia. reflexivity.
    + rewrite decide_False by lia. reflexivity.
  - specialize (IH (S a) ltac:(lia)). simpl in IH. exact IH.
Qed.

Lemma copied_chain (hp : Heap) (done : list handle) (ns : RGATreeSplit.t) :
  copied hp done ns → chain ns (treeByIndex ns) ∧ head_ok ns.
Proof.
  intros Hcp. split.
  - rewrite (cp_index _ _ _ Hcp). constructor.
    + rewrite (cp_head _ _ _ Hcp). reflexivity.
    + apply NoDup_seq.
    + apply (copied_lseg _ _ _ Hcp (S (length done)) 0%nat). lia.
    + intros h Hh. apply elem_of_seq. rewrite (cp_length _ _ _ Hcp) in Hh.
      lia.
  - unfold head_ok. rewrite (cp_head _ _ _ Hcp).
    apply (cp_head_value _ _ _ Hcp).
Qed.

Lemma chain_textNodes (s : RGATreeSplit.t) :
  chain s (treeByIndex s) → head_ok s →
  ∃ l, textNodes s = Ok l ∧ treeByIndex s = initialHead s :: l ∧
       marshal s = Ok (concat_strings (live_values (heap s) l)).
Proof.
  intros Hc Hho. pose proof (chain_head _ _ Hc) as Hhd.
  destruct (treeByIndex s) as [|h0 l] eqn:El; [discriminate|].
  injection Hhd as ->. exists l.
  pose proof (chain_lseg _ _ Hc) as Hseg. simpl in Hseg.
  destruct Hseg as (n & Hn & _ & Hnx & Hseg).
  pose proof (chain_length _ _ Hc) as Hlen. simpl in Hlen.
  split; [|split; [reflexivity|]].
  - unfold textNodes. rewrite (getNode_lookup _ _ _ Hn).
    cbn [mbind result_mbind result_bind]. rewrite Hnx.
    rewrite (textNodes_loop_spec (heap s) l (Some (initialHead s))); auto.
    lia.
  - rewrite (marshal_chain s _ Hc Hho). simpl. rewrite Hn.
    destruct Hho as (n' & Hn' & Hv).
    assert (n' = n) as -> by congruence.
    destruct (TextNode.deletedAt n); [reflexivity|].
    simpl. rewrite Hv, append_nil. reflexivity.
Qed.

Lemma live_values_Forall2 (hp hp' : Heap) (l l' : list handle) :
  Forall2 (λ h h', payload <$> hp' !! h' = payload <$> hp !! h) l l' →
  live_values hp' l' = live_values hp l.
Proof.
  induction 1 as [|h h' l l' Hh _ IH]; [reflexivity|].
  simpl. rewrite IH.
  destruct (hp' !! h') as [y'|], (hp !! h) as [y|]; simpl in Hh;
    try discriminate; [|reflexivity].
  unfold payload in Hh. injection Hh as _ Hv Hd. rewrite Hv, Hd.
  reflexivity.
Qed.

(** X14: [Text.Deepcopy] of a text reached by edits returns, and the copy
    reads the same: its text nodes carry, in the same order, the identifier,
    value and tombstone of the original's, so [marshal] and [Marshal] give
    the same string; the creation ticket is the original's. *)
Theorem X14_Deepcopy_same_text (s : RGATreeSplit.t) (c : Ticket.t) :
  reachable s →
  ∃ s' l l',
    Deepcopy (Text.NewText s c) = Ok (Text.NewText s' c) ∧
    textNodes s = Ok l ∧ textNodes s' = Ok l' ∧
    Forall2 (λ h h', payload <$> heap s' !! h' = payload <$> heap s !! h)
      l l' ∧
    marshal s' = marshal s ∧
    Text.Marshal (Text.NewText s' c) = Text.Marshal (Text.NewText s c).
Proof.
  intros Hr. pose proof (reachable_wf _ Hr) as Hwf.
  pose proof (reachable_history _ Hr) as Hh.
  pose proof (wf_chain _ Hwf) as Hc.
  destruct (chain_textNodes s Hc (wf_head _ Hwf)) as (l & Ht & El & Hm).
  pose proof (chain_nodup _ _ Hc) as Hnd. rewrite El in Hnd.
  pose proof Hnd as Hnd'. apply NoDup_cons in Hnd' as [Hhl Hndl].
  destruct (Deepcopy_loop_spec (heap s) l [] NewRGATreeSplit
              (copied_new _) Hndl) as (s' & Hloop & Hcp).
  { intros h Hin.
    assert (h ∈ treeByIndex s) as Hin' by (rewrite El; apply elem_of_cons; auto).
    destruct (chain_valid _ _ _ Hc Hin') as [n Hn].
    exists n. split; [exact Hn|].
    split; [eapply node_key_ok; eassumption|].
    intros p Hp. pose proof (wf_ins _ Hwf _ _ Hn) as [_ _ Hip _].
    destruct (Hip p Hp) as (pn & Hpn & _).
    exists pn. split; [exact Hpn|].
    pose proof (ho_before _ Hh _ _ _ Hn Hp) as Hb. rewrite El in Hb.
    apply sublist_cons_r in Hb as [Hb|(l0 & E & Hb)].
    - right. exact Hb.
    - left. injection E as -> _.
      destruct (ho_head _ Hh) as (hn & Hhn & Hid). congruence. }
  simpl app in Hcp.
  destruct (copied_chain _ _ _ Hcp) as [Hc' Hho'].
  destruct (chain_textNodes s' Hc' Hho') as (l' & Ht' & El' & Hm').
  rewrite (cp_index _ _ _ Hcp), (cp_head _ _ _ Hcp) in El'.
  simpl in El'. injection El' as El'.
  assert (Forall2
            (λ h h', payload <$> heap s' !! h' = payload <$> heap s !! h)
            l l') as HF.
  { apply Forall2_same_length_lookup_2.
    - rewrite <- El', length_seq. reflexivity.
    - intros i h h' Hi Hi'. rewrite <- El' in Hi'.
      apply lookup_seq in Hi' as [-> _].
      destruct (cp_payload _ _ _ Hcp _ _ Hi) as (y & y' & Hy & Hy' & Hp).
      simpl. rewrite Hy, Hy'. simpl. rewrite Hp. reflexivity. }
  assert (marshal s' = marshal s) as Hmm.
  { rewrite Hm, Hm'. rewrite (live_values_Forall2 _ _ _ _ HF). reflexivity. }
  exists s', l, l'.
  split.
  { unfold Deepcopy, Text.NewText.
    cbn [Text.rgaTreeSplit Text.createdAt]. rewrite Ht.
    cbn [mbind result_mbind result_bind].
    change (initialHead NewRGATreeSplit) with (length (@nil handle)).
    rewrite Hloop. reflexivity. }
  split; [exact Ht|]. split; [exact Ht'|]. split; [exact HF|].
  split; [exact Hmm|].
  unfold Text.Marshal. simpl. rewrite Hmm. reflexivity.
Qed.

Lemma X14_Deepcopy_same_text_witness :
  ∃ s' l l',
    Deepcopy (Text.NewText Scenario.st_xBC Ticket.InitialTicket)
      = Ok (Text.NewText s' Ticket.InitialTicket) ∧
    textNodes Scenario.st_xBC = Ok l ∧ textNodes s' = Ok l' ∧
    Forall2
      (λ h h', payload <$> heap s' !! h'
               = payload <$> heap Scenario.st_xBC !! h) l l' ∧
    marshal s' = marshal Scenario.st_xBC ∧
    Text.Marshal (Text.NewText s' Ticket.InitialTicket)
      = Text.Marshal (Text.NewText Scenario.st_xBC Ticket.InitialTicket).
Proof.
  apply (X14_Deepcopy_same_text Scenario.st_xBC Ticket.InitialTicket).
  apply ScenarioFacts.reachable_st_xBC.
Defined.

(** ** The span between two nodes *)

(** X15: [findBetween(from, to)] returns the nodes from [from] on, in list
    order, up to but excluding [to]: nothing when [from] is nil or is [to],
    the nodes in front of [to] when [to] comes after [from], and every node
    from [from] to the end of the list when [to] is nil or does not come
    after [from]. *)
Theorem X15_findBetween_span (s : RGATreeSplit.t) (l l1 l2 : list handle)
    (from : handle) (to : option handle) :
  reachable s → textNodes s = Ok l →
  initialHead s :: l = l1 ++ from :: l2 →
  findBetween s None to = Ok [] ∧
  findBetween s (Some from) (Some from) = Ok [] ∧
  ((∀ t, to = Some t → t ∉ from :: l2) →
   findBetween s (Some from) to = Ok (from :: l2)) ∧
  (∀ mid t l3, to = Some t → l2 = mid ++ t :: l3 →
   findBetween s (Some from) to = Ok (from :: mid)).
Proof.
  intros Hr Ht El. pose proof (reachable_wf _ Hr) as Hwf.
  destruct (textNodes_chain s Hwf) as (l' & Ht' & El' & _).
  rewrite Ht in Ht'. injection Ht' as <-. rewrite <- El' in El.
  pose proof (wf_chain _ Hwf) as Hc.
  pose proof (chain_nodup _ _ Hc) as Hnd. rewrite El in Hnd.
  split; [reflexivity|]. split; [apply findBetween_same|].
  assert (∀ x, Some from = Some x → (x < length (heap s))%nat) as Hval.
  { intros x [= <-]. apply (chain_elem _ _ _ Hc). rewrite El.
    apply elem_of_app. right. apply elem_of_cons. auto. }
  destruct (findBetween_spec s (Some from) to Hwf Hval)
    as (cands & l0 & rest & Hfb & Hspan & Hhd & Hcn & Hend).
  apply hd_or_Some in Hhd as (t' & Et'). rewrite Et', El in Hspan.
  destruct (NoDup_split_unique _ _ _ _ _ Hnd Hspan) as [<- <-].
  apply NoDup_app in Hnd as (_ & _ & Hnd).
  split.
  - intros Hto. rewrite Hfb. f_equal.
    destruct Hend as [->|[Hne Hhr]].
    + rewrite app_nil_r in Et'. exact Et'.
    + exfalso. destruct rest as [|r rest]; [contradiction|]. simpl in Hhr.
      apply (Hto r); [auto|]. rewrite <- Et'. apply elem_of_app. right.
      apply elem_of_cons. auto.
  - intros mid t l3 -> ->. rewrite Hfb. f_equal.
    assert (t ∈ cands ++ rest) as Hin.
    { rewrite Et'. rewrite !elem_of_cons, elem_of_app, elem_of_cons. auto. }
    apply elem_of_app in Hin as [Hin|Hin].
    { exfalso. apply (Hcn _ Hin). reflexivity. }
    destruct Hend as [->|[Hne Hhr]]; [inversion Hin|].
    destruct rest as [|r rest]; [contradiction|]. simpl in Hhr.
    injection Hhr as ->.
    change (from :: mid ++ t :: l3) with ((from :: mid) ++ t :: l3) in Et', Hnd.
    destruct (NoDup_split_unique _ _ _ _ _ Hnd (eq_sym Et')) as [<- _].
    reflexivity.
Qed.

Lemma X15_findBetween_span_witness :
  findBetween Scenario.st_AxBC None (Some 2%nat) = Ok [] ∧
  findBetween Scenario.st_AxBC (Some 3%nat) (Some 3%nat) = Ok [] ∧
  ((∀ t, Some 1%nat = Some t → t ∉ [3; 2]%nat) →
   findBetween Scenario.st_AxBC (Some 3%nat) (Some 1%nat) = Ok [3; 2]%nat) ∧
  (∀ mid t l3, Some 1%nat = Some t → [2%nat] = mid ++ t :: l3 →
   findBetween Scenario.st_AxBC (Some 3%nat) (Some 1%nat)
     = Ok (3%nat :: mid)).
Proof.
  apply (X15_findBetween_span Scenario.st_AxBC [1; 3; 2]%nat [0; 1]%nat
           [2%nat] 3%nat (Some 1%nat)).
  - apply ScenarioFacts.reachable_st_AxBC.
  - reflexivity.
  - reflexivity.
Defined.

(** ** Positions the text does not have *)

Lemma findFloor_unknown (s : RGATreeSplit.t) (id : TextNodeID.t) :
  wf s → fresh_in (heap s) (TextNodeID.createdAt id) →
  findFloorTextNode s id = None.
Proof.
  intros Hwf Hf. unfold findFloorTextNode.
  destruct (llrb.Floor id (treeByID s)) as [[k v]|] eqn:Ef; [|reflexivity].
  apply LLRB.Floor_elem in Ef.
  pose proof (idx_entries _ (wf_idx _ Hwf)) as Hent.
  rewrite Forall_forall in Hent.
  destruct (Hent _ Ef) as (_ & y & Hy & Hid). simpl in Hy, Hid.
  assert (Ticket.Compare (TextNodeID.createdAt k) (TextNodeID.createdAt id)
          ≠ 0) as Hne.
  { intros E. apply TicketOrder.ticket_eq in E. apply (Hf _ _ Hy).
    unfold TextNode.createdAt. rewrite Hid. exact E. }
  apply Z.eqb_neq in Hne.
  unfold TextNodeID.Equal, TextNodeID.hasSameCreatedAt, TextNodeID.Compare.
  rewrite Hne. simpl. rewrite Hne. reflexivity.
Qed.

Lemma resolve_unknown (s : RGATreeSplit.t) (pos : TextNodePos.t)
    (editedAt : Ticket.t) :
  wf s → fresh_in (heap s) (TextNodeID.createdAt (TextNodePos.id pos)) →
  findTextNodeWithSplit s pos editedAt
  = Panic "the node of the given id should be found".
Proof.
  intros Hwf Hf. unfold findTextNodeWithSplit, findFloorTextNodePreferToLeft.
  rewrite findFloor_unknown; [reflexivity|exact Hwf|exact Hf].
Qed.

Lemma fresh_findTextNodeWithSplit (s s1 : RGATreeSplit.t)
    (pos : TextNodePos.t) (editedAt : Ticket.t) (left : handle)
    (right : option handle) (t : Ticket.t) :
  wf s → findTextNodeWithSplit s pos editedAt = Ok (s1, left, right) →
  fresh_in (heap s) t → fresh_in (heap s1) t.
Proof.
  intros Hwf H Hf.
  destruct (findTextNodeWithSplit_inv _ _ _ _ _ _ Hwf H)
    as (node & n & r & l1 & run & post & _ & Hn & Hs & _).
  destruct (splitTextNode_result _ _ _ _ _ Hwf Hs)
    as (n' & Hn' & [[-> _]|(Hk & -> & _)]); [exact Hf|].
  apply fresh_split; assumption.
Qed.

(** X16: a position whose creation ticket no node of the text carries makes
    the edit panic: [findTextNodeWithSplit] panics with "the node of the
    given id should be found", and so does [edit], whether the position is
    its [from] or, after a [from] that resolves, its [to]. *)
Theorem X16_unknown_position_panics (s : RGATreeSplit.t)
    (pos other : TextNodePos.t) (m : option (gmap string Ticket.t))
    (content : string) (editedAt : Ticket.t) :
  reachable s →
  fresh_ticket (heap s) (TextNodeID.createdAt (TextNodePos.id pos)) = true →
  findTextNodeWithSplit s pos editedAt
    = Panic "the node of the given id should be found" ∧
  edit s pos other m content editedAt
    = Panic "the node of the given id should be found" ∧
  (∀ s1 leftNode rightNode,
     findTextNodeWithSplit s other editedAt = Ok (s1, leftNode, rightNode) →
     edit s other pos m content editedAt
       = Panic "the node of the given id should be found").
Proof.
  intros Hr Hf. pose proof (reachable_wf _ Hr) as Hwf.
  apply fresh_ticket_spec in Hf.
  pose proof (resolve_unknown s pos editedAt Hwf Hf) as Hp.
  split; [exact Hp|]. split.
  - unfold edit. rewrite Hp. reflexivity.
  - intros s1 l r Ho.
    destruct (wf_findTextNodeWithSplit _ _ _ _ _ _ Hwf Ho) as (Hwf1 & _).
    pose proof (fresh_findTextNodeWithSplit _ _ _ _ _ _ _ Hwf Ho Hf) as Hf1.
    unfold edit. rewrite Ho. cbn [mbind result_mbind result_bind].
    rewrite (resolve_unknown s1 pos editedAt Hwf1 Hf1). reflexivity.
Qed.

Lemma X16_unknown_position_panics_witness :
  findTextNodeWithSplit Scenario.st_ABC
    (TextNodePos.mk (TextNodeID.mk (Scenario.tk 7 Scenario.actorB) 0) 1)
    (Scenario.tk 9 Scenario.actorA)
    = Panic "the node of the given id should be found" ∧
  edit Scenario.st_ABC
    (TextNodePos.mk (TextNodeID.mk (Scenario.tk 7 Scenario.actorB) 0) 1)
    (Scenario.posA 2) None "x" (Scenario.tk 9 Scenario.actorA)
    = Panic "the node of the given id should be found" ∧
  (∀ s1 leftNode rightNode,
     findTextNodeWithSplit Scenario.st_ABC (Scenario.posA 2)
       (Scenario.tk 9 Scenario.actorA) = Ok (s1, leftNode, rightNode) →
     edit Scenario.st_ABC (Scenario.posA 2)
       (TextNodePos.mk (TextNodeID.mk (Scenario.tk 7 Scenario.actorB) 0) 1)
       None "x" (Scenario.tk 9 Scenario.actorA)
       = Panic "the node of the given id should be found").
Proof.
  apply (X16_unknown_position_panics Scenario.st_ABC
           (TextNodePos.mk (TextNodeID.mk (Scenario.tk 7 Scenario.actorB) 0) 1)
           (Scenario.posA 2) None "x" (Scenario.tk 9 Scenario.actorA)).
  - apply ScenarioFacts.reachable_st_ABC.
  - vm_compute. reflexivity.
Defined.

Lemma no_later_fragment (s : RGATreeSplit.t) (h : handle) (n : TextNode.t) :
  wf s → ids_unique s → history_ok s →
  heap s !! h = Some n → TextNode.insNext n = None →
  ∀ (fuel : nat) hy y, heap s !! hy = Some y →
    TextNode.createdAt y = TextNode.createdAt n →
    (Z.to_nat (offset_of y) ≤ fuel)%nat →
    offset_of y ≤ offset_of n.
Proof.
  intros Hwf Hu Hh Hn Hnx.
  pose proof (wf_ins _ Hwf) as Hins.
  pose proof (Hins _ _ Hn) as [[Hn1 _] _ _ _].
  induction fuel as [|fuel IH]; intros hy y Hy Hc Hfuel.
  - pose proof (Hins _ _ Hy) as [[Hy1 _] _ _ _]. lia.
  - destruct (decide (offset_of y ≤ offset_of n)) as [|Hgt]; [assumption|].
    exfalso. pose proof (Hins _ _ Hy) as [[Hy1 _] Hhp Hip _].
    destruct Hhp as [p Hp]; [lia|].
    destruct (Hip p Hp) as (pn & Hpn & Hpx & Hpc & _ & Hpl).
    pose proof (ho_tight _ Hh _ _ _ _ Hy Hp Hpn) as Ht.
    pose proof (Hins _ _ Hpn) as [[Hp1 _] _ _ _].
    destruct (decide (p = h)) as [->|Hne].
    + assert (pn = n) as -> by congruence. congruence.
    + assert (TextNode.createdAt pn = TextNode.createdAt n) as Hc' by congruence.
      destruct (iu_frag _ Hu _ _ _ _ Hpn Hn Hne Hc') as [Hd1 Hd2].
      destruct (decide (offset_of pn < offset_of n)) as [Hlt|Hge].
      * specialize (Hd2 Hlt). lia.
      * assert (offset_of pn ≤ offset_of n); [|lia].
        apply (IH p pn Hpn Hc'). lia.
Qed.

(** X17: a position behind the end of an insertion makes the edit panic.
    When no ticket is reused and [node] is the last fragment of its
    insertion, a position [(node.id, k)] with [k > contentLen] makes
    [findTextNodeWithSplit], and [edit] with it, panic with "offset should
    be less than or equal to length". *)
Theorem X17_offset_beyond_panics (s : RGATreeSplit.t) (h : handle)
    (n : TextNode.t) (k : Z) (to : TextNodePos.t)
    (m : option (gmap string Ticket.t)) (content : string)
    (editedAt : Ticket.t) :
  reachable_fresh s → heap s !! h = Some n →
  TextNode.insNext n = None →
  TextNode.contentLen n < k → offset_of n + k ≤ int_max →
  findTextNodeWithSplit s (TextNodePos.mk (TextNode.id n) k) editedAt
    = Panic "offset should be less than or equal to length" ∧
  edit s (TextNodePos.mk (TextNode.id n) k) to m content editedAt
    = Panic "offset should be less than or equal to length".
Proof.
  intros Hr Hn Hnx Hk Hmax.
  pose proof (reachable_fresh_reachable _ Hr) as Hre.
  pose proof (reachable_wf _ Hre) as Hwf.
  pose proof (reachable_fresh_ids _ Hr) as Hu.
  pose proof (reachable_history _ Hre) as Hh.
  pose proof (wf_ins _ Hwf _ _ Hn) as [[Hr1 Hr2] _ _ _].
  pose proof (len_nonneg (TextNode.value n)) as Hl.
  unfold TextNode.contentLen in Hk.
  assert (TextNodePos.getAbsoluteID (TextNodePos.mk (TextNode.id n) k)
          = TextNodeID.mk (TextNode.createdAt n) (offset_of n + k)) as Habs.
  { unfold TextNodePos.getAbsoluteID, TextNodeID.NewTextNodeID. simpl.
    unfold int_add. rewrite wrap_id; [reflexivity|].
    unfold offset_of, int_min, int_max in *. lia. }
  set (key := TextNodeID.mk (TextNode.createdAt n) (offset_of n + k)).
  assert (key_ok key) as Hkey by (unfold key_ok, key; simpl; lia).
  assert (key_ok (TextNode.id n)) as Hkn by (eapply node_key_ok; eassumption).
  pose proof (keys_ok_of_wf _ Hwf) as Hkeys.
  pose proof (idx_sorted _ (wf_idx _ Hwf)) as Hsorted.
  pose proof (idx_entries _ (wf_idx _ Hwf)) as Hent.
  pose proof (iu_indexed _ Hu _ _ Hn) as Hidx.
  assert (TextNodeID.Compare key (TextNode.id n) = k) as Hcmp.
  { unfold key, key_ok, TextNode.createdAt, offset_of in *.
    destruct (TextNode.id n) as [c o] eqn:Eid. simpl in *.
    rewrite Compare_same_createdAt; lia. }
  assert (findFloorTextNodePreferToLeft s key = Ok h) as Hfl.
  { unfold findFloorTextNodePreferToLeft, findFloorTextNode.
    destruct (llrb.Floor key (treeByID s)) as [[ke he]|] eqn:Ef; cycle 1.
    { pose proof (Floor_None_above key _ Hkeys Hkey Hsorted Ef _ Hidx) as Hlt.
      simpl in Hlt. lia. }
    destruct (Floor_Some_greatest key _ _ Hkeys Hkey Hsorted Ef)
      as (Hin & Hge & Hmx).
    simpl in Hge. specialize (Hmx _ Hidx). simpl in Hmx.
    assert (0 ≤ TextNodeID.Compare ke (TextNode.id n)) as Hge2
      by (apply Hmx; lia).
    rewrite Forall_forall in Hent.
    destruct (Hent _ Hin) as (Hkke & y & Hy & Hidy). simpl in Hkke, Hy, Hidy.
    destruct (Compare_squeeze (TextNode.id n) ke key Hkn Hkke Hkey eq_refl
                Hge2 Hge) as (Hc & Ho1 & Ho2).
    subst ke.
    assert (offset_of y ≤ offset_of n) as Hle.
    { apply (no_later_fragment s h n Hwf Hu Hh Hn Hnx
               (Z.to_nat (offset_of y)) he y Hy); [exact Hc|lia]. }
    assert (he = h) as ->.
    { destruct (decide (he = h)) as [|Hne]; [assumption|]. exfalso.
      assert (TextNode.createdAt y = TextNode.createdAt n) as Hc' by exact Hc.
      destruct (iu_frag _ Hu _ _ _ _ Hy Hn Hne Hc') as [Hd _].
      unfold offset_of in *. lia. }
    assert (y = n) as -> by congruence.
    assert (TextNodeID.hasSameCreatedAt (TextNode.id n) key = true) as ->.
    { unfold TextNodeID.hasSameCreatedAt. simpl.
      apply Z.eqb_eq, TicketOrder.ticket_refl. }
    rewrite andb_false_r. rewrite (getNode_lookup _ _ _ Hn).
    cbn [mbind result_mbind result_bind]. simpl TextNodeID.offset.
    replace (TextNodeID.offset (TextNode.id n) =? offset_of n + k) with false
      by (symmetry; apply Z.eqb_neq; unfold offset_of; lia).
    rewrite andb_false_r. reflexivity. }
  assert (findTextNodeWithSplit s (TextNodePos.mk (TextNode.id n) k) editedAt
          = Panic "offset should be less than or equal to length") as Hp.
  { unfold findTextNodeWithSplit. rewrite Habs. fold key. rewrite Hfl.
    cbn [mbind result_mbind result_bind].
    rewrite (getNode_lookup _ _ _ Hn). cbn [mbind result_mbind result_bind].
    unfold splitTextNode. rewrite (getNode_lookup _ _ _ Hn).
    cbn [mbind result_mbind result_bind].
    assert (int_sub (TextNodeID.offset key) (TextNodeID.offset (TextNode.id n))
            = k) as ->.
    { simpl. unfold int_sub. rewrite wrap_id;
        unfold offset_of, int_min, int_max in *; lia. }
    replace (TextNode.contentLen n <? k) with true
      by (symmetry; apply Z.ltb_lt; exact Hk).
    reflexivity. }
  split; [exact Hp|]. unfold edit. rewrite Hp. reflexivity.
Qed.

Lemma X17_offset_beyond_panics_witness :
  findTextNodeWithSplit Scenario.st_AxBC
    (TextNodePos.mk (TextNodeID.mk (Scenario.tk 1 Scenario.actorA) 1) 3)
    (Scenario.tk 9 Scenario.actorA)
    = Panic "offset should be less than or equal to length" ∧
  edit Scenario.st_AxBC
    (TextNodePos.mk (TextNodeID.mk (Scenario.tk 1 Scenario.actorA) 1) 3)
    Scenario.headPos None "x" (Scenario.tk 9 Scenario.actorA)
    = Panic "offset should be less than or equal to length".
Proof.
  apply (X17_offset_beyond_panics Scenario.st_AxBC 2%nat
           (TextNode.mk (TextNodeID.mk (Scenario.tk 1 Scenario.actorA) 1) "BC"
              None (Some 3%nat) None (Some 1%nat) None) 3).
  - apply FreshFacts.fresh_st_AxBC.
  - reflexivity.
  - reflexivity.
  - vm_compute. reflexivity.
  - vm_compute. discriminate.
Defined.

(* ===================================================================== *)
(** ** What splitting does to the visible text *)
(* ===================================================================== *)

(** X18: [splitTextNode] and the visible text.  Splitting a live node, or
    "splitting" at offset 0 or at the full length, leaves [marshal] as it
    was.  Splitting a deleted node strictly inside makes its tail visible at
    the place of the node: with the traversal from [initialHead] being
    [l1 ++ node :: l2], [marshal] was the visible text of [l1] followed by
    that of [l2], and becomes the visible text of [l1], then
    [value[offset:]], then the visible text of [l2]; it is a different
    string. *)
Theorem X18_split_visible_text (s s' : RGATreeSplit.t) (node : handle)
    (n : TextNode.t) (k : Z) (r : option handle) :
  reachable s → heap s !! node = Some n →
  splitTextNode s node k = Ok (s', r) →
  (TextNode.deletedAt n = None ∨ k = 0 ∨ k = TextNode.contentLen n →
   marshal s' = marshal s) ∧
  (is_Some (TextNode.deletedAt n) → 0 < k < TextNode.contentLen n →
   ∃ l l1 l2,
     textNodes s = Ok l ∧
     initialHead s :: l = l1 ++ node :: l2 ∧
     marshal s = Ok (live_text (heap s) l1 +:+ live_text (heap s) l2) ∧
     marshal s' =
       Ok (live_text (heap s) l1 +:+
           slice_from (Z.to_nat k) (TextNode.value n) +:+
           live_text (heap s) l2) ∧
     marshal s' ≠ marshal s).
Proof.
  intros Hr Hn Hsp. pose proof (reachable_wf _ Hr) as Hwf. split.
  - intros [Hd|[->| ->]].
    + exact (split_live_marshal _ _ _ _ _ _ Hwf Hn Hd Hsp).
    + rewrite (splitTextNode_zero _ _ _ Hn) in Hsp. injection Hsp as <- _.
      reflexivity.
    + destruct (splitTextNode_result _ _ _ _ _ Hwf Hsp) as (n' & Hn' & Hc).
      rewrite Hn in Hn'. injection Hn' as <-.
      destruct Hc as [[-> _]|[Hk _]]; [reflexivity|lia].
  - intros [d Hd] Hk.
    pose proof Hsp as Hsp'.
    rewrite (split_returns _ _ _ _ Hwf Hn Hk) in Hsp'.
    injection Hsp' as _ <-.
    destruct (split_tombstone_marshal _ _ _ _ _ _ Hwf Hn Hd Hk Hsp)
      as (l1 & l2 & nn & El & _ & _ & Hm & Hm').
    destruct (textNodes_chain s Hwf) as (l & Ht & Ehd & _).
    exists l, l1, l2. unfold live_text.
    split; [exact Ht|]. split; [rewrite <- Ehd; exact El|].
    split; [exact Hm|]. split; [exact Hm'|].
    rewrite Hm, Hm'. intros E. injection E as E.
    apply (f_equal len) in E. rewrite !len_append in E.
    unfold len in E. rewrite length_slice_from in E.
    unfold TextNode.contentLen, len in Hk. lia.
Qed.

Lemma X18_split_visible_text_witness :
  (TextNode.deletedAt
     (TextNode.mk (TextNodeID.mk (Scenario.tk 1 Scenario.actorA) 0)
                 "ABC" (Some (Scenario.tk 2 Scenario.actorB)) (Some 0%nat)
                 None None None)
   = None ∨ 1 = 0 ∨
   1 = TextNode.contentLen
         (TextNode.mk (TextNodeID.mk (Scenario.tk 1 Scenario.actorA) 0)
                 "ABC" (Some (Scenario.tk 2 Scenario.actorB)) (Some 0%nat)
                 None None None) →
   marshal (split_state Scenario.st_deleted 1
              (TextNode.mk (TextNodeID.mk (Scenario.tk 1 Scenario.actorA) 0)
                 "ABC" (Some (Scenario.tk 2 Scenario.actorB)) (Some 0%nat)
                 None None None) 1)
   = marshal Scenario.st_deleted) ∧
  (is_Some
     (TextNode.deletedAt
        (TextNode.mk (TextNodeID.mk (Scenario.tk 1 Scenario.actorA) 0)
                 "ABC" (Some (Scenario.tk 2 Scenario.actorB)) (Some 0%nat)
                 None None None)) →
   0 < 1 <
     TextNode.contentLen
       (TextNode.mk (TextNodeID.mk (Scenario.tk 1 Scenario.actorA) 0)
                 "ABC" (Some (Scenario.tk 2 Scenario.actorB)) (Some 0%nat)
                 None None None) →
   ∃ l l1 l2,
     textNodes Scenario.st_deleted = Ok l ∧
     initialHead Scenario.st_deleted :: l = l1 ++ 1%nat :: l2 ∧
     marshal Scenario.st_deleted =
       Ok (live_text (heap Scenario.st_deleted) l1 +:+
           live_text (heap Scenario.st_deleted) l2) ∧
     marshal (split_state Scenario.st_deleted 1
                (TextNode.mk (TextNodeID.mk (Scenario.tk 1 Scenario.actorA) 0)
                 "ABC" (Some (Scenario.tk 2 Scenario.actorB)) (Some 0%nat)
                 None None None) 1)
     = Ok (live_text (heap Scenario.st_deleted) l1 +:+
           slice_from (Z.to_nat 1)
             (TextNode.value
                (TextNode.mk (TextNodeID.mk (Scenario.tk 1 Scenario.actorA) 0)
                 "ABC" (Some (Scenario.tk 2 Scenario.actorB)) (Some 0%nat)
                 None None None)) +:+
           live_text (heap Scenario.st_deleted) l2) ∧
     marshal (split_state Scenario.st_deleted 1
                (TextNode.mk (TextNodeID.mk (Scenario.tk 1 Scenario.actorA) 0)
                 "ABC" (Some (Scenario.tk 2 Scenario.actorB)) (Some 0%nat)
                 None None None) 1)
     ≠ marshal Scenario.st_deleted).
Proof.
  apply (X18_split_visible_text Scenario.st_deleted _ 1%nat _ 1
           (Some 2%nat)).
  - apply ScenarioFacts.reachable_st_deleted.
  - vm_compute. reflexivity.
  - vm_compute. reflexivity.
Defined.

(* ===================================================================== *)
(** ** The sentinel *)
(* ===================================================================== *)

(** A position resolution leaves the sentinel's payload alone. *)
Lemma head_findTextNodeWithSplit (s s1 : RGATreeSplit.t)
    (pos : TextNodePos.t) (editedAt : Ticket.t) (left : handle)
    (right : option handle) (n : TextNode.t) :
  wf s → findTextNodeWithSplit s pos editedAt = Ok (s1, left, right) →
  heap s !! initialHead s = Some n →
  initialHead s1 = initialHead s ∧
  ∃ n1, heap s1 !! initialHead s = Some n1 ∧
    TextNode.id n1 = TextNode.id n ∧
    TextNode.value n1 = TextNode.value n ∧
    TextNode.deletedAt n1 = TextNode.deletedAt n.
Proof.
  intros Hwf Hres Hn.
  destruct (findTextNodeWithSplit_inv _ _ _ _ _ _ Hwf Hres)
    as (node & nn & r & l1 & run & post & _ & Hnn & Hsp & _).
  destruct (splitTextNode_result _ _ _ _ _ Hwf Hsp) as (n' & Hn' & Hc).
  rewrite Hnn in Hn'. injection Hn' as <-.
  destruct Hc as [[-> _]|(Hk & -> & _)].
  - split; [reflexivity|]. exists n. auto.
  - split; [reflexivity|].
    pose proof (split_not_head _ _ _ _ Hwf Hnn Hk) as Hne.
    eexists. split.
    + apply (split_lookup_other _ _ _ _ Hwf Hnn); [|exact Hn].
      intros E. apply Hne. symmetry. exact E.
    + simpl. auto.
Qed.

(** X19: the sentinel is never touched.  Whatever positions, tickets and
    maps the edits carry, the node [initialHead] keeps [initialTextNodeID]
    and its empty value, and no edit deletes it: the range of an edit begins
    at a node that is the [next] of another. *)
Theorem X19_sentinel_untouched (s : RGATreeSplit.t) :
  reachable s →
  ∃ n, heap s !! initialHead s = Some n ∧
    TextNode.id n = initialTextNodeID ∧
    TextNode.value n = EmptyString ∧
    TextNode.deletedAt n = None.
Proof.
  induction 1 as [|s from to m content editedAt s' caretPos deleted Hr IH
                    Hlen He].
  - eexists. repeat split; reflexivity.
  - destruct IH as (n & Hn & Hid & Hv & Hd).
    pose proof (reachable_wf _ Hr) as Hwf.
    destruct (grows_edit _ _ _ _ _ _ _ _ _ Hwf He) as [[Hhd _ _ _] _].
    destruct (edit_inv _ _ _ _ _ _ _ _ _ Hwf He) as [tr Hs].
    destruct (head_findTextNodeWithSplit _ _ _ _ _ _ _ Hwf
                (es_from _ _ _ _ _ _ _ _ _ _ Hs) Hn)
      as (Hh1 & n1 & Hn1 & Hid1 & Hv1 & Hd1).
    rewrite <- Hh1 in Hn1.
    pose proof (es_wf1 _ _ _ _ _ _ _ _ _ _ Hs) as Hwf1.
    destruct (head_findTextNodeWithSplit _ _ _ _ _ _ _ Hwf1
                (es_to _ _ _ _ _ _ _ _ _ _ Hs) Hn1)
      as (Hh2 & n2 & Hn2 & Hid2 & Hv2 & Hd2).
    rewrite <- Hh2 in Hn2.
    pose proof (es_wf2 _ _ _ _ _ _ _ _ _ _ Hs) as Hwf2.
    destruct (edit_final_lookup _ _ _ _ _ _ _ _ _ _ _ _ Hs Hn2)
      as (n' & Hn' & Hid' & Hv' & Hd').
    assert (initialHead (es_s2 tr) ∉ es_cands tr) as Hnot.
    { intros Hin.
      (* the range starts at the [next] of [fromLeft] *)
      destruct (wf_findTextNodeWithSplit _ _ _ _ _ _ Hwf
                  (es_from _ _ _ _ _ _ _ _ _ _ Hs))
        as (_ & _ & _ & ln & Hln & Hnx).
      assert (es_fromRight tr ≠ Some (initialHead (es_s2 tr))) as Hfr.
      { intros E. rewrite E in Hnx.
        destruct (wf_next_valid _ _ _ _ Hwf1 Hln Hnx) as (_ & _ & Hne).
        apply Hne. exact Hh2. }
      pose proof (chain_head _ _ (wf_chain _ Hwf2)) as Hch.
      pose proof (chain_nodup _ _ (wf_chain _ Hwf2)) as Hnd.
      pose proof (es_span _ _ _ _ _ _ _ _ _ _ Hs) as Hsp.
      pose proof (es_span_from _ _ _ _ _ _ _ _ _ _ Hs) as Hsf.
      rewrite Hsp in Hch, Hnd.
      destruct (es_before tr) as [|b bs].
      - simpl in Hch. destruct (es_cands tr ++ es_rest tr) as [|c cs];
          [discriminate|].
        simpl in Hch, Hsf. injection Hch as ->. apply Hfr. symmetry.
        exact Hsf.
      - simpl in Hch. injection Hch as ->.
        apply NoDup_cons in Hnd as [Hnb _]. apply Hnb.
        apply elem_of_app. right. apply elem_of_app. left. exact Hin. }
    rewrite decide_False in Hd' by exact Hnot.
    exists n'. rewrite Hhd, <- Hh1, <- Hh2.
    split; [exact Hn'|]. repeat split; congruence.
Qed.

Lemma X19_sentinel_untouched_witness :
  ∃ n, heap Scenario.st_deleted !! initialHead Scenario.st_deleted = Some n ∧
    TextNode.id n = initialTextNodeID ∧
    TextNode.value n = EmptyString ∧
    TextNode.deletedAt n = None.
Proof.
  apply (X19_sentinel_untouched Scenario.st_deleted).
  apply ScenarioFacts.reachable_st_deleted.
Defined.

(* ===================================================================== *)
(** ** When an edit returns *)
(* ===================================================================== *)

(** The handles a resolution returns are nodes of the traversal. *)
Lemma findTextNodeWithSplit_in_chain (s s1 : RGATreeSplit.t)
    (pos : TextNodePos.t) (editedAt : Ticket.t) (left : handle)
    (right : option handle) :
  wf s → findTextNodeWithSplit s pos editedAt = Ok (s1, left, right) →
  left ∈ treeByIndex s1 ∧ ∀ h, right = Some h → h ∈ treeByIndex s1.
Proof.
  intros Hwf Hres.
  destruct (wf_findTextNodeWithSplit _ _ _ _ _ _ Hwf Hres)
    as (Hwf1 & _ & _ & ln & Hln & Hnx).
  pose proof (wf_chain _ Hwf1) as Hc. split.
  - apply (chain_elem _ _ _ Hc). apply lookup_lt_is_Some. eauto.
  - intros h ->. apply (chain_elem _ _ _ Hc).
    apply (wf_next_valid _ _ _ _ Hwf1 Hln Hnx).
Qed.

(** Once both positions resolve, the rest of [edit] cannot fail. *)
Lemma edit_returns (s s1 s2 : RGATreeSplit.t) (from to : TextNodePos.t)
    (m : option (gmap string Ticket.t)) (content : string)
    (editedAt : Ticket.t) (fl tl : handle) (fr tr : option handle) :
  wf s → len content ≤ int_max →
  findTextNodeWithSplit s from editedAt = Ok (s1, fl, fr) →
  findTextNodeWithSplit s1 to editedAt = Ok (s2, tl, tr) →
  ∃ s' caret dm, edit s from to m content editedAt = Ok (s', caret, dm).
Proof.
  intros Hwf Hlen H1 H2.
  destruct (wf_findTextNodeWithSplit _ _ _ _ _ _ Hwf H1) as (Hwf1 & _).
  destruct (wf_findTextNodeWithSplit _ _ _ _ _ _ Hwf1 H2) as (Hwf2 & _).
  destruct (findTextNodeWithSplit_in_chain _ _ _ _ _ _ Hwf H1) as [Hfl Hfr].
  destruct (findTextNodeWithSplit_in_chain _ _ _ _ _ _ Hwf1 H2) as [Htl Htr].
  destruct (grows_findTextNodeWithSplit _ _ _ _ _ _ Hwf1 H2)
    as [[_ _ _ Hsub] _].
  pose proof (wf_chain _ Hwf2) as Hc2.
  assert (∀ h, fr = Some h → (h < length (heap s2))%nat) as Hval.
  { intros h E. apply (chain_elem _ _ _ Hc2).
    apply (elem_of_sublist _ _ _ (Hfr _ E) Hsub). }
  destruct (findBetween_spec s2 fr tr Hwf2 Hval)
    as (cands & l1 & rest & Hfb & Hspan & _).
  destruct (findBetween_candidates _ _ _ _ Hwf2 Hspan) as [Hndc Hvalc].
  destruct (deleteNodes_loop_spec m editedAt cands s2 ∅ Hndc Hvalc)
    as (s3 & Hrun & Hhd3 & Hix3 & Hid3 & Hl3 & Hlk3).
  assert (deleteNodes s2 cands m editedAt
          = Ok (s3, foldl record_max ∅
                      (tombstoned_tickets (heap s2) m editedAt cands)))
    as Hdel by exact Hrun.
  pose proof (wf_deleteNodes _ _ _ _ _ _ Hwf2 Hndc Hvalc Hdel) as Hwf3.
  assert (∃ cn, heap s3 !! default tl tr = Some cn) as [cn Hcn].
  { apply (chain_valid _ _ _ (wf_chain _ Hwf3)). rewrite Hix3.
    destruct tr as [x|]; simpl; [apply Htr; reflexivity|exact Htl]. }
  assert (fl ∈ treeByIndex s3) as Hfl3.
  { rewrite Hix3. apply (elem_of_sublist _ _ _ Hfl Hsub). }
  apply list_elem_of_split in Hfl3 as (A & R & El3).
  rewrite (edit_unfold _ _ _ _ _ _ _ content _ _ _ _ _ _ _ _
             H1 H2 Hfb Hdel Hcn).
  destruct (edit_finish s3 A R fl content editedAt cn
              (foldl record_max ∅
                 (tombstoned_tickets (heap s2) m editedAt cands))
              Hwf3 El3 Hlen)
    as (s' & caret & He & _).
  eauto.
Qed.

(** X20: [edit] fails only in resolving its two positions.  In a state
    reached from a new text by edits, [edit] returns exactly when
    [findTextNodeWithSplit] resolves [from] and then, in the state that
    leaves, [to]: finding the range, deleting it and inserting the content
    never panic, whatever the map and the ticket. *)
Theorem X20_edit_returns_iff (s : RGATreeSplit.t) (from to : TextNodePos.t)
    (m : option (gmap string Ticket.t)) (content : string)
    (editedAt : Ticket.t) :
  reachable s → len content ≤ int_max →
  (∃ s' caret dm, edit s from to m content editedAt = Ok (s', caret, dm)) ↔
  (∃ s1 fl fr s2 tl tr,
     findTextNodeWithSplit s from editedAt = Ok (s1, fl, fr) ∧
     findTextNodeWithSplit s1 to editedAt = Ok (s2, tl, tr)).
Proof.
  intros Hr Hlen. pose proof (reachable_wf _ Hr) as Hwf. split.
  - intros (s' & caret & dm & He).
    destruct (edit_inv _ _ _ _ _ _ _ _ _ Hwf He) as [tr Hs].
    exists (es_s1 tr), (es_fromLeft tr), (es_fromRight tr),
      (es_s2 tr), (es_toLeft tr), (es_toRight tr).
    split.
    + exact (es_from _ _ _ _ _ _ _ _ _ _ Hs).
    + exact (es_to _ _ _ _ _ _ _ _ _ _ Hs).
  - intros (s1 & fl & fr & s2 & tl & tr & H1 & H2).
    exact (edit_returns _ _ _ _ _ m content _ _ _ _ _ Hwf Hlen H1 H2).
Qed.

Lemma X20_edit_returns_iff_witness :
  (∃ s' caret dm,
     edit Scenario.st_ABC
       (TextNodePos.mk (TextNodeID.mk (Scenario.tk 1 Scenario.actorA) 0) 1)
       (TextNodePos.mk (TextNodeID.mk (Scenario.tk 1 Scenario.actorA) 0) 2)
       None "x" (Scenario.tk 2 Scenario.actorA) = Ok (s', caret, dm)) ↔
  (∃ s1 fl fr s2 tl tr,
     findTextNodeWithSplit Scenario.st_ABC
       (TextNodePos.mk (TextNodeID.mk (Scenario.tk 1 Scenario.actorA) 0) 1)
       (Scenario.tk 2 Scenario.actorA) = Ok (s1, fl, fr) ∧
     findTextNodeWithSplit s1
       (TextNodePos.mk (TextNodeID.mk (Scenario.tk 1 Scenario.actorA) 0) 2)
       (Scenario.tk 2 Scenario.actorA) = Ok (s2, tl, tr)).
Proof.
  apply (X20_edit_returns_iff Scenario.st_ABC).
  - apply ScenarioFacts.reachable_st_ABC.
  - vm_compute. discriminate.
Defined.

(* ===================================================================== *)
(** ** The caret *)
(* ===================================================================== *)

(** A position at the beginning or at the end of a node resolves without a
    split. *)
Lemma boundary_resolves (s : RGATreeSplit.t) (h : handle) (n : TextNode.t)
    (k : Z) (editedAt : Ticket.t) :
  wf s → ids_unique s → history_ok s →
  heap s !! h = Some n → k = 0 ∨ k = TextNode.contentLen n →
  ∃ left right,
    findTextNodeWithSplit s (TextNodePos.mk (TextNode.id n) k) editedAt
    = Ok (s, left, right).
Proof.
  intros Hwf Hu Hh Hn Hk.
  pose proof (wf_ins _ Hwf _ _ Hn) as [[Hr1 Hr2] _ _ _].
  pose proof (len_nonneg (TextNode.value n)) as Hl.
  assert (0 ≤ k ≤ TextNode.contentLen n) as Hk'
    by (unfold TextNode.contentLen in *; lia).
  destruct (resolve_position s h n k Hwf Hu Hh Hn Hk')
    as (node & nn & Hfl & Hnn & _ & Hsub & Hrange & Hpos & Hzero).
  assert (∃ r, splitTextNode s node
                 (int_sub
                    (TextNodeID.offset
                       (TextNodePos.getAbsoluteID
                          (TextNodePos.mk (TextNode.id n) k)))
                    (TextNodeID.offset (TextNode.id nn))) = Ok (s, r))
    as [r Hsp].
  { rewrite Hsub.
    destruct (decide (offset_of n + k - offset_of nn = 0)) as [E|E].
    - rewrite E. eexists. apply (splitTextNode_zero _ _ _ Hnn).
    - assert (offset_of n + k - offset_of nn = TextNode.contentLen nn) as E'.
      { destruct (decide (0 < k ∨ offset_of n = 0)) as [Hc|Hc].
        - rewrite (Hpos Hc) in Hnn. rewrite Hn in Hnn. injection Hnn as <-.
          lia.
        - destruct (Hzero ltac:(lia) ltac:(lia)) as [_ Hfull]. lia. }
      rewrite E'. eexists. apply (splitTextNode_full _ _ _ Hnn). lia. }
  destruct (findTextNodeWithSplit_returns _ _ _ editedAt _ _ _ Hwf Hfl Hnn Hsp)
    as (l1 & run & post & _ & _ & _ & Hres).
  eauto.
Qed.

(** X21: the caret an edit returns is a position of the text it leaves.
    When no edit carries the ticket of an existing node, the caret names the
    beginning or the end of a node of the new state; resolving it, at any
    ticket, splits nothing, and an edit at the caret returns, whatever its
    content, map and ticket. *)
Theorem X21_caret_resolves (s s' : RGATreeSplit.t) (from to : TextNodePos.t)
    (m : option (gmap string Ticket.t)) (content : string)
    (editedAt : Ticket.t) (caret : TextNodePos.t)
    (deleted : gmap string Ticket.t) :
  reachable_fresh s → len content ≤ int_max →
  fresh_ticket (heap s) editedAt = true →
  edit s from to m content editedAt = Ok (s', caret, deleted) →
  (∃ h n, heap s' !! h = Some n ∧ TextNodePos.id caret = TextNode.id n ∧
     TextNodePos.relativeOffset caret
       = if String.eqb content EmptyString then 0 else TextNode.contentLen n) ∧
  ∀ (m' : option (gmap string Ticket.t)) (content' : string)
    (editedAt' : Ticket.t),
    len content' ≤ int_max →
    (∃ left right,
       findTextNodeWithSplit s' caret editedAt' = Ok (s', left, right)) ∧
    ∃ s'' caret' deleted',
      edit s' caret caret m' content' editedAt' = Ok (s'', caret', deleted').
Proof.
  intros Hr Hlen Hf He.
  pose proof (fresh_edit _ _ _ _ _ _ _ _ _ Hr Hlen Hf He) as Hr'.
  pose proof (reachable_fresh_reachable _ Hr) as Hre.
  pose proof (reachable_fresh_reachable _ Hr') as Hre'.
  pose proof (reachable_wf _ Hre) as Hwf.
  pose proof (reachable_wf _ Hre') as Hwf'.
  pose proof (reachable_fresh_ids _ Hr') as Hu'.
  pose proof (reachable_history _ Hre') as Hh'.
  destruct (edit_inv _ _ _ _ _ _ _ _ _ Hwf He) as [tr Hs].
  assert (∃ h n, heap s' !! h = Some n ∧
            caret = TextNodePos.mk (TextNode.id n)
                      (if String.eqb content EmptyString then 0
                       else TextNode.contentLen n))
    as (h & n & Hn & Hcar).
  { destruct (String.eqb content EmptyString) eqn:Eb.
    - apply String.eqb_eq in Eb.
      destruct (es_caret_noinsert _ _ _ _ _ _ _ _ _ _ Hs Eb)
        as (-> & cn & Hcn & ->).
      eauto.
    - assert (content ≠ EmptyString) as Hne.
      { intros ->. rewrite String.eqb_refl in Eb. discriminate. }
      destruct (es_caret_insert _ _ _ _ _ _ _ _ _ _ Hs Hne)
        as (p & Hp & -> & ->).
      pose proof (es_wf3 _ _ _ _ _ _ _ _ _ _ Hs) as Hwf3.
      eexists _, _. split.
      + apply (insert_lookup_new _ _ _ editedAt content Hwf3 Hp).
      + reflexivity. }
  split.
  { exists h, n. rewrite Hcar. auto. }
  intros m' content' editedAt' Hlen'.
  assert (∃ left right,
            findTextNodeWithSplit s' caret editedAt' = Ok (s', left, right))
    as (left & right & Hres).
  { rewrite Hcar.
    apply (boundary_resolves _ h _ _ _ Hwf' Hu' Hh' Hn).
    destruct (String.eqb content EmptyString); auto. }
  split; [eauto|].
  exact (edit_returns _ _ _ _ _ m' content' _ _ _ _ _ Hwf' Hlen' Hres Hres).
Qed.

Lemma X21_caret_resolves_witness :
  (∃ h n, heap Scenario.st_AxBC !! h = Some n ∧
     TextNodePos.id
       (TextNodePos.mk (TextNodeID.mk (Scenario.tk 2 Scenario.actorC) 0) 1)
       = TextNode.id n ∧
     TextNodePos.relativeOffset
       (TextNodePos.mk (TextNodeID.mk (Scenario.tk 2 Scenario.actorC) 0) 1)
       = if String.eqb "x" EmptyString then 0 else TextNode.contentLen n) ∧
  ∀ (m' : option (gmap string Ticket.t)) (content' : string)
    (editedAt' : Ticket.t),
    len content' ≤ int_max →
    (∃ left right,
       findTextNodeWithSplit Scenario.st_AxBC
         (TextNodePos.mk (TextNodeID.mk (Scenario.tk 2 Scenario.actorC) 0) 1)
         editedAt' = Ok (Scenario.st_AxBC, left, right)) ∧
    ∃ s'' caret' deleted',
      edit Scenario.st_AxBC
        (TextNodePos.mk (TextNodeID.mk (Scenario.tk 2 Scenario.actorC) 0) 1)
        (TextNodePos.mk (TextNodeID.mk (Scenario.tk 2 Scenario.actorC) 0) 1)
        m' content' editedAt' = Ok (s'', caret', deleted').
Proof.
  apply (X21_caret_resolves Scenario.st_ABC Scenario.st_AxBC
           (Scenario.posA 1) (Scenario.posA 1) (Some ∅) "x"
           (Scenario.tk 2 Scenario.actorC) _ ∅).
  - apply FreshFacts.fresh_st_ABC.
  - vm_compute. discriminate.
  - vm_compute. reflexivity.
  - vm_compute. reflexivity.
Defined.

(** An edit on an empty range at a ticket no node was created after: it
    deletes nothing, whatever its map, and puts the content at the index the
    position denotes. *)
Lemma local_insert (s : RGATreeSplit.t) (pos : TextNodePos.t) (i : Z)
    (m : option (gmap string Ticket.t)) (content : string)
    (editedAt : Ticket.t) :
  wf s → ids_unique s → history_ok s →
  all_created (λ c, negb (Ticket.After c editedAt)) (heap s) →
  len content ≤ int_max → denotes s pos i →
  ∃ s' caret X Z,
    edit s pos pos m content editedAt = Ok (s', caret, ∅) ∧
    wf s' ∧
    live_text (heap s) (treeByIndex s) = X +:+ Z ∧ len X = i ∧
    live_text (heap s') (treeByIndex s') = X +:+ content +:+ Z.
Proof.
  intros Hwf Hu Hh Hnew Hlen Hpos.
  destruct (resolve_denotes _ _ _ _ Hwf Hu Hh Hnew Hpos)
    as (s1 & fl & A & B & Hres1 & El1 & Hlen1 & Hstep1 & _).
  destruct (live_step_keeps _ _ _ _ Hstep1 Hwf Hu Hh Hnew)
    as (Hwf1 & _ & _ & _ & Htext1 & _).
  pose proof (wf_chain _ Hwf1) as Hc1.
  pose proof (findTextNodeWithSplit_again _ _ _ _ _ _ Hwf Hres1) as Hres2.
  pose proof (findBetween_same s1 (hd_or B None)) as Hfb.
  assert (deleteNodes s1 [] m editedAt = Ok (s1, ∅)) as Hdel by reflexivity.
  assert (∃ cn, heap s1 !! default fl (hd_or B None) = Some cn) as [cn Hcnode].
  { apply (chain_valid _ _ _ Hc1). rewrite El1.
    apply elem_of_app. right.
    destruct B as [|b B]; simpl; rewrite !elem_of_cons; auto. }
  rewrite (edit_unfold _ _ _ _ _ _ _ content _ _ _ _ _ _ _ _
             Hres1 Hres2 Hfb Hdel Hcnode).
  destruct (edit_finish s1 A B fl content editedAt cn ∅ Hwf1 El1 Hlen)
    as (s' & caret & He & Hwf' & _ & Htext).
  exists s', caret, (live_text (heap s1) (A ++ [fl])),
    (live_text (heap s1) B).
  split; [exact He|]. split; [exact Hwf'|].
  split; [|split; [exact Hlen1|exact Htext]].
  rewrite <- Htext1, El1.
  replace (A ++ fl :: B) with ((A ++ [fl]) ++ B)
    by (rewrite <- app_assoc; reflexivity).
  apply live_text_app.
Qed.

(** X22: typing at the caret.  In a state reached without reusing tickets,
    for indices [0 ≤ i ≤ j ≤ total], take an edit with a non-empty content
    on the range [findBoundary(i, j)], made at a fresh ticket no node was
    created after and with a map (or nil) whose bounds admit every node of
    the state.  A second edit from and to the caret the first one returned,
    at a ticket no node was created after and with any map, returns and
    puts its content right behind the first: [marshal] is the text before
    index [i], the two contents in the order typed, and the text from index
    [j] on. *)
Theorem X22_typing_at_caret (s s1 : RGATreeSplit.t) (i j : Z)
    (from to caret : TextNodePos.t) (m1 m2 : option (gmap string Ticket.t))
    (c1 c2 : string) (e1 e2 : Ticket.t) (dm1 : gmap string Ticket.t)
    (str : string) :
  reachable_fresh s → len c1 ≤ int_max → len c2 ≤ int_max →
  c1 ≠ EmptyString →
  fresh_ticket (heap s) e1 = true →
  newest (heap s) e1 = true → covered (heap s) m1 = true →
  0 ≤ i ≤ j → j ≤ visible_total s → marshal s = Ok str →
  findBoundary s i j = Ok (from, to) →
  edit s from to m1 c1 e1 = Ok (s1, caret, dm1) →
  newest (heap s1) e2 = true →
  ∃ s2 caret2 dm2,
    edit s1 caret caret m2 c2 e2 = Ok (s2, caret2, dm2) ∧
    marshal s2 =
      Ok (slice_to (Z.to_nat i) str +:+ c1 +:+ c2 +:+
          slice_from (Z.to_nat j) str).
Proof.
  intros Hr Hlen1 Hlen2 Hne Hf Hnew Hcov Hij Hj Hm Hfb He Hnew2.
  pose proof (reachable_fresh_reachable _ Hr) as Hre.
  pose proof (reachable_wf _ Hre) as Hwf.
  pose proof (reachable_fresh_ids _ Hr) as Hu.
  pose proof (reachable_history _ Hre) as Hh.
  pose proof (fresh_edit _ _ _ _ _ _ _ _ _ Hr Hlen1 Hf He) as Hr1.
  pose proof (reachable_fresh_reachable _ Hr1) as Hre1.
  pose proof (reachable_wf _ Hre1) as Hwf1.
  pose proof (reachable_fresh_ids _ Hr1) as Hu1.
  pose proof (reachable_history _ Hre1) as Hh1.
  apply (all_created_spec (λ c, negb (Ticket.After c e1))) in Hnew.
  apply (all_created_spec
           (λ c, negb (Ticket.After c
                         (maxCreatedAtFor m1 (Ticket.ActorIDHex c))))) in Hcov.
  apply (all_created_spec (λ c, negb (Ticket.After c e2))) in Hnew2.
  destruct (findBoundary_denotes s i j Hwf Hh Hij Hj)
    as (from' & to' & Hfb' & Hdf & Hdt & Hcase).
  rewrite Hfb in Hfb'. injection Hfb' as <- <-.
  destruct (local_edit s from to i j m1 c1 e1 Hwf Hu Hh Hnew Hcov
              Hlen1 Hdf Hdt Hcase)
    as (s' & caret' & dm & X & Y & Z & He' & _ & _ & Htext & HX & HY
        & Htext' & Hden).
  rewrite He in He'. injection He' as <- <- <-.
  specialize (Hden Hne).
  destruct (local_insert s1 caret (i + len c1) m2 c2 e2
              Hwf1 Hu1 Hh1 Hnew2 Hlen2 Hden)
    as (s2 & caret2 & X2 & Z2 & He2 & Hwf2 & Htext2 & HX2 & Htext2').
  exists s2, caret2, ∅. split; [exact He2|].
  rewrite (marshal_chain s _ (wf_chain _ Hwf) (wf_head _ Hwf)) in Hm.
  injection Hm as <-.
  change (concat_strings (live_values (heap s) (treeByIndex s)))
    with (live_text (heap s) (treeByIndex s)).
  rewrite (marshal_chain s2 _ (wf_chain _ Hwf2) (wf_head _ Hwf2)).
  change (concat_strings (live_values (heap s2) (treeByIndex s2)))
    with (live_text (heap s2) (treeByIndex s2)).
  rewrite Htext2', Htext. f_equal.
  (* the text before and behind the caret *)
  assert (X2 = X +:+ c1) as ->.
  { rewrite <- (slice_to_len X2 Z2), <- Htext2, Htext', HX2.
    rewrite <- (app_assoc_s X c1 Z).
    assert (i + len c1 = len (X +:+ c1)) as ->
      by (rewrite len_append; lia).
    apply slice_to_len. }
  assert (Z2 = Z) as ->.
  { rewrite <- (slice_from_len (X +:+ c1) Z2).
    rewrite <- Htext2, Htext'.
    rewrite <- (app_assoc_s X c1 Z).
    apply slice_from_len. }
  rewrite <- HX at 1. rewrite slice_to_len.
  rewrite <- (app_assoc_s X Y Z).
  assert (j = len (X +:+ Y)) as -> by (rewrite len_append; lia).
  rewrite slice_from_len.
  apply app_assoc_s.
Qed.

Lemma X22_typing_at_caret_witness :
  ∃ s2 caret2 dm2,
    edit Scenario.st_AxBC
      (TextNodePos.mk (TextNodeID.mk (Scenario.tk 2 Scenario.actorC) 0) 1)
      (TextNodePos.mk (TextNodeID.mk (Scenario.tk 2 Scenario.actorC) 0) 1)
      (Some ∅) "y" (Scenario.tk 3 Scenario.actorC) = Ok (s2, caret2, dm2) ∧
    marshal s2 =
      Ok (slice_to (Z.to_nat 1) "ABC" +:+ "x" +:+ "y" +:+
          slice_from (Z.to_nat 1) "ABC").
Proof.
  apply (X22_typing_at_caret Scenario.st_ABC Scenario.st_AxBC 1 1
           (Scenario.posA 1) (Scenario.posA 1)
           (TextNodePos.mk (TextNodeID.mk (Scenario.tk 2 Scenario.actorC) 0) 1)
           None (Some ∅) "x" "y" (Scenario.tk 2 Scenario.actorC)
           (Scenario.tk 3 Scenario.actorC) ∅ "ABC").
  - apply FreshFacts.fresh_st_ABC.
  - vm_compute. discriminate.
  - vm_compute. discriminate.
  - discriminate.
  - vm_compute. reflexivity.
  - vm_compute. reflexivity.
  - vm_compute. reflexivity.
  - lia.
  - vm_compute. discriminate.
  - vm_compute. reflexivity.
  - vm_compute. reflexivity.
  - vm_compute. reflexivity.
  - vm_compute. reflexivity.
Defined.

(* ===================================================================== *)
(** ** Concurrent insertions at one position *)
(* ===================================================================== *)

(** A position at the end of a node resolves to that node without a split,
    and then slides over the nodes created after the edit. *)
Lemma resolve_end (s : RGATreeSplit.t) (pos : TextNodePos.t) (left : handle)
    (editedAt : Ticket.t) :
  wf s → ids_unique s → history_ok s → ends_at s pos left →
  ∃ A run post,
    treeByIndex s = A ++ left :: run ++ post ∧
    Forall (λ h, created_after (heap s) editedAt h = true) run ∧
    (∀ x, head post = Some x → created_after (heap s) editedAt x = false) ∧
    findTextNodeWithSplit s pos editedAt
    = Ok (s, default left (last run), hd_or post None).
Proof.
  intros Hwf Hu Hh [[-> ->]|(n & Hn & Hlive & Hpos & Ha)].
  - destruct (ho_head _ Hh) as (hn & Hhn & Hid).
    assert (TextNodePos.getAbsoluteID (TextNodePos.mk initialTextNodeID 0)
            = TextNode.id hn) as Habs by (rewrite Hid; reflexivity).
    assert (findFloorTextNodePreferToLeft s
              (TextNodePos.getAbsoluteID (TextNodePos.mk initialTextNodeID 0))
            = Ok (initialHead s)) as Hfl.
    { rewrite Habs. unfold findFloorTextNodePreferToLeft.
      rewrite (lookup_by_id _ _ _ Hwf Hu Hhn).
      rewrite (getNode_lookup _ _ _ Hhn).
      cbn [mbind result_mbind result_bind]. rewrite Hid. reflexivity. }
    assert (splitTextNode s (initialHead s)
              (int_sub
                 (TextNodeID.offset
                    (TextNodePos.getAbsoluteID
                       (TextNodePos.mk initialTextNodeID 0)))
                 (TextNodeID.offset (TextNode.id hn)))
            = Ok (s, Some (initialHead s))) as Hsp.
    { rewrite Hid. apply (splitTextNode_zero _ _ _ Hhn). }
    destruct (findTextNodeWithSplit_returns _ _ _ editedAt _ _ _ Hwf Hfl Hhn
                Hsp) as (l1 & run & post & El & Hrun & Hpost & Hres).
    exists l1, run, post. auto.
  - pose proof (wf_ins _ Hwf _ _ Hn) as [[Hr1 Hr2] _ _ _].
    assert (findFloorTextNodePreferToLeft s (TextNodePos.getAbsoluteID pos)
            = Ok left) as Hfl.
    { rewrite Ha. apply resolve_inside; try assumption. lia. }
    assert (int_sub (TextNodeID.offset (TextNodePos.getAbsoluteID pos))
              (TextNodeID.offset (TextNode.id n)) = TextNode.contentLen n)
      as Hrel.
    { rewrite Ha. simpl. unfold int_sub. rewrite wrap_id.
      - unfold offset_of. lia.
      - unfold offset_of, int_min, int_max in *. lia. }
    assert (splitTextNode s left
              (int_sub (TextNodeID.offset (TextNodePos.getAbsoluteID pos))
                 (TextNodeID.offset (TextNode.id n)))
            = Ok (s, TextNode.next n)) as Hsp.
    { rewrite Hrel. apply (splitTextNode_full _ _ _ Hn). lia. }
    destruct (findTextNodeWithSplit_returns _ _ _ editedAt _ _ _ Hwf Hfl Hn
                Hsp) as (l1 & run & post & El & Hrun & Hpost & Hres).
    exists l1, run, post. auto.
Qed.

(** An edit with an empty range and a content links one new node in after
    the node its position resolves to. *)
Lemma insert_unfold (s s1 : RGATreeSplit.t) (pos : TextNodePos.t)
    (m : option (gmap string Ticket.t)) (content : string)
    (editedAt : Ticket.t) (left : handle) (right : option handle)
    (p : TextNode.t) :
  wf s → findTextNodeWithSplit s pos editedAt = Ok (s1, left, right) →
  heap s1 !! left = Some p → content ≠ EmptyString →
  edit s pos pos m content editedAt
  = Ok (insert_state s1 left p editedAt content,
        TextNodePos.mk (TextNodeID.mk editedAt 0) (len content), ∅).
Proof.
  intros Hwf Hres Hp Hne.
  pose proof (findTextNodeWithSplit_again _ _ _ _ _ _ Hwf Hres) as Hres2.
  destruct (wf_findTextNodeWithSplit _ _ _ _ _ _ Hwf Hres)
    as (Hwf1 & _ & _ & ln & Hln & Hnx).
  pose proof (findBetween_same s1 right) as Hfb.
  assert (deleteNodes s1 [] m editedAt = Ok (s1, ∅)) as Hdel by reflexivity.
  assert (∃ cn, heap s1 !! default left right = Some cn) as [cn Hcn].
  { destruct right as [x|]; simpl; [|eauto].
    apply lookup_lt_is_Some.
    apply (wf_next_valid _ _ _ _ Hwf1 Hln Hnx). }
  rewrite (edit_unfold _ _ _ _ _ _ _ content _ _ _ _ _ _ _ _
             Hres Hres2 Hfb Hdel Hcn).
  destruct (String.eqb content EmptyString) eqn:Eb; cbn [negb].
  { apply String.eqb_eq in Eb. contradiction. }
  rewrite (insert_returns _ _ _ editedAt content Hwf1 Hp).
  cbn [mbind result_mbind result_bind]. cbn [heap].
  rewrite (getNode_lookup _ _ _
             (insert_lookup_new _ _ _ editedAt content Hwf1 Hp)).
  reflexivity.
Qed.

(** The nodes already there read the same after an insertion. *)
Lemma insert_old_text (s : RGATreeSplit.t) (prev : handle) (p : TextNode.t)
    (editedAt : Ticket.t) (content : string) (l : list handle) :
  wf s → heap s !! prev = Some p →
  (∀ h, h ∈ l → h ∈ treeByIndex s) →
  live_text (heap (insert_state s prev p editedAt content)) l
  = live_text (heap s) l.
Proof.
  intros Hwf Hp Hl. apply live_text_ext. intros h Hh.
  destruct (chain_valid _ _ _ (wf_chain _ Hwf) (Hl _ Hh)) as [y Hy].
  destruct (insert_lookup_old _ _ _ editedAt content Hwf Hp _ _ Hy)
    as (y' & Hy' & Hpl & _).
  cbn [heap insert_state]. rewrite Hy', Hy. simpl. rewrite Hpl. reflexivity.
Qed.

(** The traversal and the visible text after an insertion behind [prev]. *)
Lemma insert_text (s : RGATreeSplit.t) (prev : handle) (p : TextNode.t)
    (editedAt : Ticket.t) (content : string) (A R : list handle) :
  wf s → heap s !! prev = Some p → treeByIndex s = A ++ prev :: R →
  treeByIndex (insert_state s prev p editedAt content)
    = A ++ prev :: length (heap s) :: R ∧
  live_text (heap (insert_state s prev p editedAt content))
    [length (heap s)] = content ∧
  live_text (heap (insert_state s prev p editedAt content))
    (treeByIndex (insert_state s prev p editedAt content))
  = live_text (heap s) (A ++ [prev]) +:+ content +:+ live_text (heap s) R.
Proof.
  intros Hwf Hp El.
  pose proof (wf_chain _ Hwf) as Hc.
  pose proof (chain_nodup _ _ Hc) as Hnd. rewrite El in Hnd.
  assert (prev ∉ A) as HpA.
  { intros Hx. apply NoDup_app in Hnd as (_ & Hd & _).
    apply (Hd _ Hx). apply elem_of_cons. auto. }
  assert (treeByIndex (insert_state s prev p editedAt content)
          = A ++ prev :: length (heap s) :: R) as El'.
  { cbn [treeByIndex insert_state]. rewrite El.
    apply splay_InsertAfter_middle, HpA. }
  assert (live_text (heap (insert_state s prev p editedAt content))
            [length (heap s)] = content) as Hnew.
  { apply (live_text_live _ _ _
             (insert_lookup_new _ _ _ editedAt content Hwf Hp)).
    reflexivity. }
  split; [exact El'|]. split; [exact Hnew|].
  rewrite El'.
  replace (A ++ prev :: length (heap s) :: R)
    with ((A ++ [prev]) ++ [length (heap s)] ++ R)
    by (rewrite <- app_assoc; reflexivity).
  rewrite (live_text_app _ (A ++ [prev])).
  rewrite (live_text_app _ [length (heap s)] R), Hnew.
  rewrite !(insert_old_text s prev p editedAt content); try assumption.
  - reflexivity.
  - intros h Hh. rewrite El. apply elem_of_app. right.
    apply elem_of_cons. auto.
  - intros h Hh. rewrite El.
    replace (A ++ prev :: R) with ((A ++ [prev]) ++ R)
      by (rewrite <- app_assoc; reflexivity).
    apply elem_of_app. auto.
Qed.

(** A position that names the end of a node still does after an
    insertion. *)
Lemma ends_at_insert (s : RGATreeSplit.t) (prev : handle) (p : TextNode.t)
    (editedAt : Ticket.t) (content : string) (pos : TextNodePos.t)
    (left : handle) :
  wf s → heap s !! prev = Some p → ends_at s pos left →
  ends_at (insert_state s prev p editedAt content) pos left.
Proof.
  intros Hwf Hp [[-> ->]|(n & Hn & Hlive & Hpos & Ha)].
  - left. split; reflexivity.
  - right.
    destruct (insert_lookup_old _ _ _ editedAt content Hwf Hp _ _ Hn)
      as (y' & Hy' & Hpl & _).
    unfold payload in Hpl. injection Hpl as E1 E2 E3.
    exists y'. split; [exact Hy'|].
    unfold TextNode.contentLen, TextNode.createdAt, offset_of in *.
    rewrite E1, E2, E3. auto.
Qed.

(** Ticket reuse apart, a resolution at the latest ticket keeps a ticket
    fresh. *)
Lemma fresh_live_step (s s1 : RGATreeSplit.t) (left : handle)
    (t : Ticket.t) :
  wf s → live_step s s1 left → fresh_in (heap s) t → fresh_in (heap s1) t.
Proof.
  intros Hwf [->|(n & k & Hn & _ & Hk & ->)] Hf; [exact Hf|].
  apply fresh_split; assumption.
Qed.

(** Two insertions at one position, one after the other: the content with
    the later ticket comes first, whichever is applied first. *)
Lemma insert_then_insert (s : RGATreeSplit.t) (pos : TextNodePos.t) (i : Z)
    (m m' : option (gmap string Ticket.t)) (c c' : string)
    (e e' : Ticket.t) :
  wf s → ids_unique s → history_ok s →
  all_created (λ t, negb (Ticket.After t e)) (heap s) →
  all_created (λ t, negb (Ticket.After t e')) (heap s) →
  fresh_in (heap s) e →
  c ≠ EmptyString → c' ≠ EmptyString →
  len c ≤ int_max → len c' ≤ int_max →
  denotes s pos i →
  ∃ sa ca da sab cab dab X Z,
    edit s pos pos m c e = Ok (sa, ca, da) ∧
    edit sa pos pos m' c' e' = Ok (sab, cab, dab) ∧
    live_text (heap s) (treeByIndex s) = X +:+ Z ∧ len X = i ∧
    wf sab ∧
    live_text (heap sab) (treeByIndex sab) =
      X +:+ (if Ticket.After e e' then c +:+ c' else c' +:+ c) +:+ Z.
Proof.
  intros Hwf Hu Hh Hnew Hnew' Hf Hc Hc' Hlen Hlen' Hden.
  destruct (resolve_denotes _ _ _ _ Hwf Hu Hh Hnew Hden)
    as (s1 & fl & A & B & Hres & El1 & Hlen1 & Hstep & Hend).
  destruct (live_step_keeps _ _ _ _ Hstep Hwf Hu Hh Hnew')
    as (Hwf1 & Hu1 & Hh1 & Hnew1' & Htext1 & _).
  pose proof (fresh_live_step _ _ _ _ Hwf Hstep Hf) as Hf1.
  pose proof (wf_chain _ Hwf1) as Hc1.
  assert (fl ∈ treeByIndex s1) as Hfl.
  { rewrite El1. apply elem_of_app. right. apply elem_of_cons. auto. }
  destruct (chain_valid _ _ _ Hc1 Hfl) as [p Hp].
  (* the first insertion *)
  pose proof (insert_unfold _ _ _ m c _ _ _ _ Hwf Hres Hp Hc) as He.
  set (sa := insert_state s1 fl p e c) in *.
  assert (wf sa) as Hwfa by (apply insert_wf; assumption).
  assert (ids_unique sa) as Hua by (apply ids_unique_insert; assumption).
  assert (history_ok sa) as Hha by (apply history_insert; assumption).
  pose proof (ends_at_insert _ _ _ e c _ _ Hwf1 Hp Hend) as Henda.
  fold sa in Henda.
  destruct (insert_text s1 fl p e c A B Hwf1 Hp El1)
    as (Ela & Hnewa & Htexta).
  fold sa in Ela, Hnewa, Htexta.
  pose proof (chain_nodup _ _ (wf_chain _ Hwfa)) as Hnda.
  (* the second resolution *)
  destruct (resolve_end sa pos fl e' Hwfa Hua Hha Henda)
    as (A' & run & post & Ela' & Hrun & Hpost & Hres').
  rewrite Ela in Ela', Hnda.
  destruct (NoDup_split_unique _ _ _ _ _ Hnda Ela') as [<- Erp].
  assert (created_after (heap sa) e' (length (heap s1)) = Ticket.After e e')
    as Hca.
  { unfold created_after, sa, insert_state. cbn [heap].
    rewrite (insert_lookup_new _ _ _ e c Hwf1 Hp). reflexivity. }
  assert (∀ y, y ∈ B → created_after (heap sa) e' y = false) as Hold.
  { intros y Hy.
    assert (y ∈ treeByIndex s1) as Hy1.
    { rewrite El1. apply elem_of_app. right. apply elem_of_cons. auto. }
    destruct (chain_valid _ _ _ Hc1 Hy1) as [yn Hyn].
    destruct (insert_lookup_old _ _ _ e c Hwf1 Hp _ _ Hyn)
      as (y' & Hy' & Hpl & _).
    unfold created_after, sa, insert_state. cbn [heap]. rewrite Hy'.
    unfold payload in Hpl. injection Hpl as E1 _ _.
    unfold TextNode.createdAt. rewrite E1.
    specialize (Hnew1' _ _ Hyn). simpl in Hnew1'.
    apply negb_true_iff in Hnew1'. exact Hnew1'. }
  assert (length (heap s1) ∈ treeByIndex sa) as Hn_in.
  { rewrite Ela. apply elem_of_app. right. rewrite !elem_of_cons. auto. }
  destruct (chain_valid _ _ _ (wf_chain _ Hwfa) Hn_in) as [pn Hpn].
  assert (fl ∈ treeByIndex sa) as Hfla.
  { rewrite Ela. apply elem_of_app. right. apply elem_of_cons. auto. }
  destruct (chain_valid _ _ _ (wf_chain _ Hwfa) Hfla) as [pa Hpa].
  assert (live_text (heap sa) (A ++ [fl])
          = live_text (heap s1) (A ++ [fl])) as HtA.
  { apply insert_old_text; try assumption.
    intros h Hh'. rewrite El1.
    replace (A ++ fl :: B) with ((A ++ [fl]) ++ B)
      by (rewrite <- app_assoc; reflexivity).
    apply elem_of_app. auto. }
  assert (live_text (heap sa) B = live_text (heap s1) B) as HtB.
  { apply insert_old_text; try assumption.
    intros h Hh'. rewrite El1. apply elem_of_app. right.
    apply elem_of_cons. auto. }
  assert (live_text (heap s) (treeByIndex s)
          = live_text (heap s1) (A ++ [fl]) +:+ live_text (heap s1) B)
    as Htext.
  { rewrite <- Htext1, El1.
    replace (A ++ fl :: B) with ((A ++ [fl]) ++ B)
      by (rewrite <- app_assoc; reflexivity).
    apply live_text_app. }
  destruct (Ticket.After e e') eqn:Eaft.
  - (* the node just inserted is the later one: slide over it *)
    assert (run = [length (heap s1)] ∧ post = B) as [-> ->].
    { destruct run as [|x run].
      - simpl in Erp. subst post.
        specialize (Hpost _ eq_refl). congruence.
      - simpl in Erp. injection Erp as Ex Erp. subst x.
        destruct run as [|y run]; [simpl in Erp; auto|].
        exfalso. apply Forall_inv_tail, Forall_inv in Hrun.
        rewrite Hold in Hrun; [discriminate|].
        rewrite Erp. apply elem_of_cons. auto. }
    simpl in Hres'.
    pose proof (insert_unfold _ _ _ m' c' _ _ _ _ Hwfa Hres' Hpn Hc')
      as He'.
    destruct (insert_text sa (length (heap s1)) pn e' c' (A ++ [fl]) B
                Hwfa Hpn) as (_ & _ & Htextb).
    { rewrite Ela, <- app_assoc. reflexivity. }
    eexists sa, _, _, _, _, _, _, _.
    split; [exact He|]. split; [exact He'|].
    split; [exact Htext|]. split; [exact Hlen1|].
    split; [apply insert_wf; assumption|].
    rewrite Htextb.
    rewrite (live_text_app _ (A ++ [fl]) [length (heap s1)]).
    rewrite Hnewa, HtA, HtB.
    rewrite !app_assoc_s. reflexivity.
  - (* the node just inserted is the earlier one: stay in front of it *)
    assert (run = [] ∧ post = length (heap s1) :: B) as [-> ->].
    { destruct run as [|x run]; [auto|].
      exfalso. simpl in Erp. injection Erp as Ex _. subst x.
      apply Forall_inv in Hrun. congruence. }
    simpl in Hres'.
    pose proof (insert_unfold _ _ _ m' c' _ _ _ _ Hwfa Hres' Hpa Hc')
      as He'.
    destruct (insert_text sa fl pa e' c' A (length (heap s1) :: B)
                Hwfa Hpa Ela) as (_ & _ & Htextb).
    eexists sa, _, _, _, _, _, _, _.
    split; [exact He|]. split; [exact He'|].
    split; [exact Htext|]. split; [exact Hlen1|].
    split; [apply insert_wf; assumption|].
    rewrite Htextb.
    change (length (heap s1) :: B) with ([length (heap s1)] ++ B).
    rewrite (live_text_app _ [length (heap s1)] B).
    rewrite Hnewa, HtA, HtB. rewrite !app_assoc_s. reflexivity.
Qed.

(** X23: two concurrent insertions at one position converge.  Both made on
    a state none of whose nodes was created after their tickets, at the
    position of index [i], they can be applied in either order: both edits
    return in both orders, and [marshal] is the same afterwards, the text
    before index [i], the content with the later ticket, the content with
    the earlier ticket, and the text from index [i] on. *)
Theorem X23_concurrent_inserts_converge (s : RGATreeSplit.t) (i : Z)
    (m1 m2 : option (gmap string Ticket.t)) (c1 c2 : string)
    (e1 e2 : Ticket.t) (str : string) :
  reachable_fresh s →
  c1 ≠ EmptyString → c2 ≠ EmptyString →
  len c1 ≤ int_max → len c2 ≤ int_max →
  newest (heap s) e1 = true → newest (heap s) e2 = true →
  fresh_ticket (heap s) e1 = true → fresh_ticket (heap s) e2 = true →
  Ticket.After e2 e1 = true →
  0 ≤ i ≤ visible_total s → marshal s = Ok str →
  ∃ pos sa ca da sab cab dab sb cb db sba cba dba,
    findTextNodePos s i = Ok pos ∧
    edit s pos pos m1 c1 e1 = Ok (sa, ca, da) ∧
    edit sa pos pos m2 c2 e2 = Ok (sab, cab, dab) ∧
    edit s pos pos m2 c2 e2 = Ok (sb, cb, db) ∧
    edit sb pos pos m1 c1 e1 = Ok (sba, cba, dba) ∧
    marshal sab =
      Ok (slice_to (Z.to_nat i) str +:+ (c2 +:+ c1) +:+
          slice_from (Z.to_nat i) str) ∧
    marshal sba = marshal sab.
Proof.
  intros Hr Hc1 Hc2 Hlen1 Hlen2 Hnew1 Hnew2 Hf1 Hf2 Haft Hi Hm.
  pose proof (reachable_fresh_reachable _ Hr) as Hre.
  pose proof (reachable_wf _ Hre) as Hwf.
  pose proof (reachable_fresh_ids _ Hr) as Hu.
  pose proof (reachable_history _ Hre) as Hh.
  apply (all_created_spec (λ c, negb (Ticket.After c e1))) in Hnew1.
  apply (all_created_spec (λ c, negb (Ticket.After c e2))) in Hnew2.
  apply fresh_ticket_spec in Hf1, Hf2.
  destruct (findTextNodePos_range s i Hwf) as [Hpos _].
  destruct (Hpos Hi) as [pos Hp].
  pose proof (findTextNodePos_denotes _ _ _ Hwf Hh Hp) as Hd.
  assert (Ticket.After e1 e2 = false) as Haft'.
  { unfold Ticket.After in *.
    rewrite (TicketOrder.ticket_antisym e2 e1).
    apply Z.ltb_lt in Haft. apply Z.ltb_ge. lia. }
  destruct (insert_then_insert s pos i m1 m2 c1 c2 e1 e2 Hwf Hu Hh Hnew1
              Hnew2 Hf1 Hc1 Hc2 Hlen1 Hlen2 Hd)
    as (sa & ca & da & sab & cab & dab & X & Z & Ea & Eab & Hxz & HX
        & Hwfab & Htab).
  destruct (insert_then_insert s pos i m2 m1 c2 c1 e2 e1 Hwf Hu Hh Hnew2
              Hnew1 Hf2 Hc2 Hc1 Hlen2 Hlen1 Hd)
    as (sb & cb & db & sba & cba & dba & X' & Z' & Eb & Eba & Hxz' & HX'
        & Hwfba & Htba).
  rewrite Haft' in Htab. rewrite Haft in Htba.
  rewrite (marshal_chain s _ (wf_chain _ Hwf) (wf_head _ Hwf)) in Hm.
  injection Hm as <-.
  change (concat_strings (live_values (heap s) (treeByIndex s)))
    with (live_text (heap s) (treeByIndex s)).
  assert (∀ X0 Z0, live_text (heap s) (treeByIndex s) = X0 +:+ Z0 →
            len X0 = i →
            X0 = slice_to (Z.to_nat i) (live_text (heap s) (treeByIndex s)) ∧
            Z0 = slice_from (Z.to_nat i)
                   (live_text (heap s) (treeByIndex s))) as Hsl.
  { intros X0 Z0 E <-. rewrite E, slice_to_len, slice_from_len. auto. }
  destruct (Hsl _ _ Hxz HX) as [EX EZ].
  destruct (Hsl _ _ Hxz' HX') as [EX' EZ'].
  exists pos, sa, ca, da, sab, cab, dab, sb, cb, db, sba, cba, dba.
  split; [exact Hp|]. split; [exact Ea|]. split; [exact Eab|].
  split; [exact Eb|]. split; [exact Eba|].
  rewrite (marshal_chain sab _ (wf_chain _ Hwfab) (wf_head _ Hwfab)).
  rewrite (marshal_chain sba _ (wf_chain _ Hwfba) (wf_head _ Hwfba)).
  change (concat_strings (live_values (heap sab) (treeByIndex sab)))
    with (live_text (heap sab) (treeByIndex sab)).
  change (concat_strings (live_values (heap sba) (treeByIndex sba)))
    with (live_text (heap sba) (treeByIndex sba)).
  rewrite Htab, Htba, <- EX, <- EZ.
  split; [reflexivity|].
  rewrite EX, EZ, <- EX', <- EZ'. reflexivity.
Qed.

Lemma X23_concurrent_inserts_converge_witness :
  ∃ pos sa ca da sab cab dab sb cb db sba cba dba,
    findTextNodePos Scenario.st_ABC 1 = Ok pos ∧
    edit Scenario.st_ABC pos pos None "x" (Scenario.tk 2 Scenario.actorB)
      = Ok (sa, ca, da) ∧
    edit sa pos pos None "y" (Scenario.tk 2 Scenario.actorC)
      = Ok (sab, cab, dab) ∧
    edit Scenario.st_ABC pos pos None "y" (Scenario.tk 2 Scenario.actorC)
      = Ok (sb, cb, db) ∧
    edit sb pos pos None "x" (Scenario.tk 2 Scenario.actorB)
      = Ok (sba, cba, dba) ∧
    marshal sab =
      Ok (slice_to (Z.to_nat 1) "ABC" +:+ ("y" +:+ "x") +:+
          slice_from (Z.to_nat 1) "ABC") ∧
    marshal sba = marshal sab.
Proof.
  apply (X23_concurrent_inserts_converge Scenario.st_ABC 1 None None
           "x" "y" (Scenario.tk 2 Scenario.actorB)
           (Scenario.tk 2 Scenario.actorC) "ABC").
  - apply FreshFacts.fresh_st_ABC.
  - discriminate.
  - discriminate.
  - vm_compute. discriminate.
  - vm_compute. discriminate.
  - vm_compute. reflexivity.
  - vm_compute. reflexivity.
  - vm_compute. reflexivity.
  - vm_compute. reflexivity.
  - vm_compute. reflexivity.
  - vm_compute. split; discriminate.
  - vm_compute. reflexivity.
Defined.

(* ===================================================================== *)
(** ** Strings cut in two ways, and positions after an insertion *)
(* ===================================================================== *)

(** Two ways to cut one string: the shorter prefix is a prefix of the
    longer. *)
Lemma prefix_split (x z x' z' : string) :
  x +:+ z = x' +:+ z' → len x ≤ len x' →
  ∃ q, x' = x +:+ q ∧ z = q +:+ z'.
Proof.
  revert x'. induction x as [|a x IH]; intros x' E Hl.
  - exists x'. rewrite append_nil in E. rewrite append_nil. auto.
  - destruct x' as [|a' x']; [unfold len in Hl; simpl in Hl; lia|].
    rewrite !append_cons in E. injection E as -> E.
    destruct (IH x' E) as (q & -> & ->).
    { unfold len in *. simpl in Hl. lia. }
    exists q. rewrite append_cons. auto.
Qed.

Lemma split_unique (x z x' z' : string) :
  x +:+ z = x' +:+ z' → len x = len x' → x = x' ∧ z = z'.
Proof.
  intros E Hl. destruct (prefix_split _ _ _ _ E) as (q & -> & ->); [lia|].
  rewrite len_append in Hl.
  destruct q as [|a q]; [|unfold len in Hl; simpl in Hl; lia].
  rewrite app_empty_r, append_nil. auto.
Qed.

(** Where a position points after an insertion behind [prev]: to the same
    index when it lies at or in front of the insertion, and [len(content)]
    further on when it lies behind. *)
Lemma denotes_insert (s : RGATreeSplit.t) (prev : handle) (p : TextNode.t)
    (editedAt : Ticket.t) (content : string) (A R : list handle)
    (pos : TextNodePos.t) (j : Z) :
  wf s → heap s !! prev = Some p → treeByIndex s = A ++ prev :: R →
  denotes s pos j →
  denotes (insert_state s prev p editedAt content) pos
    (if decide (j ≤ len (live_text (heap s) (A ++ [prev])))
     then j else j + len content).
Proof.
  intros Hwf Hp El
    [[-> ->]|(h & n & la & lb & a & El' & Hn & Hlive & Ha & Hr & ->)].
  - rewrite decide_True by apply len_nonneg. left. auto.
  - destruct (insert_text s prev p editedAt content A R Hwf Hp El)
      as (Ela & Hnew & _).
    destruct (insert_lookup_old _ _ _ editedAt content Hwf Hp _ _ Hn)
      as (n' & Hn' & Hpl & _).
    unfold payload in Hpl. injection Hpl as E1 E2 E3.
    assert (TextNode.createdAt n' = TextNode.createdAt n ∧
            offset_of n' = offset_of n ∧
            TextNode.contentLen n' = TextNode.contentLen n) as (Ec & Eo & Econ).
    { unfold TextNode.createdAt, offset_of, TextNode.contentLen.
      rewrite E1, E2. auto. }
    pose proof (len_nonneg (TextNode.value n)) as Hvn.
    assert ((∃ k, A ++ [prev] = la ++ h :: k ∧ lb = k ++ R) ∨
            (∃ k, la = (A ++ [prev]) ++ k ∧ R = k ++ h :: lb)) as Hcase.
    { pose proof El' as El0. rewrite El in El0.
      replace (A ++ prev :: R) with ((A ++ [prev]) ++ R) in El0
        by (rewrite <- app_assoc; reflexivity).
      apply app_eq_inv in El0 as [(k & F1 & F2)|(k & F1 & F2)].
      - destruct k as [|h' k].
        + right. exists []. rewrite app_nil_r in F1. rewrite app_nil_r.
          simpl in F2. auto.
        + simpl in F2. injection F2 as <- F2. left. eauto.
      - right. eauto. }
    destruct Hcase as [(k & F1 & F2)|(k & F1 & F2)].
    + (* at or in front of the insertion *)
      assert (len (live_text (heap s) la) + (a - offset_of n)
              ≤ len (live_text (heap s) (A ++ [prev]))) as Hle.
      { rewrite F1.
        replace (la ++ h :: k) with (la ++ [h] ++ k) by reflexivity.
        rewrite !live_text_app, !len_append.
        rewrite (live_text_live _ _ _ Hn Hlive).
        pose proof (len_nonneg (live_text (heap s) k)).
        unfold TextNode.contentLen in Hr. lia. }
      rewrite decide_True by exact Hle.
      right. exists h, n', la, (k ++ length (heap s) :: R), a.
      split.
      { rewrite Ela.
        replace (A ++ prev :: length (heap s) :: R)
          with ((A ++ [prev]) ++ length (heap s) :: R)
          by (rewrite <- app_assoc; reflexivity).
        rewrite F1, <- app_assoc. reflexivity. }
      split; [exact Hn'|]. split; [congruence|].
      split; [rewrite Ha, Ec; reflexivity|].
      split; [rewrite Eo, Econ; exact Hr|].
      rewrite Eo. f_equal. f_equal. symmetry.
      apply insert_old_text; try assumption.
      intros x Hx. rewrite El'. apply elem_of_app. auto.
    + (* behind the insertion *)
      assert (¬ len (live_text (heap s) la) + (a - offset_of n)
                ≤ len (live_text (heap s) (A ++ [prev]))) as Hgt.
      { rewrite F1, live_text_app, len_append.
        pose proof (len_nonneg (live_text (heap s) k)). lia. }
      rewrite decide_False by exact Hgt.
      right.
      exists h, n', ((A ++ [prev]) ++ length (heap s) :: k), lb, a.
      split.
      { rewrite Ela, F2, <- !app_assoc. reflexivity. }
      split; [exact Hn'|]. split; [congruence|].
      split; [rewrite Ha, Ec; reflexivity|].
      split; [rewrite Eo, Econ; exact Hr|].
      rewrite Eo, F1.
      replace ((A ++ [prev]) ++ length (heap s) :: k)
        with ((A ++ [prev]) ++ [length (heap s)] ++ k) by reflexivity.
      rewrite !(live_text_app _ (A ++ [prev])).
      rewrite (live_text_app _ [length (heap s)] k), Hnew.
      assert (∀ l, (∀ x, x ∈ l → x ∈ treeByIndex s) →
                live_text (heap (insert_state s prev p editedAt content)) l
                = live_text (heap s) l) as Hold.
      { intros l Hl. apply insert_old_text; assumption. }
      rewrite (Hold (A ++ [prev])), (Hold k).
      * rewrite !len_append. lia.
      * intros x Hx. rewrite El, F2. apply elem_of_app. right.
        apply elem_of_cons. right. apply elem_of_app. auto.
      * intros x Hx. rewrite El.
        replace (A ++ prev :: R) with ((A ++ [prev]) ++ R)
          by (rewrite <- app_assoc; reflexivity).
        apply elem_of_app. auto.
Qed.

(* ===================================================================== *)
(** ** Edits among nodes they do not know *)
(* ===================================================================== *)

Lemma known_all (hp : Heap) (m : option (gmap string Ticket.t))
    (editedAt : Ticket.t) :
  all_created (λ c, negb (Ticket.After c editedAt)) hp →
  all_created
    (λ c, negb (Ticket.After c (maxCreatedAtFor m (Ticket.ActorIDHex c))))
    hp →
  all_created (λ c, negb (late_ticket m editedAt c)) hp.
Proof.
  intros H1 H2 h n Hn. specialize (H1 _ _ Hn). specialize (H2 _ _ Hn).
  simpl in *. unfold late_ticket.
  apply negb_true_iff in H1, H2. rewrite H1, H2. reflexivity.
Qed.

Lemma apart_none (s : RGATreeSplit.t) (m : option (gmap string Ticket.t))
    (editedAt : Ticket.t) (i j : Z) :
  all_created (λ c, negb (late_ticket m editedAt c)) (heap s) →
  apart s m editedAt i j.
Proof.
  intros Hall A y B yn _ Hy Hlate. specialize (Hall _ _ Hy). simpl in Hall.
  rewrite Hlate in Hall. discriminate.
Qed.

(** Where the node a resolution split stood before. *)
Lemma live_step_where (s s1 : RGATreeSplit.t) (node : handle)
    (A R : list handle) :
  wf s → live_step s s1 node → treeByIndex s1 = A ++ node :: R →
  ∃ B0, treeByIndex s = A ++ node :: B0 ∧
    live_text (heap s1) A = live_text (heap s) A ∧
    len (live_text (heap s1) (A ++ [node]))
      ≤ len (live_text (heap s) (A ++ [node])).
Proof.
  intros Hwf [->|(n & k & Hn & Hl & Hk & ->)] El.
  - exists R. split; [exact El|]. split; [reflexivity|lia].
  - pose proof (wf_chain _ Hwf) as Hc.
    assert (node ∈ treeByIndex s) as Hin.
    { apply (chain_elem _ _ _ Hc). apply lookup_lt_is_Some. eauto. }
    apply list_elem_of_split in Hin as (A0 & B0 & E0).
    pose proof (chain_nodup _ _ Hc) as Hnd. rewrite E0 in Hnd.
    assert (node ∉ A0) as HnA.
    { intros Hx. apply NoDup_app in Hnd as (_ & Hd & _).
      apply (Hd _ Hx). apply elem_of_cons. auto. }
    pose proof (split_wf _ _ _ _ Hwf Hn Hk) as Hwf1.
    pose proof (chain_nodup _ _ (wf_chain _ Hwf1)) as Hnd1.
    simpl in El, Hnd1.
    rewrite E0, splay_InsertAfter_middle in El, Hnd1 by exact HnA.
    destruct (NoDup_split_unique _ _ _ _ _ Hnd1 El) as [-> _].
    assert (length (heap s) ∉ A) as HfA.
    { intros Hx. assert (length (heap s) ∈ treeByIndex s) as Hx'.
      { rewrite E0. apply elem_of_app. auto. }
      apply (chain_elem _ _ _ Hc) in Hx'. lia. }
    exists B0. split; [exact E0|].
    pose proof (split_live_other s node n k Hwf Hn A HnA HfA) as EA.
    split; [exact EA|].
    rewrite !live_text_app, !len_append, EA.
    assert (live_text (heap (split_state s node n k)) [node]
            = TextNode.value (split_left n k (length (heap s)))) as ->.
    { apply live_text_live; [|exact Hl].
      apply (split_lookup_node _ _ _ _ Hwf Hn). }
    rewrite (live_text_live _ _ _ Hn Hl).
    destruct (split_right_facts _ _ _ _ Hwf Hn Hk) as (_ & _ & Hll & _).
    unfold TextNode.contentLen in *. lia.
Qed.

(** Splitting a node the edit knows keeps the others out of its range. *)
Lemma apart_live_step (s s1 : RGATreeSplit.t) (node : handle)
    (m : option (gmap string Ticket.t)) (editedAt : Ticket.t) (i j : Z) :
  wf s → apart s m editedAt i j → live_step s s1 node →
  (∀ n, heap s !! node = Some n →
        late_ticket m editedAt (TextNode.createdAt n) = false) →
  apart s1 m editedAt i j.
Proof.
  intros Hwf Hcl [->|(n & k & Hn & Hl & Hk & ->)] Hnl; [exact Hcl|].
  intros A y B yn El Hy Hlate.
  pose proof (wf_chain _ Hwf) as Hc.
  unfold split_state in Hy. cbn [heap] in Hy.
  apply (split_lookup_inv _ _ _ k Hwf Hn) in Hy
    as [[-> ->]|[[-> ->]|(Hy1 & Hy2 & y0 & Hy0 & ->)]].
  - exfalso. unfold TextNode.createdAt, split_left in Hlate.
    cbn [TextNode.id] in Hlate.
    pose proof (Hnl _ Hn) as Hx. unfold TextNode.createdAt in Hx.
    rewrite Hx in Hlate. discriminate.
  - exfalso.
    destruct (split_right_facts _ _ _ _ Hwf Hn Hk) as (_ & _ & _ & Hcr).
    rewrite Hcr, (Hnl _ Hn) in Hlate. discriminate.
  - assert (TextNode.createdAt (split_other n (length (heap s)) y y0)
            = TextNode.createdAt y0) as Ecr by reflexivity.
    rewrite Ecr in Hlate.
    assert (y ∈ treeByIndex s) as Hin.
    { apply (chain_elem _ _ _ Hc). apply lookup_lt_is_Some. eauto. }
    apply list_elem_of_split in Hin as (A0 & B0 & E0).
    assert (live_step s (split_state s node n k) node) as Hstep
      by (right; exists n, k; auto).
    destruct (live_step_keeps_boundary _ _ _ _ _ _ Hwf Hstep
                (not_eq_sym Hy1) E0) as (A' & B' & E' & HtA & _).
    pose proof (split_wf _ _ _ _ Hwf Hn Hk) as Hwf1.
    pose proof (chain_nodup _ _ (wf_chain _ Hwf1)) as Hnd1.
    change (NoDup (treeByIndex (split_state s node n k))) in Hnd1.
    rewrite El in Hnd1. rewrite El in E'.
    destruct (NoDup_split_unique _ _ _ _ _ Hnd1 E') as [<- _].
    assert (live_text (heap (split_state s node n k)) [y]
            = live_text (heap s) [y]) as Ey.
    { apply (split_live_other s node n k Hwf Hn).
      - intros Hx. apply list_elem_of_singleton in Hx. auto.
      - intros Hx. apply list_elem_of_singleton in Hx. auto. }
    assert (len (live_text (heap (split_state s node n k)) A)
            = len (live_text (heap s) A0)) as EA.
    { apply (f_equal len) in HtA.
      rewrite !live_text_app, !len_append, Ey in HtA. lia. }
    rewrite HtA, EA. exact (Hcl _ _ _ _ E0 Hy0 Hlate).
Qed.

(** A position at an end of the range resolves without sliding. *)
Lemma resolve_apart (s : RGATreeSplit.t) (pos : TextNodePos.t) (k : Z)
    (m : option (gmap string Ticket.t)) (editedAt : Ticket.t) (i j : Z) :
  wf s → ids_unique s → history_ok s → apart s m editedAt i j →
  i ≤ k ≤ j → denotes s pos k →
  ∃ s1 left A B,
    findTextNodeWithSplit s pos editedAt = Ok (s1, left, hd_or B None) ∧
    treeByIndex s1 = A ++ left :: B ∧
    len (live_text (heap s1) (A ++ [left])) = k ∧
    live_step s s1 left ∧ apart s1 m editedAt i j.
Proof.
  intros Hwf Hu Hh Hcl Hk Hden.
  destruct (resolve_denotes_gen s pos k editedAt Hwf Hu Hh Hden)
    as (s1 & node & A & run & post & Hres & El & Hrun & _ & Hlen & Hstep
        & _ & _).
  destruct (live_step_where _ _ _ _ _ Hwf Hstep El)
    as (B0 & E0 & EA & Hle).
  assert (∀ n, heap s !! node = Some n →
               late_ticket m editedAt (TextNode.createdAt n) = false)
    as Hnl.
  { intros n Hn.
    destruct (late_ticket m editedAt (TextNode.createdAt n)) eqn:El';
      [|reflexivity].
    exfalso. destruct (Hcl _ _ _ _ E0 Hn El') as [H|H]; [lia|].
    rewrite <- EA in H.
    rewrite live_text_app, len_append in Hlen.
    pose proof (len_nonneg (live_text (heap s1) [node])). lia. }
  pose proof (apart_live_step _ _ _ _ _ _ _ Hwf Hcl Hstep Hnl) as Hcl1.
  assert (run = []) as ->.
  { destruct run as [|z run]; [reflexivity|]. exfalso.
    apply Forall_inv in Hrun. unfold created_after in Hrun.
    destruct (heap s1 !! z) as [zn|] eqn:Ez; [|discriminate].
    assert (late_ticket m editedAt (TextNode.createdAt zn) = true) as Hl.
    { unfold late_ticket. rewrite Hrun. reflexivity. }
    assert (treeByIndex s1 = (A ++ [node]) ++ z :: run ++ post) as El'.
    { rewrite El, <- app_assoc. reflexivity. }
    destruct (Hcl1 _ _ _ _ El' Ez Hl) as [H|H]; [|lia].
    rewrite live_text_app, len_append in H.
    pose proof (len_nonneg (live_text (heap s1) [z])). lia. }
  exists s1, node, A, post. simpl in *. auto.
Qed.

(** What [deleteNodes] leaves of the text: the candidates, none of them
    later than the bound of its actor, are gone, the other nodes read the
    same. *)
Lemma deleted_span_gen (hp hp3 : Heap) (m : option (gmap string Ticket.t))
    (editedAt : Ticket.t) (cands : list handle) :
  (∀ h n, h ∈ cands → hp !! h = Some n →
     Ticket.After (TextNode.createdAt n)
       (maxCreatedAtFor m (Ticket.ActorIDHex (TextNode.createdAt n)))
     = false) →
  (∀ j, hp3 !! j =
        if decide (j ∈ cands) then tombstone m editedAt <$> hp !! j
        else hp !! j) →
  live_text hp3 cands = EmptyString ∧
  ∀ l, (∀ h, h ∈ l → h ∉ cands) → live_text hp3 l = live_text hp l.
Proof.
  intros Hcov Hlk. split.
  - unfold live_text.
    assert (∀ l, (∀ h, h ∈ l → h ∈ cands) → live_values hp3 l = []) as H.
    { induction l as [|h l IH]; intros Hsub; [reflexivity|]. simpl.
      assert (h ∈ cands) as Hh by (apply Hsub; apply elem_of_cons; auto).
      rewrite Hlk. rewrite decide_True by exact Hh.
      assert (live_values hp3 l = []) as ->.
      { apply IH. intros x Hx. apply Hsub. apply elem_of_cons. auto. }
      destruct (hp !! h) as [y|] eqn:Ey; simpl; [|reflexivity].
      destruct (tombstone_dead m editedAt y (Hcov _ _ Hh Ey)) as [d ->].
      reflexivity. }
    rewrite H; [reflexivity|auto].
  - intros l Hl. apply live_text_ext. intros h Hin. rewrite Hlk.
    rewrite decide_False by (apply Hl, Hin). reflexivity.
Qed.

Lemma all_created_delete (φ : Ticket.t → bool) (hp hp3 : Heap)
    (m : option (gmap string Ticket.t)) (editedAt : Ticket.t)
    (cands : list handle) :
  (∀ j, hp3 !! j =
        if decide (j ∈ cands) then tombstone m editedAt <$> hp !! j
        else hp !! j) →
  all_created φ hp → all_created φ hp3.
Proof.
  intros Hlk Hall h n Hn. rewrite Hlk in Hn. case_decide.
  - destruct (hp !! h) as [y|] eqn:Ey; simpl in Hn; [|discriminate].
    injection Hn as <-.
    assert (TextNode.createdAt (tombstone m editedAt y)
            = TextNode.createdAt y) as ->.
    { unfold tombstone. destruct (deletable m editedAt y); reflexivity. }
    exact (Hall _ _ Ey).
  - exact (Hall _ _ Hn).
Qed.

(** Where a position points once the candidates are deleted. *)
Lemma denotes_delete (s2 s3 : RGATreeSplit.t)
    (m : option (gmap string Ticket.t)) (editedAt : Ticket.t)
    (P cands D : list handle) (pos : TextNodePos.t) (k : Z) :
  treeByIndex s3 = treeByIndex s2 →
  treeByIndex s2 = P ++ cands ++ D → NoDup (P ++ cands ++ D) →
  (∀ j, heap s3 !! j =
        if decide (j ∈ cands) then tombstone m editedAt <$> heap s2 !! j
        else heap s2 !! j) →
  live_text (heap s3) cands = EmptyString →
  denotes s2 pos k →
  (k ≤ len (live_text (heap s2) P) → denotes s3 pos k) ∧
  (len (live_text (heap s2) (P ++ cands)) < k →
   denotes s3 pos (k - len (live_text (heap s2) cands))).
Proof.
  intros Hix El Hnd Hlk Hdead
    [[-> ->]|(h & n & la & lb & a & El' & Hn & Hlive & Ha & Hr & ->)].
  - split; intros H; [left; auto|].
    pose proof (len_nonneg (live_text (heap s2) (P ++ cands))). lia.
  - assert (∀ l, (∀ x, x ∈ l → x ∉ cands) →
              live_text (heap s3) l = live_text (heap s2) l) as Hkeep.
    { intros l Hl. apply live_text_ext. intros x Hx. rewrite Hlk.
      rewrite decide_False by (apply Hl, Hx). reflexivity. }
    pose proof Hnd as Hnd'.
    apply NoDup_app in Hnd' as (_ & HPd & Hnd').
    apply NoDup_app in Hnd' as (_ & Hcd & _).
    assert (∀ x, x ∈ P → x ∉ cands) as HP.
    { intros x Hx Hc. apply (HPd _ Hx). apply elem_of_app. auto. }
    assert (∀ x, x ∈ D → x ∉ cands) as HD.
    { intros x Hx Hc. apply (Hcd _ Hc Hx). }
    pose proof (len_nonneg (TextNode.value n)) as Hvn.
    rewrite El in El'. split; intros Hk.
    + (* the node lies in front of the candidates *)
      apply app_eq_inv in El' as [(k0 & F1 & F2)|(k0 & F1 & F2)].
      * destruct k0 as [|h' k0].
        { exfalso. rewrite app_nil_r in F1. subst la. lia. }
        simpl in F2. injection F2 as <- F2.
        right. exists h, n, la, lb, a.
        split; [rewrite Hix, El, F1, F2, <- app_assoc; reflexivity|].
        assert (h ∈ P) as HhP.
        { rewrite F1. apply elem_of_app. right. apply elem_of_cons. auto. }
        split; [rewrite Hlk, decide_False by (apply HP, HhP); exact Hn|].
        split; [exact Hlive|]. split; [exact Ha|]. split; [exact Hr|].
        rewrite Hkeep; [reflexivity|].
        intros x Hx. apply HP. rewrite F1. apply elem_of_app. auto.
      * exfalso. rewrite F1, live_text_app, len_append in Hk.
        pose proof (len_nonneg (live_text (heap s2) k0)). lia.
    + (* the node lies behind the candidates *)
      rewrite app_assoc in El'.
      assert (∃ k0, la = (P ++ cands) ++ k0 ∧ D = k0 ++ h :: lb)
        as (k0 & F1 & F2).
      { apply app_eq_inv in El' as [(k0 & F1 & F2)|(k0 & F1 & F2)].
        - destruct k0 as [|h' k0].
          + exists []. rewrite app_nil_r in F1. rewrite app_nil_r.
            simpl in F2. auto.
          + exfalso. simpl in F2. injection F2 as <- F2.
            rewrite F1 in Hk.
            replace (la ++ h :: k0) with (la ++ [h] ++ k0) in Hk
              by reflexivity.
            rewrite !live_text_app, !len_append in Hk.
            rewrite (live_text_live _ _ _ Hn Hlive) in Hk.
            pose proof (len_nonneg (live_text (heap s2) k0)).
            unfold TextNode.contentLen in Hr. lia.
        - eauto. }
      assert (h ∈ D) as HhD.
      { rewrite F2. apply elem_of_app. right. apply elem_of_cons. auto. }
      right. exists h, n, la, lb, a.
      split.
      { rewrite Hix, El, F1, F2, app_assoc, <- (app_assoc (P ++ cands)).
        reflexivity. }
      split; [rewrite Hlk, decide_False by (apply HD, HhD); exact Hn|].
      split; [exact Hlive|]. split; [exact Ha|]. split; [exact Hr|].
      rewrite F1. rewrite !live_text_app, Hdead, !len_append.
      rewrite (Hkeep P HP).
      rewrite (Hkeep k0).
      * change (len EmptyString) with 0. lia.
      * intros x Hx. apply HD. rewrite F2. apply elem_of_app. auto.
Qed.

(** The last step of [edit], as a state. *)
Lemma edit_finish_explicit (s3 : RGATreeSplit.t) (fl : handle)
    (p : TextNode.t) (content : string) (editedAt : Ticket.t)
    (cn : TextNode.t) (dm : gmap string Ticket.t) :
  wf s3 → heap s3 !! fl = Some p →
  ∃ caret,
    (if negb (String.eqb content EmptyString) then
       s4 ← InsertAfter
              (with_heap s3
                 (heap s3 ++
                  [TextNode.newTextNode (TextNodeID.NewTextNodeID editedAt 0)
                     content]))
              fl (length (heap s3));
       n ← getNode (heap s4) (length (heap s3));
       Ok (s4, TextNodePos.NewTextNodePos (TextNode.id n)
                 (TextNode.contentLen n), dm)
     else Ok (s3, TextNodePos.NewTextNodePos (TextNode.id cn) 0, dm))
    = Ok (finish_state s3 fl p editedAt content, caret, dm).
Proof.
  intros Hwf Hp. unfold finish_state.
  destruct (String.eqb content EmptyString) eqn:Eb; cbn [negb].
  - eexists. reflexivity.
  - rewrite (insert_returns _ _ _ editedAt content Hwf Hp).
    cbn [mbind result_mbind result_bind]. cbn [heap].
    rewrite (getNode_lookup _ _ _
               (insert_lookup_new _ _ _ editedAt content Hwf Hp)).
    eexists. reflexivity.
Qed.

Lemma finish_facts (s3 : RGATreeSplit.t) (fl : handle) (p : TextNode.t)
    (editedAt : Ticket.t) (content : string) (A R : list handle) :
  wf s3 → heap s3 !! fl = Some p → treeByIndex s3 = A ++ fl :: R →
  len content ≤ int_max →
  wf (finish_state s3 fl p editedAt content) ∧
  live_text (heap (finish_state s3 fl p editedAt content))
    (treeByIndex (finish_state s3 fl p editedAt content))
  = live_text (heap s3) (A ++ [fl]) +:+ content +:+ live_text (heap s3) R ∧
  (∀ pos k, denotes s3 pos k →
     denotes (finish_state s3 fl p editedAt content) pos
       (if decide (k ≤ len (live_text (heap s3) (A ++ [fl])))
        then k else k + len content)) ∧
  (∀ φ, all_created φ (heap s3) →
     ∀ A0 y B0 yn,
       treeByIndex (finish_state s3 fl p editedAt content) = A0 ++ y :: B0 →
       heap (finish_state s3 fl p editedAt content) !! y = Some yn →
       φ (TextNode.createdAt yn) = true ∨
       (len (live_text (heap (finish_state s3 fl p editedAt content)) A0)
          = len (live_text (heap s3) (A ++ [fl])) ∧
        len (live_text (heap (finish_state s3 fl p editedAt content))
               (A0 ++ [y]))
          = len (live_text (heap s3) (A ++ [fl])) + len content)).
Proof.
  intros Hwf Hp El Hlen. unfold finish_state.
  destruct (String.eqb content EmptyString) eqn:Eb.
  - apply String.eqb_eq in Eb. subst content.
    split; [exact Hwf|]. split.
    { rewrite append_nil, El.
      replace (A ++ fl :: R) with ((A ++ [fl]) ++ R)
        by (rewrite <- app_assoc; reflexivity).
      apply live_text_app. }
    split.
    { intros pos k Hd. case_decide; [exact Hd|].
      replace (k + len EmptyString) with k by (unfold len; simpl; lia).
      exact Hd. }
    intros φ Hall A0 y B0 yn _ Hy. left. exact (Hall _ _ Hy).
  - assert (wf (insert_state s3 fl p editedAt content)) as Hwf'
      by (apply insert_wf; assumption).
    destruct (insert_text s3 fl p editedAt content A R Hwf Hp El)
      as (Ela & Hnew & Htext).
    split; [exact Hwf'|]. split; [exact Htext|].
    split.
    { intros pos k Hd.
      apply (denotes_insert s3 fl p editedAt content A R); assumption. }
    intros φ Hall A0 y B0 yn El0 Hy.
    unfold insert_state in Hy. cbn [heap] in Hy.
    apply (insert_lookup_inv _ _ _ editedAt content Hwf Hp) in Hy
      as [[-> _]|(_ & y0 & Hy0 & Hpl & _)].
    + right.
      pose proof (chain_nodup _ _ (wf_chain _ Hwf')) as Hnd.
      rewrite Ela in El0. rewrite Ela in Hnd.
      assert (A ++ fl :: length (heap s3) :: R
              = (A ++ [fl]) ++ length (heap s3) :: R) as Eq1
        by (rewrite <- app_assoc; reflexivity).
      rewrite Eq1 in El0, Hnd.
      destruct (NoDup_split_unique _ _ _ _ _ Hnd El0) as [<- _].
      assert (live_text (heap (insert_state s3 fl p editedAt content))
                (A ++ [fl]) = live_text (heap s3) (A ++ [fl])) as EA.
      { apply insert_old_text; try assumption.
        intros x Hx. rewrite El.
        replace (A ++ fl :: R) with ((A ++ [fl]) ++ R)
          by (rewrite <- app_assoc; reflexivity).
        apply elem_of_app. auto. }
      split; [rewrite EA; reflexivity|].
      rewrite (live_text_app _ (A ++ [fl])), len_append, EA, Hnew.
      reflexivity.
    + left. unfold payload in Hpl. injection Hpl as E1 _ _.
      unfold TextNode.createdAt. rewrite E1. exact (Hall _ _ Hy0).
Qed.

(** An edit whose range is clear of the nodes it does not know replaces the
    range, as a local edit does; positions in front of the range stay where
    they were, positions behind it move with the text; and a node of the
    new state was created at the ticket of a node already there, or is the
    new node, which begins at index [i]. *)
Lemma edit_gen (s : RGATreeSplit.t) (from to : TextNodePos.t) (i j : Z)
    (m : option (gmap string Ticket.t)) (content : string)
    (editedAt : Ticket.t) :
  wf s → ids_unique s → history_ok s → apart s m editedAt i j →
  len content ≤ int_max →
  denotes s from i → denotes s to j →
  i < j ∨ (i = j ∧ to = from) →
  ∃ s' caret dm X Y Z,
    edit s from to m content editedAt = Ok (s', caret, dm) ∧
    wf s' ∧
    live_text (heap s) (treeByIndex s) = X +:+ Y +:+ Z ∧
    len X = i ∧ len Y = j - i ∧
    live_text (heap s') (treeByIndex s') = X +:+ content +:+ Z ∧
    (∀ pos k, denotes s pos k →
       (k ≤ i → denotes s' pos k) ∧
       (j < k → denotes s' pos (k - (j - i) + len content))) ∧
    (∀ φ, all_created φ (heap s) →
       ∀ A y B yn, treeByIndex s' = A ++ y :: B → heap s' !! y = Some yn →
         φ (TextNode.createdAt yn) = true ∨
         (len (live_text (heap s') A) = i ∧
          len (live_text (heap s') (A ++ [y])) = i + len content)).
Proof.
  intros Hwf Hu Hh Hcl Hlen Hfrom Hto Hij.
  assert (i ≤ j) as Hle by (destruct Hij as [?|[? _]]; lia).
  destruct (resolve_apart _ _ i _ _ _ _ Hwf Hu Hh Hcl ltac:(lia) Hfrom)
    as (s1 & fl & A & B & Hres1 & El1 & Hlen1 & Hstep1 & Hcl1).
  destruct (live_step_keeps (λ _, true) _ _ _ Hstep1 Hwf Hu Hh
              (λ _ _ _, eq_refl))
    as (Hwf1 & Hu1 & Hh1 & _ & Htext1 & Hden1).
  pose proof (wf_chain _ Hwf1) as Hc1.
  pose proof (chain_nodup _ _ Hc1) as Hnd1. rewrite El1 in Hnd1.
  assert (fl ∉ A) as HflA.
  { intros Hx. apply NoDup_app in Hnd1 as (_ & Hd & _).
    apply (Hd _ Hx). apply elem_of_cons. auto. }
  destruct Hij as [Hlt|[-> ->]].
  - (* a proper range *)
    destruct (resolve_apart _ _ j _ _ _ _ Hwf1 Hu1 Hh1 Hcl1 ltac:(lia)
                (Hden1 _ _ Hto))
      as (s2 & tl & C & D & Hres2 & El2 & Hlen2 & Hstep2 & Hcl2).
    destruct (live_step_keeps (λ _, true) _ _ _ Hstep2 Hwf1 Hu1 Hh1
                (λ _ _ _, eq_refl))
      as (Hwf2 & _ & _ & _ & Htext2 & Hden2).
    pose proof (wf_chain _ Hwf2) as Hc2.
    pose proof (chain_nodup _ _ Hc2) as Hnd2.
    assert (tl ≠ fl) as Hne.
    { intros ->. destruct Hstep2 as [->|(n & k & Hn & Hl & Hk & ->)].
      - rewrite El1 in El2.
        destruct (NoDup_split_unique _ _ _ _ _ Hnd1 El2) as [<- <-]. lia.
      - simpl in El2, Hnd2.
        rewrite El1, splay_InsertAfter_middle in El2, Hnd2 by exact HflA.
        destruct (NoDup_split_unique _ _ _ _ _ Hnd2 El2) as [<- <-].
        rewrite live_text_app, len_append in Hlen1, Hlen2.
        rewrite (split_live_other s1 fl n k Hwf1 Hn) in Hlen2;
          [|exact HflA|].
        + assert (live_text (heap (split_state s1 fl n k)) [fl]
                  = TextNode.value (split_left n k (length (heap s1)))) as E.
          { apply live_text_live; [|exact Hl].
            apply (split_lookup_node _ _ _ _ Hwf1 Hn). }
          rewrite E in Hlen2.
          rewrite (live_text_live _ _ _ Hn Hl) in Hlen1.
          destruct (split_right_facts _ _ _ _ Hwf1 Hn Hk) as (_ & _ & Hll & _).
          unfold TextNode.contentLen in *. lia.
        + intros Hx.
          assert (length (heap s1) ∈ treeByIndex s1) as Hx'
            by (rewrite El1; apply elem_of_app; auto).
          apply (chain_elem _ _ _ Hc1) in Hx'. lia. }
    destruct (live_step_keeps_boundary _ _ _ _ _ _ Hwf1 Hstep2 Hne El1)
      as (A' & B' & El2' & HtextA & HhdB).
    assert (A' ++ fl :: B' = C ++ tl :: D) as E
      by (rewrite <- El2', El2; reflexivity).
    rewrite El2' in Hnd2.
    destruct (two_boundaries (heap s2) _ _ _ _ _ _ Hnd2 E) as (M & -> & ->).
    { rewrite HtextA. lia. }
    clear E El2.
    assert (len (live_text (heap s2) (A' ++ [fl])) = i) as HlenA
      by (rewrite HtextA; exact Hlen1).
    (* the candidates *)
    assert (∀ h, hd_or B None = Some h → (h < length (heap s2))%nat) as Hval.
    { intros h Hhd. rewrite <- HhdB in Hhd.
      apply (chain_elem _ _ _ Hc2). rewrite El2'.
      apply hd_or_Some in Hhd as (t & Et). rewrite Et.
      apply elem_of_app. right. rewrite !elem_of_cons. auto. }
    destruct (findBetween_spec s2 (hd_or B None) (hd_or D None) Hwf2 Hval)
      as (cands & l1 & rest & Hfb & Hspan & Hhd & Hcn & Hend).
    assert (cands ++ rest = M ++ tl :: D) as Ecr.
    { rewrite <- HhdB in Hhd.
      destruct (M ++ tl :: D) as [|z t] eqn:EM; [destruct M; discriminate|].
      simpl in Hhd. apply hd_or_Some in Hhd as (t' & Et').
      rewrite Et' in Hspan. rewrite El2' in Hspan.
      replace (A' ++ fl :: z :: t) with ((A' ++ [fl]) ++ z :: t) in Hspan, Hnd2
        by (rewrite <- app_assoc; reflexivity).
      destruct (NoDup_split_unique _ _ _ _ _ Hnd2 Hspan) as [_ ->].
      exact Et'. }
    replace (A' ++ fl :: M ++ tl :: D) with ((A' ++ [fl]) ++ M ++ tl :: D)
      in Hnd2 by (rewrite <- app_assoc; reflexivity).
    destruct (span_unique _ _ _ _ _ _ Hnd2 Ecr Hcn Hend) as [-> ->].
    destruct (findBetween_candidates _ _ _ _ Hwf2 Hspan) as [Hndc Hvalc].
    (* the candidates are nodes the edit knows *)
    assert (∀ h n, h ∈ M ++ [tl] → heap s2 !! h = Some n →
              Ticket.After (TextNode.createdAt n)
                (maxCreatedAtFor m
                   (Ticket.ActorIDHex (TextNode.createdAt n))) = false)
      as Hcands.
    { intros h n Hin Hn.
      destruct (late_ticket m editedAt (TextNode.createdAt n)) eqn:Hl.
      - exfalso. apply list_elem_of_split in Hin as (M1 & M2 & EM).
        assert (treeByIndex s2 = ((A' ++ [fl]) ++ M1) ++ h :: M2 ++ D) as E2.
        { rewrite El2'.
          replace (A' ++ fl :: M ++ tl :: D)
            with ((A' ++ [fl]) ++ (M ++ [tl]) ++ D)
            by (rewrite <- !app_assoc; reflexivity).
          rewrite EM, <- !app_assoc. reflexivity. }
        replace ((A' ++ fl :: M) ++ [tl])
          with ((A' ++ [fl]) ++ M ++ [tl]) in Hlen2
          by (rewrite <- !app_assoc; reflexivity).
        rewrite EM in Hlen2.
        rewrite !live_text_app, !len_append in Hlen2.
        change (h :: M2) with ([h] ++ M2) in Hlen2.
        rewrite live_text_app, len_append in Hlen2.
        pose proof (len_nonneg (live_text (heap s2) M1)).
        pose proof (len_nonneg (live_text (heap s2) M2)).
        pose proof (len_nonneg (live_text (heap s2) [h])).
        pose proof HlenA as HlenA'.
        rewrite live_text_app, len_append in HlenA'.
        destruct (Hcl2 _ _ _ _ E2 Hn Hl) as [H'|H'];
          rewrite !live_text_app, !len_append in H'; lia.
      - unfold late_ticket in Hl. apply orb_false_iff in Hl as [_ Hl].
        exact Hl. }
    (* the deletion *)
    destruct (deleteNodes_loop_spec m editedAt (M ++ [tl]) s2 ∅ Hndc Hvalc)
      as (s3 & Hrun & Hhd3 & Hix3 & Hid3 & Hl3 & Hlk3).
    assert (deleteNodes s2 (M ++ [tl]) m editedAt
            = Ok (s3, foldl record_max ∅
                        (tombstoned_tickets (heap s2) m editedAt (M ++ [tl]))))
      as Hdel by exact Hrun.
    pose proof (wf_deleteNodes _ _ _ _ _ _ Hwf2 Hndc Hvalc Hdel) as Hwf3.
    destruct (deleted_span_gen _ _ _ _ _ Hcands Hlk3) as [Hdead Hkeep].
    assert (treeByIndex s3 = A' ++ fl :: M ++ tl :: D) as El3
      by (rewrite Hix3; exact El2').
    assert (∃ cn, heap s3 !! default tl (hd_or D None) = Some cn) as [cn Hcnode].
    { apply (chain_valid _ _ _ (wf_chain _ Hwf3)). rewrite El3.
      apply elem_of_app. right. apply elem_of_cons. right.
      apply elem_of_app. right.
      destruct D as [|d D]; simpl; rewrite !elem_of_cons; auto. }
    assert (∃ p, heap s3 !! fl = Some p) as [p Hp].
    { apply (chain_valid _ _ _ (wf_chain _ Hwf3)). rewrite El3.
      apply elem_of_app. right. apply elem_of_cons. auto. }
    rewrite (edit_unfold _ _ _ _ _ _ _ content _ _ _ _ _ _ _ _
               Hres1 Hres2 Hfb Hdel Hcnode).
    destruct (edit_finish_explicit s3 fl p content editedAt cn
                (foldl record_max ∅
                   (tombstoned_tickets (heap s2) m editedAt (M ++ [tl])))
                Hwf3 Hp) as [caret He].
    destruct (finish_facts s3 fl p editedAt content A' (M ++ tl :: D)
                Hwf3 Hp El3 Hlen) as (Hwf' & Htext & Hfd & Hfn).
    apply NoDup_app in Hnd2 as (_ & Hdis & Hnd2').
    replace (M ++ tl :: D) with ((M ++ [tl]) ++ D) in Hnd2', Hdis, Htext
      by (rewrite <- app_assoc; reflexivity).
    pose proof Hnd2' as Hnd2''.
    apply NoDup_app in Hnd2' as (_ & Hdis' & _).
    assert (live_text (heap s3) (A' ++ [fl])
            = live_text (heap s2) (A' ++ [fl])) as EA3.
    { apply Hkeep. intros h Hin Hc. apply (Hdis _ Hin).
      apply elem_of_app. auto. }
    assert (len (live_text (heap s2) (M ++ [tl])) = j - i) as HlenY.
    { replace ((A' ++ fl :: M) ++ [tl]) with ((A' ++ [fl]) ++ M ++ [tl])
        in Hlen2 by (rewrite <- !app_assoc; reflexivity).
      rewrite (live_text_app _ (A' ++ [fl])), len_append in Hlen2. lia. }
    exists (finish_state s3 fl p editedAt content), caret,
      (foldl record_max ∅
         (tombstoned_tickets (heap s2) m editedAt (M ++ [tl]))),
      (live_text (heap s2) (A' ++ [fl])),
      (live_text (heap s2) (M ++ [tl])), (live_text (heap s2) D).
    split; [exact He|]. split; [exact Hwf'|].
    split; [|split; [exact HlenA|split; [exact HlenY|split; [|split]]]].
    + rewrite <- Htext1, <- Htext2, El2'.
      replace (A' ++ fl :: M ++ tl :: D)
        with ((A' ++ [fl]) ++ (M ++ [tl]) ++ D)
        by (rewrite <- !app_assoc; reflexivity).
      rewrite !live_text_app. reflexivity.
    + rewrite Htext. rewrite (live_text_app _ (M ++ [tl]) D).
      rewrite Hdead, append_nil, EA3.
      rewrite (Hkeep D); [reflexivity|].
      intros h Hin Hc. apply (Hdis' _ Hc Hin).
    + (* positions *)
      intros pos k Hd.
      assert (treeByIndex s2 = (A' ++ [fl]) ++ (M ++ [tl]) ++ D) as El2''.
      { rewrite El2', <- !app_assoc. reflexivity. }
      assert (NoDup ((A' ++ [fl]) ++ (M ++ [tl]) ++ D)) as Hnd2f.
      { rewrite <- El2''. exact (chain_nodup _ _ Hc2). }
      destruct (denotes_delete s2 s3 m editedAt (A' ++ [fl]) (M ++ [tl]) D
                  pos k Hix3 El2'' Hnd2f Hlk3 Hdead
                  (Hden2 _ _ (Hden1 _ _ Hd))) as [Hd1 Hd2].
      split; intros Hk.
      * pose proof (Hfd _ _ (Hd1 ltac:(lia))) as Hx.
        rewrite EA3, HlenA, decide_True in Hx by lia. exact Hx.
      * rewrite (live_text_app _ (A' ++ [fl])), len_append in Hd2.
        pose proof (Hfd _ _ (Hd2 ltac:(lia))) as Hx.
        rewrite EA3, HlenA, HlenY, decide_False in Hx by lia. exact Hx.
    + (* nodes *)
      intros φ Hall A0 y B0 yn El0 Hy.
      destruct (live_step_keeps φ _ _ _ Hstep1 Hwf Hu Hh Hall)
        as (_ & _ & _ & Hall1 & _).
      destruct (live_step_keeps φ _ _ _ Hstep2 Hwf1 Hu1 Hh1 Hall1)
        as (_ & _ & _ & Hall2 & _).
      pose proof (all_created_delete φ _ _ _ _ _ Hlk3 Hall2) as Hall3.
      destruct (Hfn φ Hall3 A0 y B0 yn El0 Hy) as [H'|[H1 H2]];
        [left; exact H'|right].
      rewrite EA3, HlenA in H1, H2. auto.
  - (* an empty range *)
    pose proof (findTextNodeWithSplit_again _ _ _ _ _ _ Hwf Hres1) as Hres2.
    pose proof (findBetween_same s1 (hd_or B None)) as Hfb.
    assert (deleteNodes s1 [] m editedAt = Ok (s1, ∅)) as Hdel by reflexivity.
    assert (∃ cn, heap s1 !! default fl (hd_or B None) = Some cn) as [cn Hcnode].
    { apply (chain_valid _ _ _ Hc1). rewrite El1.
      apply elem_of_app. right.
      destruct B as [|b B]; simpl; rewrite !elem_of_cons; auto. }
    assert (∃ p, heap s1 !! fl = Some p) as [p Hp].
    { apply (chain_valid _ _ _ Hc1). rewrite El1.
      apply elem_of_app. right. apply elem_of_cons. auto. }
    rewrite (edit_unfold _ _ _ _ _ _ _ content _ _ _ _ _ _ _ _
               Hres1 Hres2 Hfb Hdel Hcnode).
    destruct (edit_finish_explicit s1 fl p content editedAt cn ∅ Hwf1 Hp)
      as [caret He].
    destruct (finish_facts s1 fl p editedAt content A B Hwf1 Hp El1 Hlen)
      as (Hwf' & Htext & Hfd & Hfn).
    exists (finish_state s1 fl p editedAt content), caret, ∅,
      (live_text (heap s1) (A ++ [fl])), EmptyString,
      (live_text (heap s1) B).
    split; [exact He|]. split; [exact Hwf'|].
    split; [|split; [exact Hlen1|split; [unfold len; simpl; lia|split;
      [exact Htext|split]]]].
    + rewrite <- Htext1, El1, append_nil.
      replace (A ++ fl :: B) with ((A ++ [fl]) ++ B)
        by (rewrite <- app_assoc; reflexivity).
      apply live_text_app.
    + intros pos k Hd. pose proof (Hfd _ _ (Hden1 _ _ Hd)) as Hx.
      rewrite Hlen1 in Hx. split; intros Hk.
      * rewrite decide_True in Hx by lia. exact Hx.
      * rewrite decide_False in Hx by lia.
        replace (k - (j - j) + len content) with (k + len content) by lia.
        exact Hx.
    + intros φ Hall A0 y B0 yn El0 Hy.
      destruct (live_step_keeps φ _ _ _ Hstep1 Hwf Hu Hh Hall)
        as (_ & _ & _ & Hall1 & _).
      destruct (Hfn φ Hall1 A0 y B0 yn El0 Hy) as [H'|[H1 H2]];
        [left; exact H'|right].
      rewrite Hlen1 in H1, H2. auto.
Qed.

(** Two edits made on one state, on ranges that do not touch, applied one
    after the other: the second acts on the text the first left, at its own
    indices, moved by [d] when its range lies behind the first. *)
Lemma two_edits (s : RGATreeSplit.t) (from to from' to' : TextNodePos.t)
    (i j i' j' d : Z) (m m' : option (gmap string Ticket.t))
    (c c' : string) (e e' : Ticket.t) :
  reachable_fresh s → fresh_ticket (heap s) e = true →
  all_created (λ t, negb (late_ticket m e t)) (heap s) →
  all_created (λ t, negb (late_ticket m' e' t)) (heap s) →
  len c ≤ int_max → len c' ≤ int_max →
  denotes s from i → denotes s to j → i < j ∨ (i = j ∧ to = from) →
  denotes s from' i' → denotes s to' j' →
  i' < j' ∨ (i' = j' ∧ to' = from') →
  (j' < i ∧ d = 0) ∨ (j < i' ∧ d = len c - (j - i)) →
  ∃ sa ca da sab cab dab X Y Z X' Y' Z',
    edit s from to m c e = Ok (sa, ca, da) ∧
    edit sa from' to' m' c' e' = Ok (sab, cab, dab) ∧
    wf sab ∧
    live_text (heap s) (treeByIndex s) = X +:+ Y +:+ Z ∧
    len X = i ∧ len Y = j - i ∧
    X +:+ c +:+ Z = X' +:+ Y' +:+ Z' ∧
    len X' = i' + d ∧ len Y' = j' - i' ∧
    live_text (heap sab) (treeByIndex sab) = X' +:+ c' +:+ Z'.
Proof.
  intros Hr Hf Hall Hall' Hlen Hlen' Hfrom Hto Hij Hfrom' Hto' Hij' Hsep.
  pose proof (reachable_fresh_reachable _ Hr) as Hre.
  pose proof (reachable_wf _ Hre) as Hwf.
  pose proof (reachable_fresh_ids _ Hr) as Hu.
  pose proof (reachable_history _ Hre) as Hh.
  destruct (edit_gen s from to i j m c e Hwf Hu Hh
              (apart_none _ _ _ _ _ Hall) Hlen Hfrom Hto Hij)
    as (sa & ca & da & X & Y & Z & He & Hwfa & Htext & HX & HY & Htexta
        & Hdena & Hna).
  pose proof (fresh_edit _ _ _ _ _ _ _ _ _ Hr Hlen Hf He) as Hra.
  pose proof (reachable_fresh_reachable _ Hra) as Hrea.
  pose proof (reachable_fresh_ids _ Hra) as Hua.
  pose proof (reachable_history _ Hrea) as Hha.
  assert (i ≤ j ∧ i' ≤ j') as [Hle Hle'].
  { destruct Hij as [?|[? _]], Hij' as [?|[? _]]; lia. }
  assert (apart sa m' e' (i' + d) (j' + d)) as Hcla.
  { intros A y B yn El Hy Hlate.
    destruct (Hna _ Hall' A y B yn El Hy) as [H|[H1 H2]].
    - rewrite Hlate in H. discriminate.
    - rewrite H1, H2. destruct Hsep as [[? ->]|[? ->]]; lia. }
  assert (denotes sa from' (i' + d) ∧ denotes sa to' (j' + d))
    as [Hfroma Htoa].
  { destruct (Hdena _ _ Hfrom') as [F1 F2].
    destruct (Hdena _ _ Hto') as [T1 T2].
    destruct Hsep as [[? ->]|[? ->]].
    - rewrite !Z.add_0_r. split; [apply F1|apply T1]; lia.
    - replace (i' + (len c - (j - i))) with (i' - (j - i) + len c) by lia.
      replace (j' + (len c - (j - i))) with (j' - (j - i) + len c) by lia.
      split; [apply F2|apply T2]; lia. }
  assert (i' + d < j' + d ∨ (i' + d = j' + d ∧ to' = from')) as Hija.
  { destruct Hij' as [?|[? ?]]; [left|right; split]; auto; lia. }
  destruct (edit_gen sa from' to' (i' + d) (j' + d) m' c' e' Hwfa Hua Hha
              Hcla Hlen' Hfroma Htoa Hija)
    as (sab & cab & dab & X' & Y' & Z' & He' & Hwfab & Htext' & HX' & HY'
        & Htextab & _ & _).
  exists sa, ca, da, sab, cab, dab, X, Y, Z, X', Y', Z'.
  split; [exact He|]. split; [exact He'|]. split; [exact Hwfab|].
  split; [exact Htext|]. split; [exact HX|]. split; [exact HY|].
  split; [rewrite <- Htexta; exact Htext'|].
  split; [exact HX'|]. split; [lia|exact Htextab].
Qed.

(** X24: two concurrent edits on ranges that do not touch commute.  Both
    made on a state none of whose nodes their tickets and maps exclude, the
    one replacing the range from index [i1] to [j1], the other the range
    from [i2] to [j2] with [j1 < i2], they can be applied in either order:
    all four edits return, and [marshal] is the same afterwards, the old
    text with each range replaced by the content of its edit. *)
Theorem X24_separate_edits_commute (s : RGATreeSplit.t) (i1 j1 i2 j2 : Z)
    (m1 m2 : option (gmap string Ticket.t)) (c1 c2 : string)
    (e1 e2 : Ticket.t) (str : string) :
  reachable_fresh s →
  len c1 ≤ int_max → len c2 ≤ int_max →
  newest (heap s) e1 = true → newest (heap s) e2 = true →
  covered (heap s) m1 = true → covered (heap s) m2 = true →
  fresh_ticket (heap s) e1 = true → fresh_ticket (heap s) e2 = true →
  0 ≤ i1 ≤ j1 → j1 < i2 → i2 ≤ j2 ≤ visible_total s →
  marshal s = Ok str →
  ∃ from1 to1 from2 to2 sa ca da sab cab dab sb cb db sba cba dba
    P Y1 Q Y2 R,
    findBoundary s i1 j1 = Ok (from1, to1) ∧
    findBoundary s i2 j2 = Ok (from2, to2) ∧
    edit s from1 to1 m1 c1 e1 = Ok (sa, ca, da) ∧
    edit sa from2 to2 m2 c2 e2 = Ok (sab, cab, dab) ∧
    edit s from2 to2 m2 c2 e2 = Ok (sb, cb, db) ∧
    edit sb from1 to1 m1 c1 e1 = Ok (sba, cba, dba) ∧
    str = P +:+ Y1 +:+ Q +:+ Y2 +:+ R ∧
    len P = i1 ∧ len Y1 = j1 - i1 ∧ len Q = i2 - j1 ∧ len Y2 = j2 - i2 ∧
    marshal sab = Ok (P +:+ c1 +:+ Q +:+ c2 +:+ R) ∧
    marshal sba = marshal sab.
Proof.
  intros Hr Hlen1 Hlen2 Hnew1 Hnew2 Hcov1 Hcov2 Hf1 Hf2 Hi1 Hsep Hi2 Hm.
  pose proof (reachable_fresh_reachable _ Hr) as Hre.
  pose proof (reachable_wf _ Hre) as Hwf.
  pose proof (reachable_history _ Hre) as Hh.
  apply (all_created_spec (λ c, negb (Ticket.After c e1))) in Hnew1.
  apply (all_created_spec (λ c, negb (Ticket.After c e2))) in Hnew2.
  apply (all_created_spec
           (λ c, negb (Ticket.After c
                         (maxCreatedAtFor m1 (Ticket.ActorIDHex c))))) in Hcov1.
  apply (all_created_spec
           (λ c, negb (Ticket.After c
                         (maxCreatedAtFor m2 (Ticket.ActorIDHex c))))) in Hcov2.
  pose proof (known_all _ _ _ Hnew1 Hcov1) as Hall1.
  pose proof (known_all _ _ _ Hnew2 Hcov2) as Hall2.
  destruct (findBoundary_denotes s i1 j1 Hwf Hh Hi1 ltac:(lia))
    as (from1 & to1 & Hfb1 & Hdf1 & Hdt1 & Hcase1).
  destruct (findBoundary_denotes s i2 j2 Hwf Hh ltac:(lia) ltac:(lia))
    as (from2 & to2 & Hfb2 & Hdf2 & Hdt2 & Hcase2).
  destruct (two_edits s from1 to1 from2 to2 i1 j1 i2 j2
              (len c1 - (j1 - i1)) m1 m2 c1 c2 e1 e2 Hr Hf1 Hall1 Hall2
              Hlen1 Hlen2 Hdf1 Hdt1 Hcase1 Hdf2 Hdt2 Hcase2
              (or_intror (conj Hsep eq_refl)))
    as (sa & ca & da & sab & cab & dab & Xa & Ya & Za & Xb & Yb & Zb & Ea
        & Eab & Hwfab & HT & HXa & HYa & Hcut & HXb & HYb & Hfa).
  destruct (two_edits s from2 to2 from1 to1 i2 j2 i1 j1 0 m2 m1 c2 c1 e2 e1
              Hr Hf2 Hall2 Hall1 Hlen2 Hlen1 Hdf2 Hdt2 Hcase2 Hdf1 Hdt1
              Hcase1 (or_introl (conj Hsep eq_refl)))
    as (sb & cb & db & sba & cba & dba & Xc & Yc & Zc & Xd & Yd & Zd & Eb
        & Eba & Hwfba & HT' & HXc & HYc & Hcut' & HXd & HYd & Hfb).
  rewrite (marshal_chain s _ (wf_chain _ Hwf) (wf_head _ Hwf)) in Hm.
  injection Hm as <-.
  change (concat_strings (live_values (heap s) (treeByIndex s)))
    with (live_text (heap s) (treeByIndex s)).
  (* the first order *)
  rewrite <- app_assoc_s in Hcut.
  destruct (prefix_split _ _ _ _ Hcut) as (Q & EXb & EZa).
  { rewrite len_append. lia. }
  assert (len Q = i2 - j1) as HQ.
  { rewrite EXb, !len_append in HXb. lia. }
  subst Xb Za.
  (* the second order *)
  assert (Xc = Xa +:+ Ya +:+ Q ∧ Yc +:+ Zc = Yb +:+ Zb) as [-> Erest].
  { apply split_unique.
    - rewrite <- HT', HT, !app_assoc_s. reflexivity.
    - rewrite !len_append. lia. }
  assert (Yc = Yb ∧ Zc = Zb) as [-> ->]
    by (apply split_unique; [exact Erest|lia]).
  assert (Xd = Xa ∧ Yd +:+ Zd = Ya +:+ Q +:+ c2 +:+ Zb) as [-> Erest'].
  { apply split_unique; [|lia].
    rewrite <- Hcut', !app_assoc_s. reflexivity. }
  assert (Yd = Ya ∧ Zd = Q +:+ c2 +:+ Zb) as [-> ->]
    by (apply split_unique; [exact Erest'|lia]).
  exists from1, to1, from2, to2, sa, ca, da, sab, cab, dab, sb, cb, db,
    sba, cba, dba, Xa, Ya, Q, Yb, Zb.
  split; [exact Hfb1|]. split; [exact Hfb2|].
  split; [exact Ea|]. split; [exact Eab|].
  split; [exact Eb|]. split; [exact Eba|].
  split; [exact HT|].
  split; [exact HXa|]. split; [exact HYa|]. split; [exact HQ|].
  split; [lia|].
  rewrite (marshal_chain sab _ (wf_chain _ Hwfab) (wf_head _ Hwfab)).
  rewrite (marshal_chain sba _ (wf_chain _ Hwfba) (wf_head _ Hwfba)).
  change (concat_strings (live_values (heap sab) (treeByIndex sab)))
    with (live_text (heap sab) (treeByIndex sab)).
  change (concat_strings (live_values (heap sba) (treeByIndex sba)))
    with (live_text (heap sba) (treeByIndex sba)).
  rewrite Hfa, Hfb, !app_assoc_s. split; reflexivity.
Qed.

Lemma X24_separate_edits_commute_witness :
  ∃ from1 to1 from2 to2 sa ca da sab cab dab sb cb db sba cba dba
    P Y1 Q Y2 R,
    findBoundary Scenario.st_AxBC 0 1 = Ok (from1, to1) ∧
    findBoundary Scenario.st_AxBC 2 4 = Ok (from2, to2) ∧
    edit Scenario.st_AxBC from1 to1 None "pq"
      (Scenario.tk 5 Scenario.actorA) = Ok (sa, ca, da) ∧
    edit sa from2 to2
      (Some (<[ Ticket.ActorIDHex (Scenario.tk 2 Scenario.actorC)
                  := Scenario.tk 2 Scenario.actorC ]>
               {[ Ticket.ActorIDHex (Scenario.tk 1 Scenario.actorA)
                    := Scenario.tk 1 Scenario.actorA ]}))
      EmptyString (Scenario.tk 5 Scenario.actorB) = Ok (sab, cab, dab) ∧
    edit Scenario.st_AxBC from2 to2
      (Some (<[ Ticket.ActorIDHex (Scenario.tk 2 Scenario.actorC)
                  := Scenario.tk 2 Scenario.actorC ]>
               {[ Ticket.ActorIDHex (Scenario.tk 1 Scenario.actorA)
                    := Scenario.tk 1 Scenario.actorA ]}))
      EmptyString (Scenario.tk 5 Scenario.actorB) = Ok (sb, cb, db) ∧
    edit sb from1 to1 None "pq" (Scenario.tk 5 Scenario.actorA)
      = Ok (sba, cba, dba) ∧
    "AxBC"%string = P +:+ Y1 +:+ Q +:+ Y2 +:+ R ∧
    len P = 0 ∧ len Y1 = 1 - 0 ∧ len Q = 2 - 1 ∧ len Y2 = 4 - 2 ∧
    marshal sab = Ok (P +:+ "pq" +:+ Q +:+ EmptyString +:+ R) ∧
    marshal sba = marshal sab.
Proof.
  apply (X24_separate_edits_commute Scenario.st_AxBC 0 1 2 4 None
           (Some (<[ Ticket.ActorIDHex (Scenario.tk 2 Scenario.actorC)
                       := Scenario.tk 2 Scenario.actorC ]>
                    {[ Ticket.ActorIDHex (Scenario.tk 1 Scenario.actorA)
                         := Scenario.tk 1 Scenario.actorA ]}))
           "pq" EmptyString (Scenario.tk 5 Scenario.actorA)
           (Scenario.tk 5 Scenario.actorB) "AxBC").
  - apply FreshFacts.fresh_st_AxBC.
  - vm_compute. discriminate.
  - vm_compute. discriminate.
  - vm_compute. reflexivity.
  - vm_compute. reflexivity.
  - vm_compute. reflexivity.
  - vm_compute. reflexivity.
  - vm_compute. reflexivity.
  - vm_compute. reflexivity.
  - lia.
  - lia.
  - vm_compute. split; discriminate.
  - vm_compute. reflexivity.
Defined.
